(** * Weighted-prediction-error dereverberation: a shallow embedding

    This development embeds [btk20_src/dereverberation/dereverberation.cc]
    (classes [SingleChannelWPEDereverberationFeature],
    [MultiChannelWPEDereverberation] and
    [MultiChannelWPEDereverberationFeature]) and proves properties of the
    batch estimation pass and of the causal streaming step.

    Conventions.
    - A C++ object is a record; a method is a function from the object (and
      its arguments) to the new object and, where the method can throw, a
      [result]. What a method changed before it threw stays changed.
    - [unsigned] values are natural numbers; where the source subtracts
      unsigned values or converts between [int] and [unsigned] the 32-bit
      wrap-around is written out ([uint32], [int32]).
    - [double] is a parameter ([DoubleOps]): the structural theorems hold for
      every interpretation of the arithmetic, IEEE binary64 included
      ([float_ops]); the few theorems that need arithmetic facts state them as
      a hypothesis: [ExactArith], which the real numbers satisfy ([R_exact]),
      or [FloorArith], which IEEE binary64 satisfies as well ([float_floor]).
    - Diagnostics ([printf], the accumulated criterion value) change neither
      the object nor the result and are left out. *)

From Stdlib Require Import ZArith List Bool Lia PrimFloat Reals Lra.
From Stdlib Require Floats Uint63.
From stdpp Require Import base option list.

(* ------------------------------------------------------------------ *)
(** ** Machine integers *)

(** The value of an [unsigned] expression whose mathematical value is [z]. *)
Definition uint32 (z : Z) : Z := (z mod 2 ^ 32)%Z.

(** The value of an [int] initialised from the integer [z] (two's complement). *)
Definition int32 (z : Z) : Z := ((z + 2 ^ 31) mod 2 ^ 32 - 2 ^ 31)%Z.

(** An [unsigned] expression used as a count or an index. *)
Definition u32 (z : Z) : nat := Z.to_nat (uint32 z).

(* ------------------------------------------------------------------ *)
(** ** Doubles and GSL complex numbers *)

(** The type [double] with the operations the source applies to it. *)
Class DoubleOps (D : Type) := {
  d0 : D;                  (* the literal 0.0 *)
  d1Em03 : D;              (* the literal 1.0E-03 *)
  dadd : D -> D -> D;
  dsub : D -> D -> D;
  dmul : D -> D -> D;
  ddiv : D -> D -> D;
  dneg : D -> D;
  dltb : D -> D -> bool;   (* x < y *)
  dleb : D -> D -> bool;   (* x <= y *)
  dhypot : D -> D -> D     (* hypot of the C library, used by gsl_complex_abs *)
}.

(** [gsl_complex]: a pair of doubles; [gsl_complex_rect x y] builds it. *)
Record gsl_complex (D : Type) := gsl_complex_rect { GSL_REAL : D; GSL_IMAG : D }.
Arguments gsl_complex_rect {D} _ _.
Arguments GSL_REAL {D} _.
Arguments GSL_IMAG {D} _.

Abbreviation gsl_vector_complex D := (list (gsl_complex D)).
Abbreviation gsl_matrix_complex D := (list (list (gsl_complex D))).
Abbreviation gsl_matrix D := (list (list D)).

(** The linear-algebra backend (GSL's Cholesky factorisation and solve), an
    external collaborator. The factorisation fails ([None]) on a matrix that
    is not positive definite. *)
Class LinAlgBackend (D : Type) := {
  gsl_linalg_complex_cholesky_decomp : gsl_matrix_complex D -> option (gsl_matrix_complex D);
  gsl_linalg_complex_cholesky_solve : gsl_matrix_complex D -> gsl_vector_complex D -> gsl_vector_complex D
}.

Section Complex.
Context {D : Type} `{DoubleOps D}.

Definition zero_ : gsl_complex D := gsl_complex_rect d0 d0.

Definition gsl_complex_add (a b : gsl_complex D) : gsl_complex D :=
  gsl_complex_rect (dadd (GSL_REAL a) (GSL_REAL b)) (dadd (GSL_IMAG a) (GSL_IMAG b)).

Definition gsl_complex_sub (a b : gsl_complex D) : gsl_complex D :=
  gsl_complex_rect (dsub (GSL_REAL a) (GSL_REAL b)) (dsub (GSL_IMAG a) (GSL_IMAG b)).

Definition gsl_complex_mul (a b : gsl_complex D) : gsl_complex D :=
  gsl_complex_rect
    (dsub (dmul (GSL_REAL a) (GSL_REAL b)) (dmul (GSL_IMAG a) (GSL_IMAG b)))
    (dadd (dmul (GSL_REAL a) (GSL_IMAG b)) (dmul (GSL_IMAG a) (GSL_REAL b))).

Definition gsl_complex_conjugate (a : gsl_complex D) : gsl_complex D :=
  gsl_complex_rect (GSL_REAL a) (dneg (GSL_IMAG a)).

Definition gsl_complex_div_real (a : gsl_complex D) (x : D) : gsl_complex D :=
  gsl_complex_rect (ddiv (GSL_REAL a) x) (ddiv (GSL_IMAG a) x).

Definition gsl_complex_add_real (a : gsl_complex D) (x : D) : gsl_complex D :=
  gsl_complex_rect (dadd (GSL_REAL a) x) (GSL_IMAG a).

Definition gsl_complex_abs (a : gsl_complex D) : D :=
  dhypot (GSL_REAL a) (GSL_IMAG a).

(** Element access. GSL reports an index outside the vector through its error
    handler; every access of the source is inside the allocation, and here a
    read outside yields zero and a write outside changes nothing. *)
Definition gsl_vector_complex_get (v : gsl_vector_complex D) (i : nat) : gsl_complex D :=
  default zero_ (v !! i).

Definition gsl_vector_complex_set (v : gsl_vector_complex D) (i : nat) (x : gsl_complex D)
  : gsl_vector_complex D := <[i := x]> v.

Definition gsl_vector_complex_set_zero (v : gsl_vector_complex D) : gsl_vector_complex D :=
  (fun _ => zero_) <$> v.

(** [gsl_vector_complex_calloc n]: [n] zeros. An allocation without
    initialisation ([gsl_vector_complex_alloc]) is modelled with zeros too;
    the source writes such a buffer before it reads it, [Gn_] of the
    multi-channel class apart, whose initial content is an argument of its
    constructor here. *)
Definition gsl_vector_complex_calloc (n : nat) : gsl_vector_complex D := replicate n zero_.

Definition gsl_matrix_complex_get (m : gsl_matrix_complex D) (i j : nat) : gsl_complex D :=
  gsl_vector_complex_get (default [] (m !! i)) j.

Definition gsl_matrix_complex_set (m : gsl_matrix_complex D) (i j : nat) (x : gsl_complex D)
  : gsl_matrix_complex D := alter (fun row => <[j := x]> row) i m.

Definition gsl_matrix_complex_set_zero (m : gsl_matrix_complex D) : gsl_matrix_complex D :=
  (fun row => gsl_vector_complex_set_zero row) <$> m.

Definition gsl_matrix_complex_alloc (n1 n2 : nat) : gsl_matrix_complex D :=
  replicate n1 (replicate n2 zero_).

Definition gsl_matrix_get (m : gsl_matrix D) (i j : nat) : D :=
  default d0 (default [] (m !! i) !! j).

Definition gsl_matrix_set (m : gsl_matrix D) (i j : nat) (x : D) : gsl_matrix D :=
  alter (fun row => <[j := x]> row) i m.

(** [gsl_matrix_alloc] followed by [gsl_matrix_set_zero]. *)
Definition gsl_matrix_alloc_zero (n1 n2 : nat) : gsl_matrix D :=
  replicate n1 (replicate n2 d0).

(** The vector [rows[i]] of an array of vectors. *)
Definition gsl_vector_complex_get_row (rows : list (gsl_vector_complex D)) (i : nat)
  : gsl_vector_complex D := default [] (rows !! i).

(** [gsl_blas_zdotc x y]: the sum of [conj(x_i) * y_i]. *)
Definition gsl_blas_zdotc (x y : gsl_vector_complex D) : gsl_complex D :=
  fold_left (fun acc xy => gsl_complex_add acc (gsl_complex_mul (gsl_complex_conjugate xy.1) xy.2))
            (zip x y) zero_.

End Complex.

(* ------------------------------------------------------------------ *)
(** ** Exceptions *)

Inductive exception : Type :=
| jinitialization_error
| jindex_error (a b : Z)      (* the two numbers its message names *)
| jiterator_error
| jnumeric_error
| jallocation_error
| gsl_error.                  (* raised through GSL's error handler *)

Inductive result (A : Type) : Type :=
| Return (a : A)
| Throw (e : exception).
Arguments Return {A} _.
Arguments Throw {A} _.

(* ------------------------------------------------------------------ *)
(** ** The subband source *)

(** Modelled from the spec: the subband source the features pull from
    (class [VectorComplexFeatureStream], declared outside this file) is the
    pull contract of section 6: [next()] and [next(index)] hand out the next
    frame or signal that the stream is exhausted ([jiterator_error], here
    [None]); [reset()] rewinds to the first frame; [size()] is the number of
    subbands. *)
Record VectorComplexFeatureStream (D : Type) := {
  stream_size : nat;
  stream_frames : list (gsl_vector_complex D);
  stream_pos : nat
}.
Arguments stream_size {D} _.
Arguments stream_frames {D} _.
Arguments stream_pos {D} _.

Definition stream_next {D} (s : VectorComplexFeatureStream D)
  : VectorComplexFeatureStream D * option (gsl_vector_complex D) :=
  match stream_frames s !! stream_pos s with
  | Some f => ({| stream_size := stream_size s; stream_frames := stream_frames s;
                  stream_pos := S (stream_pos s) |}, Some f)
  | None => (s, None)
  end.

Definition stream_reset {D} (s : VectorComplexFeatureStream D) : VectorComplexFeatureStream D :=
  {| stream_size := stream_size s; stream_frames := stream_frames s; stream_pos := 0 |}.

(** Loops whose body can throw: the first exception ends the loop. *)
Fixpoint for_each {S : Type} (l : list nat) (body : nat -> S -> S * result unit) (st : S)
  : S * result unit :=
  match l with
  | [] => (st, Return tt)
  | i :: l' =>
      match body i st with
      | (st', Return _) => for_each l' body st'
      | (st', Throw e) => (st', Throw e)
      end
  end.

(* ------------------------------------------------------------------ *)
(** ** class SingleChannelWPEDereverberationFeature *)

Module SC.
Section Model.
Context {D : Type} `{DoubleOps D} `{LinAlgBackend D}.

(** The object. The first four fields are the members inherited from the
    stream base class ([size()], [vector_], [frame_no_], [is_end_]). That
    class is declared outside this file; the statements below about a counter
    that is still initial take its value as a hypothesis. *)
Record SingleChannelWPEDereverberationFeature := mk {
  size : nat;
  vector_ : gsl_vector_complex D;
  frame_no_ : Z;
  is_end_ : bool;
  samples_ : VectorComplexFeatureStream D;
  lowerN_ : nat;
  upperN_ : nat;
  predictionN_ : nat;
  iterationsN_ : nat;
  estimated_ : bool;
  framesN_ : nat;
  load_factor_ : D;
  lower_bandWidthN_ : nat;
  upper_bandWidthN_ : nat;
  thetan_ : gsl_matrix D;
  gn_ : list (gsl_vector_complex D);
  R_ : gsl_matrix_complex D;
  r_ : gsl_vector_complex D;
  lag_samples_ : gsl_vector_complex D;
  yn_ : list (gsl_vector_complex D)
}.

Local Abbreviation t := SingleChannelWPEDereverberationFeature.

Definition set_vector_ (x : gsl_vector_complex D) (o : t) : t :=
  mk (size o) x (frame_no_ o) (is_end_ o) (samples_ o) (lowerN_ o) (upperN_ o)
     (predictionN_ o) (iterationsN_ o) (estimated_ o) (framesN_ o) (load_factor_ o)
     (lower_bandWidthN_ o) (upper_bandWidthN_ o) (thetan_ o) (gn_ o) (R_ o) (r_ o)
     (lag_samples_ o) (yn_ o).

Definition set_frame_no_ (x : Z) (o : t) : t :=
  mk (size o) (vector_ o) x (is_end_ o) (samples_ o) (lowerN_ o) (upperN_ o)
     (predictionN_ o) (iterationsN_ o) (estimated_ o) (framesN_ o) (load_factor_ o)
     (lower_bandWidthN_ o) (upper_bandWidthN_ o) (thetan_ o) (gn_ o) (R_ o) (r_ o)
     (lag_samples_ o) (yn_ o).

Definition set_is_end_ (x : bool) (o : t) : t :=
  mk (size o) (vector_ o) (frame_no_ o) x (samples_ o) (lowerN_ o) (upperN_ o)
     (predictionN_ o) (iterationsN_ o) (estimated_ o) (framesN_ o) (load_factor_ o)
     (lower_bandWidthN_ o) (upper_bandWidthN_ o) (thetan_ o) (gn_ o) (R_ o) (r_ o)
     (lag_samples_ o) (yn_ o).

Definition set_samples_ (x : VectorComplexFeatureStream D) (o : t) : t :=
  mk (size o) (vector_ o) (frame_no_ o) (is_end_ o) x (lowerN_ o) (upperN_ o)
     (predictionN_ o) (iterationsN_ o) (estimated_ o) (framesN_ o) (load_factor_ o)
     (lower_bandWidthN_ o) (upper_bandWidthN_ o) (thetan_ o) (gn_ o) (R_ o) (r_ o)
     (lag_samples_ o) (yn_ o).

Definition set_estimated_ (x : bool) (o : t) : t :=
  mk (size o) (vector_ o) (frame_no_ o) (is_end_ o) (samples_ o) (lowerN_ o) (upperN_ o)
     (predictionN_ o) (iterationsN_ o) x (framesN_ o) (load_factor_ o)
     (lower_bandWidthN_ o) (upper_bandWidthN_ o) (thetan_ o) (gn_ o) (R_ o) (r_ o)
     (lag_samples_ o) (yn_ o).

Definition set_framesN_ (x : nat) (o : t) : t :=
  mk (size o) (vector_ o) (frame_no_ o) (is_end_ o) (samples_ o) (lowerN_ o) (upperN_ o)
     (predictionN_ o) (iterationsN_ o) (estimated_ o) x (load_factor_ o)
     (lower_bandWidthN_ o) (upper_bandWidthN_ o) (thetan_ o) (gn_ o) (R_ o) (r_ o)
     (lag_samples_ o) (yn_ o).

Definition set_thetan_ (x : gsl_matrix D) (o : t) : t :=
  mk (size o) (vector_ o) (frame_no_ o) (is_end_ o) (samples_ o) (lowerN_ o) (upperN_ o)
     (predictionN_ o) (iterationsN_ o) (estimated_ o) (framesN_ o) (load_factor_ o)
     (lower_bandWidthN_ o) (upper_bandWidthN_ o) x (gn_ o) (R_ o) (r_ o)
     (lag_samples_ o) (yn_ o).

Definition set_gn_ (x : list (gsl_vector_complex D)) (o : t) : t :=
  mk (size o) (vector_ o) (frame_no_ o) (is_end_ o) (samples_ o) (lowerN_ o) (upperN_ o)
     (predictionN_ o) (iterationsN_ o) (estimated_ o) (framesN_ o) (load_factor_ o)
     (lower_bandWidthN_ o) (upper_bandWidthN_ o) (thetan_ o) x (R_ o) (r_ o)
     (lag_samples_ o) (yn_ o).

Definition set_R_ (x : gsl_matrix_complex D) (o : t) : t :=
  mk (size o) (vector_ o) (frame_no_ o) (is_end_ o) (samples_ o) (lowerN_ o) (upperN_ o)
     (predictionN_ o) (iterationsN_ o) (estimated_ o) (framesN_ o) (load_factor_ o)
     (lower_bandWidthN_ o) (upper_bandWidthN_ o) (thetan_ o) (gn_ o) x (r_ o)
     (lag_samples_ o) (yn_ o).

Definition set_r_ (x : gsl_vector_complex D) (o : t) : t :=
  mk (size o) (vector_ o) (frame_no_ o) (is_end_ o) (samples_ o) (lowerN_ o) (upperN_ o)
     (predictionN_ o) (iterationsN_ o) (estimated_ o) (framesN_ o) (load_factor_ o)
     (lower_bandWidthN_ o) (upper_bandWidthN_ o) (thetan_ o) (gn_ o) (R_ o) x
     (lag_samples_ o) (yn_ o).

Definition set_lag_samples_ (x : gsl_vector_complex D) (o : t) : t :=
  mk (size o) (vector_ o) (frame_no_ o) (is_end_ o) (samples_ o) (lowerN_ o) (upperN_ o)
     (predictionN_ o) (iterationsN_ o) (estimated_ o) (framesN_ o) (load_factor_ o)
     (lower_bandWidthN_ o) (upper_bandWidthN_ o) (thetan_ o) (gn_ o) (R_ o) (r_ o)
     x (yn_ o).

Definition set_yn_ (x : list (gsl_vector_complex D)) (o : t) : t :=
  mk (size o) (vector_ o) (frame_no_ o) (is_end_ o) (samples_ o) (lowerN_ o) (upperN_ o)
     (predictionN_ o) (iterationsN_ o) (estimated_ o) (framesN_ o) (load_factor_ o)
     (lower_bandWidthN_ o) (upper_bandWidthN_ o) (thetan_ o) (gn_ o) (R_ o) (r_ o)
     (lag_samples_ o) x.

(** The constructor. Its two floating-point computations are taken as
    arguments: [load_factor] is [pow(10.0, loadDb / 10.0)] and
    [lower_bandWidthN] is [set_band_width_(bandWidth, sampleRate)]. The base
    class is taken to start as the multi-channel class starts its own
    counter, with [frame_no_ = -1], and with [is_end_ = false] and a zeroed
    [vector_] of [size()] elements. The buffers [R_], [r_] and
    [lag_samples_], allocated without initialisation, are written before
    they are read and are shown zeroed. *)
Definition create (samples : VectorComplexFeatureStream D) (lowerN upperN iterationsN : nat)
    (load_factor : D) (lower_bandWidthN : nat) : t :=
  let sz := stream_size samples in
  let predictionN := u32 (Z.of_nat upperN - Z.of_nat lowerN + 1) in
  {| size := sz;
     vector_ := gsl_vector_complex_calloc sz;
     frame_no_ := (-1)%Z;
     is_end_ := false;
     samples_ := samples;
     lowerN_ := lowerN;
     upperN_ := upperN;
     predictionN_ := predictionN;
     iterationsN_ := iterationsN;
     estimated_ := false;
     framesN_ := 0;
     load_factor_ := load_factor;
     lower_bandWidthN_ := lower_bandWidthN;
     upper_bandWidthN_ := u32 (Z.of_nat sz - Z.of_nat lower_bandWidthN);
     thetan_ := [];
     gn_ := replicate sz (gsl_vector_complex_calloc predictionN);
     R_ := gsl_matrix_complex_alloc predictionN predictionN;
     r_ := gsl_vector_complex_calloc predictionN;
     lag_samples_ := gsl_vector_complex_calloc predictionN;
     yn_ := [] |}.

(** [increment_()] of the base class: [frame_no_++]. *)
Definition increment_ (o : t) : t := set_frame_no_ (frame_no_ o + 1)%Z o.

(** [yn_[index]] for an [int index >= 0]. *)
Definition yn_at (o : t) (index : Z) : gsl_vector_complex D :=
  default [] (yn_ o !! Z.to_nat index).

(** [get_lags_(subbandX, sampleX)]: fills the scratch vector [lag_samples_]
    (the returned pointer). [sampleX] is the value of the [unsigned]
    argument. *)
Definition get_lags_ (subbandX : nat) (sampleX : Z) (o : t) : t :=
  fold_left
    (fun o lagX =>
       let index := int32 (sampleX - Z.of_nat lagX) in
       let val := if (index <? 0)%Z then zero_
                  else gsl_vector_complex_get (yn_at o index) subbandX in
       set_lag_samples_ (gsl_vector_complex_set (lag_samples_ o) lagX val) o)
    (seq 0 (predictionN_ o)) o.

(** The loop of [fill_buffer_], from the value [frX] of its counter. [None]
    is running out of [fuel], which [fill_buffer_] excludes. *)
Fixpoint fill_loop (fuel : nat) (start_frame_no end_frame_no frX : Z) (o : t) : option t :=
  match fuel with
  | O => None
  | S fuel' =>
      if (0 <=? end_frame_no)%Z && (end_frame_no <=? frX)%Z then Some o
      else if (start_frame_no <=? frX)%Z then
        match stream_next (samples_ o) with
        | (src, Some block) =>
            fill_loop fuel' start_frame_no end_frame_no (frX + 1)%Z
                      (set_yn_ (yn_ o ++ [block]) (set_samples_ src o))
        | (src, None) => Some (set_samples_ src o)
        end
      else fill_loop fuel' start_frame_no end_frame_no (frX + 1)%Z o
  end.

(** A number of iterations the loop of [fill_buffer_] cannot exceed. *)
Definition fill_fuel (start_frame_no end_frame_no : Z) (o : t) : nat :=
  if (0 <=? end_frame_no)%Z then S (Z.to_nat end_frame_no)
  else Z.to_nat start_frame_no
       + (length (stream_frames (samples_ o)) - stream_pos (samples_ o)) + 2.

Definition fill_buffer_ (start_frame_no end_frame_no : Z) (o : t) : t :=
  let o1 := default o (fill_loop (fill_fuel start_frame_no end_frame_no o)
                                 start_frame_no end_frame_no 0%Z o) in
  let o2 := set_framesN_ (length (yn_ o1)) o1 in
  set_thetan_ (gsl_matrix_alloc_zero (framesN_ o2) (size o2)) o2.

(** The accumulation of one frame into [R_] (the two inner loops of the
    first part of [calc_Rr_]). *)
Definition accumulate_R (lags : gsl_vector_complex D) (thetan : D) (n : nat)
    (R : gsl_matrix_complex D) : gsl_matrix_complex D :=
  fold_left
    (fun R rowX =>
       let rowS := gsl_vector_complex_get lags rowX in
       fold_left
         (fun R colX =>
            let colS := gsl_vector_complex_get lags colX in
            let val := gsl_matrix_complex_get R rowX colX in
            let val := gsl_complex_add val
                         (gsl_complex_div_real
                            (gsl_complex_mul rowS (gsl_complex_conjugate colS)) thetan) in
            gsl_matrix_complex_set R rowX colX val)
         (seq 0 (S rowX)) R)
    (seq 0 n) R.

(** The accumulation of one frame into [r_] (the inner loop of the second
    part of [calc_Rr_]). *)
Definition accumulate_r (current : gsl_complex D) (lags : gsl_vector_complex D) (thetan : D)
    (n : nat) (r : gsl_vector_complex D) : gsl_vector_complex D :=
  fold_left
    (fun r lagX =>
       let val := gsl_vector_complex_get r lagX in
       let val := gsl_complex_add val
                    (gsl_complex_div_real
                       (gsl_complex_mul (gsl_complex_conjugate current)
                                        (gsl_vector_complex_get lags lagX)) thetan) in
       gsl_vector_complex_set r lagX val)
    (seq 0 n) r.

Definition calc_Rr_ (subbandX : nat) (o : t) : t :=
  let o := set_R_ (gsl_matrix_complex_set_zero (R_ o)) o in
  let o := set_r_ (gsl_vector_complex_set_zero (r_ o)) o in
  (* calculate R_ *)
  let o :=
    fold_left
      (fun o sampleX =>
         let thetan := gsl_matrix_get (thetan_ o) sampleX subbandX in
         let o := get_lags_ subbandX (uint32 (Z.of_nat sampleX - Z.of_nat (lowerN_ o))) o in
         set_R_ (accumulate_R (lag_samples_ o) thetan (predictionN_ o) (R_ o)) o)
      (seq (lowerN_ o) (framesN_ o - lowerN_ o)) o in
  (* calculate r_ *)
  fst (fold_left
         (fun '(o, sampleX) frame =>
            if sampleX <? lowerN_ o then (o, S sampleX)
            else
              let thetan := gsl_matrix_get (thetan_ o) sampleX subbandX in
              let current := gsl_vector_complex_get frame subbandX in
              let o := get_lags_ subbandX (uint32 (Z.of_nat sampleX - Z.of_nat (lowerN_ o))) o in
              (set_r_ (accumulate_r current (lag_samples_ o) thetan (predictionN_ o) (r_ o)) o,
               S sampleX))
         (yn_ o) (o, 0)).

Definition subband_floor_ : D := d1Em03.

(** The body of the inner loop of [calc_Thetan_]. *)
Definition calc_Thetan_at (sampleX : nat) (frame : gsl_vector_complex D) (subbandX : nat)
    (o : t) : t :=
  let current := gsl_vector_complex_get frame subbandX in
  let '(o, current) :=
    if lowerN_ o <=? sampleX then
      let o := get_lags_ subbandX (uint32 (Z.of_nat sampleX - Z.of_nat (lowerN_ o))) o in
      let dereverb := gsl_blas_zdotc (gsl_vector_complex_get_row (gn_ o) subbandX)
                                     (lag_samples_ o) in
      (o, gsl_complex_sub current dereverb)
    else (o, current) in
  let thetan := gsl_complex_abs current in
  let thetan := if dltb thetan subband_floor_ then subband_floor_ else thetan in
  set_thetan_ (gsl_matrix_set (thetan_ o) sampleX subbandX (dmul thetan thetan)) o.

Definition calc_Thetan_ (o : t) : t :=
  fst (fold_left
         (fun '(o, sampleX) frame =>
            (fold_left (fun o subbandX => calc_Thetan_at sampleX frame subbandX o)
                       (seq 0 (size o)) o,
             S sampleX))
         (yn_ o) (o, 0)).

Definition load_R_ (o : t) : t :=
  let maximumDiagonal :=
    fold_left
      (fun maximumDiagonal componentX =>
         let diag := gsl_complex_abs (gsl_matrix_complex_get (R_ o) componentX componentX) in
         if dltb maximumDiagonal diag then diag else maximumDiagonal)
      (seq 0 (predictionN_ o)) d0 in
  fold_left
    (fun o componentX =>
       let diag := dadd (gsl_complex_abs (gsl_matrix_complex_get (R_ o) componentX componentX))
                        (dmul maximumDiagonal (load_factor_ o)) in
       set_R_ (gsl_matrix_complex_set (R_ o) componentX componentX (gsl_complex_rect diag d0)) o)
    (seq 0 (predictionN_ o)) o.

(** The body of the subband loop of [estimate_Gn_]. A failed factorisation
    leaves through GSL's error handler. *)
Definition estimate_Gn_at (subbandX : nat) (o : t) : t * result unit :=
  if (lower_bandWidthN_ o <? subbandX) && (subbandX <? upper_bandWidthN_ o) then (o, Return tt)
  else
    let o := calc_Rr_ subbandX o in
    let o := load_R_ o in
    match gsl_linalg_complex_cholesky_decomp (R_ o) with
    | None => (o, Throw gsl_error)
    | Some L =>
        let o := set_R_ L o in
        (set_gn_ (<[subbandX := gsl_linalg_complex_cholesky_solve (R_ o) (r_ o)]> (gn_ o)) o,
         Return tt)
    end.

Definition estimate_Gn_ (o : t) : t * result unit :=
  for_each (seq 0 (iterationsN_ o))
           (fun iterationX o =>
              let o := calc_Thetan_ o in
              for_each (seq 0 (size o)) estimate_Gn_at o)
           o.

Definition estimate_filter (start_frame_no end_frame_no : Z) (o : t) : t * result nat :=
  let o := fill_buffer_ start_frame_no end_frame_no o in
  match estimate_Gn_ o with
  | (o, Throw e) => (o, Throw e)
  | (o, Return _) =>
      let o := set_samples_ (stream_reset (samples_ o)) o in
      let o := set_yn_ [] o in
      let o := set_estimated_ true o in
      (o, Return (framesN_ o))
  end.

(** The sliding window of [next]: once [predictionN_] frames are held the
    oldest is dropped and the others move down by one. *)
Definition push_frame (current : gsl_vector_complex D) (o : t) : t :=
  if predictionN_ o <=? length (yn_ o) then
    let yn :=
      fold_left (fun yn lagX => <[lagX - 1 := default [] (yn !! lagX)]> yn)
                (seq 1 (predictionN_ o - 1)) (yn_ o) in
    set_yn_ (<[u32 (Z.of_nat (predictionN_ o) - 1) := current]> yn) o
  else set_yn_ (yn_ o ++ [current]) o.

(** The body of the subband loop of [next]; [current] is the frame pulled. *)
Definition next_at (current : gsl_vector_complex D) (subbandX : nat) (o : t) : t :=
  let cur := gsl_vector_complex_get current subbandX in
  let '(o, cur) :=
    if (Z.of_nat (lowerN_ o) <=? uint32 (frame_no_ o))%Z
       && ((subbandX <=? lower_bandWidthN_ o) || (upper_bandWidthN_ o <=? subbandX)) then
      let o := get_lags_ subbandX
                 (uint32 (Z.of_nat (length (yn_ o)) - 1 - Z.of_nat (lowerN_ o))) o in
      let dereverb := gsl_blas_zdotc (gsl_vector_complex_get_row (gn_ o) subbandX)
                                     (lag_samples_ o) in
      (o, gsl_complex_sub cur dereverb)
    else (o, cur) in
  let o := set_vector_ (gsl_vector_complex_set (vector_ o) subbandX cur) o in
  if (0 <? subbandX) && (subbandX <? size o / 2) then
    set_vector_ (gsl_vector_complex_set (vector_ o) (size o - subbandX)
                                        (gsl_complex_conjugate cur)) o
  else o.

Definition next (frame_no : Z) (o : t) : t * result (gsl_vector_complex D) :=
  if negb (estimated_ o) then (o, Throw jinitialization_error)
  else if (frame_no =? frame_no_ o)%Z then (o, Return (vector_ o))
  else if (0 <=? frame_no)%Z && negb (frame_no - 1 =? frame_no_ o)%Z then
    (o, Throw (jindex_error (frame_no - 1) (frame_no_ o)))
  else
    let o := increment_ o in
    match stream_next (samples_ o) with
    | (src, None) => (set_is_end_ true (set_samples_ src o), Throw jiterator_error)
    | (src, Some block) =>
        let o := set_samples_ src o in
        let current := block in
        let o := push_frame current o in
        let o := fold_left (fun o subbandX => next_at current subbandX o)
                           (seq 0 (S (size o / 2))) o in
        (o, Return (vector_ o))
    end.

Definition reset (o : t) : t :=
  let o := set_samples_ (stream_reset (samples_ o)) o in
  let o := set_is_end_ false (set_frame_no_ (-1)%Z o) in
  set_yn_ [] o.

Definition reset_filter (o : t) : t :=
  set_thetan_ [] (set_framesN_ 0 (set_estimated_ false o)).

Definition next_speaker (o : t) : t :=
  let o := reset o in
  fold_left
    (fun o n =>
       set_gn_ (<[n := gsl_vector_complex_set_zero (gsl_vector_complex_get_row (gn_ o) n)]>
                  (gn_ o)) o)
    (seq 0 (size o)) o.

End Model.
Arguments SingleChannelWPEDereverberationFeature : clear implicits.
End SC.

(* ------------------------------------------------------------------ *)
(** ** class MultiChannelWPEDereverberation *)

Module MC.
Section Model.
Context {D : Type} `{DoubleOps D} `{LinAlgBackend D}.

(** The object. [frames_] is the list of frame braces: one frame per channel
    for each buffered time step. *)
Record MultiChannelWPEDereverberation := mk {
  sources_ : list (VectorComplexFeatureStream D);
  subbandsN_ : nat;
  channelsN_ : nat;
  lowerN_ : nat;
  upperN_ : nat;
  predictionN_ : nat;
  iterationsN_ : nat;
  totalPredictionN_ : nat;
  estimated_ : bool;
  framesN_ : nat;
  load_factor_ : D;
  lower_bandWidthN_ : nat;
  upper_bandWidthN_ : nat;
  thetan_ : list (gsl_matrix D);
  Gn_ : list (list (gsl_vector_complex D));
  R_ : list (gsl_matrix_complex D);
  r_ : list (gsl_vector_complex D);
  lag_samples_ : gsl_vector_complex D;
  output_ : list (gsl_vector_complex D);
  initial_frame_no_ : Z;
  frame_no_ : Z;
  diagonal_bias_ : D;
  frames_ : list (list (gsl_vector_complex D))
}.

Local Abbreviation t := MultiChannelWPEDereverberation.

Definition set_sources_ (x : list (VectorComplexFeatureStream D)) (o : t) : t :=
  mk x (subbandsN_ o) (channelsN_ o) (lowerN_ o) (upperN_ o) (predictionN_ o)
     (iterationsN_ o) (totalPredictionN_ o) (estimated_ o) (framesN_ o) (load_factor_ o)
     (lower_bandWidthN_ o) (upper_bandWidthN_ o) (thetan_ o) (Gn_ o) (R_ o) (r_ o)
     (lag_samples_ o) (output_ o) (initial_frame_no_ o) (frame_no_ o) (diagonal_bias_ o)
     (frames_ o).

Definition set_estimated_ (x : bool) (o : t) : t :=
  mk (sources_ o) (subbandsN_ o) (channelsN_ o) (lowerN_ o) (upperN_ o) (predictionN_ o)
     (iterationsN_ o) (totalPredictionN_ o) x (framesN_ o) (load_factor_ o)
     (lower_bandWidthN_ o) (upper_bandWidthN_ o) (thetan_ o) (Gn_ o) (R_ o) (r_ o)
     (lag_samples_ o) (output_ o) (initial_frame_no_ o) (frame_no_ o) (diagonal_bias_ o)
     (frames_ o).

Definition set_framesN_ (x : nat) (o : t) : t :=
  mk (sources_ o) (subbandsN_ o) (channelsN_ o) (lowerN_ o) (upperN_ o) (predictionN_ o)
     (iterationsN_ o) (totalPredictionN_ o) (estimated_ o) x (load_factor_ o)
     (lower_bandWidthN_ o) (upper_bandWidthN_ o) (thetan_ o) (Gn_ o) (R_ o) (r_ o)
     (lag_samples_ o) (output_ o) (initial_frame_no_ o) (frame_no_ o) (diagonal_bias_ o)
     (frames_ o).

Definition set_thetan_ (x : list (gsl_matrix D)) (o : t) : t :=
  mk (sources_ o) (subbandsN_ o) (channelsN_ o) (lowerN_ o) (upperN_ o) (predictionN_ o)
     (iterationsN_ o) (totalPredictionN_ o) (estimated_ o) (framesN_ o) (load_factor_ o)
     (lower_bandWidthN_ o) (upper_bandWidthN_ o) x (Gn_ o) (R_ o) (r_ o)
     (lag_samples_ o) (output_ o) (initial_frame_no_ o) (frame_no_ o) (diagonal_bias_ o)
     (frames_ o).

Definition set_Gn_ (x : list (list (gsl_vector_complex D))) (o : t) : t :=
  mk (sources_ o) (subbandsN_ o) (channelsN_ o) (lowerN_ o) (upperN_ o) (predictionN_ o)
     (iterationsN_ o) (totalPredictionN_ o) (estimated_ o) (framesN_ o) (load_factor_ o)
     (lower_bandWidthN_ o) (upper_bandWidthN_ o) (thetan_ o) x (R_ o) (r_ o)
     (lag_samples_ o) (output_ o) (initial_frame_no_ o) (frame_no_ o) (diagonal_bias_ o)
     (frames_ o).

Definition set_R_ (x : list (gsl_matrix_complex D)) (o : t) : t :=
  mk (sources_ o) (subbandsN_ o) (channelsN_ o) (lowerN_ o) (upperN_ o) (predictionN_ o)
     (iterationsN_ o) (totalPredictionN_ o) (estimated_ o) (framesN_ o) (load_factor_ o)
     (lower_bandWidthN_ o) (upper_bandWidthN_ o) (thetan_ o) (Gn_ o) x (r_ o)
     (lag_samples_ o) (output_ o) (initial_frame_no_ o) (frame_no_ o) (diagonal_bias_ o)
     (frames_ o).

Definition set_r_ (x : list (gsl_vector_complex D)) (o : t) : t :=
  mk (sources_ o) (subbandsN_ o) (channelsN_ o) (lowerN_ o) (upperN_ o) (predictionN_ o)
     (iterationsN_ o) (totalPredictionN_ o) (estimated_ o) (framesN_ o) (load_factor_ o)
     (lower_bandWidthN_ o) (upper_bandWidthN_ o) (thetan_ o) (Gn_ o) (R_ o) x
     (lag_samples_ o) (output_ o) (initial_frame_no_ o) (frame_no_ o) (diagonal_bias_ o)
     (frames_ o).

Definition set_lag_samples_ (x : gsl_vector_complex D) (o : t) : t :=
  mk (sources_ o) (subbandsN_ o) (channelsN_ o) (lowerN_ o) (upperN_ o) (predictionN_ o)
     (iterationsN_ o) (totalPredictionN_ o) (estimated_ o) (framesN_ o) (load_factor_ o)
     (lower_bandWidthN_ o) (upper_bandWidthN_ o) (thetan_ o) (Gn_ o) (R_ o) (r_ o) x
     (output_ o) (initial_frame_no_ o) (frame_no_ o) (diagonal_bias_ o) (frames_ o).

Definition set_output_ (x : list (gsl_vector_complex D)) (o : t) : t :=
  mk (sources_ o) (subbandsN_ o) (channelsN_ o) (lowerN_ o) (upperN_ o) (predictionN_ o)
     (iterationsN_ o) (totalPredictionN_ o) (estimated_ o) (framesN_ o) (load_factor_ o)
     (lower_bandWidthN_ o) (upper_bandWidthN_ o) (thetan_ o) (Gn_ o) (R_ o) (r_ o)
     (lag_samples_ o) x (initial_frame_no_ o) (frame_no_ o) (diagonal_bias_ o)
     (frames_ o).

Definition set_frame_no_ (x : Z) (o : t) : t :=
  mk (sources_ o) (subbandsN_ o) (channelsN_ o) (lowerN_ o) (upperN_ o) (predictionN_ o)
     (iterationsN_ o) (totalPredictionN_ o) (estimated_ o) (framesN_ o) (load_factor_ o)
     (lower_bandWidthN_ o) (upper_bandWidthN_ o) (thetan_ o) (Gn_ o) (R_ o) (r_ o)
     (lag_samples_ o) (output_ o) (initial_frame_no_ o) x (diagonal_bias_ o) (frames_ o).

Definition set_frames_ (x : list (list (gsl_vector_complex D))) (o : t) : t :=
  mk (sources_ o) (subbandsN_ o) (channelsN_ o) (lowerN_ o) (upperN_ o) (predictionN_ o)
     (iterationsN_ o) (totalPredictionN_ o) (estimated_ o) (framesN_ o) (load_factor_ o)
     (lower_bandWidthN_ o) (upper_bandWidthN_ o) (thetan_ o) (Gn_ o) (R_ o) (r_ o)
     (lag_samples_ o) (output_ o) (initial_frame_no_ o) (frame_no_ o) (diagonal_bias_ o)
     x.

(** [size()] is the number of subbands. *)
Definition size (o : t) : nat := subbandsN_ o.

(** The constructor. As for the single-channel class [load_factor] and
    [lower_bandWidthN] stand for its two floating-point computations. The
    predictors [Gn_] are allocated without initialisation and read by the
    first iteration: [Gn0] is what the allocation holds. The other buffers
    allocated without initialisation are shown zeroed; of these only
    [output_] can be read before it is written, by a view pulled before the
    first joint step. *)
Definition create (subbandsN channelsN lowerN upperN iterationsN : nat) (load_factor : D)
    (lower_bandWidthN : nat) (diagonal_bias : D) (Gn0 : gsl_vector_complex D) : t :=
  let predictionN := u32 (Z.of_nat upperN - Z.of_nat lowerN + 1) in
  let totalPredictionN := u32 (Z.of_nat predictionN * Z.of_nat channelsN) in
  {| sources_ := [];
     subbandsN_ := subbandsN;
     channelsN_ := channelsN;
     lowerN_ := lowerN;
     upperN_ := upperN;
     predictionN_ := predictionN;
     iterationsN_ := iterationsN;
     totalPredictionN_ := totalPredictionN;
     estimated_ := false;
     framesN_ := 0;
     load_factor_ := load_factor;
     lower_bandWidthN_ := lower_bandWidthN;
     upper_bandWidthN_ := u32 (Z.of_nat subbandsN - Z.of_nat lower_bandWidthN);
     thetan_ := replicate channelsN [];
     Gn_ := replicate channelsN (replicate subbandsN Gn0);
     R_ := replicate channelsN (gsl_matrix_complex_alloc totalPredictionN totalPredictionN);
     r_ := replicate channelsN (gsl_vector_complex_calloc totalPredictionN);
     lag_samples_ := gsl_vector_complex_calloc totalPredictionN;
     output_ := replicate channelsN (gsl_vector_complex_calloc subbandsN);
     initial_frame_no_ := (-1)%Z;
     frame_no_ := (-1)%Z;
     diagonal_bias_ := diagonal_bias;
     frames_ := [] |}.

(** [increment_()]: [frame_no_++]. *)
Definition increment_ (o : t) : t := set_frame_no_ (frame_no_ o + 1)%Z o.

Definition set_input (samples : VectorComplexFeatureStream D) (o : t) : t * result unit :=
  if length (sources_ o) =? channelsN_ o then (o, Throw jallocation_error)
  else (set_sources_ (sources_ o ++ [samples]) o, Return tt).

Definition reset (o : t) : t :=
  let o := set_frame_no_ (initial_frame_no_ o) o in
  let o := set_sources_ (stream_reset <$> sources_ o) o in
  set_frames_ [] o.

Definition reset_filter (o : t) : t :=
  set_frames_ [] (set_framesN_ 0 (set_estimated_ false o)).

(** [frames_[index][channelX]] for an [int index >= 0]. *)
Definition frames_at (o : t) (index : Z) (channelX : nat) : gsl_vector_complex D :=
  gsl_vector_complex_get_row (default [] (frames_ o !! Z.to_nat index)) channelX.

(** [get_lags_(subbandX, sampleX)]: the lags of every channel, one channel
    after the other, in the scratch vector [lag_samples_]. *)
Definition get_lags_ (subbandX : nat) (sampleX : Z) (o : t) : t :=
  fst (fold_left
         (fun ot channelX =>
            fold_left
              (fun '(o, totalX) lagX =>
                 let index := int32 (int32 sampleX - Z.of_nat lagX) in
                 let val := if (index <? 0)%Z then zero_
                            else gsl_vector_complex_get (frames_at o index channelX) subbandX in
                 (set_lag_samples_ (gsl_vector_complex_set (lag_samples_ o) totalX val) o,
                  S totalX))
              (seq 0 (predictionN_ ot.1)) ot)
         (seq 0 (channelsN_ o)) (o, 0)).

(** The channel loop that pulls one frame brace: [brace] holds the frames of
    the channels pulled so far. A channel without a registered source is
    outside the source's contract; here its pull finds no frame. *)
Fixpoint pull_brace (channels : list nat) (brace : list (gsl_vector_complex D)) (o : t)
  : t * option (list (gsl_vector_complex D)) :=
  match channels with
  | [] => (o, Some brace)
  | channelX :: rest =>
      match sources_ o !! channelX with
      | None => (o, None)
      | Some src =>
          match stream_next src with
          | (src', None) => (set_sources_ (<[channelX := src']> (sources_ o)) o, None)
          | (src', Some block) =>
              pull_brace rest (<[channelX := block]> brace)
                         (set_sources_ (<[channelX := src']> (sources_ o)) o)
          end
      end
  end.

(** The loop of [fill_buffer_]; [end_frame_no] is a variable of the loop
    (the source sets it to 0 when a channel is exhausted, which ends the loop
    at the next test). *)
Fixpoint fill_loop (fuel : nat) (start_frame_no end_frame_no frX : Z) (o : t) : option t :=
  match fuel with
  | O => None
  | S fuel' =>
      if (0 <=? end_frame_no)%Z && (end_frame_no <=? frX)%Z then Some o
      else if (start_frame_no <=? frX)%Z then
        match pull_brace (seq 0 (channelsN_ o)) (replicate (channelsN_ o) []) o with
        | (o, Some fbrace) =>
            fill_loop fuel' start_frame_no end_frame_no (frX + 1)%Z
                      (set_frames_ (frames_ o ++ [fbrace]) o)
        | (o, None) => fill_loop fuel' start_frame_no 0%Z (frX + 1)%Z o
        end
      else fill_loop fuel' start_frame_no end_frame_no (frX + 1)%Z o
  end.

(** A number of iterations the loop of [fill_buffer_] cannot exceed when
    there is a channel to pull: every brace pulled takes a frame from a
    source. With [channelsN_ = 0] and a negative [end_frame_no] the loop of
    the source does not end; [fill_buffer_] below then leaves the buffer as
    it was. *)
Definition fill_fuel (start_frame_no end_frame_no : Z) (o : t) : nat :=
  if (0 <=? end_frame_no)%Z then S (Z.to_nat end_frame_no)
  else Z.to_nat start_frame_no
       + sum_list ((fun s => length (stream_frames s) - stream_pos s) <$> sources_ o)
       + 3.

Definition fill_buffer_ (start_frame_no end_frame_no : Z) (o : t) : t :=
  let o1 := default o (fill_loop (fill_fuel start_frame_no end_frame_no o)
                                 start_frame_no end_frame_no 0%Z o) in
  let o2 := set_framesN_ (length (frames_ o1)) o1 in
  fold_left
    (fun o channelX =>
       set_thetan_ (<[channelX := gsl_matrix_alloc_zero (framesN_ o) (size o)]> (thetan_ o)) o)
    (seq 0 (channelsN_ o2)) o2.

(** The first half of [calc_Rr_] for one channel: the correlation matrix
    accumulated from the buffered frames, before the bias is added. *)
Definition calc_R_channel (subbandX channelX : nat) (o : t) : t :=
  let R := gsl_matrix_complex_set_zero (default [] (R_ o !! channelX)) in
  let o := set_R_ (<[channelX := R]> (R_ o)) o in
  fold_left
    (fun o sampleX =>
       let thetan := gsl_matrix_get (default [] (thetan_ o !! channelX)) sampleX subbandX in
       let o := get_lags_ subbandX (uint32 (Z.of_nat sampleX - Z.of_nat (lowerN_ o))) o in
       let R := default [] (R_ o !! channelX) in
       set_R_ (<[channelX := SC.accumulate_R (lag_samples_ o) thetan (totalPredictionN_ o) R]>
                 (R_ o)) o)
    (seq (lowerN_ o) (framesN_ o - lowerN_ o)) o.

(** The loop of [calc_Rr_] that adds [diagonal_bias_] to the diagonal. *)
Definition add_diagonal_bias (channelX : nat) (o : t) : t :=
  fold_left
    (fun o rowX =>
       let R := default [] (R_ o !! channelX) in
       set_R_ (<[channelX :=
                   gsl_matrix_complex_set R rowX rowX
                     (gsl_complex_add_real (gsl_matrix_complex_get R rowX rowX)
                                           (diagonal_bias_ o))]> (R_ o)) o)
    (seq 0 (totalPredictionN_ o)) o.

(** The second half of [calc_Rr_] for one channel. *)
Definition calc_r_channel (subbandX channelX : nat) (o : t) : t :=
  let o := set_r_ (<[channelX := gsl_vector_complex_set_zero (default [] (r_ o !! channelX))]>
                     (r_ o)) o in
  fst (fold_left
         (fun '(o, sampleX) frame =>
            if sampleX <? lowerN_ o then (o, S sampleX)
            else
              let thetan :=
                gsl_matrix_get (default [] (thetan_ o !! channelX)) sampleX subbandX in
              let current :=
                gsl_vector_complex_get (gsl_vector_complex_get_row frame channelX) subbandX in
              let o := get_lags_ subbandX
                         (uint32 (Z.of_nat sampleX - Z.of_nat (lowerN_ o))) o in
              let r := default [] (r_ o !! channelX) in
              (set_r_ (<[channelX := SC.accumulate_r current (lag_samples_ o) thetan
                                        (totalPredictionN_ o) r]> (r_ o)) o,
               S sampleX))
         (frames_ o) (o, 0)).

Definition calc_Rr_ (subbandX : nat) (o : t) : t :=
  let o := fold_left (fun o channelX => add_diagonal_bias channelX
                                          (calc_R_channel subbandX channelX o))
                     (seq 0 (channelsN_ o)) o in
  fold_left (fun o channelX => calc_r_channel subbandX channelX o) (seq 0 (channelsN_ o)) o.

Definition subband_floor_ : D := d1Em03.

(** The body of the innermost loop of [calc_Thetan_]. *)
Definition calc_Thetan_at (sampleX : nat) (brace : list (gsl_vector_complex D))
    (channelX subbandX : nat) (o : t) : t :=
  let observation := gsl_vector_complex_get_row brace channelX in
  let current := gsl_vector_complex_get observation subbandX in
  let '(o, current) :=
    if lowerN_ o <=? sampleX then
      let o := get_lags_ subbandX (uint32 (Z.of_nat sampleX - Z.of_nat (lowerN_ o))) o in
      let dereverb :=
        gsl_blas_zdotc (gsl_vector_complex_get_row (default [] (Gn_ o !! channelX)) subbandX)
                       (lag_samples_ o) in
      (o, gsl_complex_sub current dereverb)
    else (o, current) in
  let thetan := gsl_complex_abs current in
  let thetan := if dltb thetan subband_floor_ then subband_floor_ else thetan in
  set_thetan_ (<[channelX := gsl_matrix_set (default [] (thetan_ o !! channelX))
                               sampleX subbandX (dmul thetan thetan)]> (thetan_ o)) o.

Definition calc_Thetan_ (o : t) : t :=
  fst (fold_left
         (fun '(o, sampleX) brace =>
            (fold_left
               (fun o channelX =>
                  fold_left (fun o subbandX => calc_Thetan_at sampleX brace channelX subbandX o)
                            (seq 0 (size o)) o)
               (seq 0 (channelsN_ o)) o,
             S sampleX))
         (frames_ o) (o, 0)).

(** The body of the channel loop of [load_R_]. *)
Definition load_R_channel (channelX : nat) (o : t) : t :=
  let R := default [] (R_ o !! channelX) in
  let maximumDiagonal :=
    fold_left
      (fun maximumDiagonal componentX =>
         let diag := gsl_complex_abs (gsl_matrix_complex_get R componentX componentX) in
         if dltb maximumDiagonal diag then diag else maximumDiagonal)
      (seq 0 (totalPredictionN_ o)) d0 in
  fold_left
    (fun o componentX =>
       let R := default [] (R_ o !! channelX) in
       let diag := dadd (gsl_complex_abs (gsl_matrix_complex_get R componentX componentX))
                        (dmul maximumDiagonal (load_factor_ o)) in
       set_R_ (<[channelX := gsl_matrix_complex_set R componentX componentX
                               (gsl_complex_rect diag d0)]> (R_ o)) o)
    (seq 0 (totalPredictionN_ o)) o.

Definition load_R_ (o : t) : t :=
  fold_left (fun o channelX => load_R_channel channelX o) (seq 0 (channelsN_ o)) o.

(** The body of the channel loop of [estimate_Gn_]: factor and solve. *)
Definition solve_channel (subbandX channelX : nat) (o : t) : t * result unit :=
  match gsl_linalg_complex_cholesky_decomp (default [] (R_ o !! channelX)) with
  | None => (o, Throw jnumeric_error)
  | Some L =>
      let o := set_R_ (<[channelX := L]> (R_ o)) o in
      let g := gsl_linalg_complex_cholesky_solve (default [] (R_ o !! channelX))
                                                 (default [] (r_ o !! channelX)) in
      (set_Gn_ (alter (fun row => <[subbandX := g]> row) channelX (Gn_ o)) o, Return tt)
  end.

(** The body of the subband loop of [estimate_Gn_]. *)
Definition estimate_Gn_at (subbandX : nat) (o : t) : t * result unit :=
  if (lower_bandWidthN_ o <? subbandX) && (subbandX <? upper_bandWidthN_ o) then (o, Return tt)
  else
    let o := calc_Rr_ subbandX o in
    let o := load_R_ o in
    for_each (seq 0 (channelsN_ o)) (solve_channel subbandX) o.

Definition estimate_Gn_ (o : t) : t * result unit :=
  for_each (seq 0 (iterationsN_ o))
           (fun iterationX o =>
              let o := calc_Thetan_ o in
              for_each (seq 0 (size o)) estimate_Gn_at o)
           o.

Definition estimate_filter (start_frame_no end_frame_no : Z) (o : t) : t * result nat :=
  let o := fill_buffer_ start_frame_no end_frame_no o in
  match estimate_Gn_ o with
  | (o, Throw e) => (o, Throw e)
  | (o, Return _) =>
      let o := set_sources_ (stream_reset <$> sources_ o) o in
      let o := set_frames_ [] o in
      let o := set_estimated_ true o in
      (o, Return (framesN_ o))
  end.

Definition get_output (channelX : nat) (o : t) : result (gsl_vector_complex D) :=
  if channelsN_ o <=? channelX then
    Throw (jindex_error (Z.of_nat channelX) (Z.of_nat (channelsN_ o)))
  else Return (gsl_vector_complex_get_row (output_ o) channelX).

(** The sliding window of [calc_every_channel_output]. *)
Definition push_brace (fbrace : list (gsl_vector_complex D)) (o : t) : t :=
  if predictionN_ o <=? length (frames_ o) then
    let frames :=
      fold_left (fun frames lagX => <[lagX - 1 := default [] (frames !! lagX)]> frames)
                (seq 1 (predictionN_ o - 1)) (frames_ o) in
    set_frames_ (<[u32 (Z.of_nat (predictionN_ o) - 1) := fbrace]> frames) o
  else set_frames_ (frames_ o ++ [fbrace]) o.

(** The body of the subband loop of [calc_every_channel_output]; [current]
    is the frame pulled for channel [channelsX]. *)
Definition output_at (current : gsl_vector_complex D) (channelsX subbandX : nat) (o : t) : t :=
  let cur := gsl_vector_complex_get current subbandX in
  let '(o, cur) :=
    if (Z.of_nat (lowerN_ o) <=? uint32 (frame_no_ o))%Z
       && ((subbandX <=? lower_bandWidthN_ o) || (upper_bandWidthN_ o <=? subbandX)) then
      let o := get_lags_ subbandX
                 (uint32 (Z.of_nat (length (frames_ o)) - 1 - Z.of_nat (lowerN_ o))) o in
      let dereverb :=
        gsl_blas_zdotc (gsl_vector_complex_get_row (default [] (Gn_ o !! channelsX)) subbandX)
                       (lag_samples_ o) in
      (o, gsl_complex_sub cur dereverb)
    else (o, cur) in
  let out := gsl_vector_complex_set (gsl_vector_complex_get_row (output_ o) channelsX)
                                    subbandX cur in
  let o := set_output_ (<[channelsX := out]> (output_ o)) o in
  if (0 <? subbandX) && (subbandX <? size o / 2) then
    let out := gsl_vector_complex_set (gsl_vector_complex_get_row (output_ o) channelsX)
                                      (size o - subbandX) (gsl_complex_conjugate cur) in
    set_output_ (<[channelsX := out]> (output_ o)) o
  else o.

Definition calc_every_channel_output (frame_no : Z) (o : t)
  : t * result (list (gsl_vector_complex D)) :=
  if negb (estimated_ o) then (o, Throw jinitialization_error)
  else if (0 <=? frame_no)%Z && negb (frame_no - 1 =? frame_no_ o)%Z then
    (o, Throw (jindex_error frame_no (frame_no_ o)))
  else
    let o := increment_ o in
    match pull_brace (seq 0 (channelsN_ o)) (replicate (channelsN_ o) []) o with
    | (o, None) => (o, Throw jiterator_error)
    | (o, Some fbrace) =>
        let o := push_brace fbrace o in
        let o :=
          fold_left
            (fun o channelsX =>
               let current := gsl_vector_complex_get_row fbrace channelsX in
               fold_left (fun o subbandX => output_at current channelsX subbandX o)
                         (seq 0 (S (size o / 2))) o)
            (seq 0 (channelsN_ o)) o in
        (o, Return (output_ o))
    end.

Definition next_speaker (o : t) : t :=
  let o := reset o in
  fold_left
    (fun o channelX =>
       fold_left
         (fun o n =>
            let row := default [] (Gn_ o !! channelX) in
            let g := gsl_vector_complex_set_zero (gsl_vector_complex_get_row row n) in
            set_Gn_ (<[channelX := <[n := g]> row]> (Gn_ o)) o)
         (seq 0 (size o)) o)
    (seq 0 (channelsN_ o)) o.

End Model.
Arguments MultiChannelWPEDereverberation : clear implicits.
End MC.

(* ------------------------------------------------------------------ *)
(** ** class MultiChannelWPEDereverberationFeature *)

Module MCF.
Section Model.
Context {D : Type} `{DoubleOps D} `{LinAlgBackend D}.

(** One channel's view. The object [source_] it points to is shared by the
    views of all channels: the methods take it and hand it back. [frame_no_]
    is the view's own counter (stream base class, starting at -1). *)
Record MultiChannelWPEDereverberationFeature := mk {
  channelX_ : nat;
  primaryChannelX_ : nat;
  frame_no_ : Z
}.

Local Abbreviation t := MultiChannelWPEDereverberationFeature.

Definition create (channelX primaryChannelX : nat) : t :=
  {| channelX_ := channelX; primaryChannelX_ := primaryChannelX; frame_no_ := (-1)%Z |}.

Definition increment_ (v : t) : t :=
  {| channelX_ := channelX_ v; primaryChannelX_ := primaryChannelX_ v;
     frame_no_ := (frame_no_ v + 1)%Z |}.

Definition next (frame_no : Z) (v : t) (source_ : MC.MultiChannelWPEDereverberation D)
  : t * MC.MultiChannelWPEDereverberation D * result (gsl_vector_complex D) :=
  let '(source_, computed) :=
    if channelX_ v =? primaryChannelX_ v then MC.calc_every_channel_output frame_no source_
    else (source_, Return []) in
  match computed with
  | Throw e => (v, source_, Throw e)
  | Return _ =>
      if (0 <=? frame_no)%Z && negb (frame_no - 1 =? frame_no_ v)%Z then
        (v, source_, Throw (jindex_error frame_no (frame_no_ v)))
      else
        let v := increment_ v in
        (v, source_, MC.get_output (channelX_ v) source_)
  end.

Definition reset (v : t) (source_ : MC.MultiChannelWPEDereverberation D)
  : t * MC.MultiChannelWPEDereverberation D :=
  ({| channelX_ := channelX_ v; primaryChannelX_ := primaryChannelX_ v; frame_no_ := (-1)%Z |},
   MC.reset source_).

End Model.
Arguments MultiChannelWPEDereverberationFeature : clear implicits.
End MCF.

(* ------------------------------------------------------------------ *)
(** ** Interpretations of the arithmetic *)

(** IEEE binary64, as the compiled program has it. [dhypot] stands in for the
    C library's [hypot] (which also avoids intermediate overflow). *)
Definition float_ops : DoubleOps float := {|
  d0 := 0%float;
  d1Em03 := 0x1.0624dd2f1a9fcp-10%float;
  dadd := PrimFloat.add;
  dsub := PrimFloat.sub;
  dmul := PrimFloat.mul;
  ddiv := PrimFloat.div;
  dneg := PrimFloat.opp;
  dltb := PrimFloat.ltb;
  dleb := PrimFloat.leb;
  dhypot := fun x y => PrimFloat.sqrt (PrimFloat.add (PrimFloat.mul x x) (PrimFloat.mul y y))
|}.

(** Exact real arithmetic. *)
Definition R_ops : DoubleOps R := {|
  d0 := 0%R;
  d1Em03 := (1 / 1000)%R;
  dadd := Rplus;
  dsub := Rminus;
  dmul := Rmult;
  ddiv := Rdiv;
  dneg := Ropp;
  dltb := fun x y => if Rlt_dec x y then true else false;
  dleb := fun x y => if Rle_dec x y then true else false;
  dhypot := fun x y => sqrt (x * x + y * y)
|}.

(** A backend whose factorisation reports failure on every matrix; it serves
    the runs that never reach the solver (no iteration, or only the streaming
    step). *)
Definition failing_backend (D : Type) : LinAlgBackend D := {|
  gsl_linalg_complex_cholesky_decomp := fun _ => None;
  gsl_linalg_complex_cholesky_solve := fun _ r => r
|}.

(** The arithmetic facts some theorems rest on. They hold for the real
    numbers; of IEEE doubles they hold as long as no NaN or infinity is
    produced and up to the sign of zero. *)
Class ExactArith (D : Type) `{DoubleOps D} : Prop := {
  dsub_0_r : forall x, dsub x d0 = x;
  dadd_0_l : forall x, dadd d0 x = x;
  dmul_0_l : forall x, dmul d0 x = d0;
  dneg_0 : dneg d0 = d0;
  dleb_refl : forall x, dleb x x = true;
  dleb_trans : forall x y z, dleb x y = true -> dleb y z = true -> dleb x z = true;
  dltb_false_dleb : forall x y, dltb x y = false -> dleb y x = true;
  dltb_true_dleb : forall x y, dltb x y = true -> dleb x y = true;
  d1Em03_nonneg : dleb d0 d1Em03 = true;
  dmul_square_mono : forall x y, dleb d0 x = true -> dleb x y = true ->
                                 dleb (dmul x x) (dmul y y) = true;
  dmul_nonneg : forall x y, dleb d0 x = true -> dleb d0 y = true -> dleb d0 (dmul x y) = true;
  dadd_nonneg_r : forall x y, dleb d0 y = true -> dleb x (dadd x y) = true;
  dhypot_nonneg : forall x y, dleb d0 (dhypot x y) = true;
  dhypot_real : forall x, dleb d0 x = true -> dhypot x d0 = x
}.

(** What the power floor rests on. A value [x] is a number when [x <= x]
    holds, which of IEEE doubles fails for a NaN only. The squared floor is
    a number, and the square of a value that did not test below the floor
    is at least the squared floor whenever that square is a number. IEEE
    doubles satisfy this ([float_floor]) and so does every exact arithmetic
    ([exact_floor]). *)
Class FloorArith (D : Type) `{DoubleOps D} : Prop := {
  floor_square_number : dleb (dmul d1Em03 d1Em03) (dmul d1Em03 d1Em03) = true;
  floor_square_le : forall a, dltb a d1Em03 = false ->
                              dleb (dmul a a) (dmul a a) = true ->
                              dleb (dmul d1Em03 d1Em03) (dmul a a) = true
}.

(* ------------------------------------------------------------------ *)
(** ** Concrete objects *)

(** Objects over IEEE doubles on which the statements below are run. The
    source has four subbands and three frames; its frames are not conjugate
    symmetric (for instance subband 3 of the first frame is not the conjugate
    of subband 1). *)
Definition cplx (x y : float) : gsl_complex float := gsl_complex_rect x y.

Definition ex_frames : list (gsl_vector_complex float) :=
  [ [cplx 1 0; cplx 2 1; cplx 3 0; cplx 5 7];
    [cplx 4 0; cplx 1 (-1); cplx 2 0; cplx 0 3];
    [cplx 2 0; cplx 6 2; cplx 1 0; cplx 3 3] ]%float.

Definition ex_stream : VectorComplexFeatureStream float :=
  {| stream_size := 4; stream_frames := ex_frames; stream_pos := 0 |}.

(** [lowerN = 0], [upperN = 1], no iteration, band limits 0 and 4. *)
Definition ex_sc : SC.SingleChannelWPEDereverberationFeature float :=
  SC.create (H := float_ops) ex_stream 0 1 0 0.25%float 0.

Definition ex_sc_estimated : SC.SingleChannelWPEDereverberationFeature float :=
  (SC.estimate_filter (H := float_ops) (H0 := failing_backend float) 0 3 ex_sc).1.

(** The object after the first streaming step, and the output of that step. *)
Definition ex_sc_stepped : SC.SingleChannelWPEDereverberationFeature float :=
  (SC.next (H := float_ops) 0 ex_sc_estimated).1.

Definition ex_sc_out0 : gsl_vector_complex float :=
  [cplx 1 0; cplx 2 1; cplx 3 0; cplx 2 (-1)]%float.

(** Two channels fed by the same kind of source; the uninitialised
    predictors hold zeros. *)
Definition ex_mc : MC.MultiChannelWPEDereverberation float :=
  let o := MC.create (H := float_ops) 4 2 0 1 0 0.25%float 0 0.5%float
                     (gsl_vector_complex_calloc (H := float_ops) 4) in
  let o := (MC.set_input ex_stream o).1 in
  (MC.set_input ex_stream o).1.

Definition ex_mc_estimated : MC.MultiChannelWPEDereverberation float :=
  (MC.estimate_filter (H := float_ops) (H0 := failing_backend float) 0 3 ex_mc).1.

(** The object after the first joint step. *)
Definition ex_mc_stepped : MC.MultiChannelWPEDereverberation float :=
  (MC.calc_every_channel_output (H := float_ops) 0 ex_mc_estimated).1.

(** The view of channel 1 when channel 0 is the primary channel. *)
Definition ex_view1 : MCF.MultiChannelWPEDereverberationFeature := MCF.create 1 0.

(** The view of the primary channel 0. *)
Definition ex_view0 : MCF.MultiChannelWPEDereverberationFeature := MCF.create 0 0.

(** The same source and feature over the real numbers. *)
Definition rcplx (x y : R) : gsl_complex R := gsl_complex_rect x y.

Definition exR_stream : VectorComplexFeatureStream R :=
  {| stream_size := 4;
     stream_frames := [ [rcplx 1 0; rcplx 2 1; rcplx 3 0; rcplx 5 7];
                        [rcplx 4 0; rcplx 1 (-1); rcplx 2 0; rcplx 0 3];
                        [rcplx 2 0; rcplx 6 2; rcplx 1 0; rcplx 3 3] ]%R;
     stream_pos := 0 |}.

Definition exR_sc : SC.SingleChannelWPEDereverberationFeature R :=
  SC.create (H := R_ops) exR_stream 0 1 0 (1 / 4)%R 0.

(** The feature over the reals with its batch buffer filled (three frames,
    [thetan_] allocated), and with a correlation matrix in [R_]. *)
Definition exR_sc_filled : SC.SingleChannelWPEDereverberationFeature R :=
  SC.fill_buffer_ (H := R_ops) 0 3 exR_sc.


(** Two channels over the reals, the batch buffer filled. *)
Definition exR_mc : MC.MultiChannelWPEDereverberation R :=
  let o := MC.create (H := R_ops) 4 2 0 1 0 (1 / 4)%R 0 (1 / 2)%R
                     (gsl_vector_complex_calloc (H := R_ops) 4) in
  let o := (MC.set_input exR_stream o).1 in
  (MC.set_input exR_stream o).1.

Definition exR_mc_filled : MC.MultiChannelWPEDereverberation R :=
  MC.fill_buffer_ (H := R_ops) 0 3 exR_mc.

(** The two-channel object over doubles in the middle of an estimation pass:
    the batch buffer is filled and the power matrix computed. *)
Definition ex_mc_pass : MC.MultiChannelWPEDereverberation float :=
  MC.calc_Thetan_ (H := float_ops) (MC.fill_buffer_ (H := float_ops) 0 3 ex_mc).

(* ------------------------------------------------------------------ *)
(** * Properties *)

(** The real numbers satisfy [ExactArith]. *)
Lemma R_exact : @ExactArith R R_ops.
Proof.
  split; simpl; intros;
    repeat match goal with
           | H : (if ?c then _ else _) = _ |- _ => destruct c; try discriminate H
           end.
  - lra.
  - lra.
  - lra.
  - lra.
  - destruct (Rle_dec x x); [reflexivity | lra].
  - destruct (Rle_dec x z); [reflexivity | lra].
  - destruct (Rle_dec y x); [reflexivity | lra].
  - destruct (Rle_dec x y); [reflexivity | lra].
  - destruct (Rle_dec 0 (1 / 1000)); [reflexivity | lra].
  - destruct (Rle_dec (x * x) (y * y)); [reflexivity | nra].
  - destruct (Rle_dec 0 (x * y)); [reflexivity | nra].
  - destruct (Rle_dec x (x + y)); [reflexivity | lra].
  - destruct (Rle_dec 0 (sqrt (x * x + y * y))); [reflexivity |].
    exfalso. apply n. apply sqrt_pos.
  - replace (x * x + 0 * 0)%R with (x * x)%R by lra. apply sqrt_square. assumption.
Qed.

(** An exact arithmetic satisfies [FloorArith]. *)
Lemma exact_floor {D : Type} `{DoubleOps D} `{!ExactArith D} : FloorArith D.
Proof.
  split; [apply dleb_refl |].
  intros a Hlt _. apply dmul_square_mono; [apply d1Em03_nonneg |].
  apply dltb_false_dleb. exact Hlt.
Qed.

(** *** The power floor on IEEE doubles

    The square of a double [a >= 0x1.0624dd2f1a9fcp-10] is computed from the
    specification of the multiplication: [a] is a normal number
    [m * 2^e] with 53 digits in [m] and [e >= -62]; the product [m * m] has
    105 or 106 digits and is shifted to 53; rounding to nearest does not go
    below the quotient. *)
Section FloatSquare.
Import Floats.SpecFloat Floats.FloatOps Floats.FloatAxioms.
Local Open Scope Z_scope.

Lemma digits2_pos_bounds (p : positive) :
  2 ^ (Zpos (digits2_pos p) - 1) <= Zpos p < 2 ^ Zpos (digits2_pos p).
Proof.
  assert (Hs : forall d : positive, 2 ^ Zpos d = 2 * 2 ^ (Zpos d - 1)).
  { intros d. rewrite <- Z.pow_succ_r by lia. f_equal. lia. }
  induction p as [p IH|p IH|]; cbn [digits2_pos].
  - rewrite Pos2Z.inj_succ, (Pos2Z.inj_xI p).
    replace (Z.succ (Zpos (digits2_pos p)) - 1) with (Zpos (digits2_pos p)) by lia.
    rewrite Z.pow_succ_r by lia. rewrite (Hs (digits2_pos p)) in *.
    set (X := 2 ^ (Zpos (digits2_pos p) - 1)) in *. clearbody X. lia.
  - rewrite Pos2Z.inj_succ, (Pos2Z.inj_xO p).
    replace (Z.succ (Zpos (digits2_pos p)) - 1) with (Zpos (digits2_pos p)) by lia.
    rewrite Z.pow_succ_r by lia. rewrite (Hs (digits2_pos p)) in *.
    set (X := 2 ^ (Zpos (digits2_pos p) - 1)) in *. clearbody X. lia.
  - cbn. lia.
Qed.

Lemma digits2_pos_eq (p : positive) (k : Z) :
  2 ^ (k - 1) <= Zpos p < 2 ^ k -> Zpos (digits2_pos p) = k.
Proof.
  intros [Hl Hu]. pose proof (digits2_pos_bounds p) as [Bl Bu].
  set (d := Zpos (digits2_pos p)) in *.
  assert (Hk : 0 < k).
  { destruct (Z.ltb_spec 0 k) as [|Hk]; [assumption |].
    destruct (Z.eq_dec k 0) as [->|Hne]; [change (2 ^ 0) with 1 in Hu; lia |].
    rewrite Z.pow_neg_r in Hu by lia. lia. }
  destruct (Z.lt_trichotomy d k) as [Hlt|[Heq|Hgt]]; [| exact Heq |].
  - pose proof (Z.pow_le_mono_r 2 d (k - 1) ltac:(lia) ltac:(lia)). lia.
  - pose proof (Z.pow_le_mono_r 2 k (d - 1) ltac:(lia) ltac:(lia)). lia.
Qed.

Lemma shr_1_m (mrs : shr_record) : 0 <= shr_m mrs -> shr_m (shr_1 mrs) = shr_m mrs / 2.
Proof.
  destruct mrs as [m r s]. cbn [shr_m]. intros Hm. rewrite <- Z.div2_div.
  destruct m as [|[p|p|]|p]; try reflexivity. lia.
Qed.

Lemma iter_shr_1_m (p : positive) (mrs : shr_record) :
  0 <= shr_m mrs -> shr_m (iter_pos shr_1 p mrs) = shr_m mrs / 2 ^ Zpos p.
Proof.
  revert mrs. induction p as [p IH|p IH|]; intros mrs Hm; cbn [iter_pos].
  - assert (H1 : 0 <= shr_m (shr_1 mrs)) by (rewrite shr_1_m by exact Hm; apply Z.div_pos; lia).
    assert (H2 : 0 <= shr_m (iter_pos shr_1 p (shr_1 mrs)))
      by (rewrite IH by exact H1; apply Z.div_pos; [exact H1 | apply Z.pow_pos_nonneg; lia]).
    rewrite IH by exact H2. rewrite IH by exact H1. rewrite shr_1_m by exact Hm.
    pose proof (Z.pow_pos_nonneg 2 (Zpos p) ltac:(lia) ltac:(lia)) as Hp.
    rewrite !Z.div_div by lia. f_equal.
    rewrite (Pos2Z.inj_xI p). rewrite Z.add_comm, Z.pow_add_r by lia.
    replace (2 * Zpos p) with (Zpos p + Zpos p) by lia. rewrite Z.pow_add_r by lia.
    change (2 ^ 1) with 2. ring.
  - assert (H1 : 0 <= shr_m (iter_pos shr_1 p mrs))
      by (rewrite IH by exact Hm; apply Z.div_pos; [exact Hm | apply Z.pow_pos_nonneg; lia]).
    rewrite IH by exact H1. rewrite IH by exact Hm.
    pose proof (Z.pow_pos_nonneg 2 (Zpos p) ltac:(lia) ltac:(lia)) as Hp.
    rewrite Z.div_div by lia. f_equal.
    rewrite (Pos2Z.inj_xO p). replace (2 * Zpos p) with (Zpos p + Zpos p) by lia.
    rewrite Z.pow_add_r by lia. reflexivity.
  - rewrite shr_1_m by exact Hm. reflexivity.
Qed.

(** The first normalisation of a product: a mantissa of [53 + k] digits is
    shifted by [k]. *)
Lemma shr_fexp_shift (M k : positive) (e : Z) :
  Zpos (digits2_pos M) = 53 + Zpos k -> -1074 <= e + Zpos k ->
  shr_fexp prec emax (Zpos M) e loc_Exact
  = (iter_pos shr_1 k (Build_shr_record (Zpos M) false false), e + Zpos k).
Proof.
  intros Hd He. unfold shr_fexp, fexp, emin, prec, emax. cbn [Zdigits2 shr_record_of_loc].
  rewrite Hd.
  replace (Z.max (53 + Zpos k + e - 53) (3 - 1024 - 53) - e) with (Zpos k) by lia.
  reflexivity.
Qed.

Lemma shr_fexp_noshift (M : positive) (e : Z) :
  Zpos (digits2_pos M) = 53 -> -1074 <= e ->
  shr_fexp prec emax (Zpos M) e loc_Exact = (Build_shr_record (Zpos M) false false, e).
Proof.
  intros Hd He. unfold shr_fexp, fexp, emin, prec, emax. cbn [Zdigits2 shr_record_of_loc].
  rewrite Hd.
  replace (Z.max (53 + e - 53) (3 - 1024 - 53) - e) with 0 by lia.
  reflexivity.
Qed.

Lemma round_nearest_even_bounds (q : Z) (l : location) :
  q <= round_nearest_even q l <= q + 1.
Proof. destruct l as [|[| |]]; cbn; [| destruct (Z.even q) | |]; lia. Qed.

(** The second normalisation and the overflow test, for a quotient of 53
    digits: the result keeps the exponent and does not go below the
    quotient, or has a larger exponent, or is infinite. *)
Lemma round_finish (q : Z) (l : location) (e : Z) :
  2 ^ 52 <= q < 2 ^ 53 -> -1074 <= e ->
  let res :=
    let '(mrs, e') := shr_fexp prec emax (round_nearest_even q l) e loc_Exact in
    match shr_m mrs with
    | Z0 => S754_zero false
    | Zpos m => if Z.leb e' (emax - prec) then S754_finite false m e' else S754_infinity false
    | Zneg _ => S754_nan
    end in
  res = S754_infinity false
  \/ exists m' e', res = S754_finite false m' e' /\ (e < e' \/ e' = e /\ q <= Zpos m').
Proof.
  intros Hq He. cbv zeta.
  pose proof (round_nearest_even_bounds q l) as Hr.
  change (2 ^ 52) with 4503599627370496 in Hq. change (2 ^ 53) with 9007199254740992 in Hq.
  destruct (round_nearest_even q l) as [|r|r]; [lia | | lia].
  destruct (Z.lt_ge_cases (Zpos r) 9007199254740992) as [Hlt|Hge].
  - rewrite shr_fexp_noshift; [| | exact He].
    2: { apply digits2_pos_eq. change (2 ^ (53 - 1)) with 4503599627370496.
         change (2 ^ 53) with 9007199254740992. lia. }
    cbn [shr_m]. destruct (Z.leb e (emax - prec)); [right | left; reflexivity].
    exists r, e. split; [reflexivity | right; split; [reflexivity | lia]].
  - assert (Er : r = 9007199254740992%positive) by lia. subst r.
    rewrite (shr_fexp_shift 9007199254740992 1 e); [| reflexivity | lia].
    cbn [iter_pos shr_1 shr_m]. destruct (Z.leb (e + 1) (emax - prec)); [right | left; reflexivity].
    eexists _, (e + 1). split; [reflexivity | left; lia].
Qed.

(** The square of a normal double that is not below [2^-10]: infinite, or
    finite with the exponent and mantissa bounded from below. *)
Lemma SFmul_square (m : positive) (e : Z) :
  Zpos (digits2_pos m) = 53 -> -62 <= e ->
  let res := SF64mul (S754_finite false m e) (S754_finite false m e) in
  res = S754_infinity false
  \/ exists m' e',
       res = S754_finite false m' e'
       /\ (2 * e + 52 < e' \/ e' = 2 * e + 52 /\ Zpos (m * m) / 2 ^ 52 <= Zpos m').
Proof.
  intros Hd He. cbv zeta.
  pose proof (digits2_pos_bounds m) as Hm. rewrite Hd in Hm.
  change (2 ^ (53 - 1)) with 4503599627370496 in Hm.
  change (2 ^ 53) with 9007199254740992 in Hm.
  assert (HM : 20282409603651670423947251286016 <= Zpos (m * m)
               < 81129638414606681695789005144064) by (rewrite Pos2Z.inj_mul; nia).
  unfold SF64mul, SFmul. cbn [xorb]. unfold binary_round_aux.
  destruct (Z.lt_ge_cases (Zpos (m * m)) 40564819207303340847894502572032) as [Hlt|Hge].
  - rewrite (shr_fexp_shift (m * m) 52 (e + e)); [| | lia].
    2: { apply digits2_pos_eq.
         change (2 ^ (53 + 52 - 1)) with 20282409603651670423947251286016.
         change (2 ^ (53 + 52)) with 40564819207303340847894502572032. lia. }
    set (mrs := iter_pos shr_1 52 _).
    assert (Eq : shr_m mrs = Zpos (m * m) / 2 ^ 52) by (apply iter_shr_1_m; cbn [shr_m]; lia).
    rewrite Eq.
    destruct (round_finish (Zpos (m * m) / 2 ^ 52) (loc_of_shr_record mrs) (e + e + 52))
      as [E|(m' & e' & E & Hb)].
    + change (2 ^ 52) with 4503599627370496.
      change (2 ^ 53) with 9007199254740992.
      split; [apply Z.div_le_lower_bound; lia | apply Z.div_lt_upper_bound; lia].
    + lia.
    + left. exact E.
    + right. exists m', e'. split; [exact E | lia].
  - rewrite (shr_fexp_shift (m * m) 53 (e + e)); [| | lia].
    2: { apply digits2_pos_eq.
         change (2 ^ (53 + 53 - 1)) with 40564819207303340847894502572032.
         change (2 ^ (53 + 53)) with 81129638414606681695789005144064. lia. }
    set (mrs := iter_pos shr_1 53 _).
    assert (Eq : shr_m mrs = Zpos (m * m) / 2 ^ 53) by (apply iter_shr_1_m; cbn [shr_m]; lia).
    rewrite Eq.
    destruct (round_finish (Zpos (m * m) / 2 ^ 53) (loc_of_shr_record mrs) (e + e + 53))
      as [E|(m' & e' & E & Hb)].
    + change (2 ^ 52) with 4503599627370496.
      change (2 ^ 53) with 9007199254740992.
      split; [apply Z.div_le_lower_bound; lia | apply Z.div_lt_upper_bound; lia].
    + lia.
    + left. exact E.
    + right. exists m', e'. split; [exact E | left; lia].
Qed.

(** On doubles, the square of a value that did not test below the floor is
    at least the squared floor, unless it is NaN. *)
Lemma float_square_floor (a : float) :
  PrimFloat.ltb a 0x1.0624dd2f1a9fcp-10 = false ->
  PrimFloat.leb (PrimFloat.mul a a) (PrimFloat.mul a a) = true ->
  PrimFloat.leb (PrimFloat.mul 0x1.0624dd2f1a9fcp-10 0x1.0624dd2f1a9fcp-10)
                (PrimFloat.mul a a) = true.
Proof.
  rewrite FloatAxioms.ltb_spec, !FloatAxioms.leb_spec, !FloatAxioms.mul_spec.
  assert (Ef : Prim2SF 0x1.0624dd2f1a9fcp-10 = S754_finite false 4611686018427388 (-62))
    by (vm_compute; reflexivity).
  rewrite Ef.
  change (SF64mul (S754_finite false 4611686018427388 (-62))
                  (S754_finite false 4611686018427388 (-62)))
    with (S754_finite false 4722366482869645 (-72)).
  pose proof (FloatAxioms.Prim2SF_valid a) as Hv.
  destruct (Prim2SF a) as [s|s| |s m e]; try (destruct s); try discriminate;
    try (intros; reflexivity).
  unfold SFltb, SFcompare. intros Hlt _.
  assert (Hem : (-62 <= e)%Z /\ (e = (-62)%Z -> (4611686018427388 <= m)%positive)).
  { destruct (Z.compare_spec e (-62)) as [->|Hl|Hg]; [| discriminate | lia].
    split; [lia |]. intros _. rewrite Pos.compare_cont_spec in Hlt. cbn [Pos.switch_Eq] in Hlt.
    destruct (Pos.compare_spec m 4611686018427388); [lia | discriminate | lia]. }
  destruct Hem as [He Hm].
  assert (Hd : Zpos (digits2_pos m) = 53%Z).
  { cbn [valid_binary] in Hv. unfold bounded, canonical_mantissa, fexp, emin, prec, emax in Hv.
    apply andb_prop in Hv as [Hc _]. apply Z.eqb_eq in Hc. lia. }
  destruct (SFmul_square m e Hd He) as [E|(m' & e' & E & Hb)]; cbv zeta in E; rewrite E.
  - reflexivity.
  - unfold SFleb, SFcompare.
    destruct (Z.compare_spec (-72) e') as [He'|Hl|Hg]; [| reflexivity | lia].
    rewrite Pos.compare_cont_spec. cbn [Pos.switch_Eq].
    assert (Hle : (4722366482869645 <= m')%positive).
    { assert (e = (-62)%Z) by lia. specialize (Hm ltac:(assumption)).
      destruct Hb as [Hb|[_ Hb]]; [lia |].
      assert (HM : (4611686018427388 * 4611686018427388 <= Zpos (m * m))%Z)
        by (rewrite Pos2Z.inj_mul; nia).
      pose proof (Z.div_le_mono _ _ (2 ^ 52) ltac:(reflexivity) HM) as Hdv.
      change (4611686018427388 * 4611686018427388 / 2 ^ 52)%Z with 4722366482869645%Z in Hdv.
      lia. }
    unfold Pos.le in Hle.
    destruct (4722366482869645 ?= m')%positive; [reflexivity | reflexivity |].
    exfalso. apply Hle. reflexivity.
Qed.

End FloatSquare.

(** IEEE doubles satisfy [FloorArith]. *)
Lemma float_floor : @FloorArith float float_ops.
Proof.
  split; [vm_compute; reflexivity |].
  intros a Hlt Hnum. exact (float_square_floor a Hlt Hnum).
Qed.

(** The real numbers satisfy [FloorArith]. *)
Lemma R_floor : @FloorArith R R_ops.
Proof. exact (@exact_floor R R_ops R_exact). Qed.

(** ** Loops *)

Lemma fold_left_preserves {A B : Type} (P : A -> Prop) (f : A -> B -> A) (l : list B) (a : A) :
  P a -> (forall a b, P a -> P (f a b)) -> P (fold_left f l a).
Proof.
  intros Ha Hf. revert a Ha. induction l as [|b l IH]; intros a Ha; simpl.
  - exact Ha.
  - apply IH, Hf, Ha.
Qed.

Lemma fold_left_preserves_elem {A B : Type} (P : A -> Prop) (f : A -> B -> A) (l : list B)
    (a : A) :
  P a -> (forall a b, b ∈ l -> P a -> P (f a b)) -> P (fold_left f l a).
Proof.
  revert a. induction l as [|b l IH]; intros a Ha Hf; simpl.
  - exact Ha.
  - apply IH.
    + apply Hf; [left | exact Ha].
    + intros a' b' Hb'. apply Hf. right. exact Hb'.
Qed.

(** A loop seen through a projection [proj] of its state, under an
    invariant [I] of the loop. *)
Lemma fold_left_proj {S A B : Type} (proj : S -> A) (I : S -> Prop) (f : S -> B -> S)
    (g : A -> B -> A) (l : list B) (s : S) :
  I s ->
  (forall s b, I s -> I (f s b) /\ proj (f s b) = g (proj s) b) ->
  I (fold_left f l s) /\ proj (fold_left f l s) = fold_left g l (proj s).
Proof.
  intros Hs Hf. revert s Hs. induction l as [|b l IH]; intros s Hs; simpl.
  - split; [exact Hs | reflexivity].
  - destruct (Hf s b Hs) as [Hs' E]. rewrite <- E. apply IH. exact Hs'.
Qed.

Lemma half_bounds (N : nat) : 2 * (N / 2) <= N < 2 * (N / 2) + 2.
Proof.
  pose proof (Nat.div_mod_eq N 2) as E.
  pose proof (Nat.mod_upper_bound N 2 ltac:(lia)) as B. lia.
Qed.

Lemma fold_left_seq_snoc {A : Type} (f : A -> nat -> A) (n : nat) (a : A) :
  fold_left f (seq 0 (S n)) a = f (fold_left f (seq 0 n) a) n.
Proof. rewrite seq_S, fold_left_app. reflexivity. Qed.

Lemma for_each_preserves {S : Type} (P : S -> Prop) (body : nat -> S -> S * result unit)
    (l : list nat) (st : S) :
  P st -> (forall i st, P st -> P (body i st).1) -> P (for_each l body st).1.
Proof.
  intros Hst Hbody. revert st Hst. induction l as [|i l IH]; intros st Hst; simpl.
  - exact Hst.
  - specialize (Hbody i st Hst). destruct (body i st) as [st' [u|e]]; simpl in *.
    + apply IH, Hbody.
    + exact Hbody.
Qed.

(* ------------------------------------------------------------------ *)
(** ** Vectors and matrices *)

Section Access.
Context {D : Type} `{DoubleOps D}.

Lemma vector_get_set_eq (v : gsl_vector_complex D) i x :
  i < length v -> gsl_vector_complex_get (gsl_vector_complex_set v i x) i = x.
Proof.
  intros Hi. unfold gsl_vector_complex_get, gsl_vector_complex_set.
  rewrite list_lookup_insert_eq by exact Hi. reflexivity.
Qed.

Lemma vector_get_set_ne (v : gsl_vector_complex D) i j x :
  i <> j -> gsl_vector_complex_get (gsl_vector_complex_set v i x) j = gsl_vector_complex_get v j.
Proof.
  intros Hij. unfold gsl_vector_complex_get, gsl_vector_complex_set.
  rewrite list_lookup_insert_ne by exact Hij. reflexivity.
Qed.

Lemma vector_set_length (v : gsl_vector_complex D) i x :
  length (gsl_vector_complex_set v i x) = length v.
Proof. apply length_insert. Qed.

Lemma row_insert_eq (rows : list (gsl_vector_complex D)) i (x : gsl_vector_complex D) :
  i < length rows -> gsl_vector_complex_get_row (<[i := x]> rows) i = x.
Proof.
  intros Hi. unfold gsl_vector_complex_get_row.
  rewrite list_lookup_insert_eq by exact Hi. reflexivity.
Qed.

Lemma row_insert_ne (rows : list (gsl_vector_complex D)) i j (x : gsl_vector_complex D) :
  i <> j -> gsl_vector_complex_get_row (<[i := x]> rows) j = gsl_vector_complex_get_row rows j.
Proof.
  intros Hij. unfold gsl_vector_complex_get_row.
  rewrite list_lookup_insert_ne by exact Hij. reflexivity.
Qed.

(** What one iteration of a streaming subband loop does to the output
    vector: the value at the subband, its conjugate at the mirror subband. *)
Definition write_subband (N s : nat) (cur : gsl_complex D) (v : gsl_vector_complex D)
  : gsl_vector_complex D :=
  let v := gsl_vector_complex_set v s cur in
  if (0 <? s) && (s <? N / 2)
  then gsl_vector_complex_set v (N - s) (gsl_complex_conjugate cur)
  else v.

(** A run of such iterations over the subbands [0 .. n-1], in order. *)
Lemma write_subbands_inv (N : nat) (Q : nat -> gsl_complex D -> Prop)
    (v : nat -> gsl_vector_complex D) (n : nat) :
  length (v 0) = N ->
  n <= S (N / 2) ->
  (forall k, k < n -> exists c, Q k c /\ v (S k) = write_subband N k c (v k)) ->
  length (v n) = N
  /\ (forall s, s < n -> s < N -> Q s (gsl_vector_complex_get (v n) s))
  /\ (forall s, 0 < s -> s < n -> s < N / 2 ->
        gsl_vector_complex_get (v n) (N - s)
        = gsl_complex_conjugate (gsl_vector_complex_get (v n) s)).
Proof.
  intros Hlen. pose proof (half_bounds N) as Hhalf.
  induction n as [|n IH]; intros Hn Hstep.
  - repeat split; [exact Hlen | intros; lia | intros; lia].
  - destruct IH as (Hl & Hq & Hm); [lia | intros k Hk; apply Hstep; lia |].
    destruct (Hstep n ltac:(lia)) as (c & Hc & ->). unfold write_subband. cbv zeta.
    destruct ((0 <? n) && (n <? N / 2)) eqn:Hb.
    + apply andb_true_iff in Hb as [Hb1%Nat.ltb_lt Hb2%Nat.ltb_lt].
      rewrite !vector_set_length. split; [exact Hl |]. split.
      * intros s Hs HsN. rewrite vector_get_set_ne by lia.
        destruct (decide (s = n)) as [->|Hne].
        -- rewrite vector_get_set_eq by lia. exact Hc.
        -- rewrite vector_get_set_ne by lia. apply Hq; lia.
      * intros s Hs0 Hs Hsh. destruct (decide (s = n)) as [->|Hne].
        -- rewrite vector_get_set_eq by (rewrite vector_set_length; lia).
           rewrite vector_get_set_ne by lia. rewrite vector_get_set_eq by lia. reflexivity.
        -- rewrite !vector_get_set_ne by lia. apply Hm; lia.
    + apply andb_false_iff in Hb.
      rewrite vector_set_length. split; [exact Hl |]. split.
      * intros s Hs HsN. destruct (decide (s = n)) as [->|Hne].
        -- rewrite vector_get_set_eq by lia. exact Hc.
        -- rewrite vector_get_set_ne by lia. apply Hq; lia.
      * intros s Hs0 Hs Hsh. destruct (decide (s = n)) as [->|Hne].
        -- exfalso. destruct Hb as [Hb%Nat.ltb_ge | Hb%Nat.ltb_ge]; lia.
        -- rewrite !vector_get_set_ne by lia. apply Hm; lia.
Qed.

End Access.

(* ------------------------------------------------------------------ *)
(** ** The single-channel streaming step *)

Section SCStep.
Context {D : Type} `{DoubleOps D} `{LinAlgBackend D}.

Local Abbreviation sc := (SC.SingleChannelWPEDereverberationFeature D).

(** The object without its two output buffers: what the subband loop of
    [next] reads and never writes. *)
Definition sc_config (o : sc) : sc := SC.set_vector_ [] (SC.set_lag_samples_ [] o).

Lemma sc_get_lags_config (subbandX : nat) (sampleX : Z) (o : sc) :
  sc_config (SC.get_lags_ subbandX sampleX o) = sc_config o.
Proof.
  unfold SC.get_lags_.
  apply (fold_left_preserves (fun o' => sc_config o' = sc_config o)); [reflexivity |].
  intros o' lagX E. rewrite <- E. reflexivity.
Qed.

Lemma sc_config_fields (o o' : sc) :
  sc_config o' = sc_config o ->
  SC.size o' = SC.size o /\ SC.frame_no_ o' = SC.frame_no_ o
  /\ SC.estimated_ o' = SC.estimated_ o /\ SC.gn_ o' = SC.gn_ o
  /\ SC.lowerN_ o' = SC.lowerN_ o
  /\ SC.lower_bandWidthN_ o' = SC.lower_bandWidthN_ o
  /\ SC.upper_bandWidthN_ o' = SC.upper_bandWidthN_ o
  /\ SC.yn_ o' = SC.yn_ o.
Proof.
  intros E. repeat split.
  - exact (f_equal SC.size E).
  - exact (f_equal SC.frame_no_ E).
  - exact (f_equal SC.estimated_ E).
  - exact (f_equal SC.gn_ E).
  - exact (f_equal SC.lowerN_ E).
  - exact (f_equal SC.lower_bandWidthN_ E).
  - exact (f_equal SC.upper_bandWidthN_ E).
  - exact (f_equal SC.yn_ E).
Qed.

Lemma sc_get_lags_vector (subbandX : nat) (sampleX : Z) (o : sc) :
  SC.vector_ (SC.get_lags_ subbandX sampleX o) = SC.vector_ o.
Proof.
  unfold SC.get_lags_.
  apply (fold_left_preserves (fun o' => SC.vector_ o' = SC.vector_ o)); [reflexivity |].
  intros o' lagX E. rewrite <- E. reflexivity.
Qed.

(** The condition under which [next] subtracts a prediction at a subband. *)
Definition sc_filtered (o : sc) (subbandX : nat) : bool :=
  (Z.of_nat (SC.lowerN_ o) <=? uint32 (SC.frame_no_ o))%Z
  && ((subbandX <=? SC.lower_bandWidthN_ o) || (SC.upper_bandWidthN_ o <=? subbandX)).

(** The value [cur] that one subband of the step stores. *)
Definition sc_cur (current : gsl_vector_complex D) (subbandX : nat) (o : sc) : gsl_complex D :=
  let cur := gsl_vector_complex_get current subbandX in
  if sc_filtered o subbandX then
    let o' := SC.get_lags_ subbandX
                (uint32 (Z.of_nat (length (SC.yn_ o)) - 1 - Z.of_nat (SC.lowerN_ o))) o in
    gsl_complex_sub cur
      (gsl_blas_zdotc (gsl_vector_complex_get_row (SC.gn_ o') subbandX) (SC.lag_samples_ o'))
  else cur.

Lemma sc_next_at_config (current : gsl_vector_complex D) (subbandX : nat) (o : sc) :
  sc_config (SC.next_at current subbandX o) = sc_config o.
Proof.
  unfold SC.next_at. fold (sc_filtered o subbandX).
  destruct (sc_filtered o subbandX); cbn zeta beta iota.
  - destruct ((0 <? subbandX) && _); unfold sc_config; cbn;
      apply (sc_get_lags_config subbandX _ o).
  - destruct ((0 <? subbandX) && _); reflexivity.
Qed.

Lemma sc_next_at_vector (current : gsl_vector_complex D) (subbandX : nat) (o : sc) :
  SC.vector_ (SC.next_at current subbandX o)
  = write_subband (SC.size o) subbandX (sc_cur current subbandX o) (SC.vector_ o).
Proof.
  unfold SC.next_at, sc_cur, write_subband. fold (sc_filtered o subbandX).
  destruct (sc_filtered o subbandX); cbn zeta beta iota.
  - set (o' := SC.get_lags_ _ _ o).
    assert (Es : SC.size o' = SC.size o) by exact (f_equal SC.size (sc_get_lags_config _ _ o)).
    assert (Ev : SC.vector_ o' = SC.vector_ o) by apply sc_get_lags_vector.
    cbn [SC.size SC.vector_ SC.set_vector_]. rewrite Es, Ev.
    destruct ((0 <? subbandX) && (subbandX <? SC.size o / 2)); reflexivity.
  - cbn [SC.size SC.vector_ SC.set_vector_].
    destruct ((0 <? subbandX) && (subbandX <? SC.size o / 2)); reflexivity.
Qed.

(** The subband loop of [next], cut after its first [n] iterations. *)
Definition sc_loop (current : gsl_vector_complex D) (n : nat) (o : sc) : sc :=
  fold_left (fun o subbandX => SC.next_at current subbandX o) (seq 0 n) o.

Lemma sc_loop_config (current : gsl_vector_complex D) (n : nat) (o : sc) :
  sc_config (sc_loop current n o) = sc_config o.
Proof.
  unfold sc_loop.
  apply (fold_left_preserves (fun o' => sc_config o' = sc_config o)); [reflexivity |].
  intros o' s E. rewrite sc_next_at_config. exact E.
Qed.

(** What the loop has established after [n] iterations: every subband below
    [n] holds the value computed for it, and its mirror holds the conjugate. *)
Lemma sc_loop_inv (current : gsl_vector_complex D) (o0 : sc) (n : nat) :
  length (SC.vector_ o0) = SC.size o0 ->
  n <= S (SC.size o0 / 2) ->
  let o := sc_loop current n o0 in
  length (SC.vector_ o) = SC.size o0
  /\ (forall s, s < n -> s < SC.size o0 ->
        exists o', sc_config o' = sc_config o0
                   /\ gsl_vector_complex_get (SC.vector_ o) s = sc_cur current s o')
  /\ (forall s, 0 < s -> s < n -> s < SC.size o0 / 2 ->
        gsl_vector_complex_get (SC.vector_ o) (SC.size o0 - s)
        = gsl_complex_conjugate (gsl_vector_complex_get (SC.vector_ o) s)).
Proof.
  intros Hlen Hn.
  apply (write_subbands_inv (SC.size o0)
           (fun s c => exists o', sc_config o' = sc_config o0 /\ c = sc_cur current s o')
           (fun k => SC.vector_ (sc_loop current k o0)) n Hlen Hn).
  intros k Hk. exists (sc_cur current k (sc_loop current k o0)). split.
  - exists (sc_loop current k o0). split; [apply sc_loop_config | reflexivity].
  - unfold sc_loop at 1. rewrite fold_left_seq_snoc. fold (sc_loop current k o0).
    rewrite sc_next_at_vector.
    assert (Es : SC.size (sc_loop current k o0) = SC.size o0)
      by exact (f_equal SC.size (sc_loop_config current k o0)).
    rewrite Es. reflexivity.
Qed.

(** The object on which the subband loop of a step starts: the counter is
    advanced, the frame is pulled and pushed into the lag buffer. *)
Definition sc_pulled (src : VectorComplexFeatureStream D) (block : gsl_vector_complex D)
    (o : sc) : sc :=
  SC.push_frame block (SC.set_samples_ src (SC.increment_ o)).

(** The outcomes of [next], by the branch taken. *)
Lemma sc_next_cases (frame_no : Z) (o : sc) :
  (SC.estimated_ o = false /\ SC.next frame_no o = (o, Throw jinitialization_error))
  \/ (SC.estimated_ o = true /\ frame_no = SC.frame_no_ o
      /\ SC.next frame_no o = (o, Return (SC.vector_ o)))
  \/ (SC.estimated_ o = true /\ frame_no <> SC.frame_no_ o
      /\ (0 <= frame_no)%Z /\ (frame_no - 1)%Z <> SC.frame_no_ o
      /\ SC.next frame_no o = (o, Throw (jindex_error (frame_no - 1) (SC.frame_no_ o))))
  \/ (SC.estimated_ o = true /\ frame_no <> SC.frame_no_ o
      /\ ((frame_no < 0)%Z \/ (frame_no - 1)%Z = SC.frame_no_ o)
      /\ ((exists src, stream_next (SC.samples_ o) = (src, None)
                       /\ SC.next frame_no o
                          = (SC.set_is_end_ true (SC.set_samples_ src (SC.increment_ o)),
                             Throw jiterator_error))
          \/ (exists src block,
                 stream_next (SC.samples_ o) = (src, Some block)
                 /\ SC.next frame_no o
                    = (let o2 := sc_loop block (S (SC.size o / 2)) (sc_pulled src block o) in
                       (o2, Return (SC.vector_ o2)))))).
Proof.
  unfold SC.next. destruct (SC.estimated_ o) eqn:He; cbn [negb]; [right | left; auto].
  destruct (Z.eqb_spec frame_no (SC.frame_no_ o)) as [Heq|Hne]; [left; auto | right].
  destruct (Z.leb_spec 0 frame_no) as [Hpos|Hneg]; cbn [andb].
  - destruct (Z.eqb_spec (frame_no - 1) (SC.frame_no_ o)) as [Hseq|Hseq]; cbn [negb].
    + right. repeat split; [exact Hne | right; exact Hseq |].
      change (SC.samples_ (SC.increment_ o)) with (SC.samples_ o).
      destruct (stream_next (SC.samples_ o)) as [src [block|]].
      * right. exists src, block. split; [reflexivity |].
        unfold sc_loop, sc_pulled. cbv zeta.
        replace (SC.size (SC.push_frame block (SC.set_samples_ src (SC.increment_ o))))
          with (SC.size o); [reflexivity |].
        unfold SC.push_frame. destruct (_ <=? _); reflexivity.
      * left. exists src. split; reflexivity.
    + left. repeat split; assumption.
  - right. repeat split; [exact Hne | left; exact Hneg |].
    change (SC.samples_ (SC.increment_ o)) with (SC.samples_ o).
    destruct (stream_next (SC.samples_ o)) as [src [block|]].
    + right. exists src, block. split; [reflexivity |].
      unfold sc_loop, sc_pulled. cbv zeta.
      replace (SC.size (SC.push_frame block (SC.set_samples_ src (SC.increment_ o))))
        with (SC.size o); [reflexivity |].
      unfold SC.push_frame. destruct (_ <=? _); reflexivity.
    + left. exists src. split; reflexivity.
Qed.

Lemma sc_pulled_fields (src : VectorComplexFeatureStream D) (block : gsl_vector_complex D)
    (o : sc) :
  let o1 := sc_pulled src block o in
  SC.size o1 = SC.size o /\ SC.vector_ o1 = SC.vector_ o
  /\ SC.frame_no_ o1 = (SC.frame_no_ o + 1)%Z /\ SC.estimated_ o1 = SC.estimated_ o
  /\ SC.gn_ o1 = SC.gn_ o /\ SC.lowerN_ o1 = SC.lowerN_ o
  /\ SC.lower_bandWidthN_ o1 = SC.lower_bandWidthN_ o
  /\ SC.upper_bandWidthN_ o1 = SC.upper_bandWidthN_ o
  /\ SC.iterationsN_ o1 = SC.iterationsN_ o.
Proof.
  unfold sc_pulled, SC.push_frame. cbv zeta.
  destruct (_ <=? _); repeat split; reflexivity.
Qed.

(** After [next] has returned for a non-negative index, the feature is
    estimated, its counter is that index and its output buffer is the vector
    returned. *)
Lemma sc_next_returned (o o1 : sc) (frame_no : Z) (v : gsl_vector_complex D) :
  (0 <= frame_no)%Z ->
  SC.next frame_no o = (o1, Return v) ->
  SC.estimated_ o1 = true /\ SC.frame_no_ o1 = frame_no /\ SC.vector_ o1 = v.
Proof.
  intros Hpos Hnext.
  destruct (sc_next_cases frame_no o)
    as [(_ & E) | [(He & Heq & E) | [(_ & _ & _ & _ & E) | (He & _ & Hseq & Hpull)]]].
  - rewrite E in Hnext. discriminate.
  - rewrite E in Hnext. injection Hnext as <- <-. auto.
  - rewrite E in Hnext. discriminate.
  - destruct Hpull as [(src & _ & E) | (src & block & _ & E)];
      rewrite E in Hnext; [discriminate |].
    cbv zeta in Hnext.
    set (o2 := sc_loop block (S (SC.size o / 2)) (sc_pulled src block o)) in *.
    assert (Ho1 : o1 = o2) by congruence.
    assert (Hv : v = SC.vector_ o2) by congruence.
    subst o1 v. clear Hnext.
    pose proof (sc_loop_config block (S (SC.size o / 2)) (sc_pulled src block o)) as Hc.
    fold o2 in Hc.
    destruct (sc_pulled_fields src block o) as (_ & _ & Ef & Ee & _). cbv zeta in Ef, Ee.
    destruct (sc_config_fields _ _ Hc) as (_ & E2 & E1 & _).
    rewrite E1, E2, Ef, Ee. repeat split; [exact He | lia].
Qed.

(** A step of [next] that pulled the frame [block]: the output in terms of
    the values computed per subband. *)
Lemma sc_next_output (o o' : sc) (frame_no : Z) (v : gsl_vector_complex D)
    (src : VectorComplexFeatureStream D) (block : gsl_vector_complex D) :
  SC.next frame_no o = (o', Return v) ->
  frame_no <> SC.frame_no_ o ->
  stream_next (SC.samples_ o) = (src, Some block) ->
  length (SC.vector_ o) = SC.size o ->
  v = SC.vector_ o'
  /\ length v = SC.size o
  /\ sc_config o' = sc_config (sc_pulled src block o)
  /\ (forall s, s <= SC.size o / 2 -> s < SC.size o ->
        exists o'', sc_config o'' = sc_config (sc_pulled src block o)
                    /\ gsl_vector_complex_get v s = sc_cur block s o'')
  /\ (forall s, 0 < s -> s < SC.size o / 2 ->
        gsl_vector_complex_get v (SC.size o - s)
        = gsl_complex_conjugate (gsl_vector_complex_get v s)).
Proof.
  intros Hnext Hne Hsrc Hlen.
  destruct (sc_next_cases frame_no o)
    as [(_ & E) | [(_ & Heq & _) | [(_ & _ & _ & _ & E) | (_ & _ & _ & Hpull)]]].
  - rewrite E in Hnext. discriminate.
  - contradiction.
  - rewrite E in Hnext. discriminate.
  - destruct Hpull as [(src0 & Hs0 & E) | (src0 & block0 & Hs0 & E)].
    + rewrite E in Hnext. discriminate.
    + rewrite Hsrc in Hs0. injection Hs0 as <- <-.
      rewrite E in Hnext. cbv zeta in Hnext. injection Hnext as <- <-.
      destruct (sc_pulled_fields src block o) as (Es & Ev & _). cbv zeta in Es, Ev.
      destruct (sc_loop_inv block (sc_pulled src block o) (S (SC.size o / 2)))
        as (Hl & Hq & Hm).
      { rewrite Ev, Es. exact Hlen. }
      { rewrite Es. apply le_n. }
      rewrite Es in *.
      split; [reflexivity |]. split; [exact Hl |].
      split; [apply sc_loop_config |]. split.
      * intros s Hs HsN. apply Hq; lia.
      * intros s Hs0' Hsh. apply Hm; lia.
Qed.

End SCStep.

(* ------------------------------------------------------------------ *)
(** ** The multi-channel streaming step *)

Section MCStep.
Context {D : Type} `{DoubleOps D} `{LinAlgBackend D}.

Local Abbreviation mc := (MC.MultiChannelWPEDereverberation D).

(** The object without the buffers the output loops write. *)
Definition mc_config (o : mc) : mc := MC.set_output_ [] (MC.set_lag_samples_ [] o).

Lemma mc_get_lags_config (subbandX : nat) (sampleX : Z) (o : mc) :
  mc_config (MC.get_lags_ subbandX sampleX o) = mc_config o.
Proof.
  unfold MC.get_lags_.
  apply (fold_left_preserves (fun ot : mc * nat => mc_config ot.1 = mc_config o));
    [reflexivity |].
  intros ot channelX E.
  apply (fold_left_preserves (fun ot : mc * nat => mc_config ot.1 = mc_config o)); [exact E |].
  intros [o' totalX] lagX E'. cbn in *. rewrite <- E'. reflexivity.
Qed.

Lemma mc_config_fields (o o' : mc) :
  mc_config o' = mc_config o ->
  MC.size o' = MC.size o /\ MC.frame_no_ o' = MC.frame_no_ o
  /\ MC.estimated_ o' = MC.estimated_ o /\ MC.Gn_ o' = MC.Gn_ o
  /\ MC.lowerN_ o' = MC.lowerN_ o
  /\ MC.lower_bandWidthN_ o' = MC.lower_bandWidthN_ o
  /\ MC.upper_bandWidthN_ o' = MC.upper_bandWidthN_ o
  /\ MC.frames_ o' = MC.frames_ o.
Proof.
  intros E. repeat split.
  - exact (f_equal MC.size E).
  - exact (f_equal MC.frame_no_ E).
  - exact (f_equal MC.estimated_ E).
  - exact (f_equal MC.Gn_ E).
  - exact (f_equal MC.lowerN_ E).
  - exact (f_equal MC.lower_bandWidthN_ E).
  - exact (f_equal MC.upper_bandWidthN_ E).
  - exact (f_equal MC.frames_ E).
Qed.

Lemma mc_get_lags_output (subbandX : nat) (sampleX : Z) (o : mc) :
  MC.output_ (MC.get_lags_ subbandX sampleX o) = MC.output_ o.
Proof.
  unfold MC.get_lags_.
  apply (fold_left_preserves (fun ot : mc * nat => MC.output_ ot.1 = MC.output_ o));
    [reflexivity |].
  intros ot channelX E.
  apply (fold_left_preserves (fun ot : mc * nat => MC.output_ ot.1 = MC.output_ o)); [exact E |].
  intros [o' totalX] lagX E'. cbn in *. rewrite <- E'. reflexivity.
Qed.

(** The condition under which the step subtracts a prediction at a subband. *)
Definition mc_filtered (o : mc) (subbandX : nat) : bool :=
  (Z.of_nat (MC.lowerN_ o) <=? uint32 (MC.frame_no_ o))%Z
  && ((subbandX <=? MC.lower_bandWidthN_ o) || (MC.upper_bandWidthN_ o <=? subbandX)).

(** The value [cur] stored for one channel and subband. *)
Definition mc_cur (current : gsl_vector_complex D) (channelsX subbandX : nat) (o : mc)
  : gsl_complex D :=
  let cur := gsl_vector_complex_get current subbandX in
  if mc_filtered o subbandX then
    let o' := MC.get_lags_ subbandX
                (uint32 (Z.of_nat (length (MC.frames_ o)) - 1 - Z.of_nat (MC.lowerN_ o))) o in
    gsl_complex_sub cur
      (gsl_blas_zdotc
         (gsl_vector_complex_get_row (default [] (MC.Gn_ o' !! channelsX)) subbandX)
         (MC.lag_samples_ o'))
  else cur.

Lemma mc_output_at_config (current : gsl_vector_complex D) (channelsX subbandX : nat) (o : mc) :
  mc_config (MC.output_at current channelsX subbandX o) = mc_config o.
Proof.
  unfold MC.output_at. fold (mc_filtered o subbandX).
  destruct (mc_filtered o subbandX); cbn zeta beta iota.
  - destruct ((0 <? subbandX) && _); unfold mc_config; cbn;
      apply (mc_get_lags_config subbandX _ o).
  - destruct ((0 <? subbandX) && _); reflexivity.
Qed.

Lemma mc_output_at_output (current : gsl_vector_complex D) (channelsX subbandX : nat) (o : mc) :
  MC.output_ (MC.output_at current channelsX subbandX o)
  = let cur := mc_cur current channelsX subbandX o in
    let outs :=
      <[channelsX := gsl_vector_complex_set
                       (gsl_vector_complex_get_row (MC.output_ o) channelsX) subbandX cur]>
        (MC.output_ o) in
    if (0 <? subbandX) && (subbandX <? MC.size o / 2)
    then <[channelsX := gsl_vector_complex_set (gsl_vector_complex_get_row outs channelsX)
                          (MC.size o - subbandX) (gsl_complex_conjugate cur)]> outs
    else outs.
Proof.
  unfold MC.output_at, mc_cur. fold (mc_filtered o subbandX).
  destruct (mc_filtered o subbandX); cbn zeta beta iota.
  - set (o' := MC.get_lags_ _ _ o).
    assert (Es : MC.size o' = MC.size o)
      by exact (f_equal MC.size (mc_get_lags_config _ _ o)).
    assert (Ev : MC.output_ o' = MC.output_ o) by apply mc_get_lags_output.
    unfold MC.size in *. cbn [MC.subbandsN_ MC.output_ MC.set_output_]. rewrite Es, Ev.
    destruct ((0 <? subbandX) && (subbandX <? MC.subbandsN_ o / 2)); reflexivity.
  - unfold MC.size. cbn [MC.subbandsN_ MC.output_ MC.set_output_].
    destruct ((0 <? subbandX) && (subbandX <? MC.subbandsN_ o / 2)); reflexivity.
Qed.

Lemma mc_output_at_length (current : gsl_vector_complex D) (channelsX subbandX : nat) (o : mc) :
  length (MC.output_ (MC.output_at current channelsX subbandX o)) = length (MC.output_ o).
Proof.
  rewrite mc_output_at_output. cbv zeta.
  destruct (_ && _); rewrite ?length_insert; reflexivity.
Qed.

Lemma mc_output_at_other (current : gsl_vector_complex D) (channelsX subbandX c : nat) (o : mc) :
  c <> channelsX ->
  MC.output_ (MC.output_at current channelsX subbandX o) !! c = MC.output_ o !! c.
Proof.
  intros Hc. rewrite mc_output_at_output. cbv zeta.
  destruct (_ && _); rewrite ?list_lookup_insert_ne by congruence; reflexivity.
Qed.

Lemma mc_output_at_row (current : gsl_vector_complex D) (channelsX subbandX : nat) (o : mc) :
  channelsX < length (MC.output_ o) ->
  gsl_vector_complex_get_row (MC.output_ (MC.output_at current channelsX subbandX o)) channelsX
  = write_subband (MC.size o) subbandX (mc_cur current channelsX subbandX o)
                  (gsl_vector_complex_get_row (MC.output_ o) channelsX).
Proof.
  intros Hc. rewrite mc_output_at_output. unfold write_subband. cbv zeta.
  destruct (_ && _).
  - rewrite row_insert_eq by (rewrite length_insert; exact Hc).
    rewrite row_insert_eq by exact Hc. reflexivity.
  - rewrite row_insert_eq by exact Hc. reflexivity.
Qed.

(** The subband loop for one channel, cut after [n] iterations. *)
Definition mc_loop (current : gsl_vector_complex D) (channelsX n : nat) (o : mc) : mc :=
  fold_left (fun o subbandX => MC.output_at current channelsX subbandX o) (seq 0 n) o.

Lemma mc_loop_config (current : gsl_vector_complex D) (channelsX n : nat) (o : mc) :
  mc_config (mc_loop current channelsX n o) = mc_config o.
Proof.
  unfold mc_loop.
  apply (fold_left_preserves (fun o' => mc_config o' = mc_config o)); [reflexivity |].
  intros o' s E. rewrite mc_output_at_config. exact E.
Qed.

Lemma mc_loop_length (current : gsl_vector_complex D) (channelsX n : nat) (o : mc) :
  length (MC.output_ (mc_loop current channelsX n o)) = length (MC.output_ o).
Proof.
  unfold mc_loop.
  apply (fold_left_preserves (fun o' => length (MC.output_ o') = length (MC.output_ o)));
    [reflexivity |].
  intros o' s E. rewrite mc_output_at_length. exact E.
Qed.

Lemma mc_loop_other (current : gsl_vector_complex D) (channelsX n c : nat) (o : mc) :
  c <> channelsX -> MC.output_ (mc_loop current channelsX n o) !! c = MC.output_ o !! c.
Proof.
  intros Hc. unfold mc_loop.
  apply (fold_left_preserves (fun o' => MC.output_ o' !! c = MC.output_ o !! c));
    [reflexivity |].
  intros o' s E. rewrite mc_output_at_other by exact Hc. exact E.
Qed.

(** What the outputs of one channel satisfy once its subband loop is done. *)
Definition mc_row_ok (o0 : mc) (current : gsl_vector_complex D) (channelsX : nat)
    (row : gsl_vector_complex D) : Prop :=
  length row = MC.size o0
  /\ (forall s, s <= MC.size o0 / 2 -> s < MC.size o0 ->
        exists o', mc_config o' = mc_config o0
                   /\ gsl_vector_complex_get row s = mc_cur current channelsX s o')
  /\ (forall s, 0 < s -> s < MC.size o0 / 2 ->
        gsl_vector_complex_get row (MC.size o0 - s)
        = gsl_complex_conjugate (gsl_vector_complex_get row s)).

Lemma mc_loop_inv (current : gsl_vector_complex D) (channelsX : nat) (o0 : mc) :
  channelsX < length (MC.output_ o0) ->
  length (gsl_vector_complex_get_row (MC.output_ o0) channelsX) = MC.size o0 ->
  mc_row_ok o0 current channelsX
    (gsl_vector_complex_get_row
       (MC.output_ (mc_loop current channelsX (S (MC.size o0 / 2)) o0)) channelsX).
Proof.
  intros Hc Hlen.
  destruct (write_subbands_inv (MC.size o0)
              (fun s c => exists o', mc_config o' = mc_config o0
                                     /\ c = mc_cur current channelsX s o')
              (fun k => gsl_vector_complex_get_row
                          (MC.output_ (mc_loop current channelsX k o0)) channelsX)
              (S (MC.size o0 / 2)) Hlen (le_n _)) as (Hl & Hq & Hm).
  - intros k Hk. exists (mc_cur current channelsX k (mc_loop current channelsX k o0)). split.
    + exists (mc_loop current channelsX k o0). split; [apply mc_loop_config | reflexivity].
    + unfold mc_loop at 1. rewrite fold_left_seq_snoc. fold (mc_loop current channelsX k o0).
      rewrite mc_output_at_row by (rewrite mc_loop_length; exact Hc).
      assert (Es : MC.size (mc_loop current channelsX k o0) = MC.size o0)
        by exact (f_equal MC.size (mc_loop_config current channelsX k o0)).
      rewrite Es. reflexivity.
  - split; [exact Hl |]. split.
    + intros s Hs HsN. apply Hq; lia.
    + intros s Hs0 Hsh. apply Hm; lia.
Qed.

(** The channel loop, cut after the first [m] channels. *)
Definition mc_outputs (fbrace : list (gsl_vector_complex D)) (m : nat) (o : mc) : mc :=
  fold_left
    (fun o channelsX =>
       let current := gsl_vector_complex_get_row fbrace channelsX in
       fold_left (fun o subbandX => MC.output_at current channelsX subbandX o)
                 (seq 0 (S (MC.size o / 2))) o)
    (seq 0 m) o.

Lemma mc_outputs_inv (fbrace : list (gsl_vector_complex D)) (o0 : mc) (m : nat) :
  m <= length (MC.output_ o0) ->
  (forall c, c < m -> length (gsl_vector_complex_get_row (MC.output_ o0) c) = MC.size o0) ->
  let o := mc_outputs fbrace m o0 in
  mc_config o = mc_config o0
  /\ length (MC.output_ o) = length (MC.output_ o0)
  /\ (forall c, m <= c -> MC.output_ o !! c = MC.output_ o0 !! c)
  /\ (forall c, c < m ->
        mc_row_ok o0 (gsl_vector_complex_get_row fbrace c) c
                  (gsl_vector_complex_get_row (MC.output_ o) c)).
Proof.
  induction m as [|m IH]; intros Hm Hrows.
  - cbn. repeat split; intros; lia.
  - destruct IH as (Hc & Hl & Hge & Hlt); [lia | intros c Hc; apply Hrows; lia |].
    cbv zeta. unfold mc_outputs. rewrite fold_left_seq_snoc. fold (mc_outputs fbrace m o0).
    set (o := mc_outputs fbrace m o0) in *.
    set (current := gsl_vector_complex_get_row fbrace m).
    fold (mc_loop current m (S (MC.size o / 2)) o).
    assert (Es : MC.size o = MC.size o0) by exact (f_equal MC.size Hc).
    split; [rewrite mc_loop_config; exact Hc |].
    split; [rewrite mc_loop_length; exact Hl |].
    split; [intros c Hcm; rewrite mc_loop_other by lia; apply Hge; lia |].
    intros c Hcm. destruct (decide (c = m)) as [->|Hne].
    + assert (Hrow : gsl_vector_complex_get_row (MC.output_ o) m
                     = gsl_vector_complex_get_row (MC.output_ o0) m)
        by (unfold gsl_vector_complex_get_row; rewrite Hge by lia; reflexivity).
      pose proof (mc_loop_inv current m o ltac:(lia)
                    ltac:(rewrite Hrow, Es; apply Hrows; lia)) as (R1 & R2 & R3).
      rewrite Es in *. split; [exact R1 |]. split.
      * intros s Hs HsN. destruct (R2 s Hs HsN) as (o' & Ho' & E).
        exists o'. split; [congruence | exact E].
      * exact R3.
    + unfold gsl_vector_complex_get_row. rewrite mc_loop_other by exact Hne.
      apply Hlt. lia.
Qed.

(** The channel loop that pulls a frame brace: each channel's frame is the
    next frame of that channel's source, and only the sources change. *)
Lemma pull_brace_spec (l : list nat) (brace : list (gsl_vector_complex D)) (o o' : mc)
    (fbrace : list (gsl_vector_complex D)) :
  MC.pull_brace l brace o = (o', Some fbrace) ->
  NoDup l ->
  (forall c, c ∈ l -> c < length brace) ->
  o' = MC.set_sources_ (MC.sources_ o') o
  /\ length fbrace = length brace
  /\ (forall c, c ∉ l -> fbrace !! c = brace !! c)
  /\ (forall c, c ∈ l ->
        exists src src' block,
          MC.sources_ o !! c = Some src
          /\ stream_next src = (src', Some block)
          /\ fbrace !! c = Some block).
Proof.
  revert brace o. induction l as [|c l IH]; intros brace o Hpull Hnd Hlen; simpl in Hpull.
  - injection Hpull as <- <-. repeat split.
    + destruct o; reflexivity.
    + intros c Hc. inversion Hc.
  - destruct (MC.sources_ o !! c) as [src|] eqn:Hsrc; [| discriminate].
    destruct (stream_next src) as [src' [block|]] eqn:Hnext; [| discriminate].
    apply NoDup_cons in Hnd as [Hc Hnd].
    apply IH in Hpull as (Ho' & Hl & Hout & Hin); [| exact Hnd |].
    + split; [rewrite Ho'; reflexivity |].
      split; [rewrite Hl, length_insert; reflexivity |].
      split.
      * intros c' Hc'. rewrite Hout by (intros Hin'; apply Hc'; right; exact Hin').
        apply list_lookup_insert_ne. intros ->. apply Hc'. left.
      * intros c' Hc'. apply elem_of_cons in Hc' as [->|Hc'].
        -- exists src, src', block. split; [exact Hsrc |]. split; [exact Hnext |].
           rewrite Hout by exact Hc. apply list_lookup_insert_eq. apply Hlen. left.
        -- destruct (Hin c' Hc') as (s1 & s1' & b1 & E1 & E2 & E3).
           exists s1, s1', b1. split; [| split; assumption].
           cbn in E1. rewrite list_lookup_insert_ne in E1; [exact E1 |].
           intros ->. contradiction.
    + intros c' Hc'. rewrite length_insert. apply Hlen. right. exact Hc'.
Qed.

Lemma pull_brace_channels (l : list nat) (brace : list (gsl_vector_complex D)) (o o' : mc)
    (r : option (list (gsl_vector_complex D))) :
  MC.pull_brace l brace o = (o', r) -> MC.channelsN_ o' = MC.channelsN_ o.
Proof.
  revert brace o. induction l as [|c l IH]; intros brace o Hpull; simpl in Hpull.
  - injection Hpull as <- _. reflexivity.
  - destruct (MC.sources_ o !! c) as [src|]; [| injection Hpull as <- _; reflexivity].
    destruct (stream_next src) as [src' [block|]].
    + apply IH in Hpull. exact Hpull.
    + injection Hpull as <- _. reflexivity.
Qed.

Lemma mc_push_brace_fields (fbrace : list (gsl_vector_complex D)) (o : mc) :
  let o1 := MC.push_brace fbrace o in
  MC.size o1 = MC.size o /\ MC.output_ o1 = MC.output_ o
  /\ MC.frame_no_ o1 = MC.frame_no_ o /\ MC.estimated_ o1 = MC.estimated_ o
  /\ MC.channelsN_ o1 = MC.channelsN_ o /\ MC.lowerN_ o1 = MC.lowerN_ o
  /\ MC.lower_bandWidthN_ o1 = MC.lower_bandWidthN_ o
  /\ MC.upper_bandWidthN_ o1 = MC.upper_bandWidthN_ o.
Proof.
  unfold MC.push_brace. cbv zeta. destruct (_ <=? _); repeat split; reflexivity.
Qed.

(** The outcomes of [calc_every_channel_output], by the branch taken. *)
Lemma mc_calc_cases (frame_no : Z) (o : mc) :
  (MC.estimated_ o = false
   /\ MC.calc_every_channel_output frame_no o = (o, Throw jinitialization_error))
  \/ (MC.estimated_ o = true /\ (0 <= frame_no)%Z /\ (frame_no - 1)%Z <> MC.frame_no_ o
      /\ MC.calc_every_channel_output frame_no o
         = (o, Throw (jindex_error frame_no (MC.frame_no_ o))))
  \/ (MC.estimated_ o = true
      /\ ((frame_no < 0)%Z \/ (frame_no - 1)%Z = MC.frame_no_ o)
      /\ ((exists o1,
              MC.pull_brace (seq 0 (MC.channelsN_ o)) (replicate (MC.channelsN_ o) [])
                            (MC.increment_ o) = (o1, None)
              /\ MC.calc_every_channel_output frame_no o = (o1, Throw jiterator_error))
          \/ (exists o1 fbrace,
                 MC.pull_brace (seq 0 (MC.channelsN_ o)) (replicate (MC.channelsN_ o) [])
                               (MC.increment_ o) = (o1, Some fbrace)
                 /\ MC.calc_every_channel_output frame_no o
                    = (let o2 := mc_outputs fbrace (MC.channelsN_ o)
                                            (MC.push_brace fbrace o1) in
                       (o2, Return (MC.output_ o2)))))).
Proof.
  unfold MC.calc_every_channel_output.
  destruct (MC.estimated_ o) eqn:He; cbn [negb]; [right | left; auto].
  assert (Hstep :
    (exists o1,
        MC.pull_brace (seq 0 (MC.channelsN_ o)) (replicate (MC.channelsN_ o) [])
                      (MC.increment_ o) = (o1, None)
        /\ (let o := MC.increment_ o in
            match MC.pull_brace (seq 0 (MC.channelsN_ o)) (replicate (MC.channelsN_ o) []) o
            with
            | (o, None) => (o, Throw jiterator_error)
            | (o, Some fbrace) =>
                let o := MC.push_brace fbrace o in
                let o :=
                  fold_left
                    (fun o channelsX =>
                       let current := gsl_vector_complex_get_row fbrace channelsX in
                       fold_left (fun o subbandX => MC.output_at current channelsX subbandX o)
                                 (seq 0 (S (MC.size o / 2))) o)
                    (seq 0 (MC.channelsN_ o)) o in
                (o, Return (MC.output_ o))
            end) = (o1, Throw jiterator_error))
    \/ (exists o1 fbrace,
           MC.pull_brace (seq 0 (MC.channelsN_ o)) (replicate (MC.channelsN_ o) [])
                         (MC.increment_ o) = (o1, Some fbrace)
           /\ (let o := MC.increment_ o in
               match MC.pull_brace (seq 0 (MC.channelsN_ o)) (replicate (MC.channelsN_ o) []) o
               with
               | (o, None) => (o, Throw jiterator_error)
               | (o, Some fbrace) =>
                   let o := MC.push_brace fbrace o in
                   let o :=
                     fold_left
                       (fun o channelsX =>
                          let current := gsl_vector_complex_get_row fbrace channelsX in
                          fold_left
                            (fun o subbandX => MC.output_at current channelsX subbandX o)
                            (seq 0 (S (MC.size o / 2))) o)
                       (seq 0 (MC.channelsN_ o)) o in
                   (o, Return (MC.output_ o))
               end)
              = (let o2 := mc_outputs fbrace (MC.channelsN_ o) (MC.push_brace fbrace o1) in
                 (o2, Return (MC.output_ o2))))).
  { cbv zeta. change (MC.channelsN_ (MC.increment_ o)) with (MC.channelsN_ o).
    destruct (MC.pull_brace _ _ (MC.increment_ o)) as [o1 [fbrace|]] eqn:Hpull.
    - right. exists o1, fbrace. split; [reflexivity |].
      apply pull_brace_channels in Hpull.
      destruct (mc_push_brace_fields fbrace o1) as (_ & _ & _ & _ & Ech & _).
      cbv zeta in Ech. rewrite Ech, Hpull. reflexivity.
    - left. exists o1. split; reflexivity. }
  destruct (Z.leb_spec 0 frame_no) as [Hpos|Hneg]; cbn [andb].
  - destruct (Z.eqb_spec (frame_no - 1) (MC.frame_no_ o)) as [Hseq|Hseq]; cbn [negb].
    + right. split; [reflexivity |]. split; [right; exact Hseq | exact Hstep].
    + left. repeat split; assumption.
  - right. split; [reflexivity |]. split; [left; exact Hneg | exact Hstep].
Qed.

Lemma mc_outputs_config (fbrace : list (gsl_vector_complex D)) (m : nat) (o : mc) :
  mc_config (mc_outputs fbrace m o) = mc_config o.
Proof.
  unfold mc_outputs.
  apply (fold_left_preserves (fun o' => mc_config o' = mc_config o)); [reflexivity |].
  intros o' c E. cbv zeta.
  fold (mc_loop (gsl_vector_complex_get_row fbrace c) c (S (MC.size o' / 2)) o').
  rewrite mc_loop_config. exact E.
Qed.

(** The output buffers are allocated: one vector of [size()] elements per
    channel (the constructor does it, and no method resizes them). *)
Definition mc_output_allocated (o : mc) : Prop :=
  length (MC.output_ o) = MC.channelsN_ o
  /\ forall c, c < MC.channelsN_ o ->
       length (gsl_vector_complex_get_row (MC.output_ o) c) = MC.size o.

(** A step that pulled a brace: the output of each channel in terms of the
    values computed per subband; [block] is the frame its source handed out. *)
Lemma mc_calc_output (o o' : mc) (frame_no : Z) (out : list (gsl_vector_complex D)) :
  MC.calc_every_channel_output frame_no o = (o', Return out) ->
  mc_output_allocated o ->
  exists o1,
    out = MC.output_ o'
    /\ mc_config o' = mc_config o1
    /\ MC.size o1 = MC.size o
    /\ MC.Gn_ o1 = MC.Gn_ o
    /\ MC.lower_bandWidthN_ o1 = MC.lower_bandWidthN_ o
    /\ MC.upper_bandWidthN_ o1 = MC.upper_bandWidthN_ o
    /\ MC.frame_no_ o1 = (MC.frame_no_ o + 1)%Z
    /\ MC.estimated_ o1 = MC.estimated_ o
    /\ forall c, c < MC.channelsN_ o ->
         exists src src' block,
           MC.sources_ o !! c = Some src
           /\ stream_next src = (src', Some block)
           /\ mc_row_ok o1 block c (gsl_vector_complex_get_row out c).
Proof.
  intros Hcalc [Hlen Hrows].
  destruct (mc_calc_cases frame_no o) as [(_ & E) | [(_ & _ & _ & E) | (_ & _ & Hpull)]].
  - rewrite E in Hcalc. discriminate.
  - rewrite E in Hcalc. discriminate.
  - destruct Hpull as [(o1 & _ & E) | (o1 & fbrace & Hp & E)].
    + rewrite E in Hcalc. discriminate.
    + rewrite E in Hcalc. cbv zeta in Hcalc. injection Hcalc as <- <-.
      apply pull_brace_spec in Hp as (Ho1 & Hfl & _ & Hin);
        [| apply NoDup_seq
         | intros c Hc; apply elem_of_seq in Hc; rewrite length_replicate; lia].
      destruct (mc_push_brace_fields fbrace o1) as (Es & Eo & Ef & Ee & Ech & El & Elb & Eub).
      cbv zeta in Es, Eo, Ef, Ee, Ech, El, Elb, Eub.
      set (o2 := MC.push_brace fbrace o1) in *.
      assert (F : MC.size o1 = MC.size o /\ MC.output_ o1 = MC.output_ o
                  /\ MC.Gn_ o1 = MC.Gn_ o
                  /\ MC.lower_bandWidthN_ o1 = MC.lower_bandWidthN_ o
                  /\ MC.upper_bandWidthN_ o1 = MC.upper_bandWidthN_ o
                  /\ MC.frame_no_ o1 = (MC.frame_no_ o + 1)%Z
                  /\ MC.estimated_ o1 = MC.estimated_ o)
        by (rewrite Ho1; repeat split; reflexivity).
      destruct F as (Fs & Fo & Fg & Flb & Fub & Ff & Fe).
      destruct (mc_outputs_inv fbrace o2 (MC.channelsN_ o)) as (Hc & Hl & _ & Hlt).
      { rewrite Eo, Fo, Hlen. apply le_n. }
      { intros c Hc. rewrite Eo, Fo, Es, Fs. apply Hrows. exact Hc. }
      exists o2. split; [reflexivity |]. split; [exact Hc |].
      split; [congruence |].
      split; [unfold o2, MC.push_brace; destruct (_ <=? _); exact Fg |].
      split; [congruence |]. split; [congruence |]. split; [congruence |].
      split; [congruence |].
      intros c Hcl.
      destruct (Hin c) as (src & src' & block & E1 & E2 & E3);
        [apply elem_of_seq; lia |].
      exists src, src', block. split; [exact E1 |]. split; [exact E2 |].
      specialize (Hlt c Hcl). unfold gsl_vector_complex_get_row at 1 in Hlt.
      rewrite E3 in Hlt. exact Hlt.
Qed.

End MCStep.

(* ------------------------------------------------------------------ *)
(** ** What the estimation leaves alone *)

Section EstimationFrame.
Context {D : Type} `{DoubleOps D} `{LinAlgBackend D}.

Local Abbreviation sc := (SC.SingleChannelWPEDereverberationFeature D).
Local Abbreviation mc := (MC.MultiChannelWPEDereverberation D).

(** The members of the stream base class that the estimation never writes. *)
Definition sc_same_stream (o o' : sc) : Prop :=
  SC.size o' = SC.size o /\ SC.vector_ o' = SC.vector_ o
  /\ SC.frame_no_ o' = SC.frame_no_ o.

Lemma sc_get_lags_same (o o' : sc) (subbandX : nat) (sampleX : Z) :
  sc_same_stream o o' -> sc_same_stream o (SC.get_lags_ subbandX sampleX o').
Proof.
  intros Ho. unfold SC.get_lags_.
  apply fold_left_preserves; [exact Ho | intros a b Ha; exact Ha].
Qed.

Lemma sc_calc_Thetan_same (o o' : sc) :
  sc_same_stream o o' -> sc_same_stream o (SC.calc_Thetan_ o').
Proof.
  intros Ho. unfold SC.calc_Thetan_.
  apply (fold_left_preserves (fun p => sc_same_stream o p.1)); [exact Ho |].
  intros [a sampleX] frame Ha. cbn [fst] in *.
  apply fold_left_preserves; [exact Ha |].
  intros b subbandX Hb. unfold SC.calc_Thetan_at.
  destruct (SC.lowerN_ b <=? sampleX); [| exact Hb].
  exact (sc_get_lags_same o b subbandX _ Hb).
Qed.

Lemma sc_calc_Rr_same (o o' : sc) (subbandX : nat) :
  sc_same_stream o o' -> sc_same_stream o (SC.calc_Rr_ subbandX o').
Proof.
  intros Ho. unfold SC.calc_Rr_. cbv zeta.
  apply (fold_left_preserves (fun p => sc_same_stream o p.1)).
  - cbn [fst]. apply fold_left_preserves; [exact Ho |].
    intros a sampleX Ha. exact (sc_get_lags_same o a subbandX _ Ha).
  - intros [a sampleX] frame Ha. cbn [fst] in *.
    destruct (sampleX <? SC.lowerN_ a); [exact Ha |].
    exact (sc_get_lags_same o a subbandX _ Ha).
Qed.

Lemma sc_load_R_same (o o' : sc) :
  sc_same_stream o o' -> sc_same_stream o (SC.load_R_ o').
Proof.
  intros Ho. unfold SC.load_R_. cbv zeta.
  apply fold_left_preserves; [exact Ho | intros a b Ha; exact Ha].
Qed.

Lemma sc_estimate_Gn_same (o o' : sc) :
  sc_same_stream o o' -> sc_same_stream o (SC.estimate_Gn_ o').1.
Proof.
  intros Ho. unfold SC.estimate_Gn_.
  apply for_each_preserves; [exact Ho |].
  intros iterationX a Ha. cbv zeta.
  apply for_each_preserves; [apply sc_calc_Thetan_same, Ha |].
  intros subbandX b Hb. unfold SC.estimate_Gn_at.
  destruct (_ && _); [exact Hb |]. cbv zeta.
  pose proof (sc_load_R_same o _ (sc_calc_Rr_same o b subbandX Hb)) as Hl.
  destruct (gsl_linalg_complex_cholesky_decomp _); exact Hl.
Qed.

Lemma sc_fill_loop_same (o : sc) (fuel : nat) (start_frame_no end_frame_no frX : Z)
    (o1 o2 : sc) :
  SC.fill_loop fuel start_frame_no end_frame_no frX o1 = Some o2 ->
  sc_same_stream o o1 -> sc_same_stream o o2.
Proof.
  revert frX o1. induction fuel as [|fuel IH]; intros frX o1 Hf Ho; simpl in Hf;
    [discriminate |].
  destruct (_ && _); [injection Hf as <-; exact Ho |].
  destruct (start_frame_no <=? frX)%Z; [| exact (IH _ _ Hf Ho)].
  destruct (stream_next (SC.samples_ o1)) as [src [block|]].
  - exact (IH _ _ Hf Ho).
  - injection Hf as <-. exact Ho.
Qed.

Lemma sc_fill_buffer_same (o o' : sc) (start_frame_no end_frame_no : Z) :
  sc_same_stream o o' -> sc_same_stream o (SC.fill_buffer_ start_frame_no end_frame_no o').
Proof.
  intros Ho. unfold SC.fill_buffer_. cbv zeta.
  destruct (SC.fill_loop _ _ _ _ o') as [o1|] eqn:Hf; [| exact Ho].
  exact (sc_fill_loop_same o _ _ _ _ _ _ Hf Ho).
Qed.

(** [estimate_filter], returning or not, keeps the size, the output buffer
    and the frame counter of the feature. *)
Lemma sc_estimate_filter_same (o : sc) (start_frame_no end_frame_no : Z) :
  sc_same_stream o (SC.estimate_filter start_frame_no end_frame_no o).1.
Proof.
  unfold SC.estimate_filter. cbv zeta.
  assert (Hf : sc_same_stream o (SC.fill_buffer_ start_frame_no end_frame_no o))
    by (apply sc_fill_buffer_same; repeat split).
  pose proof (sc_estimate_Gn_same o _ Hf) as Hg.
  destruct (SC.estimate_Gn_ _) as [o1 [u|e]]; exact Hg.
Qed.

(** The constructor allocates the output buffer with [size()] elements. *)
Lemma sc_create_allocated (samples : VectorComplexFeatureStream D)
    (lowerN upperN iterationsN : nat) (load_factor : D) (lower_bandWidthN : nat) :
  let o := SC.create samples lowerN upperN iterationsN load_factor lower_bandWidthN in
  length (SC.vector_ o) = SC.size o /\ SC.frame_no_ o = (-1)%Z.
Proof.
  cbv zeta. cbn [SC.create SC.vector_ SC.size SC.frame_no_].
  unfold gsl_vector_complex_calloc. rewrite length_replicate. split; reflexivity.
Qed.

(** The same for the multi-channel object: its dimensions, its output
    buffers and its frame counter. *)
Definition mc_same_stream (o o' : mc) : Prop :=
  MC.subbandsN_ o' = MC.subbandsN_ o /\ MC.channelsN_ o' = MC.channelsN_ o
  /\ MC.output_ o' = MC.output_ o /\ MC.frame_no_ o' = MC.frame_no_ o.

Lemma mc_get_lags_same (o o' : mc) (subbandX : nat) (sampleX : Z) :
  mc_same_stream o o' -> mc_same_stream o (MC.get_lags_ subbandX sampleX o').
Proof.
  intros Ho. unfold MC.get_lags_.
  apply (fold_left_preserves (fun p => mc_same_stream o p.1)); [exact Ho |].
  intros ot channelX Hot.
  apply (fold_left_preserves (fun p => mc_same_stream o p.1)); [exact Hot |].
  intros [a totalX] lagX Ha. exact Ha.
Qed.

Lemma mc_calc_Thetan_same (o o' : mc) :
  mc_same_stream o o' -> mc_same_stream o (MC.calc_Thetan_ o').
Proof.
  intros Ho. unfold MC.calc_Thetan_.
  apply (fold_left_preserves (fun p => mc_same_stream o p.1)); [exact Ho |].
  intros [a sampleX] brace Ha. cbn [fst] in *.
  apply fold_left_preserves; [exact Ha |]. intros b channelX Hb.
  apply fold_left_preserves; [exact Hb |]. intros c subbandX Hc.
  unfold MC.calc_Thetan_at. cbv zeta.
  destruct (MC.lowerN_ c <=? sampleX); [| exact Hc].
  exact (mc_get_lags_same o c subbandX _ Hc).
Qed.

Lemma mc_calc_Rr_same (o o' : mc) (subbandX : nat) :
  mc_same_stream o o' -> mc_same_stream o (MC.calc_Rr_ subbandX o').
Proof.
  intros Ho. unfold MC.calc_Rr_. cbv zeta.
  apply fold_left_preserves.
  - apply fold_left_preserves; [exact Ho |]. intros a channelX Ha.
    unfold MC.add_diagonal_bias.
    apply fold_left_preserves; [| intros b rowX Hb; exact Hb].
    unfold MC.calc_R_channel. cbv zeta.
    apply fold_left_preserves; [exact Ha |]. intros b sampleX Hb.
    exact (mc_get_lags_same o b subbandX _ Hb).
  - intros a channelX Ha. unfold MC.calc_r_channel. cbv zeta.
    apply (fold_left_preserves (fun p => mc_same_stream o p.1)); [exact Ha |].
    intros [b sampleX] frame Hb. cbn [fst] in *.
    destruct (sampleX <? MC.lowerN_ b); [exact Hb |].
    exact (mc_get_lags_same o b subbandX _ Hb).
Qed.

Lemma mc_load_R_same (o o' : mc) :
  mc_same_stream o o' -> mc_same_stream o (MC.load_R_ o').
Proof.
  intros Ho. unfold MC.load_R_.
  apply fold_left_preserves; [exact Ho |]. intros a channelX Ha.
  unfold MC.load_R_channel. cbv zeta.
  apply fold_left_preserves; [exact Ha | intros b componentX Hb; exact Hb].
Qed.

Lemma mc_estimate_Gn_same (o o' : mc) :
  mc_same_stream o o' -> mc_same_stream o (MC.estimate_Gn_ o').1.
Proof.
  intros Ho. unfold MC.estimate_Gn_.
  apply for_each_preserves; [exact Ho |].
  intros iterationX a Ha. cbv zeta.
  apply for_each_preserves; [apply mc_calc_Thetan_same, Ha |].
  intros subbandX b Hb. unfold MC.estimate_Gn_at.
  destruct (_ && _); [exact Hb |]. cbv zeta.
  apply for_each_preserves; [apply mc_load_R_same, mc_calc_Rr_same, Hb |].
  intros channelX c Hc. unfold MC.solve_channel.
  destruct (gsl_linalg_complex_cholesky_decomp _); exact Hc.
Qed.

Lemma mc_pull_brace_same (o : mc) (l : list nat) (brace : list (gsl_vector_complex D))
    (o1 : mc) :
  mc_same_stream o o1 -> mc_same_stream o (MC.pull_brace l brace o1).1.
Proof.
  revert brace o1. induction l as [|c l IH]; intros brace o1 Ho; simpl; [exact Ho |].
  destruct (MC.sources_ o1 !! c) as [src|]; [| exact Ho].
  destruct (stream_next src) as [src' [block|]]; [| exact Ho].
  apply IH. exact Ho.
Qed.

Lemma mc_fill_loop_same (o : mc) (fuel : nat) (start_frame_no end_frame_no frX : Z)
    (o1 o2 : mc) :
  MC.fill_loop fuel start_frame_no end_frame_no frX o1 = Some o2 ->
  mc_same_stream o o1 -> mc_same_stream o o2.
Proof.
  revert end_frame_no frX o1.
  induction fuel as [|fuel IH]; intros end_frame_no frX o1 Hf Ho; simpl in Hf;
    [discriminate |].
  destruct (_ && _); [injection Hf as <-; exact Ho |].
  destruct (start_frame_no <=? frX)%Z; [| exact (IH _ _ _ Hf Ho)].
  pose proof (mc_pull_brace_same o (seq 0 (MC.channelsN_ o1))
                (replicate (MC.channelsN_ o1) []) o1 Ho) as Hp.
  destruct (MC.pull_brace _ _ o1) as [o3 [fbrace|]]; exact (IH _ _ _ Hf Hp).
Qed.

Lemma mc_pull_brace_thetan (l : list nat) (brace : list (gsl_vector_complex D)) (o : mc) :
  MC.thetan_ (MC.pull_brace l brace o).1 = MC.thetan_ o.
Proof.
  revert brace o. induction l as [|c l IH]; intros brace o; simpl; [reflexivity |].
  destruct (MC.sources_ o !! c) as [src|]; [| reflexivity].
  destruct (stream_next src) as [src' [block|]]; [| reflexivity].
  rewrite IH. reflexivity.
Qed.

Lemma mc_fill_loop_thetan (fuel : nat) (start_frame_no end_frame_no frX : Z) (o1 o2 : mc) :
  MC.fill_loop fuel start_frame_no end_frame_no frX o1 = Some o2 ->
  length (MC.thetan_ o2) = length (MC.thetan_ o1).
Proof.
  revert end_frame_no frX o1.
  induction fuel as [|fuel IH]; intros end_frame_no frX o1 Hf; simpl in Hf; [discriminate |].
  destruct (_ && _); [injection Hf as <-; reflexivity |].
  destruct (start_frame_no <=? frX)%Z; [| exact (IH _ _ _ Hf)].
  pose proof (mc_pull_brace_thetan (seq 0 (MC.channelsN_ o1))
                (replicate (MC.channelsN_ o1) []) o1) as Hp.
  destruct (MC.pull_brace _ _ o1) as [o3 [fbrace|]]; cbn [fst] in Hp;
    rewrite (IH _ _ _ Hf); cbn [MC.thetan_ MC.set_frames_]; rewrite Hp; reflexivity.
Qed.

Lemma mc_fill_buffer_same (o o' : mc) (start_frame_no end_frame_no : Z) :
  mc_same_stream o o' -> mc_same_stream o (MC.fill_buffer_ start_frame_no end_frame_no o').
Proof.
  intros Ho. unfold MC.fill_buffer_. cbv zeta.
  apply fold_left_preserves; [| intros a channelX Ha; exact Ha].
  destruct (MC.fill_loop _ _ _ _ o') as [o1|] eqn:Hf; [| exact Ho].
  exact (mc_fill_loop_same o _ _ _ _ _ _ Hf Ho).
Qed.

(** [estimate_filter], returning or not, keeps the dimensions, the output
    buffers and the frame counter of the object. *)
Lemma mc_estimate_filter_same (o : mc) (start_frame_no end_frame_no : Z) :
  mc_same_stream o (MC.estimate_filter start_frame_no end_frame_no o).1.
Proof.
  unfold MC.estimate_filter. cbv zeta.
  assert (Hf : mc_same_stream o (MC.fill_buffer_ start_frame_no end_frame_no o))
    by (apply mc_fill_buffer_same; repeat split).
  pose proof (mc_estimate_Gn_same o _ Hf) as Hg.
  destruct (MC.estimate_Gn_ _) as [o1 [u|e]]; exact Hg.
Qed.

Lemma mc_set_input_same (o : mc) (samples : VectorComplexFeatureStream D) :
  mc_same_stream o (MC.set_input samples o).1.
Proof.
  unfold MC.set_input. destruct (_ =? _); repeat split.
Qed.

(** The constructor allocates one output buffer of [size()] elements per
    channel, and nothing above changes that. *)
Lemma mc_create_allocated (subbandsN channelsN lowerN upperN iterationsN : nat)
    (load_factor : D) (lower_bandWidthN : nat) (diagonal_bias : D)
    (Gn0 : gsl_vector_complex D) :
  let o := MC.create subbandsN channelsN lowerN upperN iterationsN load_factor
                     lower_bandWidthN diagonal_bias Gn0 in
  mc_output_allocated o /\ MC.frame_no_ o = (-1)%Z.
Proof.
  cbv zeta. split; [| reflexivity]. unfold mc_output_allocated, MC.size.
  cbn [MC.create MC.output_ MC.channelsN_ MC.subbandsN_].
  split; [apply length_replicate |].
  intros c Hc. unfold gsl_vector_complex_get_row.
  rewrite lookup_replicate_2 by exact Hc.
  apply length_replicate.
Qed.

Lemma mc_same_stream_allocated (o o' : mc) :
  mc_same_stream o o' -> mc_output_allocated o -> mc_output_allocated o'.
Proof.
  intros (Es & Ec & Eo & _) Ho. unfold mc_output_allocated, MC.size in *.
  rewrite Es, Ec, Eo. exact Ho.
Qed.

End EstimationFrame.

(* ------------------------------------------------------------------ *)
(** ** The claims about the streaming step *)

Section StreamingClaims.
Context {D : Type} `{DoubleOps D} `{LinAlgBackend D}.

Local Abbreviation sc := (SC.SingleChannelWPEDereverberationFeature D).
Local Abbreviation mc := (MC.MultiChannelWPEDereverberation D).

(** C3 (passthrough). In a streaming step that pulled the frame [block], the
    output at a subband [s] strictly between the two band limits, up to the
    Nyquist subband, is the raw value [block[s]]: for the single-channel
    [next], and for every channel of [calc_every_channel_output]. The
    predictor and the lag buffer are arbitrary. *)
Theorem passthrough_between_band_limits :
  (forall (o o' : sc) (frame_no : Z) (v : gsl_vector_complex D)
          (src : VectorComplexFeatureStream D) (block : gsl_vector_complex D) (s : nat),
      SC.next frame_no o = (o', Return v) ->
      frame_no <> SC.frame_no_ o ->
      stream_next (SC.samples_ o) = (src, Some block) ->
      length (SC.vector_ o) = SC.size o ->
      SC.lower_bandWidthN_ o < s -> s < SC.upper_bandWidthN_ o -> s <= SC.size o / 2 ->
      gsl_vector_complex_get v s = gsl_vector_complex_get block s)
  /\ (forall (o o' : mc) (frame_no : Z) (out : list (gsl_vector_complex D))
             (c : nat) (src src' : VectorComplexFeatureStream D)
             (block : gsl_vector_complex D) (s : nat),
         MC.calc_every_channel_output frame_no o = (o', Return out) ->
         mc_output_allocated o ->
         c < MC.channelsN_ o ->
         MC.sources_ o !! c = Some src ->
         stream_next src = (src', Some block) ->
         MC.lower_bandWidthN_ o < s -> s < MC.upper_bandWidthN_ o -> s <= MC.size o / 2 ->
         gsl_vector_complex_get (gsl_vector_complex_get_row out c) s
         = gsl_vector_complex_get block s).
Proof.
  split.
  - intros o o' frame_no v src block s Hnext Hne Hsrc Hlen Hlo Hup Hs.
    pose proof (half_bounds (SC.size o)) as Hhalf.
    destruct (sc_next_output o o' frame_no v src block Hnext Hne Hsrc Hlen)
      as (_ & _ & _ & Hq & _).
    destruct (Hq s Hs ltac:(lia)) as (o'' & Hc & ->).
    destruct (sc_pulled_fields src block o) as (_ & _ & _ & _ & _ & _ & Elb & Eub & _).
    cbv zeta in Elb, Eub.
    destruct (sc_config_fields _ _ Hc) as (_ & _ & _ & _ & _ & E1 & E2 & _).
    unfold sc_cur, sc_filtered. rewrite E1, E2, Elb, Eub.
    replace (s <=? SC.lower_bandWidthN_ o) with false by (symmetry; apply Nat.leb_gt; lia).
    replace (SC.upper_bandWidthN_ o <=? s) with false by (symmetry; apply Nat.leb_gt; lia).
    rewrite andb_false_r. reflexivity.
  - intros o o' frame_no out c src src' block s Hcalc Halloc Hc Hsrc Hnext Hlo Hup Hs.
    pose proof (half_bounds (MC.size o)) as Hhalf.
    destruct (mc_calc_output o o' frame_no out Hcalc Halloc)
      as (o1 & _ & _ & Es & _ & Elb & Eub & _ & _ & Hrow).
    destruct (Hrow c Hc) as (src0 & src0' & block0 & Hs0 & Hn0 & _ & Hq & _).
    rewrite Hsrc in Hs0. injection Hs0 as <-.
    rewrite Hnext in Hn0. injection Hn0 as <- <-.
    rewrite Es in Hq. destruct (Hq s Hs ltac:(lia)) as (o'' & Hcfg & ->).
    destruct (mc_config_fields _ _ Hcfg) as (_ & _ & _ & _ & _ & E1 & E2 & _).
    unfold mc_cur, mc_filtered. rewrite E1, E2, Elb, Eub.
    replace (s <=? MC.lower_bandWidthN_ o) with false by (symmetry; apply Nat.leb_gt; lia).
    replace (MC.upper_bandWidthN_ o <=? s) with false by (symmetry; apply Nat.leb_gt; lia).
    rewrite andb_false_r. reflexivity.
Qed.

(** C4 (conjugate symmetry). In the output of a streaming step, for every
    subband [0 < s < size()/2], the value at [size() - s] is the complex
    conjugate of the value at [s]: for the single-channel [next], and for
    every channel of [calc_every_channel_output]. *)
Theorem output_conjugate_symmetry :
  (forall (o o' : sc) (frame_no : Z) (v : gsl_vector_complex D) (s : nat),
      SC.next frame_no o = (o', Return v) ->
      frame_no <> SC.frame_no_ o ->
      length (SC.vector_ o) = SC.size o ->
      0 < s -> s < SC.size o / 2 ->
      gsl_vector_complex_get v (SC.size o - s)
      = gsl_complex_conjugate (gsl_vector_complex_get v s))
  /\ (forall (o o' : mc) (frame_no : Z) (out : list (gsl_vector_complex D)) (c s : nat),
         MC.calc_every_channel_output frame_no o = (o', Return out) ->
         mc_output_allocated o ->
         c < MC.channelsN_ o ->
         0 < s -> s < MC.size o / 2 ->
         gsl_vector_complex_get (gsl_vector_complex_get_row out c) (MC.size o - s)
         = gsl_complex_conjugate
             (gsl_vector_complex_get (gsl_vector_complex_get_row out c) s)).
Proof.
  split.
  - intros o o' frame_no v s Hnext Hne Hlen Hs0 Hs.
    destruct (sc_next_cases frame_no o)
      as [(_ & E) | [(_ & Heq & _) | [(_ & _ & _ & _ & E) | (_ & _ & _ & Hpull)]]];
      [rewrite E in Hnext; discriminate | contradiction
       | rewrite E in Hnext; discriminate |].
    destruct Hpull as [(src & _ & E) | (src & block & Hsrc & _)];
      [rewrite E in Hnext; discriminate |].
    destruct (sc_next_output o o' frame_no v src block Hnext Hne Hsrc Hlen)
      as (_ & _ & _ & _ & Hm).
    apply Hm; assumption.
  - intros o o' frame_no out c s Hcalc Halloc Hc Hs0 Hs.
    destruct (mc_calc_output o o' frame_no out Hcalc Halloc)
      as (o1 & _ & _ & Es & _ & _ & _ & _ & _ & Hrow).
    destruct (Hrow c Hc) as (src & src' & block & _ & _ & _ & _ & Hm).
    rewrite Es in Hm. apply Hm; assumption.
Qed.

(** C10 (repeated index). After a call [next(frame_no)] with a non-negative
    index has returned the vector [v], the feature is estimated, its counter
    is [frame_no] and its output buffer is [v]; a second call with the same
    index returns [v] again and leaves the whole object as it was: no frame
    is pulled from the source, and neither the lag buffer [yn_] nor the
    counter [frame_no_] changes. *)
Theorem repeated_index_returns_cached_output
    (o o1 : sc) (frame_no : Z) (v : gsl_vector_complex D) :
  (0 <= frame_no)%Z ->
  SC.next frame_no o = (o1, Return v) ->
  SC.estimated_ o1 = true
  /\ SC.frame_no_ o1 = frame_no
  /\ SC.vector_ o1 = v
  /\ SC.next frame_no o1 = (o1, Return v).
Proof.
  intros Hpos Hnext.
  destruct (sc_next_returned o o1 frame_no v Hpos Hnext) as (He & Ef & Ev).
  repeat split; try assumption.
  unfold SC.next. rewrite He, Ef, Z.eqb_refl, Ev. reflexivity.
Qed.

(** C5, as the code has it (pre-estimation guard). While [estimated_] is
    false, the single-channel [next], [calc_every_channel_output] and a pull
    on the view of the primary channel throw the initialization error and
    change nothing. A pull on the view of another channel never reaches that
    guard: it throws no initialization error and leaves the shared object
    untouched. *)
Theorem pre_estimation_guard
    (o : sc) (m : mc) (view : MCF.MultiChannelWPEDereverberationFeature) (frame_no : Z) :
  SC.estimated_ o = false ->
  MC.estimated_ m = false ->
  SC.next frame_no o = (o, Throw jinitialization_error)
  /\ MC.calc_every_channel_output frame_no m = (m, Throw jinitialization_error)
  /\ (MCF.channelX_ view = MCF.primaryChannelX_ view ->
      MCF.next frame_no view m = (view, m, Throw jinitialization_error))
  /\ (MCF.channelX_ view <> MCF.primaryChannelX_ view ->
      (MCF.next frame_no view m).1.2 = m
      /\ (MCF.next frame_no view m).2 <> Throw jinitialization_error).
Proof.
  intros Ho Hm.
  assert (Hcalc : MC.calc_every_channel_output frame_no m = (m, Throw jinitialization_error))
    by (unfold MC.calc_every_channel_output; rewrite Hm; reflexivity).
  split; [unfold SC.next; rewrite Ho; reflexivity |].
  split; [exact Hcalc |]. split.
  - intros Hprim. unfold MCF.next. rewrite Hprim, Nat.eqb_refl, Hcalc. reflexivity.
  - intros Hprim. unfold MCF.next.
    replace (MCF.channelX_ view =? MCF.primaryChannelX_ view) with false
      by (symmetry; apply Nat.eqb_neq; exact Hprim).
    destruct ((0 <=? frame_no)%Z && negb (frame_no - 1 =? MCF.frame_no_ view)%Z).
    + split; [reflexivity | discriminate].
    + split; [reflexivity |]. unfold MC.get_output. destruct (_ <=? _); discriminate.
Qed.

(** C2, as the code has it (sequencing). Once estimated, a step whose
    non-negative index is not one more than the object's counter [frame_no_]
    throws the index error and changes nothing; for the single-channel
    feature an index equal to the counter is not an error (C10). A successful
    step with a non-negative index leaves the counter equal to that index, so
    the counter is the index of the previous step. [estimate_filter] leaves
    the counter alone: the first step after the estimation of an object whose
    counter is still the initial -1 accepts no index other than 0. *)
Theorem sequencing_against_frame_counter (o : sc) (m : mc) (frame_no : Z) :
  (0 <= frame_no)%Z ->
  SC.estimated_ o = true ->
  MC.estimated_ m = true ->
  (frame_no <> SC.frame_no_ o -> frame_no <> (SC.frame_no_ o + 1)%Z ->
   SC.next frame_no o = (o, Throw (jindex_error (frame_no - 1) (SC.frame_no_ o))))
  /\ (frame_no <> (MC.frame_no_ m + 1)%Z ->
      MC.calc_every_channel_output frame_no m
      = (m, Throw (jindex_error frame_no (MC.frame_no_ m))))
  /\ (forall o' v, SC.next frame_no o = (o', Return v) -> SC.frame_no_ o' = frame_no)
  /\ (forall m' out, MC.calc_every_channel_output frame_no m = (m', Return out) ->
                     MC.frame_no_ m' = frame_no)
  /\ (forall (o0 : sc) (start_frame_no end_frame_no : Z),
         o = (SC.estimate_filter start_frame_no end_frame_no o0).1 ->
         SC.frame_no_ o0 = (-1)%Z -> frame_no <> 0%Z ->
         SC.next frame_no o = (o, Throw (jindex_error (frame_no - 1) (-1))))
  /\ (forall (m0 : mc) (start_frame_no end_frame_no : Z),
         m = (MC.estimate_filter start_frame_no end_frame_no m0).1 ->
         MC.frame_no_ m0 = (-1)%Z -> frame_no <> 0%Z ->
         MC.calc_every_channel_output frame_no m = (m, Throw (jindex_error frame_no (-1)))).
Proof.
  intros Hpos Ho Hm.
  assert (Hsc : frame_no <> SC.frame_no_ o -> frame_no <> (SC.frame_no_ o + 1)%Z ->
                SC.next frame_no o
                = (o, Throw (jindex_error (frame_no - 1) (SC.frame_no_ o)))).
  { intros Hne Hseq.
    destruct (sc_next_cases frame_no o)
      as [(E & _) | [(_ & Heq & _) | [(_ & _ & _ & _ & E) | (_ & _ & Hs & _)]]].
    - congruence.
    - contradiction.
    - exact E.
    - lia. }
  assert (Hmc : frame_no <> (MC.frame_no_ m + 1)%Z ->
                MC.calc_every_channel_output frame_no m
                = (m, Throw (jindex_error frame_no (MC.frame_no_ m)))).
  { intros Hseq.
    destruct (mc_calc_cases frame_no m) as [(E & _) | [(_ & _ & _ & E) | (_ & Hs & _)]].
    - congruence.
    - exact E.
    - lia. }
  split; [exact Hsc |]. split; [exact Hmc |]. split; [| split; [| split]].
  - intros o' v Hnext.
    apply (sc_next_returned o o' frame_no v Hpos Hnext).
  - intros m' out Hcalc.
    destruct (mc_calc_cases frame_no m) as [(_ & E) | [(_ & _ & _ & E) | (_ & Hs & Hpull)]].
    + rewrite E in Hcalc. discriminate.
    + rewrite E in Hcalc. discriminate.
    + destruct Hpull as [(o1 & _ & E) | (o1 & fbrace & Hp & E)];
        rewrite E in Hcalc; [discriminate |].
      cbv zeta in Hcalc. injection Hcalc as <- _.
      apply pull_brace_spec in Hp as (Ho1 & _);
        [| apply NoDup_seq
         | intros c Hc; apply elem_of_seq in Hc; rewrite length_replicate; lia].
      pose proof (mc_outputs_config fbrace (MC.channelsN_ m) (MC.push_brace fbrace o1)) as Hc.
      destruct (mc_config_fields _ _ Hc) as (_ & E2 & _). rewrite E2.
      destruct (mc_push_brace_fields fbrace o1) as (_ & _ & Ef & _). cbv zeta in Ef.
      rewrite Ef, Ho1. cbn [MC.frame_no_ MC.set_sources_ MC.increment_ MC.set_frame_no_]. lia.
  - intros o0 a b Eo Hfresh Hne.
    destruct (sc_estimate_filter_same o0 a b) as (_ & _ & Ef).
    rewrite <- Eo, Hfresh in Ef. rewrite <- Ef. apply Hsc; lia.
  - intros m0 a b Em Hfresh Hne.
    destruct (mc_estimate_filter_same m0 a b) as (_ & _ & _ & Ef).
    rewrite <- Em, Hfresh in Ef. rewrite <- Ef. apply Hmc; lia.
Qed.

End StreamingClaims.

(* ------------------------------------------------------------------ *)
(** ** The streaming claims on the concrete objects *)

(** C3 on [ex_sc_estimated] and [ex_mc_estimated]: with band limits 0 and 4
    the subbands 1 and 2 pass through. *)
Lemma passthrough_between_band_limits_witness :
  gsl_vector_complex_get (H := float_ops) ex_sc_out0 1 = cplx 2 1
  /\ gsl_vector_complex_get (H := float_ops)
       (gsl_vector_complex_get_row
          (MC.output_ ex_mc_stepped) 1) 2 = cplx 3 0.
Proof.
  split.
  - eapply (proj1 (@passthrough_between_band_limits float float_ops)
                  ex_sc_estimated ex_sc_stepped 0%Z ex_sc_out0 _
                  [cplx 1 0; cplx 2 1; cplx 3 0; cplx 5 7]%float 1).
    + vm_compute. reflexivity.
    + vm_compute. discriminate.
    + vm_compute. reflexivity.
    + vm_compute. reflexivity.
    + vm_compute. lia.
    + vm_compute. lia.
    + vm_compute. lia.
  - eapply (proj2 (@passthrough_between_band_limits float float_ops)
                  ex_mc_estimated ex_mc_stepped 0%Z (MC.output_ ex_mc_stepped) 1
                  ex_stream _ [cplx 1 0; cplx 2 1; cplx 3 0; cplx 5 7]%float 2).
    + vm_compute. reflexivity.
    + split; [vm_compute; reflexivity |].
      intros c Hc. destruct c as [|[|c]]; [vm_compute; reflexivity ..|].
      vm_compute in Hc. lia.
    + vm_compute. lia.
    + vm_compute. reflexivity.
    + vm_compute. reflexivity.
    + vm_compute. lia.
    + vm_compute. lia.
    + vm_compute. lia.
Defined.

(** C4 on the same objects: subband 3 is the conjugate of subband 1. *)
Lemma output_conjugate_symmetry_witness :
  gsl_vector_complex_get (H := float_ops) ex_sc_out0 (4 - 1)
  = gsl_complex_conjugate (H := float_ops) (gsl_vector_complex_get (H := float_ops) ex_sc_out0 1)
  /\ gsl_vector_complex_get (H := float_ops)
       (gsl_vector_complex_get_row (MC.output_ ex_mc_stepped) 0) (4 - 1)
     = gsl_complex_conjugate (H := float_ops)
         (gsl_vector_complex_get (H := float_ops)
            (gsl_vector_complex_get_row (MC.output_ ex_mc_stepped) 0) 1).
Proof.
  split.
  - apply (proj1 (@output_conjugate_symmetry float float_ops)
                 ex_sc_estimated ex_sc_stepped 0%Z ex_sc_out0 1).
    + vm_compute. reflexivity.
    + vm_compute. discriminate.
    + vm_compute. reflexivity.
    + lia.
    + vm_compute. lia.
  - apply (proj2 (@output_conjugate_symmetry float float_ops)
                 ex_mc_estimated ex_mc_stepped 0%Z (MC.output_ ex_mc_stepped) 0 1).
    + vm_compute. reflexivity.
    + split; [vm_compute; reflexivity |].
      intros c Hc. destruct c as [|[|c]]; [vm_compute; reflexivity ..|].
      vm_compute in Hc. lia.
    + vm_compute. lia.
    + lia.
    + vm_compute. lia.
Defined.

(** C10 on [ex_sc_estimated]: the step with index 0, then index 0 again. *)
Lemma repeated_index_returns_cached_output_witness :
  SC.next (H := float_ops) 0 ex_sc_estimated = (ex_sc_stepped, Return ex_sc_out0)
  /\ SC.estimated_ ex_sc_stepped = true
  /\ SC.frame_no_ ex_sc_stepped = 0%Z
  /\ SC.vector_ ex_sc_stepped = ex_sc_out0
  /\ SC.next (H := float_ops) 0 ex_sc_stepped = (ex_sc_stepped, Return ex_sc_out0).
Proof.
  split; [vm_compute; reflexivity |].
  apply (@repeated_index_returns_cached_output float float_ops ex_sc_estimated).
  - lia.
  - vm_compute. reflexivity.
Defined.

(** C5 as stated fails: before any estimation, a pull on the view of the
    non-primary channel 1 returns that channel's (never written) output
    buffer instead of throwing the initialization error, with the index 0
    that follows the view's initial counter and with a negative index, for
    which the view skips its sequencing check. *)
Lemma nonprimary_view_unguarded :
  MC.estimated_ ex_mc = false
  /\ MCF.next (H := float_ops) 0 ex_view1 ex_mc
     = (MCF.increment_ ex_view1, ex_mc,
        Return (gsl_vector_complex_get_row (MC.output_ ex_mc) 1))
  /\ MCF.next (H := float_ops) (-1) ex_view1 ex_mc
     = (MCF.increment_ ex_view1, ex_mc,
        Return (gsl_vector_complex_get_row (MC.output_ ex_mc) 1)).
Proof.
  split; [vm_compute; reflexivity |].
  split; vm_compute; reflexivity.
Defined.

(** C5 as the code has it, on the objects before estimation. *)
Lemma pre_estimation_guard_witness :
  SC.next (H := float_ops) 0 ex_sc = (ex_sc, Throw jinitialization_error)
  /\ MC.calc_every_channel_output (H := float_ops) 0 ex_mc
     = (ex_mc, Throw jinitialization_error)
  /\ MCF.next (H := float_ops) 0 ex_view0 ex_mc = (ex_view0, ex_mc, Throw jinitialization_error)
  /\ (MCF.next (H := float_ops) 0 ex_view1 ex_mc).1.2 = ex_mc
  /\ (MCF.next (H := float_ops) 0 ex_view1 ex_mc).2 <> Throw jinitialization_error.
Proof.
  destruct (@pre_estimation_guard float float_ops ex_sc ex_mc ex_view0 0%Z)
    as (W1 & W2 & W3 & _); [reflexivity | reflexivity |].
  destruct (@pre_estimation_guard float float_ops ex_sc ex_mc ex_view1 0%Z)
    as (_ & _ & _ & W4); [reflexivity | reflexivity |].
  split; [exact W1 |]. split; [exact W2 |].
  split; [apply W3; reflexivity |].
  apply W4. vm_compute. discriminate.
Defined.

(** C2 as stated fails twice. The very first joint step after estimation does
    not accept any index: the counter is the constructor's -1 and index 5 is
    refused. And the single-channel feature does not refuse a repeated index:
    after the step with index 0, index 0 again returns the cached output. *)
Lemma first_step_refuses_index_5 :
  MC.frame_no_ ex_mc_estimated = (-1)%Z
  /\ (MC.calc_every_channel_output (H := float_ops) 5 ex_mc_estimated).2
     = Throw (jindex_error 5 (-1))
  /\ SC.frame_no_ ex_sc_stepped = 0%Z
  /\ (SC.next (H := float_ops) 0 ex_sc_stepped).2 = Return ex_sc_out0.
Proof.
  split; [vm_compute; reflexivity |].
  split; [vm_compute; reflexivity |].
  split; vm_compute; reflexivity.
Defined.

(** C2 as the code has it. On the objects after their first step (counter
    0), index 2 is refused, index 1 is accepted and becomes the counter; on
    the objects just estimated, index 5 is refused against the counter -1. *)
Lemma sequencing_against_frame_counter_witness :
  SC.next (H := float_ops) 2 ex_sc_stepped = (ex_sc_stepped, Throw (jindex_error 1 0))
  /\ MC.calc_every_channel_output (H := float_ops) 2 ex_mc_stepped
     = (ex_mc_stepped, Throw (jindex_error 2 0))
  /\ SC.frame_no_ (SC.next (H := float_ops) 1 ex_sc_stepped).1 = 1%Z
  /\ MC.frame_no_ (MC.calc_every_channel_output (H := float_ops) 1 ex_mc_stepped).1 = 1%Z
  /\ SC.next (H := float_ops) 5 ex_sc_estimated
     = (ex_sc_estimated, Throw (jindex_error 4 (-1)))
  /\ MC.calc_every_channel_output (H := float_ops) 5 ex_mc_estimated
     = (ex_mc_estimated, Throw (jindex_error 5 (-1))).
Proof.
  destruct (@sequencing_against_frame_counter float float_ops (failing_backend float)
              ex_sc_stepped ex_mc_stepped 2%Z)
    as (W1 & W2 & _); [lia | reflexivity | reflexivity |].
  destruct (@sequencing_against_frame_counter float float_ops (failing_backend float)
              ex_sc_stepped ex_mc_stepped 1%Z)
    as (_ & _ & W3 & W4 & _); [lia | reflexivity | reflexivity |].
  destruct (@sequencing_against_frame_counter float float_ops (failing_backend float)
              ex_sc_estimated ex_mc_estimated 5%Z)
    as (_ & _ & _ & _ & W5 & W6); [lia | reflexivity | reflexivity |].
  split; [apply W1; vm_compute; discriminate |].
  split; [apply W2; vm_compute; discriminate |].
  split; [eapply W3; vm_compute; reflexivity |].
  split; [eapply W4; vm_compute; reflexivity |].
  split.
  - apply (W5 ex_sc 0%Z 3%Z); [reflexivity | reflexivity | discriminate].
  - apply (W6 ex_mc 0%Z 3%Z); [reflexivity | reflexivity | discriminate].
Defined.

(* ------------------------------------------------------------------ *)
(** ** Estimation without iterations *)

Section ZeroIterations.
Context {D : Type} `{DoubleOps D} `{LinAlgBackend D}.

Local Abbreviation sc := (SC.SingleChannelWPEDereverberationFeature D).

(** Every predictor vector [gn_[s]] is all-zero. *)
Definition sc_zero_predictor (o : sc) : Prop :=
  Forall (Forall (fun z => z = zero_)) (SC.gn_ o).

(** The objects reached from [o] by any number of [next] calls, whatever
    their indices and outcomes. *)
Inductive sc_after_nexts (o : sc) : sc -> Prop :=
| sc_after_none : sc_after_nexts o o
| sc_after_next (o1 : sc) (frame_no : Z) :
    sc_after_nexts o o1 -> sc_after_nexts o (SC.next frame_no o1).1.

(** The loop of [fill_buffer_] writes the source and the buffer only. *)
Lemma sc_fill_loop_config (fuel : nat) (start_frame_no end_frame_no frX : Z) (o o' : sc) :
  SC.fill_loop fuel start_frame_no end_frame_no frX o = Some o' ->
  SC.set_yn_ [] (SC.set_samples_ (SC.samples_ o) o') = SC.set_yn_ [] o.
Proof.
  revert frX o. induction fuel as [|fuel IH]; intros frX o Hf; simpl in Hf; [discriminate |].
  destruct ((0 <=? end_frame_no)%Z && (end_frame_no <=? frX)%Z).
  - injection Hf as <-. destruct o; reflexivity.
  - destruct (start_frame_no <=? frX)%Z.
    + destruct (stream_next (SC.samples_ o)) as [src [block|]].
      * apply IH in Hf. cbn in Hf.
        apply (f_equal (SC.set_samples_ (SC.samples_ o))) in Hf. exact Hf.
      * injection Hf as <-. destruct o; reflexivity.
    + apply IH in Hf. exact Hf.
Qed.

Lemma sc_fill_buffer_fields (start_frame_no end_frame_no : Z) (o : sc) :
  let o' := SC.fill_buffer_ start_frame_no end_frame_no o in
  SC.size o' = SC.size o /\ SC.vector_ o' = SC.vector_ o /\ SC.gn_ o' = SC.gn_ o
  /\ SC.iterationsN_ o' = SC.iterationsN_ o /\ SC.frame_no_ o' = SC.frame_no_ o
  /\ SC.framesN_ o' = length (SC.yn_ o').
Proof.
  unfold SC.fill_buffer_. cbv zeta.
  destruct (SC.fill_loop _ _ _ _ o) as [o1|] eqn:Hf; cbn [default SC.size SC.vector_ SC.gn_
    SC.iterationsN_ SC.frame_no_ SC.framesN_ SC.yn_ SC.set_thetan_ SC.set_framesN_].
  - pose proof (sc_fill_loop_config _ _ _ _ _ _ Hf) as E.
    repeat split.
    + exact (f_equal SC.size E).
    + exact (f_equal SC.vector_ E).
    + exact (f_equal SC.gn_ E).
    + exact (f_equal SC.iterationsN_ E).
    + exact (f_equal SC.frame_no_ E).
  - repeat split.
Qed.

(** In exact arithmetic the prediction of an all-zero predictor is zero. *)
Lemma zdotc_zero_l `{!ExactArith D} (x y : gsl_vector_complex D) :
  Forall (fun z => z = zero_) x -> gsl_blas_zdotc x y = zero_.
Proof.
  intros Hx. unfold gsl_blas_zdotc.
  apply (fold_left_preserves_elem (fun acc => acc = zero_)); [reflexivity |].
  intros acc [xi yi] Hin ->.
  apply elem_of_zip_l in Hin. rewrite Forall_forall in Hx. rewrite (Hx xi Hin).
  destruct yi as [a b].
  unfold gsl_complex_add, gsl_complex_mul, gsl_complex_conjugate, zero_. cbn.
  rewrite dneg_0, !dmul_0_l, dsub_0_r, !dadd_0_l. reflexivity.
Qed.

Lemma sc_cur_zero_predictor `{!ExactArith D} (current : gsl_vector_complex D) (s : nat)
    (o : sc) :
  sc_zero_predictor o -> sc_cur current s o = gsl_vector_complex_get current s.
Proof.
  intros Hz. unfold sc_cur. destruct (sc_filtered o s); [| reflexivity]. cbv zeta.
  destruct (sc_config_fields _ _ (sc_get_lags_config s
              (uint32 (Z.of_nat (length (SC.yn_ o)) - 1 - Z.of_nat (SC.lowerN_ o))) o))
    as (_ & _ & _ & Eg & _).
  rewrite Eg, zdotc_zero_l.
  - destruct (gsl_vector_complex_get current s) as [a b].
    unfold gsl_complex_sub, zero_. cbn. rewrite !dsub_0_r. reflexivity.
  - unfold gsl_vector_complex_get_row. destruct (SC.gn_ o !! s) as [g|] eqn:Hg; cbn.
    + unfold sc_zero_predictor in Hz. rewrite Forall_lookup in Hz. exact (Hz s g Hg).
    + constructor.
Qed.

(** [next] never writes the predictor, the size or the iteration count, and
    keeps the output buffer at its length. *)
Lemma sc_next_keeps (frame_no : Z) (o : sc) :
  length (SC.vector_ o) = SC.size o ->
  let o' := (SC.next frame_no o).1 in
  SC.gn_ o' = SC.gn_ o /\ SC.size o' = SC.size o
  /\ length (SC.vector_ o') = SC.size o'.
Proof.
  intros Hlen. cbv zeta.
  destruct (sc_next_cases frame_no o)
    as [(_ & E) | [(_ & _ & E) | [(_ & _ & _ & _ & E) | (_ & Hne & _ & Hpull)]]];
    try (rewrite E; cbn; auto).
  destruct Hpull as [(src & _ & E) | (src & block & Hsrc & E)].
  - rewrite E. cbn. auto.
  - destruct (SC.next frame_no o) as [o' [v|e]] eqn:Hnext; [| rewrite E in Hnext; discriminate].
    destruct (sc_next_output o o' frame_no v src block Hnext Hne Hsrc Hlen)
      as (Hv & Hl & Hc & _).
    destruct (sc_config_fields _ _ Hc) as (Es & _ & _ & Eg & _).
    destruct (sc_pulled_fields src block o) as (Es' & _ & _ & _ & Eg' & _).
    cbv zeta in Es', Eg'. cbn [fst]. subst v.
    split; [congruence |]. split; congruence.
Qed.


End ZeroIterations.



(* ------------------------------------------------------------------ *)
(** ** Filling the batch buffer *)

Section FillBuffer.
Context {D : Type} `{DoubleOps D} `{LinAlgBackend D}.

Local Abbreviation sc := (SC.SingleChannelWPEDereverberationFeature D).

(** The frames a source has not handed out yet. *)
Definition stream_remaining (s : VectorComplexFeatureStream D) : list (gsl_vector_complex D) :=
  drop (stream_pos s) (stream_frames s).

(** The source after [n] more pulls. *)
Definition stream_advance (n : nat) (s : VectorComplexFeatureStream D)
  : VectorComplexFeatureStream D :=
  {| stream_size := stream_size s; stream_frames := stream_frames s;
     stream_pos := stream_pos s + n |}.

Lemma stream_next_remaining (s : VectorComplexFeatureStream D) :
  match stream_remaining s with
  | [] => stream_next s = (s, None)
  | f :: rest => stream_next s = (stream_advance 1 s, Some f)
                 /\ stream_remaining (stream_advance 1 s) = rest
  end.
Proof.
  unfold stream_remaining, stream_next, stream_advance.
  destruct (stream_frames s !! stream_pos s) as [f|] eqn:Hf.
  - rewrite (drop_S _ _ _ Hf). cbn [stream_pos stream_frames].
    rewrite Nat.add_1_r. split; reflexivity.
  - rewrite drop_ge by (apply lookup_ge_None; exact Hf). reflexivity.
Qed.

(** The loop of [fill_buffer_] ends within the fuel it is given. *)
Lemma sc_fill_loop_total (fuel : nat) (start_frame_no end_frame_no frX : Z) (o : sc) :
  ((0 <= end_frame_no)%Z -> Z.to_nat (end_frame_no - frX) < fuel) ->
  ((end_frame_no < 0)%Z ->
   Z.to_nat (start_frame_no - frX) + length (stream_remaining (SC.samples_ o)) < fuel) ->
  is_Some (SC.fill_loop fuel start_frame_no end_frame_no frX o).
Proof.
  revert frX o. induction fuel as [|fuel IH]; intros frX o Hpos Hneg.
  - exfalso. destruct (Z.le_gt_cases 0 end_frame_no) as [Hc|Hc]; [specialize (Hpos Hc) |
      specialize (Hneg Hc)]; lia.
  - simpl. destruct (Z.leb_spec 0 end_frame_no) as [He|He]; cbn [andb].
    + destruct (Z.leb_spec end_frame_no frX) as [Hb|Hb]; [eexists; reflexivity |].
      destruct (start_frame_no <=? frX)%Z.
      * destruct (stream_next (SC.samples_ o)) as [src [block|]]; [| eexists; reflexivity].
        apply IH; intros; lia.
      * apply IH; intros; lia.
    + destruct (Z.leb_spec start_frame_no frX) as [Hs|Hs].
      * pose proof (stream_next_remaining (SC.samples_ o)) as Hn.
        destruct (stream_remaining (SC.samples_ o)) as [|f rest] eqn:Hrem.
        -- rewrite Hn. eexists; reflexivity.
        -- destruct Hn as [-> Hrest]. apply IH; [intros; lia |].
           intros _. cbn [SC.samples_ SC.set_yn_ SC.set_samples_].
           rewrite Hrest. specialize (Hneg He). cbn [length] in Hneg. lia.
      * apply IH; intros; [lia |]. specialize (Hneg He). lia.
Qed.

Lemma sc_fill_buffer_loop (start_frame_no end_frame_no : Z) (o : sc) :
  is_Some (SC.fill_loop (SC.fill_fuel start_frame_no end_frame_no o)
                        start_frame_no end_frame_no 0 o).
Proof.
  apply sc_fill_loop_total; unfold SC.fill_fuel.
  - intros He. destruct (Z.leb_spec 0 end_frame_no); lia.
  - intros He. destruct (Z.leb_spec 0 end_frame_no); [lia |].
    unfold stream_remaining. rewrite length_drop. lia.
Qed.

(** Once the counter has reached [start_frame_no], the loop pulls the next
    [end_frame_no - frX] frames of the source, in order. *)
Lemma sc_fill_loop_pulls (n fuel : nat) (start_frame_no end_frame_no frX : Z) (o : sc) :
  (frX + Z.of_nat n = end_frame_no)%Z ->
  (0 <= frX)%Z -> (start_frame_no <= frX)%Z ->
  n < fuel ->
  n <= length (stream_remaining (SC.samples_ o)) ->
  SC.fill_loop fuel start_frame_no end_frame_no frX o
  = Some (SC.set_yn_ (SC.yn_ o ++ take n (stream_remaining (SC.samples_ o)))
            (SC.set_samples_ (stream_advance n (SC.samples_ o)) o)).
Proof.
  revert fuel frX o. induction n as [|n IH]; intros fuel frX o Hend Hfr Hst Hfuel Hrem;
    (destruct fuel as [|fuel]; [lia |]); simpl.
  - replace ((0 <=? end_frame_no)%Z && (end_frame_no <=? frX)%Z) with true
      by (symmetry; apply andb_true_iff; split; apply Z.leb_le; lia).
    f_equal. rewrite app_nil_r. unfold stream_advance. rewrite Nat.add_0_r.
    destruct o as [? ? ? ? [? ? ?]]; reflexivity.
  - replace ((0 <=? end_frame_no)%Z && (end_frame_no <=? frX)%Z) with false
      by (symmetry; apply andb_false_iff; right; apply Z.leb_gt; lia).
    replace (start_frame_no <=? frX)%Z with true by (symmetry; apply Z.leb_le; lia).
    pose proof (stream_next_remaining (SC.samples_ o)) as Hn.
    destruct (stream_remaining (SC.samples_ o)) as [|f rest] eqn:Hr; [cbn in Hrem; lia |].
    destruct Hn as [-> Hrest].
    rewrite IH; [| lia | lia | lia | lia |].
    + cbn [SC.samples_ SC.yn_ SC.set_yn_ SC.set_samples_]. rewrite Hrest.
      f_equal. rewrite <- app_assoc. cbn [app take].
      unfold stream_advance. cbn [stream_pos stream_size stream_frames].
      replace (stream_pos (SC.samples_ o) + 1 + n) with (stream_pos (SC.samples_ o) + S n)
        by lia.
      reflexivity.
    + cbn [SC.samples_ SC.set_yn_ SC.set_samples_]. rewrite Hrest. cbn in Hrem. lia.
Qed.

(** Before the counter reaches [start_frame_no] the loop pulls nothing. *)
Lemma sc_fill_loop_skips (k fuel : nat) (start_frame_no end_frame_no frX : Z) (o : sc) :
  (frX + Z.of_nat k = start_frame_no)%Z ->
  (start_frame_no <= end_frame_no)%Z ->
  SC.fill_loop (k + fuel) start_frame_no end_frame_no frX o
  = SC.fill_loop fuel start_frame_no end_frame_no start_frame_no o.
Proof.
  revert frX. induction k as [|k IH]; intros frX Hk Hse.
  - replace frX with start_frame_no by lia. reflexivity.
  - cbn [Nat.add SC.fill_loop].
    replace ((0 <=? end_frame_no)%Z && (end_frame_no <=? frX)%Z) with false
      by (symmetry; apply andb_false_iff; right; apply Z.leb_gt; lia).
    replace (start_frame_no <=? frX)%Z with false by (symmetry; apply Z.leb_gt; lia).
    apply IH; lia.
Qed.

(** What [fill_buffer_(start_frame_no, end_frame_no)] buffers on a source
    with enough frames left: the next [end_frame_no - start_frame_no] frames
    of the source, counted from where the source stands, whatever
    [start_frame_no] is. *)
Lemma sc_fill_buffer_next_frames (start_frame_no end_frame_no : Z) (o : sc) :
  (0 <= start_frame_no <= end_frame_no)%Z ->
  Z.to_nat (end_frame_no - start_frame_no) <= length (stream_remaining (SC.samples_ o)) ->
  let n := Z.to_nat (end_frame_no - start_frame_no) in
  let o' := SC.fill_buffer_ start_frame_no end_frame_no o in
  SC.yn_ o' = SC.yn_ o ++ take n (stream_remaining (SC.samples_ o))
  /\ SC.framesN_ o' = length (SC.yn_ o) + n
  /\ SC.samples_ o' = stream_advance n (SC.samples_ o).
Proof.
  intros Hse Hrem. cbv zeta. unfold SC.fill_buffer_, SC.fill_fuel.
  replace (0 <=? end_frame_no)%Z with true by (symmetry; apply Z.leb_le; lia).
  replace (S (Z.to_nat end_frame_no))
    with (Z.to_nat start_frame_no + S (Z.to_nat (end_frame_no - start_frame_no))) by lia.
  rewrite (sc_fill_loop_skips (Z.to_nat start_frame_no)) by lia.
  rewrite (sc_fill_loop_pulls (Z.to_nat (end_frame_no - start_frame_no))) by lia.
  cbv [default from_option Datatypes.id].
  cbn [SC.yn_ SC.framesN_ SC.samples_ SC.set_thetan_ SC.set_framesN_ SC.set_yn_
       SC.set_samples_].
  split; [reflexivity |]. split; [| reflexivity].
  rewrite length_app, length_take. lia.
Qed.

Local Abbreviation mc := (MC.MultiChannelWPEDereverberation D).

(** The frames the registered sources of a multi-channel object still hold. *)
Definition mc_remaining (o : mc) : nat :=
  sum_list ((fun s => length (stream_remaining s)) <$> MC.sources_ o).

Lemma sum_list_insert {A} (f : A -> nat) (l : list A) (i : nat) (x y : A) :
  l !! i = Some x ->
  sum_list (f <$> <[i := y]> l) + f x = sum_list (f <$> l) + f y.
Proof.
  revert i. induction l as [|a l IH]; intros [|i] Hl; try discriminate.
  - injection Hl as ->. change (f y + sum_list (f <$> l) + f x = f x + sum_list (f <$> l) + f y).
    lia.
  - specialize (IH i Hl).
    change (f a + sum_list (f <$> <[i := y]> l) + f x = f a + sum_list (f <$> l) + f y).
    lia.
Qed.

(** Pulling a brace never gives frames back to the sources, and a brace that
    was pulled for at least one channel took a frame. *)
Lemma pull_brace_remaining (l : list nat) (brace : list (gsl_vector_complex D)) (o o' : mc)
    (r : option (list (gsl_vector_complex D))) :
  MC.pull_brace l brace o = (o', r) ->
  mc_remaining o' <= mc_remaining o
  /\ (is_Some r -> l <> [] -> mc_remaining o' < mc_remaining o).
Proof.
  revert brace o. induction l as [|c l IH]; intros brace o Hpull; simpl in Hpull.
  - injection Hpull as <- _. split; [lia | intros _ Hl; contradiction].
  - destruct (MC.sources_ o !! c) as [src|] eqn:Hsrc.
    2:{ injection Hpull as <- <-. split; [lia | intros [? ?]; discriminate]. }
    pose proof (stream_next_remaining src) as Hn.
    pose proof (sum_list_insert (fun s => length (stream_remaining s)) (MC.sources_ o) c src) as Hsum.
    destruct (stream_remaining src) as [|f rest] eqn:Hrem.
    + rewrite Hn in Hpull. injection Hpull as <- <-.
      specialize (Hsum src Hsrc). unfold mc_remaining. cbn [MC.sources_ MC.set_sources_].
      split; [lia | intros [? ?]; discriminate].
    + destruct Hn as [Hn Hrest]. rewrite Hn in Hpull.
      specialize (Hsum (stream_advance 1 src) Hsrc). cbv beta in Hsum.
      rewrite Hrest, Hrem in Hsum. cbn [length] in Hsum.
      apply IH in Hpull as [Hle _]. unfold mc_remaining in *.
      cbn [MC.sources_ MC.set_sources_] in Hle.
      split; [lia | intros _ _; lia].
Qed.

(** With a channel to pull, the loop of the multi-channel [fill_buffer_] ends
    within the fuel it is given. *)
Lemma mc_fill_loop_total (fuel : nat) (start_frame_no end_frame_no frX : Z) (o : mc) :
  0 < MC.channelsN_ o ->
  (0 <= frX)%Z ->
  ((0 <= end_frame_no)%Z -> Z.to_nat (end_frame_no - frX) < fuel) ->
  ((end_frame_no < 0)%Z ->
   Z.to_nat (start_frame_no - frX) + mc_remaining o + 1 < fuel) ->
  is_Some (MC.fill_loop fuel start_frame_no end_frame_no frX o).
Proof.
  revert end_frame_no frX o.
  induction fuel as [|fuel IH]; intros end_frame_no frX o Hch Hfr Hpos Hneg.
  - exfalso. destruct (Z.le_gt_cases 0 end_frame_no) as [Hc|Hc]; [specialize (Hpos Hc) |
      specialize (Hneg Hc)]; lia.
  - assert (Hseq : seq 0 (MC.channelsN_ o) <> []).
    { destruct (MC.channelsN_ o); [lia | discriminate]. }
    simpl. destruct (Z.leb_spec 0 end_frame_no) as [He|He]; cbn [andb].
    + destruct (Z.leb_spec end_frame_no frX) as [Hb|Hb]; [eexists; reflexivity |].
      specialize (Hpos He).
      destruct (start_frame_no <=? frX)%Z; [| apply IH; intros; lia].
      destruct (MC.pull_brace _ _ o) as [o1 [fbrace|]] eqn:Hpull;
        pose proof (pull_brace_channels _ _ _ _ _ Hpull) as Hc1;
        apply IH; cbn [MC.channelsN_ MC.set_frames_]; intros; lia.
    + specialize (Hneg He).
      destruct (Z.leb_spec start_frame_no frX) as [Hs|Hs]; [| apply IH; intros; lia].
      destruct (MC.pull_brace _ _ o) as [o1 [fbrace|]] eqn:Hpull;
        pose proof (pull_brace_channels _ _ _ _ _ Hpull) as Hc1;
        destruct (pull_brace_remaining _ _ _ _ _ Hpull) as [Hle Hlt].
      * specialize (Hlt (mk_is_Some _ _ eq_refl) Hseq).
        apply IH; cbn [MC.channelsN_ MC.set_frames_]; try lia.
        intros _. unfold mc_remaining in *. cbn [MC.sources_ MC.set_frames_]. lia.
      * apply IH; intros; lia.
Qed.

Lemma mc_fill_buffer_loop (start_frame_no end_frame_no : Z) (o : mc) :
  0 < MC.channelsN_ o ->
  is_Some (MC.fill_loop (MC.fill_fuel start_frame_no end_frame_no o)
                        start_frame_no end_frame_no 0 o).
Proof.
  intros Hch. apply mc_fill_loop_total; [exact Hch | lia | |]; unfold MC.fill_fuel.
  - intros He. destruct (Z.leb_spec 0 end_frame_no); lia.
  - intros He. destruct (Z.leb_spec 0 end_frame_no); [lia |].
    assert (E : mc_remaining o
                = sum_list ((fun s => length (stream_frames s) - stream_pos s) <$> MC.sources_ o)).
    { unfold mc_remaining. f_equal. apply list_fmap_ext. intros _ s _.
      unfold stream_remaining. apply length_drop. }
    rewrite <- E. lia.
Qed.

End FillBuffer.

(** C6 on a concrete call: [estimate_filter(1, 3)] on [ex_sc], whose source
    holds three frames. The batch buffer holds the frames 0 and 1 of the
    source, not the frames 1 and 2 that the indices [1, 3) name; the call
    returns 2, the number of frames buffered. *)
Lemma estimate_filter_buffers_from_source_start :
  SC.yn_ (SC.fill_buffer_ (H := float_ops) 1 3 ex_sc)
  = [ [cplx 1 0; cplx 2 1; cplx 3 0; cplx 5 7];
      [cplx 4 0; cplx 1 (-1); cplx 2 0; cplx 0 3] ]%float
  /\ take 2 (drop 1 (stream_frames (SC.samples_ ex_sc)))
     = [ [cplx 4 0; cplx 1 (-1); cplx 2 0; cplx 0 3];
         [cplx 2 0; cplx 6 2; cplx 1 0; cplx 3 3] ]%float
  /\ (SC.estimate_filter (H := float_ops) (H0 := failing_backend float) 1 3 ex_sc).2
     = Return 2.
Proof.
  split; [vm_compute; reflexivity |].
  split; vm_compute; reflexivity.
Qed.

(* ------------------------------------------------------------------ *)
(** ** Matrix entries *)

Section Entries.
Context {A : Type}.

(** The entry [(i, j)] of a matrix stored by rows, if the matrix has it. *)
Definition entry (m : list (list A)) (i j : nat) : option A :=
  m !! i ≫= fun row => row !! j.

(** [gsl_matrix_set] and [gsl_matrix_complex_set], on any element type. *)
Definition matrix_set (m : list (list A)) (i j : nat) (x : A) : list (list A) :=
  alter (fun row => <[j := x]> row) i m.

Lemma entry_default_row (m : list (list A)) (i j : nat) :
  default [] (m !! i) !! j = entry m i j.
Proof. unfold entry. destruct (m !! i); reflexivity. Qed.

Lemma entry_set_eq (m : list (list A)) (i j : nat) (x : A) :
  is_Some (entry m i j) -> entry (matrix_set m i j x) i j = Some x.
Proof.
  unfold entry, matrix_set. intros [y Hy]. rewrite list_lookup_alter_eq.
  destruct (m !! i) as [row|]; [| discriminate]. cbn in *.
  apply list_lookup_insert_eq. apply lookup_lt_Some in Hy. exact Hy.
Qed.

Lemma entry_set_ne (m : list (list A)) (i j i' j' : nat) (x : A) :
  i <> i' \/ j <> j' -> entry (matrix_set m i j x) i' j' = entry m i' j'.
Proof.
  unfold entry, matrix_set. intros Hne.
  destruct (decide (i = i')) as [<-|Hi].
  - rewrite list_lookup_alter_eq. destruct (m !! i) as [row|]; [| reflexivity]. cbn.
    apply list_lookup_insert_ne. destruct Hne; congruence.
  - rewrite list_lookup_alter_ne by exact Hi. reflexivity.
Qed.

Lemma entry_set_is_Some (m : list (list A)) (i j i' j' : nat) (x : A) :
  is_Some (entry (matrix_set m i j x) i' j') <-> is_Some (entry m i' j').
Proof.
  destruct (decide (i = i' /\ j = j')) as [[<- <-]|Hne].
  - split; intros Hs.
    + unfold entry, matrix_set in *. rewrite list_lookup_alter_eq in Hs.
      destruct (m !! i) as [row|]; [| destruct Hs; discriminate]. cbn in *.
      apply lookup_lt_is_Some. apply lookup_lt_is_Some in Hs.
      rewrite length_insert in Hs. exact Hs.
    + rewrite entry_set_eq by exact Hs. eexists; reflexivity.
  - rewrite entry_set_ne; [reflexivity |].
    destruct (decide (i = i')); [right; intros ->; apply Hne; auto | left; assumption].
Qed.

End Entries.

Section MatrixAccess.
Context {D : Type} `{DoubleOps D}.

Lemma gsl_matrix_complex_get_entry (m : gsl_matrix_complex D) (i j : nat) :
  gsl_matrix_complex_get m i j = default zero_ (entry m i j).
Proof.
  unfold gsl_matrix_complex_get, gsl_vector_complex_get. rewrite entry_default_row.
  reflexivity.
Qed.

Lemma gsl_matrix_get_entry (m : gsl_matrix D) (i j : nat) :
  gsl_matrix_get m i j = default d0 (entry m i j).
Proof. unfold gsl_matrix_get. rewrite entry_default_row. reflexivity. Qed.

(** A loop over the diagonal positions in [l] that replaces each entry by a
    function of its position and its old value: [load_R_] and the bias loop
    of [calc_Rr_] are such loops. *)
Definition diag_map (l : list nat) (g : nat -> gsl_complex D -> gsl_complex D)
    (R : gsl_matrix_complex D) : gsl_matrix_complex D :=
  fold_left (fun R c => gsl_matrix_complex_set R c c (g c (gsl_matrix_complex_get R c c))) l R.

Lemma diag_map_cons (c : nat) (l : list nat) g (R : gsl_matrix_complex D) :
  diag_map (c :: l) g R
  = diag_map l g (matrix_set R c c (g c (gsl_matrix_complex_get R c c))).
Proof. reflexivity. Qed.

Lemma diag_map_other (l : list nat) g (R : gsl_matrix_complex D) (i j : nat) :
  i <> j \/ i ∉ l -> entry (diag_map l g R) i j = entry R i j.
Proof.
  revert R. induction l as [|c l IH]; intros R Hij; [reflexivity |].
  rewrite diag_map_cons, IH.
  - apply (entry_set_ne R). destruct Hij as [Hij|Hij]; [| left; intros ->; apply Hij; left].
    destruct (decide (c = i)) as [->|]; [right; exact Hij | left; assumption].
  - destruct Hij as [Hij|Hij]; [left; exact Hij | right].
    intros Hin. apply Hij. right. exact Hin.
Qed.

Lemma diag_map_is_Some (l : list nat) g (R : gsl_matrix_complex D) (i j : nat) :
  is_Some (entry (diag_map l g R) i j) <-> is_Some (entry R i j).
Proof.
  revert R. induction l as [|c l IH]; intros R; [reflexivity |].
  rewrite diag_map_cons, IH. apply (entry_set_is_Some R).
Qed.

Lemma diag_map_diag (l : list nat) g (R : gsl_matrix_complex D) (i : nat) :
  NoDup l -> i ∈ l -> is_Some (entry R i i) ->
  gsl_matrix_complex_get (diag_map l g R) i i = g i (gsl_matrix_complex_get R i i).
Proof.
  revert R. induction l as [|c l IH]; intros R Hnd Hin Hsome; [inversion Hin |].
  apply NoDup_cons in Hnd as [Hc Hnd]. rewrite diag_map_cons.
  apply elem_of_cons in Hin as [->|Hin].
  - rewrite gsl_matrix_complex_get_entry, diag_map_other by (right; exact Hc).
    rewrite entry_set_eq by exact Hsome. reflexivity.
  - rewrite IH; [| exact Hnd | exact Hin |].
    + f_equal. rewrite !gsl_matrix_complex_get_entry. f_equal.
      apply (entry_set_ne R). left. intros ->. contradiction.
    + apply (entry_set_is_Some R). exact Hsome.
Qed.

(** [maximumDiagonal] of [load_R_]. *)
Definition maximum_diagonal (n : nat) (R : gsl_matrix_complex D) : D :=
  fold_left
    (fun maximumDiagonal componentX =>
       let diag := gsl_complex_abs (gsl_matrix_complex_get R componentX componentX) in
       if dltb maximumDiagonal diag then diag else maximumDiagonal)
    (seq 0 n) d0.

(** The diagonal loading [load_R_] applies to a matrix. *)
Definition load_diagonal (n : nat) (load_factor : D) (R : gsl_matrix_complex D)
  : gsl_matrix_complex D :=
  diag_map (seq 0 n)
    (fun _ x => gsl_complex_rect
                  (dadd (gsl_complex_abs x) (dmul (maximum_diagonal n R) load_factor)) d0)
    R.

(** The loop of [calc_Rr_] that adds the bias, on a matrix. *)
Definition bias_diagonal (n : nat) (bias : D) (R : gsl_matrix_complex D)
  : gsl_matrix_complex D :=
  diag_map (seq 0 n) (fun _ x => gsl_complex_add_real x bias) R.





End MatrixAccess.

(* ------------------------------------------------------------------ *)
(** ** Diagonal loading *)

Section Loading.
Context {D : Type} `{DoubleOps D} `{LinAlgBackend D}.

Local Abbreviation sc := (SC.SingleChannelWPEDereverberationFeature D).
Local Abbreviation mc := (MC.MultiChannelWPEDereverberation D).

(** [load_R_] of the single-channel class changes [R_] only, and applies
    [load_diagonal] to it. *)
Lemma sc_load_R_matrix (o : sc) :
  SC.set_R_ [] (SC.load_R_ o) = SC.set_R_ [] o
  /\ SC.R_ (SC.load_R_ o)
     = load_diagonal (SC.predictionN_ o) (SC.load_factor_ o) (SC.R_ o).
Proof.
  unfold SC.load_R_, load_diagonal, diag_map.
  set (m := fold_left _ (seq 0 (SC.predictionN_ o)) d0).
  apply (fold_left_proj SC.R_ (fun o' => SC.set_R_ [] o' = SC.set_R_ [] o)); [reflexivity |].
  intros o' c E. split; [rewrite <- E; reflexivity |].
  cbn [SC.R_ SC.set_R_].
  rewrite (f_equal SC.load_factor_ E : SC.load_factor_ o' = SC.load_factor_ o).
  reflexivity.
Qed.

(** The correlation matrix [R_[c]] of one channel. *)
Definition mc_R (c : nat) (o : mc) : gsl_matrix_complex D := default [] (MC.R_ o !! c).

Lemma mc_R_insert_eq (c : nat) (R : gsl_matrix_complex D) (o : mc) :
  c < length (MC.R_ o) -> mc_R c (MC.set_R_ (<[c := R]> (MC.R_ o)) o) = R.
Proof.
  intros Hc. unfold mc_R. cbn [MC.R_ MC.set_R_].
  rewrite list_lookup_insert_eq by exact Hc. reflexivity.
Qed.

Lemma mc_R_insert_ne (c c' : nat) (R : gsl_matrix_complex D) (o : mc) :
  c <> c' -> mc_R c' (MC.set_R_ (<[c := R]> (MC.R_ o)) o) = mc_R c' o.
Proof.
  intros Hc. unfold mc_R. cbn [MC.R_ MC.set_R_].
  rewrite list_lookup_insert_ne by exact Hc. reflexivity.
Qed.

(** One channel of [load_R_]: everything but [R_] stays, [R_] keeps its
    length, the channel's matrix is loaded and the others stay. *)
Lemma mc_load_R_channel_spec (c : nat) (o : mc) :
  c < length (MC.R_ o) ->
  let o' := MC.load_R_channel c o in
  MC.set_R_ [] o' = MC.set_R_ [] o
  /\ length (MC.R_ o') = length (MC.R_ o)
  /\ mc_R c o' = load_diagonal (MC.totalPredictionN_ o) (MC.load_factor_ o) (mc_R c o)
  /\ forall c', c <> c' -> mc_R c' o' = mc_R c' o.
Proof.
  intros Hc. cbv zeta. unfold MC.load_R_channel, load_diagonal, diag_map.
  fold (mc_R c o). fold (maximum_diagonal (MC.totalPredictionN_ o) (mc_R c o)).
  set (m := maximum_diagonal _ _).
  destruct (fold_left_proj (mc_R c)
              (fun o' => MC.set_R_ [] o' = MC.set_R_ [] o
                         /\ length (MC.R_ o') = length (MC.R_ o)
                         /\ forall c', c <> c' -> mc_R c' o' = mc_R c' o)
              (fun o componentX =>
                 MC.set_R_
                   (<[c := gsl_matrix_complex_set (default [] (MC.R_ o !! c))
                             componentX componentX
                             (gsl_complex_rect
                                (dadd (gsl_complex_abs
                                         (gsl_matrix_complex_get (default [] (MC.R_ o !! c))
                                            componentX componentX))
                                      (dmul m (MC.load_factor_ o))) d0)]> (MC.R_ o)) o)
              (fun R componentX =>
                 gsl_matrix_complex_set R componentX componentX
                   (gsl_complex_rect
                      (dadd (gsl_complex_abs (gsl_matrix_complex_get R componentX componentX))
                            (dmul m (MC.load_factor_ o))) d0))
              (seq 0 (MC.totalPredictionN_ o)) o) as [(I1 & I2 & I3) E].
  - repeat split.
  - intros o' x (E1 & E2 & E3). split; [split; [| split] |].
    + rewrite <- E1. reflexivity.
    + cbn [MC.R_ MC.set_R_]. rewrite length_insert. exact E2.
    + intros c' Hc'. rewrite mc_R_insert_ne by exact Hc'. apply E3, Hc'.
    + fold (mc_R c o'). rewrite mc_R_insert_eq by (rewrite E2; exact Hc).
      rewrite (f_equal MC.load_factor_ E1 : MC.load_factor_ o' = MC.load_factor_ o).
      reflexivity.
  - repeat split; assumption.
Qed.

Lemma mc_load_R_fold (l : list nat) (c : nat) (o : mc) :
  NoDup l -> (forall c', c' ∈ l -> c' < length (MC.R_ o)) ->
  let o' := fold_left (fun o c' => MC.load_R_channel c' o) l o in
  MC.set_R_ [] o' = MC.set_R_ [] o
  /\ length (MC.R_ o') = length (MC.R_ o)
  /\ mc_R c o' = if decide (c ∈ l)
                 then load_diagonal (MC.totalPredictionN_ o) (MC.load_factor_ o) (mc_R c o)
                 else mc_R c o.
Proof.
  revert o. induction l as [|c0 l IH]; intros o Hnd Hl; cbv zeta.
  - cbn. rewrite decide_False by (intros Hin; inversion Hin). auto.
  - apply NoDup_cons in Hnd as [Hc0 Hnd]. cbn [fold_left].
    destruct (mc_load_R_channel_spec c0 o ltac:(apply Hl; left)) as (E1 & E2 & E3 & E4).
    cbv zeta in E1, E2, E3, E4.
    destruct (IH (MC.load_R_channel c0 o) Hnd) as (F1 & F2 & F3).
    { intros c' Hc'. rewrite E2. apply Hl. right. exact Hc'. }
    cbv zeta in F1, F2, F3.
    split; [congruence |]. split; [congruence |].
    rewrite F3.
    rewrite (f_equal MC.totalPredictionN_ E1
             : MC.totalPredictionN_ (MC.load_R_channel c0 o) = MC.totalPredictionN_ o).
    rewrite (f_equal MC.load_factor_ E1
             : MC.load_factor_ (MC.load_R_channel c0 o) = MC.load_factor_ o).
    destruct (decide (c = c0)) as [->|Hne].
    + rewrite decide_False by exact Hc0. rewrite decide_True by left. exact E3.
    + rewrite E4 by congruence.
      destruct (decide (c ∈ l)) as [Hin|Hin].
      * rewrite decide_True by (right; exact Hin). reflexivity.
      * rewrite decide_False; [reflexivity |].
        intros Hin'. apply elem_of_cons in Hin' as [?|?]; contradiction.
Qed.

(** [load_R_] of the multi-channel class loads the matrix of every channel. *)
Lemma mc_load_R_matrix (c : nat) (o : mc) :
  MC.channelsN_ o <= length (MC.R_ o) ->
  c < MC.channelsN_ o ->
  mc_R c (MC.load_R_ o)
  = load_diagonal (MC.totalPredictionN_ o) (MC.load_factor_ o) (mc_R c o).
Proof.
  intros Hlen Hc. unfold MC.load_R_.
  destruct (mc_load_R_fold (seq 0 (MC.channelsN_ o)) c o) as (_ & _ & E).
  - apply NoDup_seq.
  - intros c' Hc'. apply elem_of_seq in Hc'. lia.
  - cbv zeta in E. rewrite E. apply decide_True. apply elem_of_seq. lia.
Qed.


End Loading.

(* ------------------------------------------------------------------ *)
(** ** The correlation matrices of the multi-channel estimation *)

Section Correlation.
Context {D : Type} `{DoubleOps D} `{LinAlgBackend D}.

Local Abbreviation mc := (MC.MultiChannelWPEDereverberation D).

(** The object without the work buffers of the estimation pass. *)
Definition mc_est_config (o : mc) : mc :=
  MC.set_R_ [] (MC.set_r_ [] (MC.set_lag_samples_ [] (MC.set_thetan_ [] o))).

Lemma mc_get_lags_only_lags (subbandX : nat) (sampleX : Z) (o : mc) :
  MC.set_lag_samples_ [] (MC.get_lags_ subbandX sampleX o) = MC.set_lag_samples_ [] o.
Proof.
  unfold MC.get_lags_.
  apply (fold_left_preserves
           (fun ot : mc * nat => MC.set_lag_samples_ [] ot.1 = MC.set_lag_samples_ [] o));
    [reflexivity |].
  intros ot channelX E.
  apply (fold_left_preserves
           (fun ot : mc * nat => MC.set_lag_samples_ [] ot.1 = MC.set_lag_samples_ [] o));
    [exact E |].
  intros [o' totalX] lagX E'. cbn [fst] in *. rewrite <- E'. reflexivity.
Qed.

Lemma set_zero_is_Some (m : gsl_matrix_complex D) (i j : nat) :
  is_Some (entry (gsl_matrix_complex_set_zero m) i j) <-> is_Some (entry m i j).
Proof.
  unfold entry, gsl_matrix_complex_set_zero, gsl_vector_complex_set_zero.
  rewrite list_lookup_fmap. destruct (m !! i) as [row|]; cbn; [| reflexivity].
  rewrite list_lookup_fmap. destruct (row !! j); cbn; split; intros [? ?]; try discriminate;
    eexists; reflexivity.
Qed.

Lemma accumulate_R_is_Some (lags : gsl_vector_complex D) (thetan : D) (n : nat)
    (R : gsl_matrix_complex D) (i j : nat) :
  is_Some (entry (SC.accumulate_R lags thetan n R) i j) <-> is_Some (entry R i j).
Proof.
  unfold SC.accumulate_R.
  apply (fold_left_preserves
           (fun R' : gsl_matrix_complex D => is_Some (entry R' i j) <-> is_Some (entry R i j)));
    [reflexivity |].
  intros R1 rowX E1.
  apply (fold_left_preserves
           (fun R' : gsl_matrix_complex D => is_Some (entry R' i j) <-> is_Some (entry R i j)));
    [exact E1 |].
  intros R2 colX E2. cbv zeta. rewrite <- E2. apply (entry_set_is_Some R2).
Qed.

(** The accumulation of one channel's matrix: what it leaves alone, and the
    shape of the matrix it builds. *)
Lemma mc_calc_R_channel_spec (subbandX c : nat) (o : mc) :
  c < length (MC.R_ o) ->
  let o' := MC.calc_R_channel subbandX c o in
  mc_est_config o' = mc_est_config o
  /\ length (MC.R_ o') = length (MC.R_ o)
  /\ (forall c', c <> c' -> mc_R c' o' = mc_R c' o)
  /\ (forall i j, is_Some (entry (mc_R c o') i j) <-> is_Some (entry (mc_R c o) i j)).
Proof.
  intros Hc. cbv zeta. unfold MC.calc_R_channel.
  set (o0 := MC.set_R_ _ o).
  apply (fold_left_preserves
           (fun o' : mc =>
              mc_est_config o' = mc_est_config o
              /\ length (MC.R_ o') = length (MC.R_ o)
              /\ (forall c', c <> c' -> mc_R c' o' = mc_R c' o)
              /\ (forall i j, is_Some (entry (mc_R c o') i j)
                              <-> is_Some (entry (mc_R c o) i j)))).
  - split; [reflexivity |]. split; [apply length_insert |].
    split; [intros c' Hc'; apply mc_R_insert_ne; exact Hc' |].
    intros i j. unfold o0. rewrite mc_R_insert_eq by exact Hc. apply set_zero_is_Some.
  - intros o1 sampleX (E1 & E2 & E3 & E4).
    set (o2 := MC.get_lags_ _ _ o1).
    pose proof (mc_get_lags_only_lags subbandX
                  (uint32 (Z.of_nat sampleX - Z.of_nat (MC.lowerN_ o1))) o1) as Hl.
    fold o2 in Hl.
    assert (ER : MC.R_ o2 = MC.R_ o1) by exact (f_equal MC.R_ Hl).
    assert (Ec : mc_est_config o2 = mc_est_config o1)
      by exact (f_equal mc_est_config Hl).
    split; [rewrite <- E1, <- Ec; reflexivity |].
    split; [cbn [MC.R_ MC.set_R_]; rewrite length_insert, ER; exact E2 |].
    split.
    + intros c' Hc'. rewrite mc_R_insert_ne by exact Hc'. unfold mc_R. rewrite ER.
      apply E3, Hc'.
    + intros i j. rewrite mc_R_insert_eq by (rewrite ER, E2; exact Hc).
      rewrite accumulate_R_is_Some, ER. apply E4.
Qed.

(** The bias loop of one channel. *)
Lemma mc_add_diagonal_bias_spec (c : nat) (o : mc) :
  c < length (MC.R_ o) ->
  let o' := MC.add_diagonal_bias c o in
  MC.set_R_ [] o' = MC.set_R_ [] o
  /\ length (MC.R_ o') = length (MC.R_ o)
  /\ mc_R c o' = bias_diagonal (MC.totalPredictionN_ o) (MC.diagonal_bias_ o) (mc_R c o)
  /\ forall c', c <> c' -> mc_R c' o' = mc_R c' o.
Proof.
  intros Hc. cbv zeta. unfold MC.add_diagonal_bias, bias_diagonal, diag_map.
  destruct (fold_left_proj (mc_R c)
              (fun o' => MC.set_R_ [] o' = MC.set_R_ [] o
                         /\ length (MC.R_ o') = length (MC.R_ o)
                         /\ forall c', c <> c' -> mc_R c' o' = mc_R c' o)
              (fun o rowX =>
                 MC.set_R_
                   (<[c := gsl_matrix_complex_set (default [] (MC.R_ o !! c)) rowX rowX
                             (gsl_complex_add_real
                                (gsl_matrix_complex_get (default [] (MC.R_ o !! c)) rowX rowX)
                                (MC.diagonal_bias_ o))]> (MC.R_ o)) o)
              (fun R rowX =>
                 gsl_matrix_complex_set R rowX rowX
                   (gsl_complex_add_real (gsl_matrix_complex_get R rowX rowX)
                                         (MC.diagonal_bias_ o)))
              (seq 0 (MC.totalPredictionN_ o)) o) as [(I1 & I2 & I3) E].
  - repeat split.
  - intros o' x (E1 & E2 & E3). split; [split; [| split] |].
    + rewrite <- E1. reflexivity.
    + cbn [MC.R_ MC.set_R_]. rewrite length_insert. exact E2.
    + intros c' Hc'. rewrite mc_R_insert_ne by exact Hc'. apply E3, Hc'.
    + fold (mc_R c o'). rewrite mc_R_insert_eq by (rewrite E2; exact Hc).
      rewrite (f_equal MC.diagonal_bias_ E1 : MC.diagonal_bias_ o' = MC.diagonal_bias_ o).
      reflexivity.
  - repeat split; assumption.
Qed.

(** The second half of [calc_Rr_] does not write [R_]. *)
Lemma mc_calc_r_channel_spec (subbandX c : nat) (o : mc) :
  let o' := MC.calc_r_channel subbandX c o in
  mc_est_config o' = mc_est_config o /\ MC.R_ o' = MC.R_ o.
Proof.
  cbv zeta. unfold MC.calc_r_channel.
  set (o0 := MC.set_r_ _ o).
  apply (fold_left_preserves
           (fun os : mc * nat => mc_est_config os.1 = mc_est_config o
                                 /\ MC.R_ os.1 = MC.R_ o)).
  - split; reflexivity.
  - intros [o1 sampleX] frame [E1 E2]. cbn [fst] in E1, E2.
    destruct (sampleX <? MC.lowerN_ o1); [split; assumption |].
    cbv zeta. cbn [fst].
    pose proof (mc_get_lags_only_lags subbandX
                  (uint32 (Z.of_nat sampleX - Z.of_nat (MC.lowerN_ o1))) o1) as Hl.
    split.
    + rewrite <- E1. exact (f_equal mc_est_config Hl).
    + rewrite <- E2. exact (f_equal MC.R_ Hl).
Qed.

(** One iteration of the first channel loop of [calc_Rr_]: accumulate the
    matrix of channel [c], then add the bias to its diagonal. *)
Lemma mc_calc_R_step_spec (subbandX c : nat) (o : mc) :
  c < length (MC.R_ o) ->
  let o' := MC.add_diagonal_bias c (MC.calc_R_channel subbandX c o) in
  mc_est_config o' = mc_est_config o
  /\ length (MC.R_ o') = length (MC.R_ o)
  /\ mc_R c o' = bias_diagonal (MC.totalPredictionN_ o) (MC.diagonal_bias_ o)
                               (mc_R c (MC.calc_R_channel subbandX c o))
  /\ forall c', c <> c' -> mc_R c' o' = mc_R c' o.
Proof.
  intros Hc. cbv zeta.
  destruct (mc_calc_R_channel_spec subbandX c o Hc) as (A1 & A2 & A3 & _).
  cbv zeta in A1, A2, A3.
  destruct (mc_add_diagonal_bias_spec c (MC.calc_R_channel subbandX c o))
    as (B1 & B2 & B3 & B4); [rewrite A2; exact Hc |].
  cbv zeta in B1, B2, B3, B4.
  split; [rewrite <- A1; exact (f_equal mc_est_config B1) |].
  split; [congruence |]. split.
  - rewrite B3.
    rewrite (f_equal MC.totalPredictionN_ A1
             : MC.totalPredictionN_ (MC.calc_R_channel subbandX c o) = MC.totalPredictionN_ o).
    rewrite (f_equal MC.diagonal_bias_ A1
             : MC.diagonal_bias_ (MC.calc_R_channel subbandX c o) = MC.diagonal_bias_ o).
    reflexivity.
  - intros c' Hc'. rewrite B4 by exact Hc'. apply A3, Hc'.
Qed.

(** The first channel loop of [calc_Rr_], over the channels in [l]. *)
Definition mc_calc_R_steps (subbandX : nat) (l : list nat) (o : mc) : mc :=
  fold_left (fun o c' => MC.add_diagonal_bias c' (MC.calc_R_channel subbandX c' o)) l o.

Lemma mc_calc_R_steps_other (subbandX : nat) (l : list nat) (c : nat) (o : mc) :
  c ∉ l -> (forall c', c' ∈ l -> c' < length (MC.R_ o)) ->
  let o' := mc_calc_R_steps subbandX l o in
  mc_est_config o' = mc_est_config o
  /\ length (MC.R_ o') = length (MC.R_ o)
  /\ mc_R c o' = mc_R c o.
Proof.
  revert o. induction l as [|c0 l IH]; intros o Hc Hl; cbv zeta; [cbn; auto |].
  change (mc_calc_R_steps subbandX (c0 :: l) o)
    with (mc_calc_R_steps subbandX l
            (MC.add_diagonal_bias c0 (MC.calc_R_channel subbandX c0 o))).
  destruct (mc_calc_R_step_spec subbandX c0 o ltac:(apply Hl; left)) as (E1 & E2 & _ & E4).
  cbv zeta in E1, E2, E4.
  destruct (IH (MC.add_diagonal_bias c0 (MC.calc_R_channel subbandX c0 o))) as (F1 & F2 & F3).
  - intros Hin. apply Hc. right. exact Hin.
  - intros c' Hc'. rewrite E2. apply Hl. right. exact Hc'.
  - cbv zeta in F1, F2, F3. split; [congruence |]. split; [congruence |].
    rewrite F3. apply E4. intros ->. apply Hc. left.
Qed.

Lemma mc_calc_r_steps (subbandX : nat) (l : list nat) (o : mc) :
  let o' := fold_left (fun o c' => MC.calc_r_channel subbandX c' o) l o in
  mc_est_config o' = mc_est_config o /\ MC.R_ o' = MC.R_ o.
Proof.
  cbv zeta.
  apply (fold_left_preserves
           (fun o' : mc => mc_est_config o' = mc_est_config o /\ MC.R_ o' = MC.R_ o));
    [split; reflexivity |].
  intros o1 c' [E1 E2].
  destruct (mc_calc_r_channel_spec subbandX c' o1) as [F1 F2]. cbv zeta in F1, F2.
  split; congruence.
Qed.

(** The object on which channel [c] is accumulated: the channels before it
    are done. *)
Definition mc_before (subbandX c : nat) (o : mc) : mc :=
  mc_calc_R_steps subbandX (seq 0 c) o.

(** The correlation matrix accumulated for channel [c], before any
    regularisation. *)
Definition mc_accumulated_R (subbandX c : nat) (o : mc) : gsl_matrix_complex D :=
  mc_R c (MC.calc_R_channel subbandX c (mc_before subbandX c o)).

Lemma mc_calc_Rr_unfold (subbandX c : nat) (o : mc) :
  c < MC.channelsN_ o ->
  MC.calc_Rr_ subbandX o
  = let o1 := mc_calc_R_steps subbandX (seq (S c) (MC.channelsN_ o - S c))
                (MC.add_diagonal_bias c
                   (MC.calc_R_channel subbandX c (mc_before subbandX c o))) in
    fold_left (fun o c' => MC.calc_r_channel subbandX c' o) (seq 0 (MC.channelsN_ o1)) o1.
Proof.
  intros Hc. unfold MC.calc_Rr_, mc_before, mc_calc_R_steps. cbv zeta.
  replace (seq 0 (MC.channelsN_ o))
    with (seq 0 c ++ c :: seq (S c) (MC.channelsN_ o - S c)).
  - rewrite fold_left_app. reflexivity.
  - change (c :: seq (S c) (MC.channelsN_ o - S c))
      with (seq c (S (MC.channelsN_ o - S c))).
    rewrite <- seq_app. f_equal. lia.
Qed.

(** After [calc_Rr_] the matrix of channel [c] is the accumulated matrix
    with the bias added on its diagonal. *)
Lemma mc_calc_Rr_matrix (subbandX c : nat) (o : mc) :
  MC.channelsN_ o <= length (MC.R_ o) ->
  c < MC.channelsN_ o ->
  let o' := MC.calc_Rr_ subbandX o in
  mc_est_config o' = mc_est_config o
  /\ length (MC.R_ o') = length (MC.R_ o)
  /\ mc_R c o' = bias_diagonal (MC.totalPredictionN_ o) (MC.diagonal_bias_ o)
                               (mc_accumulated_R subbandX c o)
  /\ forall i j, is_Some (entry (mc_accumulated_R subbandX c o) i j)
                 <-> is_Some (entry (mc_R c o) i j).
Proof.
  intros Hlen Hc. cbv zeta. rewrite (mc_calc_Rr_unfold subbandX c o Hc). cbv zeta.
  unfold mc_accumulated_R.
  set (ob := mc_before subbandX c o).
  destruct (mc_calc_R_steps_other subbandX (seq 0 c) c o) as (A1 & A2 & A3).
  { intros Hin. apply elem_of_seq in Hin. lia. }
  { intros c' Hc'. apply elem_of_seq in Hc'. lia. }
  cbv zeta in A1, A2, A3. fold (mc_before subbandX c o) in A1, A2, A3. fold ob in A1, A2, A3.
  destruct (mc_calc_R_step_spec subbandX c ob ltac:(lia)) as (B1 & B2 & B3 & _).
  cbv zeta in B1, B2, B3.
  set (oc := MC.add_diagonal_bias c (MC.calc_R_channel subbandX c ob)) in *.
  destruct (mc_calc_R_steps_other subbandX (seq (S c) (MC.channelsN_ o - S c)) c oc)
    as (C1 & C2 & C3).
  { intros Hin. apply elem_of_seq in Hin. lia. }
  { intros c' Hc'. apply elem_of_seq in Hc'. lia. }
  cbv zeta in C1, C2, C3.
  set (o1 := mc_calc_R_steps subbandX (seq (S c) (MC.channelsN_ o - S c)) oc) in *.
  destruct (mc_calc_r_steps subbandX (seq 0 (MC.channelsN_ o1)) o1) as [D1 D2].
  cbv zeta in D1, D2.
  split; [congruence |]. split; [congruence |]. split.
  - unfold mc_R at 1. rewrite D2. fold (mc_R c o1). rewrite C3, B3.
    rewrite (f_equal MC.totalPredictionN_ A1
             : MC.totalPredictionN_ ob = MC.totalPredictionN_ o).
    rewrite (f_equal MC.diagonal_bias_ A1 : MC.diagonal_bias_ ob = MC.diagonal_bias_ o).
    reflexivity.
  - intros i j.
    destruct (mc_calc_R_channel_spec subbandX c ob ltac:(lia)) as (_ & _ & _ & E4).
    cbv zeta in E4. rewrite E4, A3. reflexivity.
Qed.

(** C9 (bias before loading). In the multi-channel estimation pass the body
    of the subband loop, for a subband outside the skipped band, is
    [calc_Rr_], then [load_R_], then the solve of every channel. For every
    channel [c], [calc_Rr_] leaves in [R_[c]] the accumulated correlation
    matrix with [diagonal_bias_] added to every diagonal entry, and
    [load_R_] applies the proportional loading to that matrix: the maximum
    diagonal magnitude it scales by the load factor is taken over the
    biased entries. *)
Theorem bias_added_before_loading (o : mc) (subbandX c i : nat) :
  MC.channelsN_ o <= length (MC.R_ o) ->
  c < MC.channelsN_ o ->
  i < MC.totalPredictionN_ o ->
  is_Some (entry (mc_R c o) i i) ->
  let n := MC.totalPredictionN_ o in
  let A := mc_accumulated_R subbandX c o in
  let R1 := mc_R c (MC.calc_Rr_ subbandX o) in
  let R2 := mc_R c (MC.load_R_ (MC.calc_Rr_ subbandX o)) in
  ((MC.lower_bandWidthN_ o <? subbandX) && (subbandX <? MC.upper_bandWidthN_ o) = false ->
   MC.estimate_Gn_at subbandX o
   = for_each (seq 0 (MC.channelsN_ o)) (MC.solve_channel subbandX)
              (MC.load_R_ (MC.calc_Rr_ subbandX o)))
  /\ R1 = bias_diagonal n (MC.diagonal_bias_ o) A
  /\ gsl_matrix_complex_get R1 i i
     = gsl_complex_add_real (gsl_matrix_complex_get A i i) (MC.diagonal_bias_ o)
  /\ R2 = load_diagonal n (MC.load_factor_ o) R1
  /\ gsl_matrix_complex_get R2 i i
     = gsl_complex_rect
         (dadd (gsl_complex_abs
                  (gsl_complex_add_real (gsl_matrix_complex_get A i i) (MC.diagonal_bias_ o)))
               (dmul (maximum_diagonal n (bias_diagonal n (MC.diagonal_bias_ o) A))
                     (MC.load_factor_ o)))
         d0.
Proof.
  intros Hlen Hc Hi Hsome. cbv zeta.
  destruct (mc_calc_Rr_matrix subbandX c o Hlen Hc) as (E1 & E2 & E3 & E4).
  cbv zeta in E1, E2, E3, E4.
  set (o1 := MC.calc_Rr_ subbandX o) in *.
  assert (Fn : MC.totalPredictionN_ o1 = MC.totalPredictionN_ o)
    by exact (f_equal MC.totalPredictionN_ E1).
  assert (Fl : MC.load_factor_ o1 = MC.load_factor_ o) by exact (f_equal MC.load_factor_ E1).
  assert (Fc : MC.channelsN_ o1 = MC.channelsN_ o) by exact (f_equal MC.channelsN_ E1).
  assert (HA : is_Some (entry (mc_accumulated_R subbandX c o) i i)) by (apply E4; exact Hsome).
  assert (G1 : gsl_matrix_complex_get (mc_R c o1) i i
               = gsl_complex_add_real (gsl_matrix_complex_get (mc_accumulated_R subbandX c o) i i)
                                      (MC.diagonal_bias_ o)).
  { rewrite E3. unfold bias_diagonal.
    rewrite diag_map_diag; [reflexivity | apply NoDup_seq | apply elem_of_seq; lia | exact HA]. }
  assert (G2 : mc_R c (MC.load_R_ o1)
               = load_diagonal (MC.totalPredictionN_ o) (MC.load_factor_ o) (mc_R c o1)).
  { rewrite mc_load_R_matrix by (rewrite ?E2, ?Fc; assumption). rewrite Fn, Fl. reflexivity. }
  split.
  - intros Hact. unfold MC.estimate_Gn_at. rewrite Hact. fold o1.
    destruct (mc_load_R_fold (seq 0 (MC.channelsN_ o1)) c o1) as (L1 & _).
    { apply NoDup_seq. }
    { intros c' Hc'. apply elem_of_seq in Hc'. lia. }
    cbv zeta in L1. fold (MC.load_R_ o1) in L1.
    rewrite (f_equal MC.channelsN_ L1 : MC.channelsN_ (MC.load_R_ o1) = MC.channelsN_ o1).
    rewrite Fc. reflexivity.
  - split; [exact E3 |]. split; [exact G1 |]. split; [exact G2 |].
    rewrite G2. unfold load_diagonal.
    rewrite diag_map_diag;
      [| apply NoDup_seq | apply elem_of_seq; lia
       | rewrite E3; apply diag_map_is_Some; exact HA].
    rewrite G1, E3. reflexivity.
Qed.

End Correlation.

(* ------------------------------------------------------------------ *)
(** ** The power-estimation pass *)

Section Visits.
Context {S K : Type}.
Variable rel : S -> S -> Prop.
Variable ok : K -> Prop.
Variable good : K -> S -> Prop.
Hypothesis rel_refl : forall s, rel s s.
Hypothesis rel_trans : forall s1 s2 s3, rel s1 s2 -> rel s2 s3 -> rel s1 s3.
Hypothesis good_mono : forall k s s', rel s s' -> good k s -> good k s'.

(** A loop that visits the keys of [l]: if each visit establishes [good] at
    its key and no visit destroys it, every key visited is [good] at the end.
    [s0] is the state the whole pass started from. *)
Lemma visit_fold (f : K -> S -> S) (l : list K) (s0 s : S) :
  rel s0 s ->
  (forall k s, rel s0 s -> rel s (f k s) /\ (ok k -> good k (f k s))) ->
  let s' := fold_left (fun s k => f k s) l s in
  rel s s' /\ forall k, k ∈ l -> ok k -> good k s'.
Proof using rel_refl rel_trans good_mono.
  intros Hs Hf. revert s Hs. induction l as [|k0 l IH]; intros s Hs; cbv zeta.
  - split; [apply rel_refl |]. intros k Hk. inversion Hk.
  - cbn [fold_left]. destruct (Hf k0 s Hs) as [Hr Hg].
    destruct (IH (f k0 s)) as [Hr' Hg']; [eapply rel_trans; eassumption |].
    cbv zeta in Hr', Hg'. split; [eapply rel_trans; eassumption |].
    intros k Hk Hok. apply elem_of_cons in Hk as [->|Hk].
    + eapply good_mono; [exact Hr' | apply Hg, Hok].
    + apply Hg'; assumption.
Qed.

End Visits.

(** A loop over a list that also counts its position, as a loop over the
    list paired with the positions. *)
Lemma fold_left_counted {S X : Type} (g : nat -> X -> S -> S) (l : list X) (s : S) (a : nat) :
  (fold_left (fun '(s, k) x => (g k x s, Datatypes.S k)) l (s, a)).1
  = fold_left (fun s kx => g kx.1 kx.2 s) (zip (seq a (length l)) l) s.
Proof.
  revert s a. induction l as [|x l IH]; intros s a; [reflexivity |].
  cbn [fold_left length seq zip zip_with fst snd]. apply IH.
Qed.

Lemma elem_of_zip_seq {X : Type} (l : list X) (i : nat) (x : X) :
  l !! i = Some x -> (i, x) ∈ zip (seq 0 (length l)) l.
Proof.
  intros Hx. apply list_elem_of_lookup. exists i.
  rewrite lookup_zip_with. rewrite lookup_seq_lt by (apply lookup_lt_Some in Hx; exact Hx).
  cbn. rewrite Hx. reflexivity.
Qed.

Section PowerFloor.
Context {D : Type} `{DoubleOps D} `{LinAlgBackend D}.

Local Abbreviation sc := (SC.SingleChannelWPEDereverberationFeature D).
Local Abbreviation mc := (MC.MultiChannelWPEDereverberation D).

(** The value [calc_Thetan_] stores for a residual of magnitude [a]. *)
Definition floored_square (a : D) : D :=
  let thetan := if dltb a d1Em03 then d1Em03 else a in
  dmul thetan thetan.

(** A power value that is at least the squared floor when it is a number
    ([x <= x], which of doubles only a NaN fails). *)
Definition above_floor (x : D) : Prop :=
  dleb x x = true -> dleb (dmul d1Em03 d1Em03) x = true.

Lemma floored_square_above_floor `{!FloorArith D} (a : D) : above_floor (floored_square a).
Proof.
  unfold above_floor, floored_square. cbv zeta.
  destruct (dltb a d1Em03) eqn:Hlt.
  - intros _. apply floor_square_number.
  - intros Hnum. apply floor_square_le; assumption.
Qed.

Lemma matrix_get_set_above (m : gsl_matrix D) (i j : nat) (x : D) :
  above_floor x -> is_Some (entry m i j) -> above_floor (gsl_matrix_get (gsl_matrix_set m i j x) i j).
Proof.
  intros Hx Hsome. rewrite gsl_matrix_get_entry.
  unfold gsl_matrix_set. fold (matrix_set m i j x).
  rewrite entry_set_eq by exact Hsome. exact Hx.
Qed.

Lemma matrix_get_set_keeps (m : gsl_matrix D) (i j i' j' : nat) (x : D) :
  above_floor x -> above_floor (gsl_matrix_get m i' j') ->
  above_floor (gsl_matrix_get (gsl_matrix_set m i j x) i' j').
Proof.
  intros Hx Hm. rewrite gsl_matrix_get_entry in *.
  unfold gsl_matrix_set. fold (matrix_set m i j x).
  destruct (decide (i = i' /\ j = j')) as [[<- <-]|Hne].
  - destruct (entry m i j) as [y|] eqn:Hy.
    + rewrite entry_set_eq by (rewrite Hy; eexists; reflexivity). exact Hx.
    + assert (E : entry (matrix_set m i j x) i j = None).
      { destruct (entry (matrix_set m i j x) i j) eqn:E; [| reflexivity].
        assert (Hs : is_Some (entry m i j))
          by (apply (entry_set_is_Some m i j i j x); rewrite E; eexists; reflexivity).
        rewrite Hy in Hs. destruct Hs; discriminate. }
      rewrite E. exact Hm.
  - rewrite entry_set_ne; [exact Hm |].
    destruct (decide (i = i')); [right; intros ->; apply Hne; auto | left; assumption].
Qed.

(** *** Single channel *)

Lemma sc_get_lags_only_lags (subbandX : nat) (sampleX : Z) (o : sc) :
  SC.set_lag_samples_ [] (SC.get_lags_ subbandX sampleX o) = SC.set_lag_samples_ [] o.
Proof.
  unfold SC.get_lags_.
  apply (fold_left_preserves
           (fun o' => SC.set_lag_samples_ [] o' = SC.set_lag_samples_ [] o)); [reflexivity |].
  intros o' lagX E. rewrite <- E. reflexivity.
Qed.

(** One pass may change [thetan_] and the scratch vector only; it keeps the
    shape of [thetan_] and leaves above the floor what was above it. *)
Definition sc_theta_rel (o o' : sc) : Prop :=
  SC.set_thetan_ [] (SC.set_lag_samples_ [] o') = SC.set_thetan_ [] (SC.set_lag_samples_ [] o)
  /\ (forall i j, is_Some (entry (SC.thetan_ o') i j) <-> is_Some (entry (SC.thetan_ o) i j))
  /\ (forall i j, above_floor (gsl_matrix_get (SC.thetan_ o) i j) ->
                  above_floor (gsl_matrix_get (SC.thetan_ o') i j)).

Lemma sc_theta_rel_refl (o : sc) : sc_theta_rel o o.
Proof. repeat split; auto. Qed.

Lemma sc_theta_rel_trans (o1 o2 o3 : sc) :
  sc_theta_rel o1 o2 -> sc_theta_rel o2 o3 -> sc_theta_rel o1 o3.
Proof.
  intros (A1 & A2 & A3) (B1 & B2 & B3). split; [congruence |]. split.
  - intros i j. rewrite B2. apply A2.
  - intros i j Hg. apply B3, A3, Hg.
Qed.

Lemma sc_calc_Thetan_at_eq (sampleX : nat) (frame : gsl_vector_complex D) (subbandX : nat)
    (o : sc) :
  exists a o1,
    SC.set_lag_samples_ [] o1 = SC.set_lag_samples_ [] o
    /\ SC.calc_Thetan_at sampleX frame subbandX o
       = SC.set_thetan_ (gsl_matrix_set (SC.thetan_ o1) sampleX subbandX (floored_square a)) o1.
Proof.
  unfold SC.calc_Thetan_at. destruct (SC.lowerN_ o <=? sampleX).
  - eexists _, (SC.get_lags_ subbandX _ o). split; [apply sc_get_lags_only_lags |].
    reflexivity.
  - eexists _, o. split; reflexivity.
Qed.

Lemma sc_calc_Thetan_at_step `{!FloorArith D} (sampleX : nat) (frame : gsl_vector_complex D)
    (subbandX : nat) (o : sc) :
  sc_theta_rel o (SC.calc_Thetan_at sampleX frame subbandX o)
  /\ (is_Some (entry (SC.thetan_ o) sampleX subbandX) ->
      above_floor (gsl_matrix_get (SC.thetan_ (SC.calc_Thetan_at sampleX frame subbandX o))
                                  sampleX subbandX)).
Proof.
  destruct (sc_calc_Thetan_at_eq sampleX frame subbandX o) as (a & o1 & E1 & ->).
  assert (Et : SC.thetan_ o1 = SC.thetan_ o) by exact (f_equal SC.thetan_ E1).
  cbn [SC.thetan_ SC.set_thetan_]. rewrite Et. split; [split; [| split] |].
  - rewrite <- E1. reflexivity.
  - intros i j. apply (entry_set_is_Some (SC.thetan_ o)).
  - intros i j Hg. apply matrix_get_set_keeps; [apply floored_square_above_floor | exact Hg].
  - intros Hsome. apply matrix_get_set_above; [apply floored_square_above_floor | exact Hsome].
Qed.

(** The subband loop of [calc_Thetan_] for one buffered frame. *)
Definition sc_theta_frame (sampleX : nat) (frame : gsl_vector_complex D) (o : sc) : sc :=
  fold_left (fun o subbandX => SC.calc_Thetan_at sampleX frame subbandX o)
            (seq 0 (SC.size o)) o.

Lemma sc_calc_Thetan_frames (o : sc) :
  SC.calc_Thetan_ o
  = fold_left (fun o kx => sc_theta_frame kx.1 kx.2 o)
              (zip (seq 0 (length (SC.yn_ o))) (SC.yn_ o)) o.
Proof. unfold SC.calc_Thetan_. apply (fold_left_counted sc_theta_frame). Qed.

Lemma sc_theta_frame_step `{!FloorArith D} (o0 o : sc) (sampleX : nat)
    (frame : gsl_vector_complex D) :
  sc_theta_rel o0 o ->
  sc_theta_rel o (sc_theta_frame sampleX frame o)
  /\ forall subbandX, subbandX < SC.size o0 ->
       is_Some (entry (SC.thetan_ o0) sampleX subbandX) ->
       above_floor (gsl_matrix_get (SC.thetan_ (sc_theta_frame sampleX frame o))
                                   sampleX subbandX).
Proof.
  intros Hrel. unfold sc_theta_frame.
  destruct (visit_fold sc_theta_rel
              (fun subbandX => is_Some (entry (SC.thetan_ o0) sampleX subbandX))
              (fun subbandX o' => above_floor (gsl_matrix_get (SC.thetan_ o') sampleX subbandX))
              sc_theta_rel_refl sc_theta_rel_trans
              (fun k s s' (R : sc_theta_rel s s') => proj2 (proj2 R) sampleX k)
              (fun subbandX o' => SC.calc_Thetan_at sampleX frame subbandX o')
              (seq 0 (SC.size o)) o0 o Hrel) as [Hr Hg].
  - intros subbandX o' Hrel'.
    destruct (sc_calc_Thetan_at_step sampleX frame subbandX o') as [S1 S2].
    split; [exact S1 |]. intros Hok. apply S2. apply (proj1 (proj2 Hrel')). exact Hok.
  - cbv zeta in Hr, Hg. split; [exact Hr |].
    intros subbandX Hs Hok. apply Hg; [| exact Hok].
    apply elem_of_seq.
    assert (Es : SC.size o = SC.size o0) by exact (f_equal SC.size (proj1 Hrel)). lia.
Qed.

Lemma sc_calc_Thetan_above_floor `{!FloorArith D} (o : sc) (sampleX subbandX : nat) :
  sampleX < length (SC.yn_ o) ->
  subbandX < SC.size o ->
  is_Some (entry (SC.thetan_ o) sampleX subbandX) ->
  above_floor (gsl_matrix_get (SC.thetan_ (SC.calc_Thetan_ o)) sampleX subbandX).
Proof.
  intros Hi Hj Hsome. rewrite sc_calc_Thetan_frames.
  destruct (lookup_lt_is_Some_2 (SC.yn_ o) sampleX Hi) as [frame Hframe].
  destruct (visit_fold sc_theta_rel
              (fun _ : nat * gsl_vector_complex D => True)
              (fun kx o' => forall j, j < SC.size o ->
                              is_Some (entry (SC.thetan_ o) kx.1 j) ->
                              above_floor (gsl_matrix_get (SC.thetan_ o') kx.1 j))
              sc_theta_rel_refl sc_theta_rel_trans
              (fun kx s s' (R : sc_theta_rel s s') G j Hj' Hs' =>
                 proj2 (proj2 R) kx.1 j (G j Hj' Hs'))
              (fun kx o' => sc_theta_frame kx.1 kx.2 o')
              (zip (seq 0 (length (SC.yn_ o))) (SC.yn_ o)) o o (sc_theta_rel_refl o))
    as [_ Hg].
  - intros [k frame'] o' Hrel. cbn [fst snd].
    destruct (sc_theta_frame_step o o' k frame' Hrel) as [S1 S2].
    split; [exact S1 |]. intros _. exact S2.
  - cbv zeta in Hg.
    apply (Hg (sampleX, frame) (elem_of_zip_seq _ _ _ Hframe) I subbandX Hj Hsome).
Qed.

(** *** Multi-channel *)

(** The power matrix [thetan_[c]] of one channel. *)
Definition mc_theta (c : nat) (o : mc) : gsl_matrix D := default [] (MC.thetan_ o !! c).

Definition mc_theta_rel (o o' : mc) : Prop :=
  MC.set_thetan_ [] (MC.set_lag_samples_ [] o') = MC.set_thetan_ [] (MC.set_lag_samples_ [] o)
  /\ (forall c i j, is_Some (entry (mc_theta c o') i j) <-> is_Some (entry (mc_theta c o) i j))
  /\ (forall c i j, above_floor (gsl_matrix_get (mc_theta c o) i j) ->
                    above_floor (gsl_matrix_get (mc_theta c o') i j)).

Lemma mc_theta_rel_refl (o : mc) : mc_theta_rel o o.
Proof. repeat split; auto. Qed.

Lemma mc_theta_rel_trans (o1 o2 o3 : mc) :
  mc_theta_rel o1 o2 -> mc_theta_rel o2 o3 -> mc_theta_rel o1 o3.
Proof.
  intros (A1 & A2 & A3) (B1 & B2 & B3). split; [congruence |]. split.
  - intros c i j. rewrite B2. apply A2.
  - intros c i j Hg. apply B3, A3, Hg.
Qed.

Lemma mc_calc_Thetan_at_eq (sampleX : nat) (brace : list (gsl_vector_complex D))
    (channelX subbandX : nat) (o : mc) :
  exists a o1,
    MC.set_lag_samples_ [] o1 = MC.set_lag_samples_ [] o
    /\ MC.calc_Thetan_at sampleX brace channelX subbandX o
       = MC.set_thetan_
           (<[channelX := gsl_matrix_set (mc_theta channelX o1) sampleX subbandX
                            (floored_square a)]> (MC.thetan_ o1)) o1.
Proof.
  unfold MC.calc_Thetan_at. destruct (MC.lowerN_ o <=? sampleX).
  - eexists _, (MC.get_lags_ subbandX _ o). split; [apply mc_get_lags_only_lags |].
    reflexivity.
  - eexists _, o. split; reflexivity.
Qed.

(** Writing an entry of one channel's matrix: that matrix is updated (an
    absent matrix stays absent) and the others stay. *)
Lemma mc_theta_write (c c' i j : nat) (x : D) (o : mc) :
  mc_theta c' (MC.set_thetan_ (<[c := gsl_matrix_set (mc_theta c o) i j x]> (MC.thetan_ o)) o)
  = if decide (c = c') then gsl_matrix_set (mc_theta c o) i j x else mc_theta c' o.
Proof.
  unfold mc_theta at 1. cbn [MC.thetan_ MC.set_thetan_].
  destruct (decide (c = c')) as [<-|Hne].
  - destruct (decide (c < length (MC.thetan_ o))) as [Hlt|Hge].
    + rewrite list_lookup_insert_eq by exact Hlt. reflexivity.
    + rewrite list_insert_ge by lia. unfold mc_theta.
      rewrite (proj2 (lookup_ge_None (MC.thetan_ o) c)) by lia. reflexivity.
  - rewrite list_lookup_insert_ne by exact Hne. reflexivity.
Qed.

Lemma mc_calc_Thetan_at_step `{!FloorArith D} (sampleX : nat)
    (brace : list (gsl_vector_complex D)) (channelX subbandX : nat) (o : mc) :
  mc_theta_rel o (MC.calc_Thetan_at sampleX brace channelX subbandX o)
  /\ (is_Some (entry (mc_theta channelX o) sampleX subbandX) ->
      above_floor
        (gsl_matrix_get
           (mc_theta channelX (MC.calc_Thetan_at sampleX brace channelX subbandX o))
           sampleX subbandX)).
Proof.
  destruct (mc_calc_Thetan_at_eq sampleX brace channelX subbandX o) as (a & o1 & E1 & ->).
  assert (Et : forall c, mc_theta c o1 = mc_theta c o)
    by (intros c; unfold mc_theta; rewrite (f_equal MC.thetan_ E1 : MC.thetan_ o1 = _);
        reflexivity).
  assert (W : forall c', mc_theta c' (MC.set_thetan_
                (<[channelX := gsl_matrix_set (mc_theta channelX o1) sampleX subbandX
                                 (floored_square a)]> (MC.thetan_ o1)) o1)
              = if decide (channelX = c')
                then gsl_matrix_set (mc_theta channelX o) sampleX subbandX (floored_square a)
                else mc_theta c' o).
  { intros c'. rewrite mc_theta_write, !Et. reflexivity. }
  split; [split; [| split] |].
  - rewrite <- E1. reflexivity.
  - intros c i j. rewrite W. destruct (decide (channelX = c)) as [<-|]; [| reflexivity].
    apply (entry_set_is_Some (mc_theta channelX o)).
  - intros c i j Hg. rewrite W. destruct (decide (channelX = c)) as [<-|]; [| exact Hg].
    apply matrix_get_set_keeps; [apply floored_square_above_floor | exact Hg].
  - intros Hsome. rewrite W, decide_True by reflexivity.
    apply matrix_get_set_above; [apply floored_square_above_floor | exact Hsome].
Qed.

(** The subband loop for one buffered brace and one channel. *)
Definition mc_theta_channel (sampleX : nat) (brace : list (gsl_vector_complex D))
    (channelX : nat) (o : mc) : mc :=
  fold_left (fun o subbandX => MC.calc_Thetan_at sampleX brace channelX subbandX o)
            (seq 0 (MC.size o)) o.

(** The channel loop for one buffered brace. *)
Definition mc_theta_frame (sampleX : nat) (brace : list (gsl_vector_complex D)) (o : mc) : mc :=
  fold_left (fun o channelX => mc_theta_channel sampleX brace channelX o)
            (seq 0 (MC.channelsN_ o)) o.

Lemma mc_calc_Thetan_frames (o : mc) :
  MC.calc_Thetan_ o
  = fold_left (fun o kx => mc_theta_frame kx.1 kx.2 o)
              (zip (seq 0 (length (MC.frames_ o))) (MC.frames_ o)) o.
Proof. unfold MC.calc_Thetan_. apply (fold_left_counted mc_theta_frame). Qed.

Lemma mc_theta_channel_step `{!FloorArith D} (o0 o : mc) (sampleX : nat)
    (brace : list (gsl_vector_complex D)) (channelX : nat) :
  mc_theta_rel o0 o ->
  mc_theta_rel o (mc_theta_channel sampleX brace channelX o)
  /\ forall subbandX, subbandX < MC.size o0 ->
       is_Some (entry (mc_theta channelX o0) sampleX subbandX) ->
       above_floor (gsl_matrix_get
                      (mc_theta channelX (mc_theta_channel sampleX brace channelX o))
                      sampleX subbandX).
Proof.
  intros Hrel. unfold mc_theta_channel.
  destruct (visit_fold mc_theta_rel
              (fun subbandX => is_Some (entry (mc_theta channelX o0) sampleX subbandX))
              (fun subbandX o' =>
                 above_floor (gsl_matrix_get (mc_theta channelX o') sampleX subbandX))
              mc_theta_rel_refl mc_theta_rel_trans
              (fun k s s' (R : mc_theta_rel s s') => proj2 (proj2 R) channelX sampleX k)
              (fun subbandX o' => MC.calc_Thetan_at sampleX brace channelX subbandX o')
              (seq 0 (MC.size o)) o0 o Hrel) as [Hr Hg].
  - intros subbandX o' Hrel'.
    destruct (mc_calc_Thetan_at_step sampleX brace channelX subbandX o') as [S1 S2].
    split; [exact S1 |]. intros Hok. apply S2. apply (proj1 (proj2 Hrel')). exact Hok.
  - cbv zeta in Hr, Hg. split; [exact Hr |].
    intros subbandX Hs Hok. apply Hg; [| exact Hok].
    apply elem_of_seq.
    assert (Es : MC.size o = MC.size o0) by exact (f_equal MC.size (proj1 Hrel)). lia.
Qed.

Lemma mc_theta_frame_step `{!FloorArith D} (o0 o : mc) (sampleX : nat)
    (brace : list (gsl_vector_complex D)) :
  mc_theta_rel o0 o ->
  mc_theta_rel o (mc_theta_frame sampleX brace o)
  /\ forall channelX subbandX,
       channelX < MC.channelsN_ o0 -> subbandX < MC.size o0 ->
       is_Some (entry (mc_theta channelX o0) sampleX subbandX) ->
       above_floor (gsl_matrix_get (mc_theta channelX (mc_theta_frame sampleX brace o))
                                   sampleX subbandX).
Proof.
  intros Hrel. unfold mc_theta_frame.
  destruct (visit_fold mc_theta_rel
              (fun _ : nat => True)
              (fun channelX o' =>
                 forall j, j < MC.size o0 ->
                   is_Some (entry (mc_theta channelX o0) sampleX j) ->
                   above_floor (gsl_matrix_get (mc_theta channelX o') sampleX j))
              mc_theta_rel_refl mc_theta_rel_trans
              (fun c s s' (R : mc_theta_rel s s') G j Hj' Hs' =>
                 proj2 (proj2 R) c sampleX j (G j Hj' Hs'))
              (fun channelX o' => mc_theta_channel sampleX brace channelX o')
              (seq 0 (MC.channelsN_ o)) o0 o Hrel) as [Hr Hg].
  - intros channelX o' Hrel'.
    destruct (mc_theta_channel_step o0 o' sampleX brace channelX Hrel') as [S1 S2].
    split; [exact S1 |]. intros _. exact S2.
  - cbv zeta in Hr, Hg. split; [exact Hr |].
    intros channelX subbandX Hc Hs Hok. apply (Hg channelX); [| exact I | exact Hs | exact Hok].
    apply elem_of_seq.
    assert (Ec : MC.channelsN_ o = MC.channelsN_ o0)
      by exact (f_equal MC.channelsN_ (proj1 Hrel)). lia.
Qed.

Lemma mc_calc_Thetan_above_floor `{!FloorArith D} (o : mc) (sampleX channelX subbandX : nat) :
  sampleX < length (MC.frames_ o) ->
  channelX < MC.channelsN_ o ->
  subbandX < MC.size o ->
  is_Some (entry (mc_theta channelX o) sampleX subbandX) ->
  above_floor (gsl_matrix_get (mc_theta channelX (MC.calc_Thetan_ o)) sampleX subbandX).
Proof.
  intros Hi Hc Hj Hsome. rewrite mc_calc_Thetan_frames.
  destruct (lookup_lt_is_Some_2 (MC.frames_ o) sampleX Hi) as [brace Hbrace].
  destruct (visit_fold mc_theta_rel
              (fun _ : nat * list (gsl_vector_complex D) => True)
              (fun kx o' => forall c j, c < MC.channelsN_ o -> j < MC.size o ->
                              is_Some (entry (mc_theta c o) kx.1 j) ->
                              above_floor (gsl_matrix_get (mc_theta c o') kx.1 j))
              mc_theta_rel_refl mc_theta_rel_trans
              (fun kx s s' (R : mc_theta_rel s s') G c j Hc' Hj' Hs' =>
                 proj2 (proj2 R) c kx.1 j (G c j Hc' Hj' Hs'))
              (fun kx o' => mc_theta_frame kx.1 kx.2 o')
              (zip (seq 0 (length (MC.frames_ o))) (MC.frames_ o)) o o (mc_theta_rel_refl o))
    as [_ Hg].
  - intros [k brace'] o' Hrel. cbn [fst snd].
    destruct (mc_theta_frame_step o o' k brace' Hrel) as [S1 S2].
    split; [exact S1 |]. intros _. exact S2.
  - cbv zeta in Hg.
    apply (Hg (sampleX, brace) (elem_of_zip_seq _ _ _ Hbrace) I channelX subbandX Hc Hj Hsome).
Qed.

(** [fill_buffer_] allocates the power matrix with a row for every buffered
    frame and a column for every subband. *)
Lemma entry_alloc_zero (n1 n2 i j : nat) :
  i < n1 -> j < n2 -> is_Some (entry (gsl_matrix_alloc_zero (H := H) n1 n2) i j).
Proof.
  intros Hi Hj. unfold entry, gsl_matrix_alloc_zero.
  rewrite lookup_replicate_2 by exact Hi. cbn.
  rewrite lookup_replicate_2 by exact Hj. eexists; reflexivity.
Qed.

Lemma sc_fill_buffer_thetan (start_frame_no end_frame_no : Z) (o : sc) (sampleX subbandX : nat) :
  let o' := SC.fill_buffer_ start_frame_no end_frame_no o in
  sampleX < length (SC.yn_ o') -> subbandX < SC.size o' ->
  is_Some (entry (SC.thetan_ o') sampleX subbandX).
Proof.
  cbv zeta. unfold SC.fill_buffer_. cbv zeta.
  cbn [SC.yn_ SC.size SC.thetan_ SC.set_thetan_ SC.set_framesN_ SC.framesN_].
  apply entry_alloc_zero.
Qed.

Lemma mc_alloc_thetan_fold (n : nat) (o : mc) :
  let o' :=
    fold_left
      (fun o channelX =>
         MC.set_thetan_ (<[channelX := gsl_matrix_alloc_zero (MC.framesN_ o) (MC.size o)]>
                           (MC.thetan_ o)) o)
      (seq 0 n) o in
  MC.set_thetan_ [] o' = MC.set_thetan_ [] o
  /\ length (MC.thetan_ o') = length (MC.thetan_ o)
  /\ forall c, c < n -> c < length (MC.thetan_ o) ->
       mc_theta c o' = gsl_matrix_alloc_zero (MC.framesN_ o) (MC.size o).
Proof.
  induction n as [|n IH]; cbv zeta in *.
  - cbn. split; [reflexivity |]. split; [reflexivity | intros c Hc; lia].
  - rewrite fold_left_seq_snoc.
    set (o1 := fold_left _ (seq 0 n) o) in *. destruct IH as (Ec & El & Ht).
    assert (Ef : MC.framesN_ o1 = MC.framesN_ o) by exact (f_equal MC.framesN_ Ec).
    assert (Es : MC.size o1 = MC.size o) by exact (f_equal MC.subbandsN_ Ec).
    split; [exact Ec |].
    split; [cbn [MC.thetan_ MC.set_thetan_]; rewrite length_insert; exact El |].
    intros c Hc Hlen. unfold mc_theta. cbn [MC.thetan_ MC.set_thetan_].
    destruct (decide (c = n)) as [->|Hne].
    + rewrite list_lookup_insert_eq by lia. cbn. rewrite Ef, Es. reflexivity.
    + rewrite list_lookup_insert_ne by congruence. apply Ht; lia.
Qed.

Lemma mc_fill_buffer_thetan (start_frame_no end_frame_no : Z) (o : mc)
    (channelX sampleX subbandX : nat) :
  let o' := MC.fill_buffer_ start_frame_no end_frame_no o in
  MC.channelsN_ o <= length (MC.thetan_ o) ->
  channelX < MC.channelsN_ o ->
  sampleX < length (MC.frames_ o') -> subbandX < MC.size o' ->
  is_Some (entry (mc_theta channelX o') sampleX subbandX).
Proof.
  cbv zeta. unfold MC.fill_buffer_. cbv zeta.
  set (o1 := default o (MC.fill_loop _ _ _ _ o)).
  set (o2 := MC.set_framesN_ (length (MC.frames_ o1)) o1).
  assert (Hsame : mc_same_stream o o1 /\ length (MC.thetan_ o1) = length (MC.thetan_ o)).
  { unfold o1. destruct (MC.fill_loop _ _ _ _ o) as [o3|] eqn:Hf; cbn [default].
    - split; [exact (mc_fill_loop_same o _ _ _ _ _ _ Hf ltac:(repeat split)) |].
      exact (mc_fill_loop_thetan _ _ _ _ _ _ Hf).
    - split; [repeat split | reflexivity]. }
  destruct Hsame as ((_ & Ec & _) & El).
  destruct (mc_alloc_thetan_fold (MC.channelsN_ o2) o2) as (Ecfg & _ & Ht). cbv zeta in Ecfg, Ht.
  set (o3 := fold_left _ (seq 0 (MC.channelsN_ o2)) o2) in *.
  assert (E1 : MC.frames_ o3 = MC.frames_ o2) by exact (f_equal MC.frames_ Ecfg).
  assert (E2 : MC.size o3 = MC.size o2) by exact (f_equal MC.subbandsN_ Ecfg).
  intros Hlen Hc Hs Hb. rewrite E1 in Hs. rewrite E2 in Hb.
  rewrite Ht; [| unfold o2; cbn [MC.channelsN_ MC.set_framesN_]; lia
               | unfold o2; cbn [MC.thetan_ MC.set_framesN_]; lia].
  apply entry_alloc_zero; [exact Hs | exact Hb].
Qed.

(** C7 (power floor). After [calc_Thetan_] every entry of the power matrix
    at the position of a buffered frame and a subband (and, in the
    multi-channel class, a channel) is at least the square of
    [subband_floor_ = 1.0E-03], unless it is NaN: an entry [x] that is a number
    ([x <= x]) satisfies [subband_floor_ * subband_floor_ <= x]. This holds
    on IEEE doubles and in every exact arithmetic, where every value is a
    number. The position has to lie inside the matrix [fill_buffer_]
    allocated. *)
Theorem power_floor `{!FloorArith D} (o : sc) (m : mc) (sampleX channelX subbandX : nat) :
  (sampleX < length (SC.yn_ o) -> subbandX < SC.size o ->
   is_Some (entry (SC.thetan_ o) sampleX subbandX) ->
   let x := gsl_matrix_get (SC.thetan_ (SC.calc_Thetan_ o)) sampleX subbandX in
   dleb x x = true ->
   dleb (dmul SC.subband_floor_ SC.subband_floor_) x = true)
  /\ (sampleX < length (MC.frames_ m) -> channelX < MC.channelsN_ m -> subbandX < MC.size m ->
      is_Some (entry (mc_theta channelX m) sampleX subbandX) ->
      let x := gsl_matrix_get (mc_theta channelX (MC.calc_Thetan_ m)) sampleX subbandX in
      dleb x x = true ->
      dleb (dmul MC.subband_floor_ MC.subband_floor_) x = true).
Proof.
  split.
  - intros Hi Hj Hsome. apply (sc_calc_Thetan_above_floor o sampleX subbandX Hi Hj Hsome).
  - intros Hi Hc Hj Hsome.
    apply (mc_calc_Thetan_above_floor m sampleX channelX subbandX Hi Hc Hj Hsome).
Qed.

End PowerFloor.

(* ------------------------------------------------------------------ *)
(** ** The estimation claims on concrete objects *)


(** A source whose first frame has a NaN sample at subband 1. *)
Definition ex_nan_stream : VectorComplexFeatureStream float :=
  {| stream_size := 4;
     stream_frames := [ [cplx 1 0; cplx nan 0; cplx 3 0; cplx 5 7];
                        [cplx 4 0; cplx 1 (-1); cplx 2 0; cplx 0 3] ]%float;
     stream_pos := 0 |}.

(** C7 as stated fails on doubles at a NaN. The feature has [lowerN = 1],
    so the buffered frame 0 has no prediction and its residual at subband 1
    is the NaN sample itself; its magnitude is NaN, the test
    [thetan < subband_floor_] fails, and the NaN is squared and stored. The
    position is visited and inside the matrix, and the entry is not
    [>= subband_floor_ * subband_floor_]. *)
Lemma power_floor_fails_at_nan :
  let o := SC.fill_buffer_ (H := float_ops) 0 2
             (SC.create (H := float_ops) ex_nan_stream 1 2 1 0.25%float 0) in
  let x := gsl_matrix_get (H := float_ops)
             (SC.thetan_ (SC.calc_Thetan_ (H := float_ops) o)) 0 1 in
  0 < length (SC.yn_ o) /\ 1 < SC.size o
  /\ is_Some (entry (SC.thetan_ o) 0 1)
  /\ gsl_vector_complex_get (H := float_ops) (SC.yn_at o 0) 1 = cplx nan 0
  /\ PrimFloat.leb x x = false
  /\ dleb (DoubleOps := float_ops)
          (dmul (DoubleOps := float_ops) (SC.subband_floor_ (H := float_ops))
                (SC.subband_floor_ (H := float_ops))) x = false.
Proof.
  cbv zeta. split; [vm_compute; lia |]. split; [vm_compute; lia |].
  split; [vm_compute; eexists; reflexivity |].
  split; [vm_compute; reflexivity |]. split; vm_compute; reflexivity.
Defined.

(** C7 on doubles, with the three frames of the examples buffered, at frame
    1, subband 2 (and channel 1); and on the objects over the reals. *)
Lemma power_floor_witness :
  (let x := gsl_matrix_get (H := float_ops)
              (SC.thetan_ (SC.calc_Thetan_ (H := float_ops)
                             (SC.fill_buffer_ (H := float_ops) 0 3 ex_sc))) 1 2 in
   dleb (DoubleOps := float_ops)
        (dmul (DoubleOps := float_ops) (SC.subband_floor_ (H := float_ops))
              (SC.subband_floor_ (H := float_ops))) x = true)
  /\ (let x := gsl_matrix_get (H := float_ops)
                 (mc_theta 1 (MC.calc_Thetan_ (H := float_ops)
                                (MC.fill_buffer_ (H := float_ops) 0 3 ex_mc))) 1 2 in
      dleb (DoubleOps := float_ops)
           (dmul (DoubleOps := float_ops) (MC.subband_floor_ (H := float_ops))
                 (MC.subband_floor_ (H := float_ops))) x = true)
  /\ dleb (DoubleOps := R_ops) (dmul (DoubleOps := R_ops) (SC.subband_floor_ (H := R_ops))
                                       (SC.subband_floor_ (H := R_ops)))
          (gsl_matrix_get (H := R_ops)
             (SC.thetan_ (SC.calc_Thetan_ (H := R_ops) exR_sc_filled)) 1 2) = true
  /\ dleb (DoubleOps := R_ops) (dmul (DoubleOps := R_ops) (MC.subband_floor_ (H := R_ops))
                                       (MC.subband_floor_ (H := R_ops)))
          (gsl_matrix_get (H := R_ops)
             (mc_theta 1 (MC.calc_Thetan_ (H := R_ops) exR_mc_filled)) 1 2) = true.
Proof.
  destruct (@power_floor float float_ops float_floor
              (SC.fill_buffer_ (H := float_ops) 0 3 ex_sc)
              (MC.fill_buffer_ (H := float_ops) 0 3 ex_mc) 1 1 2) as [F1 F2].
  destruct (@power_floor R R_ops R_floor exR_sc_filled exR_mc_filled 1 1 2) as [W1 W2].
  cbv zeta in F1, F2, W1, W2.
  split; [| split; [| split]].
  - apply F1; [vm_compute; lia | vm_compute; lia | vm_compute; eexists; reflexivity
              | vm_compute; reflexivity].
  - apply F2; [vm_compute; lia | vm_compute; lia | vm_compute; lia
              | vm_compute; eexists; reflexivity | vm_compute; reflexivity].
  - apply W1; [vm_compute; lia | vm_compute; lia | vm_compute; eexists; reflexivity |].
    apply (dleb_refl (ExactArith := R_exact)).
  - apply W2; [vm_compute; lia | vm_compute; lia | vm_compute; lia
              | vm_compute; eexists; reflexivity |].
    apply (dleb_refl (ExactArith := R_exact)).
Defined.






(** C9 on the two-channel object over doubles, in the middle of a pass:
    subband 0, channel 1, diagonal position 2. *)
Lemma bias_added_before_loading_witness :
  let o := ex_mc_pass in
  let n := MC.totalPredictionN_ o in
  let A := mc_accumulated_R (H := float_ops) 0 1 o in
  let R1 := mc_R 1 (MC.calc_Rr_ (H := float_ops) 0 o) in
  let R2 := mc_R 1 (MC.load_R_ (H := float_ops) (MC.calc_Rr_ (H := float_ops) 0 o)) in
  ((MC.lower_bandWidthN_ o <? 0) && (0 <? MC.upper_bandWidthN_ o) = false ->
   MC.estimate_Gn_at (H := float_ops) (H0 := failing_backend float) 0 o
   = for_each (seq 0 (MC.channelsN_ o))
              (MC.solve_channel (H0 := failing_backend float) 0)
              (MC.load_R_ (H := float_ops) (MC.calc_Rr_ (H := float_ops) 0 o)))
  /\ R1 = bias_diagonal (H := float_ops) n (MC.diagonal_bias_ o) A
  /\ gsl_matrix_complex_get (H := float_ops) R1 2 2
     = gsl_complex_add_real (H := float_ops)
         (gsl_matrix_complex_get (H := float_ops) A 2 2) (MC.diagonal_bias_ o)
  /\ R2 = load_diagonal (H := float_ops) n (MC.load_factor_ o) R1
  /\ gsl_matrix_complex_get (H := float_ops) R2 2 2
     = gsl_complex_rect
         (dadd (DoubleOps := float_ops)
            (gsl_complex_abs (H := float_ops)
               (gsl_complex_add_real (H := float_ops)
                  (gsl_matrix_complex_get (H := float_ops) A 2 2) (MC.diagonal_bias_ o)))
            (dmul (DoubleOps := float_ops)
               (maximum_diagonal (H := float_ops) n
                  (bias_diagonal (H := float_ops) n (MC.diagonal_bias_ o) A))
               (MC.load_factor_ o)))
         (d0 (DoubleOps := float_ops)).
Proof.
  apply (@bias_added_before_loading float float_ops (failing_backend float) ex_mc_pass 0 1 2).
  - vm_compute. lia.
  - vm_compute. lia.
  - vm_compute. lia.
  - vm_compute. eexists. reflexivity.
Defined.

(* ------------------------------------------------------------------ *)
(* ------------------------------------------------------------------ *)
(** * Further properties of the code *)

(** ** The lag vectors *)

Section Lags.
Context {D : Type} `{DoubleOps D} `{LinAlgBackend D}.

Local Abbreviation sc := (SC.SingleChannelWPEDereverberationFeature D).
Local Abbreviation mc := (MC.MultiChannelWPEDereverberation D).

(** Writing the positions [0 .. n-1] of a vector one after the other. *)
Lemma fold_insert_spec {A : Type} (g : nat -> A) (n : nat) (v : list A) :
  let v' := fold_left (fun v k => <[k := g k]> v) (seq 0 n) v in
  length v' = length v
  /\ (forall k, k < n -> k < length v -> v' !! k = Some (g k))
  /\ (forall k, n <= k -> v' !! k = v !! k).
Proof.
  induction n as [|n IH]; cbv zeta in *.
  - cbn. split; [reflexivity |]. split; [intros k Hk; lia | reflexivity].
  - rewrite fold_left_seq_snoc. destruct IH as (Hl & Hin & Hout).
    split; [rewrite length_insert; exact Hl |]. split.
    + intros k Hk Hlen. destruct (decide (k = n)) as [->|Hne].
      * apply list_lookup_insert_eq. rewrite Hl. exact Hlen.
      * rewrite list_lookup_insert_ne by congruence. apply Hin; lia.
    + intros k Hk. rewrite list_lookup_insert_ne by lia. apply Hout. lia.
Qed.

(** The value [get_lags_] stores for the lag [lagX]. *)
Definition sc_lag (o : sc) (subbandX : nat) (sampleX : Z) (lagX : nat) : gsl_complex D :=
  let index := int32 (sampleX - Z.of_nat lagX) in
  if (index <? 0)%Z then zero_ else gsl_vector_complex_get (SC.yn_at o index) subbandX.

Lemma sc_get_lags_fold (subbandX : nat) (sampleX : Z) (o : sc) :
  SC.lag_samples_ (SC.get_lags_ subbandX sampleX o)
  = fold_left (fun v lagX => <[lagX := sc_lag o subbandX sampleX lagX]> v)
              (seq 0 (SC.predictionN_ o)) (SC.lag_samples_ o).
Proof.
  unfold SC.get_lags_.
  apply (fold_left_proj SC.lag_samples_ (fun o' => SC.yn_ o' = SC.yn_ o)); [reflexivity |].
  intros o' lagX E. split; [exact E |].
  cbn [SC.lag_samples_ SC.set_lag_samples_]. unfold gsl_vector_complex_set, sc_lag, SC.yn_at.
  rewrite E. reflexivity.
Qed.

(** X1. [get_lags_] of the single-channel class writes nothing but the
    scratch vector [lag_samples_], keeps its length, and leaves at every
    position [lagX < predictionN_] the subband value of the buffered frame
    [sampleX - lagX], or zero when that index is negative as an [int]. *)
Theorem sc_get_lags_zero_padded (o : sc) (subbandX : nat) (sampleX : Z) (lagX : nat) :
  lagX < SC.predictionN_ o ->
  lagX < length (SC.lag_samples_ o) ->
  let o' := SC.get_lags_ subbandX sampleX o in
  let index := int32 (sampleX - Z.of_nat lagX) in
  SC.set_lag_samples_ [] o' = SC.set_lag_samples_ [] o
  /\ length (SC.lag_samples_ o') = length (SC.lag_samples_ o)
  /\ gsl_vector_complex_get (SC.lag_samples_ o') lagX
     = (if (index <? 0)%Z then zero_
        else gsl_vector_complex_get (SC.yn_at o index) subbandX).
Proof.
  intros Hlag Hlen. cbv zeta.
  split; [apply sc_get_lags_only_lags |].
  rewrite sc_get_lags_fold.
  destruct (fold_insert_spec (sc_lag o subbandX sampleX) (SC.predictionN_ o)
              (SC.lag_samples_ o)) as (Hl & Hin & _).
  cbv zeta in Hl, Hin. split; [exact Hl |].
  unfold gsl_vector_complex_get at 1. rewrite (Hin lagX Hlag Hlen). reflexivity.
Qed.

Lemma mul_add_inj (P c l c' l' : nat) :
  l < P -> l' < P -> c * P + l = c' * P + l' -> c = c' /\ l = l'.
Proof.
  intros Hl Hl' E.
  assert (c = c'); [| subst; lia].
  destruct (Nat.lt_trichotomy c c') as [Hlt | [-> | Hlt]]; [| reflexivity |].
  - pose proof (Nat.mul_le_mono_r (S c) c' P ltac:(lia)). lia.
  - pose proof (Nat.mul_le_mono_r (S c') c P ltac:(lia)). lia.
Qed.

(** The value the multi-channel [get_lags_] stores for a channel and a lag. *)
Definition mc_lag (o : mc) (subbandX : nat) (sampleX : Z) (channelX lagX : nat)
  : gsl_complex D :=
  let index := int32 (int32 sampleX - Z.of_nat lagX) in
  if (index <? 0)%Z then zero_
  else gsl_vector_complex_get (MC.frames_at o index channelX) subbandX.

(** The state of the two loops of the multi-channel [get_lags_] when [t]
    positions have been written. *)
Definition mc_lags_written (o : mc) (subbandX : nat) (sampleX : Z) (t : nat)
    (ot : mc * nat) : Prop :=
  ot.2 = t
  /\ MC.set_lag_samples_ [] ot.1 = MC.set_lag_samples_ [] o
  /\ length (MC.lag_samples_ ot.1) = length (MC.lag_samples_ o)
  /\ (forall c l, c * MC.predictionN_ o + l < t -> l < MC.predictionN_ o ->
        c * MC.predictionN_ o + l < length (MC.lag_samples_ o) ->
        MC.lag_samples_ ot.1 !! (c * MC.predictionN_ o + l)
        = Some (mc_lag o subbandX sampleX c l)).

Lemma mc_get_lags_inner (o : mc) (subbandX : nat) (sampleX : Z) (channelX n : nat)
    (ot : mc * nat) :
  n <= MC.predictionN_ o ->
  mc_lags_written o subbandX sampleX (channelX * MC.predictionN_ o) ot ->
  mc_lags_written o subbandX sampleX (channelX * MC.predictionN_ o + n)
    (fold_left
       (fun '(o, totalX) lagX =>
          let index := int32 (int32 sampleX - Z.of_nat lagX) in
          let val := if (index <? 0)%Z then zero_
                     else gsl_vector_complex_get (MC.frames_at o index channelX) subbandX in
          (MC.set_lag_samples_ (gsl_vector_complex_set (MC.lag_samples_ o) totalX val) o,
           S totalX))
       (seq 0 n) ot).
Proof.
  intros Hn Hot. induction n as [|n IH].
  - cbn. rewrite Nat.add_0_r. exact Hot.
  - rewrite fold_left_seq_snoc. specialize (IH ltac:(lia)).
    destruct (fold_left _ (seq 0 n) ot) as [o1 t1].
    destruct IH as (Et & Ec & El & Hw). cbn [fst snd] in *. subst t1.
    assert (Ef : MC.frames_ o1 = MC.frames_ o) by exact (f_equal MC.frames_ Ec).
    split; [cbn; lia |]. split; [exact Ec |].
    split; [cbn [fst snd MC.lag_samples_ MC.set_lag_samples_]; unfold gsl_vector_complex_set;
            rewrite length_insert; exact El |].
    intros c l Hlt Hl Hlen. cbn [MC.lag_samples_ MC.set_lag_samples_ fst snd].
    unfold gsl_vector_complex_set.
    destruct (decide (c * MC.predictionN_ o + l = channelX * MC.predictionN_ o + n)) as [E|Hne].
    + destruct (mul_add_inj (MC.predictionN_ o) c l channelX n Hl ltac:(lia) E) as [-> ->].
      rewrite list_lookup_insert_eq by (rewrite El; exact Hlen).
      unfold mc_lag, MC.frames_at. rewrite Ef. reflexivity.
    + rewrite list_lookup_insert_ne by congruence. apply Hw; [lia | exact Hl | exact Hlen].
Qed.

Lemma mc_get_lags_outer (o : mc) (subbandX : nat) (sampleX : Z) (m : nat) :
  mc_lags_written o subbandX sampleX (m * MC.predictionN_ o)
    (fold_left
       (fun ot channelX =>
          fold_left
            (fun '(o, totalX) lagX =>
               let index := int32 (int32 sampleX - Z.of_nat lagX) in
               let val := if (index <? 0)%Z then zero_
                          else gsl_vector_complex_get (MC.frames_at o index channelX) subbandX in
               (MC.set_lag_samples_ (gsl_vector_complex_set (MC.lag_samples_ o) totalX val) o,
                S totalX))
            (seq 0 (MC.predictionN_ ot.1)) ot)
       (seq 0 m) (o, 0)).
Proof.
  induction m as [|m IH].
  - cbn. split; [reflexivity |]. split; [reflexivity |]. split; [reflexivity |].
    intros c l Hlt. lia.
  - rewrite fold_left_seq_snoc.
    set (ot := fold_left _ (seq 0 m) (o, 0)) in *.
    assert (Ep : MC.predictionN_ ot.1 = MC.predictionN_ o).
    { destruct IH as (_ & Ec & _). exact (f_equal MC.predictionN_ Ec). }
    rewrite Ep.
    replace (S m * MC.predictionN_ o) with (m * MC.predictionN_ o + MC.predictionN_ o) by lia.
    apply mc_get_lags_inner; [lia | exact IH].
Qed.

(** X2. The multi-channel [get_lags_] lays the lags out channel by channel:
    position [channelX * predictionN_ + lagX] of [lag_samples_] holds the
    subband value of channel [channelX] in the buffered brace
    [sampleX - lagX], or zero when that index is negative as an [int]; nothing
    but the scratch vector is written. *)
Theorem mc_get_lags_channel_major (o : mc) (subbandX : nat) (sampleX : Z)
    (channelX lagX : nat) :
  channelX < MC.channelsN_ o ->
  lagX < MC.predictionN_ o ->
  channelX * MC.predictionN_ o + lagX < length (MC.lag_samples_ o) ->
  let o' := MC.get_lags_ subbandX sampleX o in
  let index := int32 (int32 sampleX - Z.of_nat lagX) in
  MC.set_lag_samples_ [] o' = MC.set_lag_samples_ [] o
  /\ length (MC.lag_samples_ o') = length (MC.lag_samples_ o)
  /\ gsl_vector_complex_get (MC.lag_samples_ o') (channelX * MC.predictionN_ o + lagX)
     = (if (index <? 0)%Z then zero_
        else gsl_vector_complex_get (MC.frames_at o index channelX) subbandX).
Proof.
  intros Hc Hl Hlen. cbv zeta. unfold MC.get_lags_.
  match goal with
  | |- context [fst ?r] =>
      assert (Hw : mc_lags_written o subbandX sampleX
                     (MC.channelsN_ o * MC.predictionN_ o) r)
        by exact (mc_get_lags_outer o subbandX sampleX (MC.channelsN_ o));
      set (ot := r) in *
  end.
  destruct Hw as (_ & Ec & El & Hw).
  split; [exact Ec |]. split; [exact El |].
  unfold gsl_vector_complex_get at 1.
  rewrite (Hw channelX lagX); [reflexivity | | exact Hl | exact Hlen].
  pose proof (Nat.mul_le_mono_r (S channelX) (MC.channelsN_ o) (MC.predictionN_ o) Hc). lia.
Qed.

End Lags.

(** ** Indices and the end of the stream *)

Section Indices.
Context {D : Type} `{DoubleOps D} `{LinAlgBackend D}.

Local Abbreviation sc := (SC.SingleChannelWPEDereverberationFeature D).
Local Abbreviation mc := (MC.MultiChannelWPEDereverberation D).

(** X3. A negative index is never checked against the counter: a step with
    a negative index does what the step with the next index in sequence
    does, and the counter advances by one, not to the index given. The
    single-channel feature is the exception when the negative index is its
    counter (a fresh counter -1 and index -1): it then returns the output
    buffer without pulling. *)
Theorem negative_index_means_next_frame (o : sc) (m : mc) (frame_no : Z) :
  (frame_no < 0)%Z ->
  (frame_no <> SC.frame_no_ o ->
   SC.next frame_no o = SC.next (SC.frame_no_ o + 1) o)
  /\ (frame_no = SC.frame_no_ o -> SC.estimated_ o = true ->
      SC.next frame_no o = (o, Return (SC.vector_ o)))
  /\ MC.calc_every_channel_output frame_no m
     = MC.calc_every_channel_output (MC.frame_no_ m + 1) m.
Proof.
  intros Hneg. split; [| split].
  - intros Hne. unfold SC.next.
    replace (frame_no =? SC.frame_no_ o)%Z with false by (symmetry; apply Z.eqb_neq; exact Hne).
    replace (SC.frame_no_ o + 1 =? SC.frame_no_ o)%Z with false
      by (symmetry; apply Z.eqb_neq; lia).
    replace (0 <=? frame_no)%Z with false by (symmetry; apply Z.leb_gt; exact Hneg).
    replace (SC.frame_no_ o + 1 - 1 =? SC.frame_no_ o)%Z with true
      by (symmetry; apply Z.eqb_eq; lia).
    cbn [andb negb]. rewrite andb_false_r. reflexivity.
  - intros -> He. unfold SC.next. rewrite He, Z.eqb_refl. reflexivity.
  - unfold MC.calc_every_channel_output.
    replace (0 <=? frame_no)%Z with false by (symmetry; apply Z.leb_gt; exact Hneg).
    replace (MC.frame_no_ m + 1 - 1 =? MC.frame_no_ m)%Z with true
      by (symmetry; apply Z.eqb_eq; lia).
    cbn [andb negb]. rewrite andb_false_r. reflexivity.
Qed.

(** X4. The end of the stream in the single-channel [next]: when the source
    has no frame left, an accepted step throws the iterator error, sets
    [is_end_] and has already advanced the counter; the output buffer and the
    window are as before. The counter now equals the index that failed, so a
    second call with that index does not signal the end again: it returns the
    output of the last frame. *)
Theorem end_of_stream_then_cached_output (o : sc) (frame_no : Z)
    (src : VectorComplexFeatureStream D) :
  SC.estimated_ o = true ->
  frame_no = (SC.frame_no_ o + 1)%Z ->
  stream_next (SC.samples_ o) = (src, None) ->
  let o' := (SC.next frame_no o).1 in
  (SC.next frame_no o).2 = Throw jiterator_error
  /\ SC.is_end_ o' = true
  /\ SC.frame_no_ o' = frame_no
  /\ SC.vector_ o' = SC.vector_ o
  /\ SC.yn_ o' = SC.yn_ o
  /\ SC.next frame_no o' = (o', Return (SC.vector_ o)).
Proof.
  intros He Hf Hsrc. cbv zeta.
  destruct (sc_next_cases frame_no o)
    as [(E & _) | [(_ & Heq & _) | [(_ & _ & _ & Hseq & _) | (_ & _ & _ & Hpull)]]];
    [congruence | lia | lia |].
  destruct Hpull as [(src' & _ & E) | (src' & block & Hs & _)];
    [| rewrite Hsrc in Hs; discriminate].
  rewrite E. cbn [fst snd].
  split; [reflexivity |]. split; [reflexivity |].
  split; [cbn; lia |]. split; [reflexivity |]. split; [reflexivity |].
  unfold SC.next.
  cbn [SC.estimated_ SC.frame_no_ SC.vector_ SC.set_is_end_ SC.set_samples_
       SC.increment_ SC.set_frame_no_].
  rewrite He. cbn [negb].
  replace (frame_no =? SC.frame_no_ o + 1)%Z with true by (symmetry; apply Z.eqb_eq; exact Hf).
  reflexivity.
Qed.

(** Pulling a brace writes the sources only. *)
Lemma mc_pull_brace_sources (l : list nat) (brace : list (gsl_vector_complex D)) (o : mc) :
  MC.set_sources_ [] (MC.pull_brace l brace o).1 = MC.set_sources_ [] o.
Proof.
  revert brace o. induction l as [|c l IH]; intros brace o; simpl; [reflexivity |].
  destruct (MC.sources_ o !! c) as [src|]; [| reflexivity].
  destruct (stream_next src) as [src' [block|]]; [| reflexivity].
  rewrite IH. reflexivity.
Qed.

(** X5. The end of the stream in [calc_every_channel_output]: when the pull
    of some channel fails, the step throws the iterator error with the
    counter already advanced, and neither the window nor the output buffers
    are touched; a second call with the same non-negative index is refused
    as out of sequence. *)
Theorem joint_end_of_stream_refuses_retry (m m' : mc) (frame_no : Z) :
  (0 <= frame_no)%Z ->
  MC.calc_every_channel_output frame_no m = (m', Throw jiterator_error) ->
  MC.frame_no_ m' = frame_no
  /\ MC.frames_ m' = MC.frames_ m
  /\ MC.output_ m' = MC.output_ m
  /\ MC.estimated_ m' = true
  /\ MC.calc_every_channel_output frame_no m'
     = (m', Throw (jindex_error frame_no frame_no)).
Proof.
  intros Hpos Hcalc.
  destruct (mc_calc_cases frame_no m)
    as [(_ & E) | [(_ & _ & _ & E) | (He & Hseq & Hpull)]];
    [rewrite E in Hcalc; discriminate .. |].
  destruct Hpull as [(o1 & Hp & E) | (o1 & fbrace & _ & E)];
    [| rewrite E in Hcalc; discriminate].
  rewrite E in Hcalc. injection Hcalc as <-.
  assert (Hs : mc_same_stream (MC.increment_ m) o1).
  { pose proof (mc_pull_brace_same (MC.increment_ m) (seq 0 (MC.channelsN_ m))
                  (replicate (MC.channelsN_ m) []) (MC.increment_ m)
                  ltac:(repeat split)) as Hs.
    rewrite Hp in Hs. exact Hs. }
  destruct Hs as (_ & _ & Eo & Ef).
  cbn [MC.increment_ MC.frame_no_ MC.output_ MC.set_frame_no_] in Eo, Ef.
  assert (Hfr : MC.frames_ o1 = MC.frames_ m /\ MC.estimated_ o1 = MC.estimated_ m).
  { pose proof (mc_pull_brace_sources (seq 0 (MC.channelsN_ m))
                  (replicate (MC.channelsN_ m) []) (MC.increment_ m)) as Hc.
    rewrite Hp in Hc. cbn [fst] in Hc.
    split; [exact (f_equal MC.frames_ Hc) | exact (f_equal MC.estimated_ Hc)]. }
  destruct Hfr as [Efr Ees].
  assert (Ek : MC.frame_no_ o1 = frame_no) by lia.
  split; [exact Ek |]. split; [exact Efr |]. split; [exact Eo |].
  split; [congruence |].
  unfold MC.calc_every_channel_output. rewrite Ees, He, Ek. cbn [negb].
  replace (0 <=? frame_no)%Z with true by (symmetry; apply Z.leb_le; exact Hpos).
  replace (frame_no - 1 =? frame_no)%Z with false by (symmetry; apply Z.eqb_neq; lia).
  reflexivity.
Qed.

End Indices.

(** ** The batch estimation *)

Section Estimation.
Context {D : Type} `{DoubleOps D} `{LinAlgBackend D}.

Local Abbreviation sc := (SC.SingleChannelWPEDereverberationFeature D).
Local Abbreviation mc := (MC.MultiChannelWPEDereverberation D).

Lemma stream_advance_0 (s : VectorComplexFeatureStream D) : stream_advance 0 s = s.
Proof. destruct s. unfold stream_advance. cbn. rewrite Nat.add_0_r. reflexivity. Qed.

Lemma stream_advance_S (n : nat) (s : VectorComplexFeatureStream D) :
  stream_advance n (stream_advance 1 s) = stream_advance (S n) s.
Proof. unfold stream_advance. cbn. f_equal. lia. Qed.

(** The number of frames the loop of [fill_buffer_] pulls from the value
    [frX] of its counter on, when the source still holds [avail] frames. *)
Definition fill_count (start_frame_no end_frame_no frX : Z) (avail : nat) : nat :=
  if (end_frame_no <? 0)%Z then avail
  else Nat.min (Z.to_nat (end_frame_no - Z.max frX start_frame_no)) avail.

Lemma sc_fill_loop_spec (fuel : nat) (start_frame_no end_frame_no frX : Z) (o o' : sc) :
  SC.fill_loop fuel start_frame_no end_frame_no frX o = Some o' ->
  let rem := stream_remaining (SC.samples_ o) in
  let n := fill_count start_frame_no end_frame_no frX (length rem) in
  SC.yn_ o' = SC.yn_ o ++ take n rem
  /\ SC.samples_ o' = stream_advance n (SC.samples_ o).
Proof.
  revert frX o. induction fuel as [|fuel IH]; intros frX o Hf; simpl in Hf; [discriminate |].
  cbv zeta. unfold fill_count.
  destruct (Z.leb_spec 0 end_frame_no) as [He|He]; cbn [andb] in Hf.
  - replace (end_frame_no <? 0)%Z with false by (symmetry; apply Z.ltb_ge; exact He).
    destruct (Z.leb_spec end_frame_no frX) as [Hb|Hb].
    + injection Hf as <-.
      replace (Z.to_nat (end_frame_no - Z.max frX start_frame_no)) with 0 by lia.
      cbn [Nat.min take]. rewrite app_nil_r, stream_advance_0. split; reflexivity.
    + destruct (Z.leb_spec start_frame_no frX) as [Hs|Hs].
      * pose proof (stream_next_remaining (SC.samples_ o)) as Hn.
        destruct (stream_remaining (SC.samples_ o)) as [|f rest] eqn:Hrem.
        -- rewrite Hn in Hf. injection Hf as <-. cbn [length].
           rewrite Nat.min_0_r. cbn [take SC.yn_ SC.samples_ SC.set_samples_].
           rewrite app_nil_r, stream_advance_0. split; reflexivity.
        -- destruct Hn as [Hn Hrest]. rewrite Hn in Hf.
           apply IH in Hf. cbv zeta in Hf. unfold fill_count in Hf.
           cbn [SC.yn_ SC.samples_ SC.set_yn_ SC.set_samples_] in Hf.
           rewrite Hrest in Hf.
           replace (end_frame_no <? 0)%Z with false in Hf
             by (symmetry; apply Z.ltb_ge; exact He).
           destruct Hf as [Ey Es]. rewrite stream_advance_S in Es.
           cbn [length].
           replace (Nat.min (Z.to_nat (end_frame_no - Z.max frX start_frame_no))
                            (S (length rest)))
             with (S (Nat.min (Z.to_nat (end_frame_no - Z.max (frX + 1) start_frame_no))
                              (length rest))) by lia.
           cbn [take]. rewrite <- app_assoc in Ey. split; [exact Ey | exact Es].
      * apply IH in Hf. cbv zeta in Hf. unfold fill_count in Hf.
        replace (end_frame_no <? 0)%Z with false in Hf
          by (symmetry; apply Z.ltb_ge; exact He).
        replace (Z.max (frX + 1) start_frame_no) with (Z.max frX start_frame_no) in Hf by lia.
        exact Hf.
  - replace (end_frame_no <? 0)%Z with true by (symmetry; apply Z.ltb_lt; exact He).
    destruct (Z.leb_spec start_frame_no frX) as [Hs|Hs].
    + pose proof (stream_next_remaining (SC.samples_ o)) as Hn.
      destruct (stream_remaining (SC.samples_ o)) as [|f rest] eqn:Hrem.
      * rewrite Hn in Hf. injection Hf as <-.
        cbn [length take SC.yn_ SC.samples_ SC.set_samples_].
        rewrite app_nil_r, stream_advance_0. split; reflexivity.
      * destruct Hn as [Hn Hrest]. rewrite Hn in Hf.
        apply IH in Hf. cbv zeta in Hf. unfold fill_count in Hf.
        cbn [SC.yn_ SC.samples_ SC.set_yn_ SC.set_samples_] in Hf.
        rewrite Hrest in Hf.
        replace (end_frame_no <? 0)%Z with true in Hf by (symmetry; apply Z.ltb_lt; exact He).
        destruct Hf as [Ey Es]. rewrite stream_advance_S in Es.
        cbn [length take]. rewrite <- app_assoc in Ey. split; [exact Ey | exact Es].
    + apply IH in Hf. cbv zeta in Hf. unfold fill_count in Hf.
      replace (end_frame_no <? 0)%Z with true in Hf by (symmetry; apply Z.ltb_lt; exact He).
      exact Hf.
Qed.

(** X6. What [fill_buffer_] of the single-channel class buffers, for any
    arguments: the frames the source hands out next, appended to the buffer
    in order. Their number is everything the source has left when
    [end_frame_no] is negative, and otherwise [end_frame_no] minus
    [start_frame_no] (minus nothing when [start_frame_no] is negative), cut
    down to what the source has left. The source is advanced by exactly that
    many frames, [framesN_] is the length of the buffer, and the power matrix
    is allocated zeroed with that many rows. *)
Theorem fill_buffer_appends_next_frames (o : sc) (start_frame_no end_frame_no : Z) :
  let rem := stream_remaining (SC.samples_ o) in
  let n := if (end_frame_no <? 0)%Z then length rem
           else Nat.min (Z.to_nat (end_frame_no - Z.max 0 start_frame_no)) (length rem) in
  let o' := SC.fill_buffer_ start_frame_no end_frame_no o in
  SC.yn_ o' = SC.yn_ o ++ take n rem
  /\ SC.samples_ o' = stream_advance n (SC.samples_ o)
  /\ SC.framesN_ o' = length (SC.yn_ o) + n
  /\ SC.thetan_ o' = gsl_matrix_alloc_zero (length (SC.yn_ o) + n) (SC.size o).
Proof.
  cbv zeta. unfold SC.fill_buffer_. cbv zeta.
  destruct (sc_fill_buffer_loop start_frame_no end_frame_no o) as [o1 Hf].
  rewrite Hf. cbv [default from_option Datatypes.id].
  pose proof (sc_fill_loop_config _ _ _ _ _ _ Hf) as Ec.
  apply sc_fill_loop_spec in Hf. cbv zeta in Hf. unfold fill_count in Hf.
  destruct Hf as [Ey Es].
  cbn [SC.yn_ SC.samples_ SC.framesN_ SC.thetan_ SC.size SC.set_thetan_ SC.set_framesN_].
  assert (Hlen : length (SC.yn_ o1)
                 = length (SC.yn_ o)
                   + (if (end_frame_no <? 0)%Z then length (stream_remaining (SC.samples_ o))
                      else Nat.min (Z.to_nat (end_frame_no - Z.max 0 start_frame_no))
                                   (length (stream_remaining (SC.samples_ o))))).
  { rewrite Ey, length_app, length_take. destruct (end_frame_no <? 0)%Z; lia. }
  split; [exact Ey |]. split; [exact Es |]. split; [exact Hlen |].
  rewrite Hlen. f_equal. exact (f_equal SC.size Ec).
Qed.

(** What [estimate_filter] needs of the buffering. *)
Lemma sc_fill_buffer_kept (o : sc) (start_frame_no end_frame_no : Z) :
  let filled := SC.fill_buffer_ start_frame_no end_frame_no o in
  stream_reset (SC.samples_ filled) = stream_reset (SC.samples_ o)
  /\ SC.framesN_ filled = length (SC.yn_ filled)
  /\ SC.estimated_ filled = SC.estimated_ o.
Proof.
  cbv zeta. unfold SC.fill_buffer_. cbv zeta.
  destruct (sc_fill_buffer_loop start_frame_no end_frame_no o) as [o1 Hf].
  rewrite Hf. cbv [default from_option Datatypes.id].
  pose proof (sc_fill_loop_config _ _ _ _ _ _ Hf) as Ec.
  apply sc_fill_loop_spec in Hf. cbv zeta in Hf. destruct Hf as [_ Es].
  cbn [SC.yn_ SC.samples_ SC.framesN_ SC.estimated_ SC.set_thetan_ SC.set_framesN_].
  split; [rewrite Es; reflexivity |]. split; [reflexivity |].
  exact (f_equal SC.estimated_ Ec).
Qed.

(** Everything of a single-channel object but the statistics the estimation
    recomputes: the power matrix, [R_], [r_] and the lag vector. *)
Definition sc_stat_config (o : sc) : sc :=
  SC.set_thetan_ [] (SC.set_R_ [] (SC.set_r_ [] (SC.set_lag_samples_ [] o))).

Lemma sc_get_lags_stat (o o' : sc) (subbandX : nat) (sampleX : Z) :
  sc_stat_config o' = sc_stat_config o ->
  sc_stat_config (SC.get_lags_ subbandX sampleX o') = sc_stat_config o.
Proof.
  intros Ho. unfold SC.get_lags_.
  apply (fold_left_preserves (fun a => sc_stat_config a = sc_stat_config o));
    [exact Ho | intros a b Ha; exact Ha].
Qed.

Lemma sc_calc_Thetan_stat (o o' : sc) :
  sc_stat_config o' = sc_stat_config o -> sc_stat_config (SC.calc_Thetan_ o') = sc_stat_config o.
Proof.
  intros Ho. unfold SC.calc_Thetan_.
  apply (fold_left_preserves (fun p => sc_stat_config p.1 = sc_stat_config o)); [exact Ho |].
  intros [a sampleX] frame Ha. cbn [fst] in *.
  apply (fold_left_preserves (fun a => sc_stat_config a = sc_stat_config o)); [exact Ha |].
  intros b subbandX Hb. unfold SC.calc_Thetan_at.
  destruct (SC.lowerN_ b <=? sampleX); [| exact Hb].
  exact (sc_get_lags_stat o b subbandX _ Hb).
Qed.

Lemma sc_calc_Rr_stat (o o' : sc) (subbandX : nat) :
  sc_stat_config o' = sc_stat_config o ->
  sc_stat_config (SC.calc_Rr_ subbandX o') = sc_stat_config o.
Proof.
  intros Ho. unfold SC.calc_Rr_. cbv zeta.
  apply (fold_left_preserves (fun p => sc_stat_config p.1 = sc_stat_config o)).
  - cbn [fst].
    apply (fold_left_preserves (fun a => sc_stat_config a = sc_stat_config o)); [exact Ho |].
    intros a sampleX Ha. exact (sc_get_lags_stat o a subbandX _ Ha).
  - intros [a sampleX] frame Ha. cbn [fst] in *.
    destruct (sampleX <? SC.lowerN_ a); [exact Ha |].
    exact (sc_get_lags_stat o a subbandX _ Ha).
Qed.

Lemma sc_load_R_stat (o o' : sc) :
  sc_stat_config o' = sc_stat_config o -> sc_stat_config (SC.load_R_ o') = sc_stat_config o.
Proof.
  intros Ho. unfold SC.load_R_. cbv zeta.
  apply (fold_left_preserves (fun a => sc_stat_config a = sc_stat_config o));
    [exact Ho | intros a b Ha; exact Ha].
Qed.

(** A loop of fallible steps throws only what a step throws. *)
Lemma for_each_throws {S : Type} (Q : exception -> Prop) (body : nat -> S -> S * result unit)
    (l : list nat) (st : S) (e : exception) :
  (forall i st e, (body i st).2 = Throw e -> Q e) ->
  (for_each l body st).2 = Throw e -> Q e.
Proof.
  intros Hbody. revert st. induction l as [|i l IH]; intros st Hr; simpl in Hr.
  - discriminate.
  - destruct (body i st) as [st' [u|e']] eqn:Hb.
    + exact (IH _ Hr).
    + cbn in Hr. injection Hr as <-. apply (Hbody i st). rewrite Hb. reflexivity.
Qed.

(** What the estimation passes of the single-channel class keep: everything
    but the statistics and the predictors, and the predictors of the subbands
    strictly between the band limits. *)
Definition sc_estimation_keeps (o o' : sc) : Prop :=
  sc_stat_config (SC.set_gn_ [] o') = sc_stat_config (SC.set_gn_ [] o)
  /\ length (SC.gn_ o') = length (SC.gn_ o)
  /\ forall s, SC.lower_bandWidthN_ o < s -> s < SC.upper_bandWidthN_ o ->
       SC.gn_ o' !! s = SC.gn_ o !! s.

Lemma sc_stat_keeps (o a b : sc) :
  sc_estimation_keeps o a -> sc_stat_config b = sc_stat_config a -> sc_estimation_keeps o b.
Proof.
  intros (Ec & El & Hs) Eb.
  assert (Eg : SC.gn_ b = SC.gn_ a) by exact (f_equal SC.gn_ Eb).
  split; [| rewrite Eg; split; assumption].
  rewrite <- Ec. exact (f_equal (SC.set_gn_ []) Eb).
Qed.

Lemma sc_estimate_Gn_at_keeps (o a : sc) (subbandX : nat) :
  sc_estimation_keeps o a -> sc_estimation_keeps o (SC.estimate_Gn_at subbandX a).1.
Proof.
  intros Ha. unfold SC.estimate_Gn_at.
  destruct ((SC.lower_bandWidthN_ a <? subbandX) && (subbandX <? SC.upper_bandWidthN_ a))
    eqn:Hskip; [exact Ha |]. cbv zeta.
  set (b := SC.load_R_ (SC.calc_Rr_ subbandX a)).
  assert (Eb : sc_stat_config b = sc_stat_config a)
    by (apply sc_load_R_stat, sc_calc_Rr_stat; reflexivity).
  pose proof (sc_stat_keeps o a b Ha Eb) as Hb.
  destruct (gsl_linalg_complex_cholesky_decomp (SC.R_ b)) as [L|]; [| exact Hb].
  cbn [fst]. destruct Hb as (Ec & El & Hs).
  split; [exact Ec |].
  split; [cbn [SC.gn_ SC.set_gn_ SC.set_R_]; rewrite length_insert; exact El |].
  intros s Hlo Hup. cbn [SC.gn_ SC.set_gn_ SC.set_R_].
  rewrite list_lookup_insert_ne; [apply Hs; assumption |].
  intros ->. destruct Ha as (Ea & _).
  assert (E1 : SC.lower_bandWidthN_ a = SC.lower_bandWidthN_ o)
    by exact (f_equal SC.lower_bandWidthN_ Ea).
  assert (E2 : SC.upper_bandWidthN_ a = SC.upper_bandWidthN_ o)
    by exact (f_equal SC.upper_bandWidthN_ Ea).
  rewrite E1, E2 in Hskip.
  apply andb_false_iff in Hskip as [Hk|Hk]; apply Nat.ltb_ge in Hk; lia.
Qed.

Lemma sc_estimate_Gn_keeps (o a : sc) :
  sc_estimation_keeps o a -> sc_estimation_keeps o (SC.estimate_Gn_ a).1.
Proof.
  intros Ha. unfold SC.estimate_Gn_.
  apply for_each_preserves; [exact Ha |].
  intros iterationX b Hb. cbv zeta.
  apply for_each_preserves.
  - apply (sc_stat_keeps o b _ Hb). apply sc_calc_Thetan_stat. reflexivity.
  - intros subbandX c Hc. apply sc_estimate_Gn_at_keeps, Hc.
Qed.

Lemma sc_estimate_Gn_throws (o : sc) (e : exception) :
  (SC.estimate_Gn_ o).2 = Throw e -> e = gsl_error.
Proof.
  unfold SC.estimate_Gn_. apply (for_each_throws (fun e => e = gsl_error)).
  intros iterationX a e'. cbv zeta. apply (for_each_throws (fun e => e = gsl_error)).
  intros subbandX b e''. unfold SC.estimate_Gn_at.
  destruct (_ && _); [discriminate |]. cbv zeta.
  destruct (gsl_linalg_complex_cholesky_decomp _); [discriminate |].
  cbn. congruence.
Qed.

(** X7. The two outcomes of the single-channel [estimate_filter]. When it
    returns, it returns the number of frames in the batch buffer, the feature
    is estimated, the batch buffer is empty again and the source is rewound
    to its first frame. When the factorisation of some subband fails, the
    error leaves before any of that: the [estimated_] flag is what it was,
    the batch buffer still holds the frames and the source stays where the
    buffering left it. *)
Theorem estimate_filter_outcomes (o : sc) (start_frame_no end_frame_no : Z) :
  let filled := SC.fill_buffer_ start_frame_no end_frame_no o in
  let o' := (SC.estimate_filter start_frame_no end_frame_no o).1 in
  match (SC.estimate_filter start_frame_no end_frame_no o).2 with
  | Return n =>
      n = length (SC.yn_ filled)
      /\ SC.estimated_ o' = true
      /\ SC.yn_ o' = []
      /\ SC.samples_ o' = stream_reset (SC.samples_ o)
  | Throw e =>
      e = gsl_error
      /\ SC.estimated_ o' = SC.estimated_ o
      /\ SC.yn_ o' = SC.yn_ filled
      /\ SC.samples_ o' = SC.samples_ filled
  end.
Proof.
  cbv zeta. unfold SC.estimate_filter. cbv zeta.
  set (filled := SC.fill_buffer_ start_frame_no end_frame_no o).
  destruct (sc_fill_buffer_kept o start_frame_no end_frame_no) as (Es & Ef & Ee).
  fold filled in Es, Ef, Ee.
  pose proof (sc_estimate_Gn_keeps filled filled
                ltac:(split; [reflexivity | split; [reflexivity | intros; reflexivity]]))
    as (Ec & _).
  pose proof (sc_estimate_Gn_throws filled) as Ht.
  destruct (SC.estimate_Gn_ filled) as [o1 [u|e]]; cbn [fst snd] in *.
  - assert (E1 : SC.framesN_ o1 = SC.framesN_ filled) by exact (f_equal SC.framesN_ Ec).
    assert (E2 : SC.samples_ o1 = SC.samples_ filled) by exact (f_equal SC.samples_ Ec).
    cbn [SC.framesN_ SC.estimated_ SC.yn_ SC.samples_ SC.set_estimated_ SC.set_yn_
         SC.set_samples_].
    split; [rewrite E1; exact Ef |]. split; [reflexivity |]. split; [reflexivity |].
    rewrite E2. exact Es.
  - split; [exact (Ht e eq_refl) |].
    split; [rewrite (f_equal SC.estimated_ Ec : SC.estimated_ o1 = SC.estimated_ filled);
            exact Ee |].
    split; [exact (f_equal SC.yn_ Ec) | exact (f_equal SC.samples_ Ec)].
Qed.

(** The same for the multi-channel class; [mc_est_config] is everything but
    its statistics. *)
Lemma mc_get_lags_stat (o o' : mc) (subbandX : nat) (sampleX : Z) :
  mc_est_config o' = mc_est_config o ->
  mc_est_config (MC.get_lags_ subbandX sampleX o') = mc_est_config o.
Proof.
  intros Ho. unfold MC.get_lags_.
  apply (fold_left_preserves (fun p => mc_est_config p.1 = mc_est_config o)); [exact Ho |].
  intros ot channelX Hot.
  apply (fold_left_preserves (fun p => mc_est_config p.1 = mc_est_config o)); [exact Hot |].
  intros [a totalX] lagX Ha. exact Ha.
Qed.

Lemma mc_calc_Thetan_stat (o o' : mc) :
  mc_est_config o' = mc_est_config o -> mc_est_config (MC.calc_Thetan_ o') = mc_est_config o.
Proof.
  intros Ho. unfold MC.calc_Thetan_.
  apply (fold_left_preserves (fun p => mc_est_config p.1 = mc_est_config o)); [exact Ho |].
  intros [a sampleX] brace Ha. cbn [fst] in *.
  apply (fold_left_preserves (fun a => mc_est_config a = mc_est_config o)); [exact Ha |].
  intros b channelX Hb.
  apply (fold_left_preserves (fun a => mc_est_config a = mc_est_config o)); [exact Hb |].
  intros c subbandX Hc. unfold MC.calc_Thetan_at. cbv zeta.
  destruct (MC.lowerN_ c <=? sampleX); [| exact Hc].
  exact (mc_get_lags_stat o c subbandX _ Hc).
Qed.

Lemma mc_calc_Rr_stat (o o' : mc) (subbandX : nat) :
  mc_est_config o' = mc_est_config o ->
  mc_est_config (MC.calc_Rr_ subbandX o') = mc_est_config o.
Proof.
  intros Ho. unfold MC.calc_Rr_. cbv zeta.
  apply (fold_left_preserves (fun a => mc_est_config a = mc_est_config o)).
  - apply (fold_left_preserves (fun a => mc_est_config a = mc_est_config o)); [exact Ho |].
    intros a channelX Ha. unfold MC.add_diagonal_bias.
    apply (fold_left_preserves (fun a => mc_est_config a = mc_est_config o));
      [| intros b rowX Hb; exact Hb].
    unfold MC.calc_R_channel. cbv zeta.
    apply (fold_left_preserves (fun a => mc_est_config a = mc_est_config o)); [exact Ha |].
    intros b sampleX Hb. exact (mc_get_lags_stat o b subbandX _ Hb).
  - intros a channelX Ha. unfold MC.calc_r_channel. cbv zeta.
    apply (fold_left_preserves (fun p => mc_est_config p.1 = mc_est_config o)); [exact Ha |].
    intros [b sampleX] frame Hb. cbn [fst] in *.
    destruct (sampleX <? MC.lowerN_ b); [exact Hb |].
    exact (mc_get_lags_stat o b subbandX _ Hb).
Qed.

Lemma mc_load_R_stat (o o' : mc) :
  mc_est_config o' = mc_est_config o -> mc_est_config (MC.load_R_ o') = mc_est_config o.
Proof.
  intros Ho. unfold MC.load_R_.
  apply (fold_left_preserves (fun a => mc_est_config a = mc_est_config o)); [exact Ho |].
  intros a channelX Ha. unfold MC.load_R_channel. cbv zeta.
  apply (fold_left_preserves (fun a => mc_est_config a = mc_est_config o));
    [exact Ha | intros b componentX Hb; exact Hb].
Qed.

Definition mc_estimation_keeps (o o' : mc) : Prop :=
  mc_est_config (MC.set_Gn_ [] o') = mc_est_config (MC.set_Gn_ [] o)
  /\ forall c s, MC.lower_bandWidthN_ o < s -> s < MC.upper_bandWidthN_ o ->
       entry (MC.Gn_ o') c s = entry (MC.Gn_ o) c s.

Lemma mc_stat_keeps (o a b : mc) :
  mc_estimation_keeps o a -> mc_est_config b = mc_est_config a -> mc_estimation_keeps o b.
Proof.
  intros (Ec & Hs) Eb.
  assert (Eg : MC.Gn_ b = MC.Gn_ a) by exact (f_equal MC.Gn_ Eb).
  split; [| rewrite Eg; assumption].
  rewrite <- Ec. exact (f_equal (MC.set_Gn_ []) Eb).
Qed.

Lemma mc_estimate_Gn_at_keeps (o a : mc) (subbandX : nat) :
  mc_estimation_keeps o a -> mc_estimation_keeps o (MC.estimate_Gn_at subbandX a).1.
Proof.
  intros Ha. unfold MC.estimate_Gn_at.
  destruct ((MC.lower_bandWidthN_ a <? subbandX) && (subbandX <? MC.upper_bandWidthN_ a))
    eqn:Hskip; [exact Ha |]. cbv zeta.
  assert (Hact : ~ (MC.lower_bandWidthN_ o < subbandX /\ subbandX < MC.upper_bandWidthN_ o)).
  { destruct Ha as (Ea & _).
    assert (E1 : MC.lower_bandWidthN_ a = MC.lower_bandWidthN_ o)
      by exact (f_equal MC.lower_bandWidthN_ Ea).
    assert (E2 : MC.upper_bandWidthN_ a = MC.upper_bandWidthN_ o)
      by exact (f_equal MC.upper_bandWidthN_ Ea).
    rewrite E1, E2 in Hskip.
    apply andb_false_iff in Hskip as [Hk|Hk]; apply Nat.ltb_ge in Hk; lia. }
  apply for_each_preserves.
  - apply (mc_stat_keeps o a _ Ha). apply mc_load_R_stat, mc_calc_Rr_stat. reflexivity.
  - intros channelX b (Ec & Hs). unfold MC.solve_channel.
    destruct (gsl_linalg_complex_cholesky_decomp _) as [L|]; [| split; assumption].
    cbn [fst]. split; [exact Ec |].
    intros c s Hlo Hup. cbn [MC.Gn_ MC.set_Gn_ MC.set_R_].
    rewrite <- (Hs c s Hlo Hup).
    apply (entry_set_ne (MC.Gn_ b) channelX subbandX c s). right. intros ->.
    apply Hact. split; assumption.
Qed.

Lemma mc_estimate_Gn_keeps (o a : mc) :
  mc_estimation_keeps o a -> mc_estimation_keeps o (MC.estimate_Gn_ a).1.
Proof.
  intros Ha. unfold MC.estimate_Gn_.
  apply for_each_preserves; [exact Ha |].
  intros iterationX b Hb. cbv zeta.
  apply for_each_preserves.
  - apply (mc_stat_keeps o b _ Hb). apply mc_calc_Thetan_stat. reflexivity.
  - intros subbandX c Hc. apply mc_estimate_Gn_at_keeps, Hc.
Qed.


(** The buffering of the multi-channel class writes the sources, the batch
    buffer, its length and the power matrices. *)
Lemma mc_fill_loop_writes (fuel : nat) (start_frame_no end_frame_no frX : Z) (o1 o2 : mc) :
  MC.fill_loop fuel start_frame_no end_frame_no frX o1 = Some o2 ->
  MC.set_sources_ [] (MC.set_frames_ [] o2) = MC.set_sources_ [] (MC.set_frames_ [] o1).
Proof.
  revert end_frame_no frX o1.
  induction fuel as [|fuel IH]; intros end_frame_no frX o1 Hf; simpl in Hf; [discriminate |].
  destruct (_ && _); [injection Hf as <-; reflexivity |].
  destruct (start_frame_no <=? frX)%Z; [| exact (IH _ _ _ Hf)].
  pose proof (mc_pull_brace_sources (seq 0 (MC.channelsN_ o1))
                (replicate (MC.channelsN_ o1) []) o1) as Hp.
  destruct (MC.pull_brace _ _ o1) as [o3 [fbrace|]]; cbn [fst] in Hp;
    rewrite (IH _ _ _ Hf); cbn [MC.set_frames_]; exact (f_equal (MC.set_frames_ []) Hp).
Qed.

Lemma mc_fill_buffer_writes (o : mc) (start_frame_no end_frame_no : Z) :
  let filled := MC.fill_buffer_ start_frame_no end_frame_no o in
  MC.estimated_ filled = MC.estimated_ o
  /\ MC.Gn_ filled = MC.Gn_ o
  /\ MC.lower_bandWidthN_ filled = MC.lower_bandWidthN_ o
  /\ MC.upper_bandWidthN_ filled = MC.upper_bandWidthN_ o
  /\ MC.framesN_ filled = length (MC.frames_ filled).
Proof.
  cbv zeta. unfold MC.fill_buffer_. cbv zeta.
  set (o1 := default o (MC.fill_loop _ _ _ _ o)).
  assert (E1 : MC.set_sources_ [] (MC.set_frames_ [] o1)
               = MC.set_sources_ [] (MC.set_frames_ [] o)).
  { unfold o1. destruct (MC.fill_loop _ _ _ _ o) as [o3|] eqn:Hf; cbn [default];
      [exact (mc_fill_loop_writes _ _ _ _ _ _ Hf) | reflexivity]. }
  set (o2 := MC.set_framesN_ (length (MC.frames_ o1)) o1).
  destruct (mc_alloc_thetan_fold (MC.channelsN_ o2) o2) as (Ec & _). cbv zeta in Ec.
  set (o3 := fold_left _ (seq 0 (MC.channelsN_ o2)) o2) in *.
  split; [rewrite (f_equal MC.estimated_ Ec : MC.estimated_ o3 = MC.estimated_ o2);
          exact (f_equal MC.estimated_ E1) |].
  split; [rewrite (f_equal MC.Gn_ Ec : MC.Gn_ o3 = MC.Gn_ o2); exact (f_equal MC.Gn_ E1) |].
  split; [rewrite (f_equal MC.lower_bandWidthN_ Ec
                   : MC.lower_bandWidthN_ o3 = MC.lower_bandWidthN_ o2);
          exact (f_equal MC.lower_bandWidthN_ E1) |].
  split; [rewrite (f_equal MC.upper_bandWidthN_ Ec
                   : MC.upper_bandWidthN_ o3 = MC.upper_bandWidthN_ o2);
          exact (f_equal MC.upper_bandWidthN_ E1) |].
  rewrite (f_equal MC.framesN_ Ec : MC.framesN_ o3 = MC.framesN_ o2).
  rewrite (f_equal MC.frames_ Ec : MC.frames_ o3 = MC.frames_ o2). reflexivity.
Qed.

(** X8. The estimation never writes the predictor of a subband strictly
    between the two band limits: after [estimate_filter], returning or not,
    [gn_[s]] of the single-channel class and [Gn_[c][s]] of every channel of
    the multi-channel class are what they were before the call. *)
Theorem estimation_skips_band_between_limits
    (o : sc) (m : mc) (start_frame_no end_frame_no : Z) (c s : nat) :
  (SC.lower_bandWidthN_ o < s -> s < SC.upper_bandWidthN_ o ->
   SC.gn_ (SC.estimate_filter start_frame_no end_frame_no o).1 !! s = SC.gn_ o !! s)
  /\ (MC.lower_bandWidthN_ m < s -> s < MC.upper_bandWidthN_ m ->
      entry (MC.Gn_ (MC.estimate_filter start_frame_no end_frame_no m).1) c s
      = entry (MC.Gn_ m) c s).
Proof.
  split.
  - intros Hlo Hup. unfold SC.estimate_filter. cbv zeta.
    set (filled := SC.fill_buffer_ start_frame_no end_frame_no o).
    destruct (sc_fill_buffer_fields start_frame_no end_frame_no o) as (_ & _ & Eg & _).
    cbv zeta in Eg. fold filled in Eg.
    assert (Ebw : SC.lower_bandWidthN_ filled = SC.lower_bandWidthN_ o
                  /\ SC.upper_bandWidthN_ filled = SC.upper_bandWidthN_ o).
    { unfold filled, SC.fill_buffer_. cbv zeta.
      destruct (sc_fill_buffer_loop start_frame_no end_frame_no o) as [o1 Hf].
      rewrite Hf. cbv [default from_option Datatypes.id].
      pose proof (sc_fill_loop_config _ _ _ _ _ _ Hf) as Ec.
      split; [exact (f_equal SC.lower_bandWidthN_ Ec)
             | exact (f_equal SC.upper_bandWidthN_ Ec)]. }
    destruct Ebw as [El Eu].
    pose proof (sc_estimate_Gn_keeps filled filled
                  ltac:(split; [reflexivity | split; [reflexivity | intros; reflexivity]]))
      as (_ & _ & Hs).
    specialize (Hs s ltac:(lia) ltac:(lia)).
    destruct (SC.estimate_Gn_ filled) as [o1 [u|e]]; cbn [fst] in *;
      cbn [SC.gn_ SC.set_estimated_ SC.set_yn_ SC.set_samples_]; congruence.
  - intros Hlo Hup. unfold MC.estimate_filter. cbv zeta.
    set (filled := MC.fill_buffer_ start_frame_no end_frame_no m).
    destruct (mc_fill_buffer_writes m start_frame_no end_frame_no) as (_ & Eg & El & Eu & _).
    cbv zeta in Eg, El, Eu. fold filled in Eg, El, Eu.
    pose proof (mc_estimate_Gn_keeps filled filled
                  ltac:(split; [reflexivity | intros; reflexivity])) as (_ & Hs).
    specialize (Hs c s ltac:(lia) ltac:(lia)).
    destruct (MC.estimate_Gn_ filled) as [o1 [u|e]]; cbn [fst] in *;
      cbn [MC.Gn_ MC.set_estimated_ MC.set_frames_ MC.set_sources_]; congruence.
Qed.


End Estimation.

(** ** The matrix handed to the factorisation *)

Section Triangle.
Context {D : Type} `{DoubleOps D} `{LinAlgBackend D}.

Local Abbreviation sc := (SC.SingleChannelWPEDereverberationFeature D).
Local Abbreviation mc := (MC.MultiChannelWPEDereverberation D).

(** A matrix without a non-zero entry above its diagonal. *)
Definition upper_zero (R : gsl_matrix_complex D) : Prop :=
  forall i j, i < j -> gsl_matrix_complex_get R i j = zero_.

Lemma upper_zero_nil : upper_zero [].
Proof. intros i j _. reflexivity. Qed.

Lemma set_zero_upper_zero (R : gsl_matrix_complex D) :
  upper_zero (gsl_matrix_complex_set_zero R).
Proof.
  intros i j _. unfold gsl_matrix_complex_get, gsl_matrix_complex_set_zero,
    gsl_vector_complex_get, gsl_vector_complex_set_zero.
  rewrite list_lookup_fmap. destruct (R !! i) as [row|]; cbn; [| reflexivity].
  rewrite list_lookup_fmap. destruct (row !! j); reflexivity.
Qed.

Lemma set_below_upper_zero (R : gsl_matrix_complex D) (rowX colX : nat) (x : gsl_complex D) :
  colX <= rowX -> upper_zero R -> upper_zero (gsl_matrix_complex_set R rowX colX x).
Proof.
  intros Hle HR i j Hij. rewrite gsl_matrix_complex_get_entry.
  change (gsl_matrix_complex_set R rowX colX x) with (matrix_set R rowX colX x).
  rewrite entry_set_ne by lia. rewrite <- gsl_matrix_complex_get_entry. apply HR, Hij.
Qed.

Lemma accumulate_R_upper_zero (lags : gsl_vector_complex D) (thetan : D) (n : nat)
    (R : gsl_matrix_complex D) :
  upper_zero R -> upper_zero (SC.accumulate_R lags thetan n R).
Proof.
  intros HR. unfold SC.accumulate_R.
  apply fold_left_preserves; [exact HR |]. intros R1 rowX HR1.
  apply fold_left_preserves_elem; [exact HR1 |]. intros R2 colX Hcol HR2.
  apply elem_of_seq in Hcol. apply set_below_upper_zero; [lia | exact HR2].
Qed.

Lemma sc_calc_Rr_upper_zero (o : sc) (subbandX : nat) :
  upper_zero (SC.R_ (SC.calc_Rr_ subbandX o)).
Proof.
  unfold SC.calc_Rr_. cbv zeta.
  apply (fold_left_preserves (fun p => upper_zero (SC.R_ p.1))).
  - cbn [fst]. apply (fold_left_preserves (fun a => upper_zero (SC.R_ a))).
    + apply set_zero_upper_zero.
    + intros a sampleX Ha. cbv zeta. cbn [SC.R_ SC.set_R_].
      apply accumulate_R_upper_zero.
      rewrite (f_equal SC.R_ (sc_get_lags_only_lags subbandX _ a)
               : SC.R_ (SC.get_lags_ subbandX _ a) = SC.R_ a).
      exact Ha.
  - intros [a sampleX] frame Ha. cbn [fst] in *.
    destruct (sampleX <? SC.lowerN_ a); [exact Ha |]. cbv zeta. cbn [fst SC.R_ SC.set_r_].
    rewrite (f_equal SC.R_ (sc_get_lags_only_lags subbandX _ a)
             : SC.R_ (SC.get_lags_ subbandX _ a) = SC.R_ a).
    exact Ha.
Qed.

Lemma sc_calc_Rr_entries (o : sc) (subbandX i j : nat) :
  is_Some (entry (SC.R_ o) i j) -> is_Some (entry (SC.R_ (SC.calc_Rr_ subbandX o)) i j).
Proof.
  intros Hs. unfold SC.calc_Rr_. cbv zeta.
  apply (fold_left_preserves (fun p => is_Some (entry (SC.R_ p.1) i j))).
  - cbn [fst]. apply (fold_left_preserves (fun a => is_Some (entry (SC.R_ a) i j))).
    + cbn [SC.R_ SC.set_R_ SC.set_r_]. apply set_zero_is_Some, Hs.
    + intros a sampleX Ha. cbv zeta. cbn [SC.R_ SC.set_R_].
      apply accumulate_R_is_Some.
      rewrite (f_equal SC.R_ (sc_get_lags_only_lags subbandX _ a)
               : SC.R_ (SC.get_lags_ subbandX _ a) = SC.R_ a).
      exact Ha.
  - intros [a sampleX] frame Ha. cbn [fst] in *.
    destruct (sampleX <? SC.lowerN_ a); [exact Ha |]. cbv zeta. cbn [fst SC.R_ SC.set_r_].
    rewrite (f_equal SC.R_ (sc_get_lags_only_lags subbandX _ a)
             : SC.R_ (SC.get_lags_ subbandX _ a) = SC.R_ a).
    exact Ha.
Qed.

Lemma mc_calc_R_channel_upper_zero (o : mc) (subbandX c : nat) :
  upper_zero (mc_R c (MC.calc_R_channel subbandX c o)).
Proof.
  assert (Hins : forall (a : mc) R, upper_zero R ->
            upper_zero (mc_R c (MC.set_R_ (<[c := R]> (MC.R_ a)) a))).
  { intros a R HR. unfold mc_R. cbn [MC.R_ MC.set_R_].
    destruct (decide (c < length (MC.R_ a))) as [Hc|Hc].
    - rewrite list_lookup_insert_eq by exact Hc. exact HR.
    - rewrite list_insert_ge by lia.
      rewrite (proj2 (lookup_ge_None _ _)) by lia. apply upper_zero_nil. }
  unfold MC.calc_R_channel. cbv zeta.
  apply (fold_left_preserves (fun a => upper_zero (mc_R c a))).
  - apply Hins, set_zero_upper_zero.
  - intros a sampleX Ha. cbv zeta. apply Hins, accumulate_R_upper_zero.
    change (default [] (MC.R_ (MC.get_lags_ subbandX
              (uint32 (Z.of_nat sampleX - Z.of_nat (MC.lowerN_ a))) a) !! c))
      with (mc_R c (MC.get_lags_ subbandX
              (uint32 (Z.of_nat sampleX - Z.of_nat (MC.lowerN_ a))) a)).
    unfold mc_R.
    rewrite (f_equal MC.R_ (mc_get_lags_only_lags subbandX _ a)
             : MC.R_ (MC.get_lags_ subbandX _ a) = MC.R_ a).
    exact Ha.
Qed.

Lemma diag_map_upper_zero (l : list nat) g (R : gsl_matrix_complex D) :
  upper_zero R -> upper_zero (diag_map l g R).
Proof.
  intros HR i j Hij. rewrite gsl_matrix_complex_get_entry.
  rewrite diag_map_other by (left; lia).
  rewrite <- gsl_matrix_complex_get_entry. apply HR, Hij.
Qed.

(** X10. The matrix the estimation hands to the Cholesky factorisation, that
    is [R_] after [calc_Rr_] and [load_R_], is stored by its lower triangle:
    every entry above the diagonal is zero, and every diagonal entry inside
    the matrix has the imaginary part [0.0]. This holds for [R_] of the
    single-channel class and for [R_[c]] of every channel of the
    multi-channel class. *)
Theorem factorised_matrix_is_lower_triangle (o : sc) (m : mc) (subbandX c i j : nat) :
  let R := SC.R_ (SC.load_R_ (SC.calc_Rr_ subbandX o)) in
  let Rc := mc_R c (MC.load_R_ (MC.calc_Rr_ subbandX m)) in
  ((i < j -> gsl_matrix_complex_get R i j = zero_)
   /\ (i < SC.predictionN_ o -> is_Some (entry (SC.R_ o) i i) ->
       GSL_IMAG (gsl_matrix_complex_get R i i) = d0))
  /\ (MC.channelsN_ m <= length (MC.R_ m) -> c < MC.channelsN_ m ->
      (i < j -> gsl_matrix_complex_get Rc i j = zero_)
      /\ (i < MC.totalPredictionN_ m -> is_Some (entry (mc_R c m) i i) ->
          GSL_IMAG (gsl_matrix_complex_get Rc i i) = d0)).
Proof.
  cbv zeta. split.
  - destruct (sc_load_R_matrix (SC.calc_Rr_ subbandX o)) as [_ ER]. rewrite ER.
    assert (Ep : SC.predictionN_ (SC.calc_Rr_ subbandX o) = SC.predictionN_ o)
      by exact (f_equal SC.predictionN_ (sc_calc_Rr_stat o o subbandX eq_refl)).
    split.
    + intros Hij. apply diag_map_upper_zero; [apply sc_calc_Rr_upper_zero | exact Hij].
    + intros Hi Hsome. unfold load_diagonal. rewrite diag_map_diag.
      * reflexivity.
      * apply NoDup_seq.
      * apply elem_of_seq. lia.
      * apply sc_calc_Rr_entries, Hsome.
  - intros Hlen Hc.
    destruct (mc_calc_Rr_matrix subbandX c m Hlen Hc) as (Ecfg & El & ER & Hsome).
    cbv zeta in Ecfg, El, ER.
    assert (Ech : MC.channelsN_ (MC.calc_Rr_ subbandX m) = MC.channelsN_ m)
      by exact (f_equal MC.channelsN_ Ecfg).
    assert (Etp : MC.totalPredictionN_ (MC.calc_Rr_ subbandX m) = MC.totalPredictionN_ m)
      by exact (f_equal MC.totalPredictionN_ Ecfg).
    rewrite (mc_load_R_matrix c (MC.calc_Rr_ subbandX m)) by lia.
    split.
    + intros Hij. apply diag_map_upper_zero; [| exact Hij].
      rewrite ER. apply diag_map_upper_zero.
      apply mc_calc_R_channel_upper_zero.
    + intros Hi Hs. unfold load_diagonal. rewrite diag_map_diag.
      * reflexivity.
      * apply NoDup_seq.
      * apply elem_of_seq. lia.
      * rewrite ER. apply diag_map_is_Some. apply Hsome. exact Hs.
Qed.

End Triangle.

(** ** The window of the streaming step *)

Section Window.
Context {D : Type} `{DoubleOps D} `{LinAlgBackend D}.

Local Abbreviation sc := (SC.SingleChannelWPEDereverberationFeature D).
Local Abbreviation mc := (MC.MultiChannelWPEDereverberation D).

(** The loop [yn_[lagX - 1] = yn_[lagX]] for [lagX = 1 .. n]. *)
Lemma shift_fold_spec {A : Type} (d : A) (n : nat) (l : list A) :
  n < length l ->
  let l' := fold_left (fun yn lagX => <[lagX - 1 := default d (yn !! lagX)]> yn) (seq 1 n) l in
  length l' = length l
  /\ (forall i, i < n -> l' !! i = l !! S i)
  /\ (forall i, n <= i -> l' !! i = l !! i).
Proof.
  intros Hn. induction n as [|n IH]; cbv zeta in *.
  - cbn. split; [reflexivity |]. split; [intros i Hi; lia | reflexivity].
  - rewrite seq_S, fold_left_app. cbn [fold_left Nat.add].
    destruct (IH ltac:(lia)) as (Hl & Hin & Hout).
    set (l1 := fold_left _ (seq 1 n) l) in *.
    replace (S n - 1) with n by lia.
    destruct (lookup_lt_is_Some_2 l (S n) Hn) as [x Hx].
    rewrite (Hout (S n)) by lia. rewrite Hx. cbn [default from_option].
    split; [rewrite length_insert; exact Hl |]. split.
    + intros i Hi. destruct (decide (i = n)) as [->|Hne].
      * rewrite list_lookup_insert_eq by lia. symmetry. exact Hx.
      * rewrite list_lookup_insert_ne by congruence. apply Hin. lia.
    + intros i Hi. rewrite list_lookup_insert_ne by lia. apply Hout. lia.
Qed.

(** The window after a frame is pushed: a window that is not full grows, a
    full window drops its oldest frame. *)
Lemma push_window_spec {A : Type} (d : A) (P : nat) (l : list A) (x : A) :
  1 <= P -> (Z.of_nat P < 2 ^ 32)%Z -> length l <= P ->
  (if P <=? length l then
     <[u32 (Z.of_nat P - 1) := x]>
       (fold_left (fun yn lagX => <[lagX - 1 := default d (yn !! lagX)]> yn) (seq 1 (P - 1)) l)
   else l ++ [x])
  = (if length l <? P then l else drop 1 l) ++ [x].
Proof.
  intros HP Hlt Hlen.
  destruct (Nat.leb_spec P (length l)) as [Hfull|Hroom].
  - replace (length l <? P) with false by (symmetry; apply Nat.ltb_ge; exact Hfull).
    assert (Hu : u32 (Z.of_nat P - 1) = P - 1).
    { unfold u32, uint32. rewrite Z.mod_small by lia. lia. }
    rewrite Hu.
    destruct (shift_fold_spec d (P - 1) l ltac:(lia)) as (Hl & Hin & Hout). cbv zeta in *.
    set (l1 := fold_left _ (seq 1 (P - 1)) l) in *.
    apply list_eq. intros i.
    destruct (decide (i = P - 1)) as [->|Hne].
    + rewrite list_lookup_insert_eq by lia.
      rewrite lookup_app_r by (rewrite length_drop; lia).
      rewrite length_drop. replace (P - 1 - (length l - 1)) with 0 by lia. reflexivity.
    + rewrite list_lookup_insert_ne by congruence.
      destruct (decide (i < P - 1)) as [Hi|Hi].
      * rewrite Hin by exact Hi.
        rewrite lookup_app_l by (rewrite length_drop; lia).
        rewrite lookup_drop. reflexivity.
      * rewrite Hout by lia.
        rewrite (proj2 (lookup_ge_None l i)) by lia.
        symmetry. apply lookup_ge_None. rewrite length_app, length_drop. cbn. lia.
  - replace (length l <? P) with true by (symmetry; apply Nat.ltb_lt; exact Hroom).
    reflexivity.
Qed.

(** X11. The window of the streaming step holds the latest frames, oldest
    first, and never more than [predictionN_] of them: a step that pulls a
    frame appends it to a window that is not full, and replaces a full
    window by its frames but the oldest followed by the new frame. The same
    holds for the braces of [calc_every_channel_output]. *)
Theorem window_keeps_latest_frames (o o' : sc) (m m' : mc) (frame_no : Z)
    (v : gsl_vector_complex D) (out : list (gsl_vector_complex D))
    (src : VectorComplexFeatureStream D) (block : gsl_vector_complex D)
    (m1 : mc) (fbrace : list (gsl_vector_complex D)) :
  (1 <= SC.predictionN_ o -> (Z.of_nat (SC.predictionN_ o) < 2 ^ 32)%Z ->
   length (SC.yn_ o) <= SC.predictionN_ o ->
   SC.next frame_no o = (o', Return v) ->
   frame_no <> SC.frame_no_ o ->
   stream_next (SC.samples_ o) = (src, Some block) ->
   SC.yn_ o' = (if length (SC.yn_ o) <? SC.predictionN_ o then SC.yn_ o
                else drop 1 (SC.yn_ o)) ++ [block]
   /\ length (SC.yn_ o') <= SC.predictionN_ o)
  /\ (1 <= MC.predictionN_ m -> (Z.of_nat (MC.predictionN_ m) < 2 ^ 32)%Z ->
      length (MC.frames_ m) <= MC.predictionN_ m ->
      MC.calc_every_channel_output frame_no m = (m', Return out) ->
      MC.pull_brace (seq 0 (MC.channelsN_ m)) (replicate (MC.channelsN_ m) [])
                    (MC.increment_ m) = (m1, Some fbrace) ->
      MC.frames_ m' = (if length (MC.frames_ m) <? MC.predictionN_ m then MC.frames_ m
                       else drop 1 (MC.frames_ m)) ++ [fbrace]
      /\ length (MC.frames_ m') <= MC.predictionN_ m).
Proof.
  split.
  - intros HP Hlt Hlen Hnext Hne Hsrc.
    destruct (sc_next_cases frame_no o)
      as [(_ & E) | [(_ & Heq & _) | [(_ & _ & _ & _ & E) | (_ & _ & _ & Hpull)]]];
      [rewrite E in Hnext; discriminate | contradiction
       | rewrite E in Hnext; discriminate |].
    destruct Hpull as [(src' & _ & E) | (src' & block' & Hs & E)];
      [rewrite E in Hnext; discriminate |].
    rewrite Hsrc in Hs. injection Hs as <- <-.
    rewrite E in Hnext. cbv zeta in Hnext.
    pose proof (sc_loop_config block (S (SC.size o / 2)) (sc_pulled src block o)) as Hc.
    set (o2 := sc_loop block (S (SC.size o / 2)) (sc_pulled src block o)) in *.
    assert (Ho' : o' = o2) by congruence. subst o'.
    rewrite (f_equal SC.yn_ Hc : SC.yn_ o2 = SC.yn_ (sc_pulled src block o)).
    assert (Ey : SC.yn_ (sc_pulled src block o)
                 = (if length (SC.yn_ o) <? SC.predictionN_ o then SC.yn_ o
                    else drop 1 (SC.yn_ o)) ++ [block]).
    { unfold sc_pulled, SC.push_frame.
      cbn [SC.predictionN_ SC.yn_ SC.set_samples_ SC.increment_ SC.set_frame_no_].
      rewrite <- (push_window_spec [] (SC.predictionN_ o) (SC.yn_ o) block HP Hlt Hlen).
      destruct (SC.predictionN_ o <=? length (SC.yn_ o)); reflexivity. }
    split; [exact Ey |]. rewrite Ey, length_app. cbn [length].
    destruct (Nat.ltb_spec (length (SC.yn_ o)) (SC.predictionN_ o));
      [| rewrite length_drop]; lia.
  - intros HP Hlt Hlen Hcalc Hpull.
    destruct (mc_calc_cases frame_no m)
      as [(_ & E) | [(_ & _ & _ & E) | (_ & _ & Hp)]];
      [rewrite E in Hcalc; discriminate .. |].
    destruct Hp as [(o1 & Hp & E) | (o1 & fb & Hp & E)];
      [rewrite Hpull in Hp; discriminate |].
    rewrite Hpull in Hp. injection Hp as <- <-.
    rewrite E in Hcalc. cbv zeta in Hcalc.
    pose proof (mc_outputs_config fbrace (MC.channelsN_ m) (MC.push_brace fbrace m1)) as Hc.
    set (m2 := mc_outputs fbrace (MC.channelsN_ m) (MC.push_brace fbrace m1)) in *.
    assert (Hm' : m' = m2) by congruence. subst m'.
    rewrite (f_equal MC.frames_ Hc : MC.frames_ m2 = MC.frames_ (MC.push_brace fbrace m1)).
    pose proof (mc_pull_brace_sources (seq 0 (MC.channelsN_ m))
                  (replicate (MC.channelsN_ m) []) (MC.increment_ m)) as Hs.
    rewrite Hpull in Hs. cbn [fst] in Hs.
    assert (Ef : MC.frames_ m1 = MC.frames_ m) by exact (f_equal MC.frames_ Hs).
    assert (Ep : MC.predictionN_ m1 = MC.predictionN_ m) by exact (f_equal MC.predictionN_ Hs).
    assert (Ey : MC.frames_ (MC.push_brace fbrace m1)
                 = (if length (MC.frames_ m) <? MC.predictionN_ m then MC.frames_ m
                    else drop 1 (MC.frames_ m)) ++ [fbrace]).
    { unfold MC.push_brace. rewrite Ef, Ep.
      rewrite <- (push_window_spec [] (MC.predictionN_ m) (MC.frames_ m) fbrace HP Hlt Hlen).
      destruct (MC.predictionN_ m <=? length (MC.frames_ m)); reflexivity. }
    split; [exact Ey |]. rewrite Ey, length_app. cbn [length].
    destruct (Nat.ltb_spec (length (MC.frames_ m)) (MC.predictionN_ m));
      [| rewrite length_drop]; lia.
Qed.

End Window.

(** ** The first frames and the lags of the streaming step *)

Section ColdStart.
Context {D : Type} `{DoubleOps D} `{LinAlgBackend D}.

Local Abbreviation sc := (SC.SingleChannelWPEDereverberationFeature D).
Local Abbreviation mc := (MC.MultiChannelWPEDereverberation D).

(** A joint step that returns, by the brace it pulled. *)
Lemma mc_calc_rows (o o' : mc) (frame_no : Z) (out : list (gsl_vector_complex D)) :
  MC.calc_every_channel_output frame_no o = (o', Return out) ->
  mc_output_allocated o ->
  exists o1 fbrace,
    MC.pull_brace (seq 0 (MC.channelsN_ o)) (replicate (MC.channelsN_ o) [])
                  (MC.increment_ o) = (o1, Some fbrace)
    /\ out = MC.output_ o'
    /\ mc_config o' = mc_config (MC.push_brace fbrace o1)
    /\ forall c, c < MC.channelsN_ o ->
         mc_row_ok (MC.push_brace fbrace o1) (gsl_vector_complex_get_row fbrace c) c
                   (gsl_vector_complex_get_row out c).
Proof.
  intros Hcalc [Hlen Hrows].
  destruct (mc_calc_cases frame_no o) as [(_ & E) | [(_ & _ & _ & E) | (_ & _ & Hpull)]];
    [rewrite E in Hcalc; discriminate .. |].
  destruct Hpull as [(o1 & _ & E) | (o1 & fbrace & Hp & E)];
    [rewrite E in Hcalc; discriminate |].
  rewrite E in Hcalc. cbv zeta in Hcalc.
  set (o2 := MC.push_brace fbrace o1) in *.
  set (o3 := mc_outputs fbrace (MC.channelsN_ o) o2) in *.
  assert (Ho' : o' = o3) by congruence.
  assert (Hout : out = MC.output_ o3) by congruence.
  subst o' out.
  pose proof (mc_pull_brace_sources (seq 0 (MC.channelsN_ o))
                (replicate (MC.channelsN_ o) []) (MC.increment_ o)) as Hs.
  rewrite Hp in Hs. cbn [fst] in Hs.
  destruct (mc_push_brace_fields fbrace o1) as (Es & Eo & _). cbv zeta in Es, Eo.
  fold o2 in Es, Eo.
  assert (Fs : MC.size o1 = MC.size o) by exact (f_equal MC.subbandsN_ Hs).
  assert (Fo : MC.output_ o1 = MC.output_ o) by exact (f_equal MC.output_ Hs).
  destruct (mc_outputs_inv fbrace o2 (MC.channelsN_ o)) as (Hc & _ & _ & Hlt).
  { rewrite Eo, Fo, Hlen. apply le_n. }
  { intros c Hc. rewrite Eo, Fo, Es, Fs. apply Hrows. exact Hc. }
  exists o1, fbrace. split; [exact Hp |]. split; [reflexivity |]. split; [exact Hc |].
  exact Hlt.
Qed.

(** X12. The first [lowerN_] frames pass through: a streaming step that
    leaves the counter below [lowerN_] subtracts no prediction, whatever the
    band limits and the predictor are. Its output is the frame pulled at
    every subband up to [size()/2]; this holds for [next] and for every
    channel of [calc_every_channel_output]. *)
Theorem frames_before_lowerN_pass_through :
  (forall (o o' : sc) (frame_no : Z) (v : gsl_vector_complex D)
          (src : VectorComplexFeatureStream D) (block : gsl_vector_complex D) (s : nat),
      SC.next frame_no o = (o', Return v) ->
      frame_no <> SC.frame_no_ o ->
      stream_next (SC.samples_ o) = (src, Some block) ->
      length (SC.vector_ o) = SC.size o ->
      (0 <= SC.frame_no_ o + 1 < Z.of_nat (SC.lowerN_ o))%Z ->
      (Z.of_nat (SC.lowerN_ o) < 2 ^ 32)%Z ->
      s <= SC.size o / 2 -> s < SC.size o ->
      gsl_vector_complex_get v s = gsl_vector_complex_get block s)
  /\ (forall (m m' : mc) (frame_no : Z) (out : list (gsl_vector_complex D))
             (c : nat) (src src' : VectorComplexFeatureStream D)
             (block : gsl_vector_complex D) (s : nat),
         MC.calc_every_channel_output frame_no m = (m', Return out) ->
         mc_output_allocated m ->
         c < MC.channelsN_ m ->
         MC.sources_ m !! c = Some src ->
         stream_next src = (src', Some block) ->
         (0 <= MC.frame_no_ m + 1 < Z.of_nat (MC.lowerN_ m))%Z ->
         (Z.of_nat (MC.lowerN_ m) < 2 ^ 32)%Z ->
         s <= MC.size m / 2 -> s < MC.size m ->
         gsl_vector_complex_get (gsl_vector_complex_get_row out c) s
         = gsl_vector_complex_get block s).
Proof.
  split.
  - intros o o' frame_no v src block s Hnext Hne Hsrc Hlen Hcold Hlo Hs Hsz.
    destruct (sc_next_output o o' frame_no v src block Hnext Hne Hsrc Hlen)
      as (_ & _ & _ & Hq & _).
    destruct (Hq s Hs Hsz) as (o'' & Hc & ->).
    destruct (sc_pulled_fields src block o) as (_ & _ & Ef & _ & _ & El & _).
    cbv zeta in Ef, El.
    destruct (sc_config_fields _ _ Hc) as (_ & E1 & _ & _ & E2 & _).
    unfold sc_cur, sc_filtered. rewrite E1, E2, Ef, El.
    replace (Z.of_nat (SC.lowerN_ o) <=? uint32 (SC.frame_no_ o + 1))%Z with false;
      [reflexivity |].
    symmetry. apply Z.leb_gt. unfold uint32. rewrite Z.mod_small by lia. lia.
  - intros m m' frame_no out c src src' block s Hcalc Halloc Hc Hsrc Hnext Hcold Hlo Hs Hsz.
    destruct (mc_calc_rows m m' frame_no out Hcalc Halloc)
      as (o1 & fbrace & Hp & _ & _ & Hrow).
    pose proof (mc_pull_brace_sources (seq 0 (MC.channelsN_ m))
                  (replicate (MC.channelsN_ m) []) (MC.increment_ m)) as Hw.
    rewrite Hp in Hw. cbn [fst] in Hw.
    apply pull_brace_spec in Hp as (_ & _ & _ & Hin);
      [| apply NoDup_seq
       | intros c' Hc'; apply elem_of_seq in Hc'; rewrite length_replicate; lia].
    destruct (Hin c) as (src0 & src0' & block0 & Hs0 & Hn0 & Hb0); [apply elem_of_seq; lia |].
    cbn [MC.sources_ MC.increment_ MC.set_frame_no_] in Hs0.
    rewrite Hsrc in Hs0. injection Hs0 as <-.
    rewrite Hnext in Hn0. injection Hn0 as <- <-.
    destruct (Hrow c Hc) as (_ & Hq & _).
    destruct (mc_push_brace_fields fbrace o1) as (Es & _ & Ef & _ & _ & El & _).
    cbv zeta in Es, Ef, El.
    assert (Fs : MC.size o1 = MC.size m) by exact (f_equal MC.subbandsN_ Hw).
    assert (Ff : MC.frame_no_ o1 = (MC.frame_no_ m + 1)%Z) by exact (f_equal MC.frame_no_ Hw).
    assert (Fl : MC.lowerN_ o1 = MC.lowerN_ m) by exact (f_equal MC.lowerN_ Hw).
    rewrite Es, Fs in Hq. destruct (Hq s Hs Hsz) as (o'' & Hcfg & ->).
    destruct (mc_config_fields _ _ Hcfg) as (_ & E1 & _ & _ & E2 & _).
    unfold mc_cur, mc_filtered. rewrite E1, E2, Ef, El, Ff, Fl.
    replace (Z.of_nat (MC.lowerN_ m) <=? uint32 (MC.frame_no_ m + 1))%Z with false.
    + cbn [andb]. unfold gsl_vector_complex_get_row. rewrite Hb0. reflexivity.
    + symmetry. apply Z.leb_gt. unfold uint32. rewrite Z.mod_small by lia. lia.
Qed.

Lemma int32_uint32_sub (a b : Z) : int32 (uint32 a - b) = int32 (a - b).
Proof.
  unfold int32, uint32. f_equal.
  replace (a mod 2 ^ 32 - b + 2 ^ 31)%Z with (a mod 2 ^ 32 + (2 ^ 31 - b))%Z by lia.
  rewrite Zplus_mod_idemp_l. f_equal. lia.
Qed.

Lemma int32_small (z : Z) : (- 2 ^ 31 <= z < 2 ^ 31)%Z -> int32 z = z.
Proof. intros Hz. unfold int32. rewrite Z.mod_small by lia. lia. Qed.

(** X13. The lags of a streaming step. With [L] frames in the window, the
    step asks [get_lags_] for the sample [L - 1 - lowerN_], computed in
    [unsigned]: when the window holds no more than [lowerN_] frames the
    subtraction wraps around, and the conversion to [int] inside
    [get_lags_] makes the index negative again. So the lag [lagX] is the
    frame pulled [lowerN_ + lagX] steps ago while that frame is in the
    window, and zero otherwise. As the window never holds more than
    [predictionN_] frames, the last [lowerN_] lags of a streaming step are
    always zero. *)
Theorem streaming_lags_zero_outside_window (o : sc) (subbandX lagX : nat) :
  lagX < SC.predictionN_ o ->
  lagX < length (SC.lag_samples_ o) ->
  (Z.of_nat (length (SC.yn_ o)) < 2 ^ 31)%Z ->
  (Z.of_nat (SC.lowerN_ o) + Z.of_nat (SC.predictionN_ o) < 2 ^ 31)%Z ->
  let L := length (SC.yn_ o) in
  let o' := SC.get_lags_ subbandX (uint32 (Z.of_nat L - 1 - Z.of_nat (SC.lowerN_ o))) o in
  gsl_vector_complex_get (SC.lag_samples_ o') lagX
  = (if SC.lowerN_ o + lagX <? L
     then gsl_vector_complex_get
            (gsl_vector_complex_get_row (SC.yn_ o) (L - 1 - SC.lowerN_ o - lagX)) subbandX
     else zero_)
  /\ (L <= SC.predictionN_ o -> SC.predictionN_ o <= SC.lowerN_ o + lagX ->
      gsl_vector_complex_get (SC.lag_samples_ o') lagX = zero_).
Proof.
  intros Hlag Hlen HL Hb. cbv zeta.
  set (L := length (SC.yn_ o)) in *.
  assert (E : gsl_vector_complex_get
                (SC.lag_samples_
                   (SC.get_lags_ subbandX (uint32 (Z.of_nat L - 1 - Z.of_nat (SC.lowerN_ o))) o))
                lagX
              = (if SC.lowerN_ o + lagX <? L
                 then gsl_vector_complex_get
                        (gsl_vector_complex_get_row (SC.yn_ o) (L - 1 - SC.lowerN_ o - lagX))
                        subbandX
                 else zero_)).
  { rewrite sc_get_lags_fold.
    destruct (fold_insert_spec
                (sc_lag o subbandX (uint32 (Z.of_nat L - 1 - Z.of_nat (SC.lowerN_ o))))
                (SC.predictionN_ o) (SC.lag_samples_ o)) as (_ & Hin & _).
    cbv zeta in Hin. unfold gsl_vector_complex_get at 1.
    rewrite (Hin lagX Hlag Hlen). cbn [default from_option]. unfold sc_lag. cbv zeta.
    rewrite int32_uint32_sub, int32_small by lia.
    destruct (Nat.ltb_spec (SC.lowerN_ o + lagX) L) as [Hin'|Hout].
    - replace (Z.of_nat L - 1 - Z.of_nat (SC.lowerN_ o) - Z.of_nat lagX <? 0)%Z with false
        by (symmetry; apply Z.ltb_ge; lia).
      unfold SC.yn_at, gsl_vector_complex_get_row.
      replace (Z.to_nat (Z.of_nat L - 1 - Z.of_nat (SC.lowerN_ o) - Z.of_nat lagX))
        with (L - 1 - SC.lowerN_ o - lagX) by lia.
      reflexivity.
    - replace (Z.of_nat L - 1 - Z.of_nat (SC.lowerN_ o) - Z.of_nat lagX <? 0)%Z with true
        by (symmetry; apply Z.ltb_lt; lia).
      reflexivity. }
  split; [exact E |].
  intros Hw Hlast. rewrite E.
  replace (SC.lowerN_ o + lagX <? L) with false by (symmetry; apply Nat.ltb_ge; lia).
  reflexivity.
Qed.

End ColdStart.

(** ** Views and registration *)

Section Objects.
Context {D : Type} `{DoubleOps D} `{LinAlgBackend D}.

Local Abbreviation sc := (SC.SingleChannelWPEDereverberationFeature D).
Local Abbreviation mc := (MC.MultiChannelWPEDereverberation D).
Local Abbreviation view := MCF.MultiChannelWPEDereverberationFeature.

(** A joint step keeps the number of channels, whatever its outcome. *)
Lemma mc_calc_channels (frame_no : Z) (m : mc) :
  MC.channelsN_ (MC.calc_every_channel_output frame_no m).1 = MC.channelsN_ m.
Proof.
  destruct (mc_calc_cases frame_no m)
    as [(_ & E) | [(_ & _ & _ & E) | (_ & _ & Hp)]]; [rewrite E; reflexivity .. |].
  assert (Hpull : forall o1 r,
            MC.pull_brace (seq 0 (MC.channelsN_ m)) (replicate (MC.channelsN_ m) [])
                          (MC.increment_ m) = (o1, r) ->
            MC.channelsN_ o1 = MC.channelsN_ m).
  { intros o1 r Hp1. apply pull_brace_channels in Hp1. exact Hp1. }
  destruct Hp as [(o1 & Hp & E) | (o1 & fbrace & Hp & E)]; rewrite E; cbv zeta; cbn [fst].
  - exact (Hpull _ _ Hp).
  - pose proof (mc_outputs_config fbrace (MC.channelsN_ m) (MC.push_brace fbrace o1)) as Hc.
    rewrite (f_equal MC.channelsN_ Hc
             : MC.channelsN_ (mc_outputs fbrace (MC.channelsN_ m) (MC.push_brace fbrace o1))
               = MC.channelsN_ (MC.push_brace fbrace o1)).
    destruct (mc_push_brace_fields fbrace o1) as (_ & _ & _ & _ & Ech & _). cbv zeta in Ech.
    rewrite Ech. exact (Hpull _ _ Hp).
Qed.

(** X14. Output sharing between the views. When a pull on the view of the
    primary channel returns, the shared object is the one the joint step
    left, and the vector returned is the output buffer of the primary
    channel. A pull with the same index on the view of another channel in
    range, whose own counter is in sequence, then returns the buffer the
    same joint step filled for its channel, advances its own counter only,
    and leaves the shared object as it is: no source is pulled again. *)
Theorem views_share_one_joint_step (m m' : mc) (vp vp' vc : view) (frame_no : Z)
    (v : gsl_vector_complex D) :
  MCF.channelX_ vp = MCF.primaryChannelX_ vp ->
  MCF.channelX_ vc <> MCF.primaryChannelX_ vc ->
  MCF.channelX_ vc < MC.channelsN_ m ->
  ((frame_no < 0)%Z \/ (frame_no - 1)%Z = MCF.frame_no_ vc) ->
  MCF.next frame_no vp m = (vp', m', Return v) ->
  m' = (MC.calc_every_channel_output frame_no m).1
  /\ v = gsl_vector_complex_get_row (MC.output_ m') (MCF.channelX_ vp)
  /\ vp' = MCF.increment_ vp
  /\ MCF.next frame_no vc m'
     = (MCF.increment_ vc, m',
        Return (gsl_vector_complex_get_row (MC.output_ m') (MCF.channelX_ vc))).
Proof.
  intros Hprim Hother Hrange Hseq Hnext.
  pose proof (mc_calc_channels frame_no m) as Hch.
  unfold MCF.next in Hnext. rewrite Hprim, Nat.eqb_refl in Hnext.
  destruct (MC.calc_every_channel_output frame_no m) as [m1 [out|e]];
    cbv beta iota in Hnext; [| discriminate]. cbn [fst] in Hch.
  revert Hnext.
  destruct ((0 <=? frame_no)%Z && negb (frame_no - 1 =? MCF.frame_no_ vp)%Z);
    [discriminate |].
  unfold MC.get_output. cbn [MCF.channelX_ MCF.increment_].
  destruct (MC.channelsN_ m1 <=? MCF.channelX_ vp) eqn:Hp; [discriminate |].
  intros Hnext. injection Hnext as <- <- <-.
  split; [reflexivity |]. split; [reflexivity |]. split; [reflexivity |].
  unfold MCF.next.
  replace (MCF.channelX_ vc =? MCF.primaryChannelX_ vc) with false
    by (symmetry; apply Nat.eqb_neq; exact Hother).
  replace ((0 <=? frame_no)%Z && negb (frame_no - 1 =? MCF.frame_no_ vc)%Z) with false.
  - unfold MC.get_output. cbn [MCF.channelX_ MCF.increment_].
    replace (MC.channelsN_ m1 <=? MCF.channelX_ vc) with false
      by (symmetry; apply Nat.leb_gt; lia).
    reflexivity.
  - symmetry. destruct Hseq as [Hneg|Heq].
    + replace (0 <=? frame_no)%Z with false by (symmetry; apply Z.leb_gt; exact Hneg).
      reflexivity.
    + rewrite Heq, Z.eqb_refl. apply andb_false_r.
Qed.

(** The registration of a list of sources, one [set_input] call each. *)
Definition set_inputs (l : list (VectorComplexFeatureStream D)) (o : mc) : mc :=
  fold_left (fun o samples => (MC.set_input samples o).1) l o.

Lemma set_inputs_sources (l : list (VectorComplexFeatureStream D)) (o : mc) :
  length (MC.sources_ o) + length l <= MC.channelsN_ o ->
  MC.sources_ (set_inputs l o) = MC.sources_ o ++ l
  /\ MC.set_sources_ [] (set_inputs l o) = MC.set_sources_ [] o.
Proof.
  revert o. induction l as [|s l IH]; intros o Hlen; cbn [set_inputs fold_left].
  - rewrite app_nil_r. split; reflexivity.
  - cbn [length] in Hlen. unfold MC.set_input at 2 4.
    replace (length (MC.sources_ o) =? MC.channelsN_ o) with false
      by (symmetry; apply Nat.eqb_neq; lia).
    cbn [fst]. fold (set_inputs l (MC.set_sources_ (MC.sources_ o ++ [s]) o)).
    destruct (IH (MC.set_sources_ (MC.sources_ o ++ [s]) o)) as [E1 E2].
    { cbn [MC.sources_ MC.channelsN_ MC.set_sources_]. rewrite length_app. cbn. lia. }
    rewrite E1, E2. cbn [MC.sources_ MC.set_sources_].
    rewrite <- app_assoc. split; reflexivity.
Qed.

(** X15. The capacity of [set_input]. On an object without sources,
    registering up to [channelsN_] sources succeeds and leaves them in
    [sources_] in the order given, with nothing else changed; once
    [channelsN_] sources are registered, a further [set_input] throws the
    allocation error and changes nothing. *)
Theorem set_input_fills_channels_then_refuses
    (o : mc) (l : list (VectorComplexFeatureStream D)) (samples : VectorComplexFeatureStream D) :
  MC.sources_ o = [] ->
  length l <= MC.channelsN_ o ->
  MC.sources_ (set_inputs l o) = l
  /\ MC.set_sources_ [] (set_inputs l o) = MC.set_sources_ [] o
  /\ (length l = MC.channelsN_ o ->
      MC.set_input samples (set_inputs l o) = (set_inputs l o, Throw jallocation_error))
  /\ (length l < MC.channelsN_ o ->
      MC.set_input samples (set_inputs l o)
      = (MC.set_sources_ (l ++ [samples]) (set_inputs l o), Return tt)).
Proof.
  intros Hempty Hlen.
  destruct (set_inputs_sources l o) as [E1 E2]; [rewrite Hempty; cbn; lia |].
  rewrite Hempty in E1. cbn [app] in E1.
  assert (Ech : MC.channelsN_ (set_inputs l o) = MC.channelsN_ o)
    by exact (f_equal MC.channelsN_ E2).
  split; [exact E1 |]. split; [exact E2 |]. split.
  - intros Hfull. unfold MC.set_input. rewrite E1, Ech.
    replace (length l =? MC.channelsN_ o) with true by (symmetry; apply Nat.eqb_eq; exact Hfull).
    reflexivity.
  - intros Hroom. unfold MC.set_input. rewrite E1, Ech.
    replace (length l =? MC.channelsN_ o) with false by (symmetry; apply Nat.eqb_neq; lia).
    reflexivity.
Qed.

End Objects.

(** ** Resets *)

Section Resets.
Context {D : Type} `{DoubleOps D} `{LinAlgBackend D}.

Local Abbreviation sc := (SC.SingleChannelWPEDereverberationFeature D).
Local Abbreviation mc := (MC.MultiChannelWPEDereverberation D).

(** The loop of [next_speaker] over the first [n] predictors. *)
Lemma sc_zero_gn_fold (n : nat) (o : sc) :
  let o' :=
    fold_left
      (fun o n =>
         SC.set_gn_ (<[n := gsl_vector_complex_set_zero
                               (gsl_vector_complex_get_row (SC.gn_ o) n)]> (SC.gn_ o)) o)
      (seq 0 n) o in
  SC.set_gn_ [] o' = SC.set_gn_ [] o
  /\ length (SC.gn_ o') = length (SC.gn_ o)
  /\ (forall k g, k < n -> SC.gn_ o' !! k = Some g -> Forall (fun z => z = zero_) g)
  /\ (forall k, n <= k -> SC.gn_ o' !! k = SC.gn_ o !! k).
Proof.
  induction n as [|n IH]; cbv zeta in *.
  - cbn. split; [reflexivity |]. split; [reflexivity |].
    split; [intros k g Hk; lia | reflexivity].
  - rewrite fold_left_seq_snoc. destruct IH as (Ec & El & Hz & Hk).
    set (o1 := fold_left _ (seq 0 n) o) in *.
    cbn [SC.gn_ SC.set_gn_].
    split; [exact Ec |]. split; [rewrite length_insert; exact El |]. split.
    + intros k g Hlt Hg. destruct (decide (k = n)) as [->|Hne].
      * apply list_lookup_insert_Some in Hg as [(_ & <- & _) | (Hc & _)]; [| congruence].
        unfold gsl_vector_complex_set_zero. apply Forall_fmap, Forall_true. reflexivity.
      * rewrite list_lookup_insert_ne in Hg by congruence. apply (Hz k g); [lia | exact Hg].
    + intros k Hle. rewrite list_lookup_insert_ne by lia. apply Hk. lia.
Qed.

(** While the predictor is zero, a step that pulls a frame returns it at
    every subband up to [size()/2]. *)
Lemma sc_zero_predictor_streams_raw `{!ExactArith D} (o1 o2 : sc) :
  sc_zero_predictor o1 ->
  length (SC.vector_ o1) = SC.size o1 ->
  sc_after_nexts o1 o2 ->
  sc_zero_predictor o2
  /\ forall frame_no o3 v src block s,
       SC.next frame_no o2 = (o3, Return v) ->
       frame_no <> SC.frame_no_ o2 ->
       stream_next (SC.samples_ o2) = (src, Some block) ->
       s <= SC.size o1 / 2 -> s < SC.size o1 ->
       gsl_vector_complex_get v s = gsl_vector_complex_get block s.
Proof.
  intros Hz Hlen Hreach.
  assert (Inv : SC.gn_ o2 = SC.gn_ o1 /\ SC.size o2 = SC.size o1
                /\ length (SC.vector_ o2) = SC.size o2).
  { induction Hreach as [|o2 k Hreach IH].
    - auto.
    - destruct IH as (Ig & Is & Il).
      destruct (sc_next_keeps k o2 Il) as (Kg & Ks & Kl). cbv zeta in Kg, Ks, Kl.
      split; [congruence |]. split; [congruence | exact Kl]. }
  destruct Inv as (Ig & Is & Il).
  split; [unfold sc_zero_predictor; rewrite Ig; exact Hz |].
  intros frame_no o3 v src block s Hnext Hne Hsrc Hs HsN.
  destruct (sc_next_output o2 o3 frame_no v src block Hnext Hne Hsrc Il)
    as (_ & _ & _ & Hq & _).
  rewrite Is in Hq. destruct (Hq s Hs HsN) as (o'' & Hc & ->).
  apply sc_cur_zero_predictor.
  destruct (sc_config_fields _ _ Hc) as (_ & _ & _ & Eg & _).
  destruct (sc_pulled_fields src block o2) as (_ & _ & _ & _ & Eg' & _). cbv zeta in Eg'.
  unfold sc_zero_predictor. rewrite Eg, Eg', Ig. exact Hz.
Qed.

(** X16. [next_speaker] of the single-channel class rewinds the feature and
    clears the filter but keeps the [estimated_] flag: every predictor
    [gn_[n]] is all-zero afterwards, the counter is -1, the window is empty
    and the source is at its first frame; this holds for every arithmetic.
    So, in exact arithmetic, the feature keeps streaming without a new
    estimation, and every step that pulls a frame returns that frame
    unfiltered at every subband up to [size()/2]. *)
Theorem next_speaker_streams_unfiltered (o : sc) :
  length (SC.gn_ o) <= SC.size o ->
  length (SC.vector_ o) = SC.size o ->
  let o1 := SC.next_speaker o in
  sc_zero_predictor o1
  /\ SC.estimated_ o1 = SC.estimated_ o
  /\ SC.frame_no_ o1 = (-1)%Z
  /\ SC.yn_ o1 = []
  /\ SC.samples_ o1 = stream_reset (SC.samples_ o)
  /\ (ExactArith D ->
      forall o2, sc_after_nexts o1 o2 ->
        forall frame_no o3 v src block s,
          SC.next frame_no o2 = (o3, Return v) ->
          frame_no <> SC.frame_no_ o2 ->
          stream_next (SC.samples_ o2) = (src, Some block) ->
          s <= SC.size o / 2 -> s < SC.size o ->
          gsl_vector_complex_get v s = gsl_vector_complex_get block s).
Proof.
  intros Hgn Hlen. cbv zeta. unfold SC.next_speaker. cbv zeta.
  destruct (sc_zero_gn_fold (SC.size (SC.reset o)) (SC.reset o)) as (Ec & El & Hz & _).
  cbv zeta in Ec, El, Hz.
  set (o1 := fold_left _ (seq 0 (SC.size (SC.reset o))) (SC.reset o)) in *.
  assert (Hzero : sc_zero_predictor o1).
  { unfold sc_zero_predictor. apply Forall_lookup. intros k g Hg.
    apply (Hz k g); [| exact Hg].
    apply lookup_lt_Some in Hg. rewrite El in Hg. cbn in Hg. cbn. lia. }
  assert (Es : SC.size o1 = SC.size o) by exact (f_equal SC.size Ec).
  assert (Ev : SC.vector_ o1 = SC.vector_ o) by exact (f_equal SC.vector_ Ec).
  split; [exact Hzero |].
  split; [exact (f_equal SC.estimated_ Ec) |].
  split; [exact (f_equal SC.frame_no_ Ec) |].
  split; [exact (f_equal SC.yn_ Ec) |].
  split; [exact (f_equal SC.samples_ Ec) |].
  intros Hexact o2 Hreach frame_no o3 v src block s Hnext Hne Hsrc Hs HsN.
  destruct (sc_zero_predictor_streams_raw o1 o2 Hzero ltac:(congruence) Hreach) as [_ Hraw].
  apply (Hraw frame_no o3 v src block s Hnext Hne Hsrc); rewrite Es; assumption.
Qed.

(** A pull leaves the source what it was once rewound. *)
Lemma stream_next_reset (s src : VectorComplexFeatureStream D)
    (r : option (gsl_vector_complex D)) :
  stream_next s = (src, r) -> stream_reset src = stream_reset s.
Proof.
  unfold stream_next. destruct (stream_frames s !! stream_pos s); intros E;
    injection E as <- _; reflexivity.
Qed.

Lemma sc_reset_push_frame (block : gsl_vector_complex D) (o : sc) :
  SC.reset (SC.push_frame block o) = SC.reset o.
Proof. unfold SC.push_frame. destruct (_ <=? _); reflexivity. Qed.

(** [reset] undoes what a streaming step did, up to the two scratch vectors
    ([vector_] and [lag_samples_]). *)
Lemma sc_reset_next (frame_no : Z) (o : sc) :
  sc_config (SC.reset (SC.next frame_no o).1) = sc_config (SC.reset o).
Proof.
  destruct (sc_next_cases frame_no o)
    as [(_ & E) | [(_ & _ & E) | [(_ & _ & _ & _ & E) | (_ & _ & _ & Hpull)]]];
    try (rewrite E; reflexivity).
  destruct Hpull as [(src & Hs & E) | (src & block & Hs & E)]; rewrite E; cbv zeta; cbn [fst].
  - unfold SC.reset. cbn [SC.samples_ SC.set_is_end_ SC.set_samples_ SC.increment_
                          SC.set_frame_no_].
    rewrite (stream_next_reset _ _ _ Hs). reflexivity.
  - pose proof (sc_loop_config block (S (SC.size o / 2)) (sc_pulled src block o)) as Hc.
    change (sc_config (SC.reset (sc_loop block (S (SC.size o / 2)) (sc_pulled src block o))))
      with (SC.reset (sc_config (sc_loop block (S (SC.size o / 2)) (sc_pulled src block o)))).
    rewrite Hc.
    change (SC.reset (sc_config (sc_pulled src block o)))
      with (sc_config (SC.reset (sc_pulled src block o))).
    unfold sc_pulled. rewrite sc_reset_push_frame.
    unfold SC.reset. cbn [SC.samples_ SC.set_samples_ SC.increment_ SC.set_frame_no_].
    rewrite (stream_next_reset _ _ _ Hs). reflexivity.
Qed.

(** X17. [reset] brings a feature back to where its streaming started. Take
    a feature as [estimate_filter] leaves a fresh object: the window empty,
    the source at its first frame, the counter -1 and [is_end_] false. After
    any number of [next] calls, whatever their indices and outcomes,
    [reset] gives that feature again, with the same filter, up to the
    contents of the two scratch vectors [vector_] and [lag_samples_]. *)
Theorem reset_returns_to_start_of_stream (o1 o2 : sc) :
  SC.yn_ o1 = [] ->
  stream_pos (SC.samples_ o1) = 0 ->
  SC.frame_no_ o1 = (-1)%Z ->
  SC.is_end_ o1 = false ->
  sc_after_nexts o1 o2 ->
  sc_config (SC.reset o2) = sc_config o1.
Proof.
  intros Hy Hp Hf He Hreach.
  assert (E : sc_config (SC.reset o2) = sc_config (SC.reset o1)).
  { induction Hreach as [|o2 k Hreach IH]; [reflexivity |].
    rewrite sc_reset_next. exact IH. }
  rewrite E. destruct o1 as [sz v fr ie [ssz sf sp] lo up pr it es fn lf lb ub th gn R r lag yn].
  cbn in Hy, Hp, Hf, He. subst. reflexivity.
Qed.

End Resets.

(** ** The band limits *)

(** The conversions between [double] and [unsigned] and the remaining
    operations of [set_band_width_]. *)
Class DoubleConv (D : Type) := {
  d2 : D;                        (* the literal 2.0 *)
  deqb : D -> D -> bool;         (* x == y *)
  d_of_unsigned : nat -> D;      (* an unsigned operand converted to double *)
  unsigned_of_d : D -> nat       (* unsigned(x), for 0 <= x < 2^32: truncation *)
}.

(** What [set_band_width_] gives: the lower band limit, or the dimension
    error with its two arguments. *)
Inductive band_width (D : Type) : Type :=
| BandWidth (n : nat)
| jdimension_error (bandWidth nyquist : D).
Arguments BandWidth {D} n.
Arguments jdimension_error {D} bandWidth nyquist.

Section BandWidth.
Context {D : Type} `{DoubleOps D} `{DoubleConv D} `{LinAlgBackend D}.

Local Abbreviation sc := (SC.SingleChannelWPEDereverberationFeature D).
Local Abbreviation mc := (MC.MultiChannelWPEDereverberation D).

(** [set_band_width_(bandWidth, sampleRate)], the same in both classes;
    [size] is [size()]. *)
Definition set_band_width_ (size : nat) (bandWidth sampleRate : D) : band_width D :=
  if deqb bandWidth d0 then BandWidth (size / 2)
  else if dltb (ddiv sampleRate d2) bandWidth then
    jdimension_error bandWidth (ddiv sampleRate d2)
  else
    BandWidth (unsigned_of_d (dmul (ddiv bandWidth (ddiv sampleRate d2))
                                   (d_of_unsigned (size / 2)))).

(** The constructors with their band-width arguments; [load_factor] still
    stands for [pow(10.0, loadDb / 10.0)]. *)
Definition sc_construct (samples : VectorComplexFeatureStream D)
    (lowerN upperN iterationsN : nat) (load_factor bandWidth sampleRate : D)
  : sc + D * D :=
  match set_band_width_ (stream_size samples) bandWidth sampleRate with
  | BandWidth n => inl (SC.create samples lowerN upperN iterationsN load_factor n)
  | jdimension_error b n => inr (b, n)
  end.

Definition mc_construct (subbandsN channelsN lowerN upperN iterationsN : nat)
    (load_factor bandWidth diagonal_bias sampleRate : D) (Gn0 : gsl_vector_complex D)
  : mc + D * D :=
  match set_band_width_ subbandsN bandWidth sampleRate with
  | BandWidth n =>
      inl (MC.create subbandsN channelsN lowerN upperN iterationsN load_factor n
                     diagonal_bias Gn0)
  | jdimension_error b n => inr (b, n)
  end.

(** X18. The band width 0.0 selects every subband, whatever the sample rate
    is: the objects are constructed with the lower band limit [size()/2] and
    the upper limit [size() - size()/2], so that no subband lies strictly
    between the limits (none is skipped by the estimation) and every subband
    up to [size()/2] is at or below the lower limit (the streaming step
    filters it). A band width other than 0.0 and above half the sample rate
    makes both constructors fail with the dimension error. *)
Theorem zero_band_width_selects_every_subband
    (samples : VectorComplexFeatureStream D) (subbandsN channelsN lowerN upperN iterationsN : nat)
    (load_factor bandWidth diagonal_bias sampleRate : D) (Gn0 : gsl_vector_complex D) :
  (Z.of_nat (stream_size samples) < 2 ^ 32)%Z ->
  (Z.of_nat subbandsN < 2 ^ 32)%Z ->
  (deqb bandWidth d0 = true ->
   (exists o, sc_construct samples lowerN upperN iterationsN load_factor bandWidth sampleRate
              = inl o
              /\ SC.lower_bandWidthN_ o = SC.size o / 2
              /\ SC.upper_bandWidthN_ o = SC.size o - SC.size o / 2
              /\ forall s, (SC.lower_bandWidthN_ o <? s) && (s <? SC.upper_bandWidthN_ o) = false)
   /\ (exists m, mc_construct subbandsN channelsN lowerN upperN iterationsN load_factor
                              bandWidth diagonal_bias sampleRate Gn0 = inl m
                 /\ MC.lower_bandWidthN_ m = MC.size m / 2
                 /\ MC.upper_bandWidthN_ m = MC.size m - MC.size m / 2
                 /\ forall s, (MC.lower_bandWidthN_ m <? s) && (s <? MC.upper_bandWidthN_ m)
                              = false))
  /\ (deqb bandWidth d0 = false -> dltb (ddiv sampleRate d2) bandWidth = true ->
      sc_construct samples lowerN upperN iterationsN load_factor bandWidth sampleRate
      = inr (bandWidth, ddiv sampleRate d2)
      /\ mc_construct subbandsN channelsN lowerN upperN iterationsN load_factor
                      bandWidth diagonal_bias sampleRate Gn0
         = inr (bandWidth, ddiv sampleRate d2)).
Proof.
  intros Hsz Hsb.
  assert (Hu : forall N, (Z.of_nat N < 2 ^ 32)%Z ->
                 u32 (Z.of_nat N - Z.of_nat (N / 2)) = N - N / 2).
  { intros N HN. pose proof (half_bounds N). unfold u32, uint32.
    rewrite Z.mod_small by lia. lia. }
  assert (Hnone : forall N s, (N / 2 <? s) && (s <? N - N / 2) = false).
  { intros N s. pose proof (half_bounds N).
    destruct (Nat.ltb_spec (N / 2) s); [| reflexivity].
    cbn [andb]. apply Nat.ltb_ge. lia. }
  split.
  - intros Hzero. unfold sc_construct, mc_construct, set_band_width_. rewrite Hzero. split.
    + eexists. split; [reflexivity |].
      cbn [SC.create SC.lower_bandWidthN_ SC.upper_bandWidthN_ SC.size].
      rewrite (Hu _ Hsz). split; [reflexivity |]. split; [reflexivity |]. apply Hnone.
    + eexists. split; [reflexivity |]. unfold MC.size.
      cbn [MC.create MC.lower_bandWidthN_ MC.upper_bandWidthN_ MC.subbandsN_].
      rewrite (Hu _ Hsb). split; [reflexivity |]. split; [reflexivity |]. apply Hnone.
  - intros Hnz Habove. unfold sc_construct, mc_construct, set_band_width_.
    rewrite Hnz, Habove. split; reflexivity.
Qed.

End BandWidth.

(** The conversions of IEEE doubles. [unsigned_of_d] truncates a finite
    positive double; the conversion of anything else but a zero is outside
    what C++ defines and gives 0 here. *)
Definition float_conv : DoubleConv float := {|
  d2 := 2%float;
  deqb := PrimFloat.eqb;
  d_of_unsigned := fun n => PrimFloat.of_uint63 (Uint63.of_Z (Z.of_nat n));
  unsigned_of_d := fun x =>
    match FloatOps.Prim2SF x with
    | SpecFloat.S754_finite false m e => Z.to_nat (uint32 (Z.shiftl (Zpos m) e))
    | _ => 0
    end
|}.

(** The conversions of real numbers: the integer part. *)
Definition R_conv : DoubleConv R := {|
  d2 := 2%R;
  deqb := fun x y => if Req_dec_T x y then true else false;
  d_of_unsigned := INR;
  unsigned_of_d := fun x => Z.to_nat (Int_part x)
|}.

Lemma Int_part_le_nat (x : R) (k : nat) : (0 <= x <= INR k)%R -> Z.to_nat (Int_part x) <= k.
Proof.
  intros [H0 Hk]. unfold Int_part.
  destruct (archimed x) as [Hup Hdn].
  assert (Hle : (up x <= Z.of_nat k + 1)%Z).
  { apply le_IZR. rewrite plus_IZR, <- INR_IZR_INZ. cbn. lra. }
  lia.
Qed.

(** X19. In real arithmetic, a band width above 0 and up to half the
    sample rate gives a lower band limit of at most [size()/2], so the upper
    limit [size() - lower] does not wrap around and is not below the lower
    one; the band the estimation skips is then symmetric: [s] lies strictly
    between the limits exactly when [size() - s] does. *)
Theorem band_limits_are_symmetric (size : nat) (bandWidth sampleRate : R) (s : nat) :
  (0 < bandWidth <= sampleRate / 2)%R ->
  (Z.of_nat size < 2 ^ 32)%Z ->
  s <= size ->
  exists lower,
    set_band_width_ (H := R_ops) (H0 := R_conv) size bandWidth sampleRate = BandWidth lower
    /\ lower <= size / 2
    /\ u32 (Z.of_nat size - Z.of_nat lower) = size - lower
    /\ lower <= size - lower
    /\ ((lower <? s) && (s <? size - lower)
        = (lower <? size - s) && (size - s <? size - lower)).
Proof.
  intros [Hpos Hny] Hsz Hs. unfold set_band_width_. cbn [deqb dltb ddiv dmul d0 d2
    d_of_unsigned unsigned_of_d R_ops R_conv].
  destruct (Req_dec_T bandWidth 0) as [E|_]; [lra |].
  destruct (Rlt_dec (sampleRate / 2) bandWidth) as [Hlt|_]; [lra |].
  eexists. split; [reflexivity |].
  set (lower := Z.to_nat (Int_part (bandWidth / (sampleRate / 2) * INR (size / 2)))).
  assert (Hlow : lower <= size / 2).
  { apply Int_part_le_nat.
    pose proof (pos_INR (size / 2)) as Hk.
    assert (Hr : (0 < bandWidth / (sampleRate / 2) <= 1)%R).
    { split.
      - apply Rdiv_lt_0_compat; lra.
      - unfold Rdiv at 1. apply (Rmult_le_reg_r (sampleRate / 2)); [lra |].
        rewrite Rmult_assoc, Rinv_l by lra. lra. }
    split; [apply Rmult_le_pos; lra |].
    rewrite <- (Rmult_1_l (INR (size / 2))) at 2.
    apply Rmult_le_compat_r; lra. }
  pose proof (half_bounds size) as Hh.
  split; [exact Hlow |].
  split; [unfold u32, uint32; rewrite Z.mod_small by lia; lia |].
  split; [lia |].
  destruct (Nat.ltb_spec lower s), (Nat.ltb_spec s (size - lower)),
    (Nat.ltb_spec lower (size - s)), (Nat.ltb_spec (size - s) (size - lower));
    cbn [andb]; try reflexivity; lia.
Qed.

(** ** The buffering of the multi-channel class *)

Section JointBuffer.
Context {D : Type} `{DoubleOps D} `{LinAlgBackend D}.

Local Abbreviation mc := (MC.MultiChannelWPEDereverberation D).
Local Abbreviation stream := (VectorComplexFeatureStream D).

Lemma stream_remaining_advance (n : nat) (s : stream) :
  stream_remaining (stream_advance n s) = drop n (stream_remaining s).
Proof.
  unfold stream_remaining, stream_advance. cbn [stream_pos stream_frames].
  rewrite drop_drop. reflexivity.
Qed.

Lemma stream_advance_advance (n k : nat) (s : stream) :
  stream_advance n (stream_advance k s) = stream_advance (k + n) s.
Proof. unfold stream_advance. cbn. f_equal. lia. Qed.

(** The frame a channel contributes to the brace pulled [k] braces from
    now. *)
Definition brace_frame (l : list stream) (k c : nat) : gsl_vector_complex D :=
  default [] (l !! c ≫= fun s => stream_remaining s !! k).

Definition brace_at (l : list stream) (C k : nat) : list (gsl_vector_complex D) :=
  (fun c => brace_frame l k c) <$> seq 0 C.

(** The sources when the first [C] of them have handed out [k] frames. *)
Definition sources_advanced (C k : nat) (l l' : list stream) : Prop :=
  length l' = length l
  /\ forall c, l' !! c = (fun s => if c <? C then stream_advance k s else s) <$> (l !! c).

(** Pulling a brace when every channel of [l] has a frame. *)
Lemma pull_brace_total (l : list nat) (brace : list (gsl_vector_complex D)) (o : mc) :
  NoDup l ->
  (forall c, c ∈ l -> c < length brace
                      /\ exists s f rest, MC.sources_ o !! c = Some s
                                          /\ stream_remaining s = f :: rest) ->
  exists o' fbrace,
    MC.pull_brace l brace o = (o', Some fbrace)
    /\ length fbrace = length brace
    /\ length (MC.sources_ o') = length (MC.sources_ o)
    /\ (forall c, c ∈ l ->
          exists s, MC.sources_ o !! c = Some s
                    /\ MC.sources_ o' !! c = Some (stream_advance 1 s)
                    /\ fbrace !! c = head (stream_remaining s))
    /\ (forall c, c ∉ l -> MC.sources_ o' !! c = MC.sources_ o !! c
                           /\ fbrace !! c = brace !! c).
Proof.
  revert brace o. induction l as [|c l IH]; intros brace o Hnd Hl; simpl.
  - exists o, brace. split; [reflexivity |]. split; [reflexivity |]. split; [reflexivity |].
    split; [intros c Hc; inversion Hc | intros c _; split; reflexivity].
  - apply NoDup_cons in Hnd as [Hc Hnd].
    destruct (Hl c ltac:(left)) as (Hcb & s & f & rest & Hs & Hrem).
    rewrite Hs. pose proof (stream_next_remaining s) as Hn. rewrite Hrem in Hn.
    destruct Hn as [Hn _]. rewrite Hn.
    set (o1 := MC.set_sources_ (<[c := stream_advance 1 s]> (MC.sources_ o)) o).
    destruct (IH (<[c := f]> brace) o1 Hnd) as (o' & fbrace & Hp & Hlb & Hls & Hin & Hout).
    { intros c' Hc'. destruct (Hl c' ltac:(right; exact Hc')) as (Hcb' & s' & f' & r' & Hs' & Hr').
      split; [rewrite length_insert; exact Hcb' |].
      exists s', f', r'. split; [| exact Hr'].
      unfold o1. cbn [MC.sources_ MC.set_sources_].
      rewrite list_lookup_insert_ne; [exact Hs' |]. intros ->. contradiction. }
    exists o', fbrace. split; [exact Hp |].
    split; [rewrite Hlb, length_insert; reflexivity |].
    split; [rewrite Hls; unfold o1; cbn [MC.sources_ MC.set_sources_];
            apply length_insert |].
    assert (Hcs : c < length (MC.sources_ o)) by (apply lookup_lt_Some in Hs; exact Hs).
    split.
    + intros c' Hc'. apply elem_of_cons in Hc' as [->|Hc'].
      * exists s. split; [exact Hs |]. destruct (Hout c Hc) as [E1 E2].
        rewrite E1, E2. unfold o1. cbn [MC.sources_ MC.set_sources_].
        rewrite !list_lookup_insert_eq by assumption. rewrite Hrem. split; reflexivity.
      * destruct (Hin c' Hc') as (s' & E1 & E2 & E3).
        exists s'. split; [| split; assumption].
        unfold o1 in E1. cbn [MC.sources_ MC.set_sources_] in E1.
        rewrite list_lookup_insert_ne in E1; [exact E1 |]. intros ->. contradiction.
    + intros c' Hc'. rewrite not_elem_of_cons in Hc'. destruct Hc' as [Hne Hc'].
      destruct (Hout c' Hc') as [E1 E2]. rewrite E1, E2.
      unfold o1. cbn [MC.sources_ MC.set_sources_].
      rewrite !list_lookup_insert_ne by congruence. split; reflexivity.
Qed.

(** One brace pulled for the channels [0 .. C-1]. *)
Lemma pull_brace_all (o : mc) :
  let C := MC.channelsN_ o in
  C <= length (MC.sources_ o) ->
  (forall c s, c < C -> MC.sources_ o !! c = Some s -> stream_remaining s <> []) ->
  exists o',
    MC.pull_brace (seq 0 C) (replicate C []) o = (o', Some (brace_at (MC.sources_ o) C 0))
    /\ sources_advanced C 1 (MC.sources_ o) (MC.sources_ o')
    /\ MC.set_sources_ [] o' = MC.set_sources_ [] o.
Proof.
  cbv zeta. intros HC Hrem.
  destruct (pull_brace_total (seq 0 (MC.channelsN_ o)) (replicate (MC.channelsN_ o) []) o)
    as (o' & fbrace & Hp & Hlb & Hls & Hin & Hout).
  { apply NoDup_seq. }
  { intros c Hc. apply elem_of_seq in Hc. rewrite length_replicate. split; [lia |].
    destruct (lookup_lt_is_Some_2 (MC.sources_ o) c ltac:(lia)) as [s Hs].
    specialize (Hrem c s ltac:(lia) Hs).
    destruct (stream_remaining s) as [|f rest] eqn:E; [contradiction |].
    exists s, f, rest. split; [exact Hs | exact E]. }
  exists o'.
  assert (Hb : fbrace = brace_at (MC.sources_ o) (MC.channelsN_ o) 0).
  { apply list_eq. intros c. unfold brace_at. rewrite list_lookup_fmap.
    destruct (decide (c < MC.channelsN_ o)) as [Hc|Hc].
    - destruct (Hin c ltac:(apply elem_of_seq; lia)) as (s & E1 & _ & E3).
      rewrite E3, lookup_seq_lt by exact Hc. cbn. unfold brace_frame. rewrite E1. cbn.
      destruct (stream_remaining s) as [|f rest] eqn:E.
      + exfalso. exact (Hrem c s Hc E1 E).
      + reflexivity.
    - rewrite lookup_seq_ge by lia. cbn. apply lookup_ge_None. rewrite Hlb, length_replicate. lia. }
  split; [rewrite Hp, Hb; reflexivity |]. split.
  - split; [exact Hls |]. intros c.
    destruct (Nat.ltb_spec c (MC.channelsN_ o)) as [Hc|Hc].
    + destruct (Hin c ltac:(apply elem_of_seq; lia)) as (s & E1 & E2 & _).
      rewrite E1, E2. reflexivity.
    + destruct (Hout c) as [E1 _]; [rewrite elem_of_seq; lia |].
      rewrite E1. destruct (MC.sources_ o !! c); reflexivity.
  - pose proof (mc_pull_brace_sources (seq 0 (MC.channelsN_ o))
                  (replicate (MC.channelsN_ o) []) o) as Hw.
    rewrite Hp in Hw. exact Hw.
Qed.

Lemma brace_at_advanced (C k n : nat) (l l' : list stream) :
  sources_advanced C k l l' -> C <= length l ->
  brace_at l' C n = brace_at l C (k + n).
Proof.
  intros [Hlen Hl] HC. unfold brace_at. apply list_fmap_ext. intros i c Hc.
  apply lookup_seq in Hc as [-> Hc]. cbn [Nat.add]. unfold brace_frame. rewrite Hl.
  replace (i <? C) with true by (symmetry; apply Nat.ltb_lt; exact Hc).
  destruct (l !! i) as [s|]; cbn [fmap option_fmap option_map mbind option_bind];
    [| reflexivity].
  rewrite stream_remaining_advance, lookup_drop. reflexivity.
Qed.

Lemma sources_advanced_trans (C k n : nat) (l l1 l2 : list stream) :
  sources_advanced C k l l1 -> sources_advanced C n l1 l2 -> sources_advanced C (k + n) l l2.
Proof.
  intros [L1 H1] [L2 H2]. split; [congruence |]. intros c. rewrite H2, H1.
  destruct (c <? C); destruct (l !! c) as [s|];
    cbn [fmap option_fmap option_map]; try reflexivity.
  rewrite stream_advance_advance. reflexivity.
Qed.

Lemma sources_advanced_0 (C : nat) (l : list stream) : sources_advanced C 0 l l.
Proof.
  split; [reflexivity |]. intros c.
  destruct (c <? C); destruct (l !! c) as [s|];
    cbn [fmap option_fmap option_map]; try reflexivity.
  rewrite stream_advance_0. reflexivity.
Qed.

(** The loop of the multi-channel [fill_buffer_] once its counter has
    reached [start_frame_no], while every channel has frames left. *)
Lemma mc_fill_loop_pulls (n fuel : nat) (start_frame_no end_frame_no frX : Z) (o : mc) :
  let C := MC.channelsN_ o in
  (frX + Z.of_nat n = end_frame_no)%Z ->
  (0 <= frX)%Z -> (start_frame_no <= frX)%Z ->
  n < fuel ->
  C <= length (MC.sources_ o) ->
  (forall c s, c < C -> MC.sources_ o !! c = Some s -> n <= length (stream_remaining s)) ->
  exists o',
    MC.fill_loop fuel start_frame_no end_frame_no frX o = Some o'
    /\ MC.frames_ o' = MC.frames_ o ++ ((fun k => brace_at (MC.sources_ o) C k) <$> seq 0 n)
    /\ sources_advanced C n (MC.sources_ o) (MC.sources_ o')
    /\ MC.set_sources_ [] (MC.set_frames_ [] o') = MC.set_sources_ [] (MC.set_frames_ [] o).
Proof.
  cbv zeta. revert fuel frX o.
  induction n as [|n IH]; intros fuel frX o Hend Hfr Hst Hfuel HC Hrem;
    (destruct fuel as [|fuel]; [lia |]); cbn [MC.fill_loop].
  - replace ((0 <=? end_frame_no)%Z && (end_frame_no <=? frX)%Z) with true
      by (symmetry; apply andb_true_iff; split; apply Z.leb_le; lia).
    exists o. split; [reflexivity |]. cbn [seq fmap list_fmap]. rewrite app_nil_r.
    split; [reflexivity |]. split; [apply sources_advanced_0 | reflexivity].
  - replace ((0 <=? end_frame_no)%Z && (end_frame_no <=? frX)%Z) with false
      by (symmetry; apply andb_false_iff; right; apply Z.leb_gt; lia).
    replace (start_frame_no <=? frX)%Z with true by (symmetry; apply Z.leb_le; exact Hst).
    destruct (pull_brace_all o HC) as (o1 & Hp & Hadv & Hw).
    { intros c s Hc Hs E. specialize (Hrem c s Hc Hs). rewrite E in Hrem. cbn in Hrem. lia. }
    rewrite Hp.
    assert (Ech : MC.channelsN_ o1 = MC.channelsN_ o) by exact (f_equal MC.channelsN_ Hw).
    assert (Efr : MC.frames_ o1 = MC.frames_ o) by exact (f_equal MC.frames_ Hw).
    set (b0 := brace_at (MC.sources_ o) (MC.channelsN_ o) 0) in *.
    destruct (IH fuel (frX + 1)%Z (MC.set_frames_ (MC.frames_ o1 ++ [b0]) o1))
      as (o' & Hf & Hfrm & Hadv' & Hw'); try lia.
    { cbn [MC.channelsN_ MC.sources_ MC.set_frames_]. rewrite Ech.
      destruct Hadv as [-> _]. exact HC. }
    { cbn [MC.channelsN_ MC.sources_ MC.set_frames_]. rewrite Ech. intros c s Hc Hs.
      destruct Hadv as [_ Hadv]. rewrite Hadv in Hs.
      replace (c <? MC.channelsN_ o) with true in Hs
        by (symmetry; apply Nat.ltb_lt; exact Hc).
      destruct (MC.sources_ o !! c) as [s0|] eqn:Hs0; [| discriminate].
      cbn [fmap option_fmap option_map] in Hs.
      injection Hs as <-. rewrite stream_remaining_advance, length_drop.
      specialize (Hrem c s0 Hc Hs0). lia. }
    cbn [MC.channelsN_ MC.sources_ MC.frames_ MC.set_frames_] in Hfrm, Hadv', Hw'.
    rewrite Ech in Hfrm, Hadv'.
    exists o'. split; [exact Hf |]. split; [| split].
    + rewrite Hfrm, Efr, <- app_assoc. f_equal.
      change (seq 0 (S n)) with (0 :: seq 1 n). rewrite <- fmap_S_seq.
      cbn [fmap list_fmap app]. f_equal. rewrite <- list_fmap_compose.
      apply list_fmap_ext. intros i k _. cbn.
      apply (brace_at_advanced _ 1 k _ _ Hadv HC).
    + replace (S n) with (1 + n) by lia.
      exact (sources_advanced_trans _ _ _ _ _ _ Hadv Hadv').
    + rewrite Hw'. cbn [MC.set_frames_].
      exact (f_equal (MC.set_frames_ []) Hw).
Qed.

Lemma mc_fill_loop_skips (k fuel : nat) (start_frame_no end_frame_no frX : Z) (o : mc) :
  (frX + Z.of_nat k = start_frame_no)%Z -> (start_frame_no <= end_frame_no)%Z ->
  MC.fill_loop (k + fuel) start_frame_no end_frame_no frX o
  = MC.fill_loop fuel start_frame_no end_frame_no start_frame_no o.
Proof.
  revert frX. induction k as [|k IH]; intros frX Hk Hse.
  - cbn [Nat.add]. replace frX with start_frame_no by lia. reflexivity.
  - cbn [Nat.add MC.fill_loop].
    replace ((0 <=? end_frame_no)%Z && (end_frame_no <=? frX)%Z) with false
      by (symmetry; apply andb_false_iff; right; apply Z.leb_gt; lia).
    replace (start_frame_no <=? frX)%Z with false by (symmetry; apply Z.leb_gt; lia).
    apply IH; lia.
Qed.

(** X20. What [fill_buffer_] of the multi-channel class buffers when every
    channel has a source with enough frames: for [0 <= start_frame_no <=
    end_frame_no] it appends [end_frame_no - start_frame_no] braces to the
    batch buffer, the brace [k] holding, for every channel, the frame its
    source hands out [k] pulls from now; every source of a channel is
    advanced by that many frames and [framesN_] is the length of the buffer.
    The frames are the next ones of the sources, whatever
    [start_frame_no] is: no frame is skipped before it. *)
Theorem joint_fill_buffer_appends_next_braces (o : mc) (start_frame_no end_frame_no : Z) :
  (0 <= start_frame_no <= end_frame_no)%Z ->
  MC.channelsN_ o <= length (MC.sources_ o) ->
  (forall c s, c < MC.channelsN_ o -> MC.sources_ o !! c = Some s ->
               Z.to_nat (end_frame_no - start_frame_no) <= length (stream_remaining s)) ->
  let n := Z.to_nat (end_frame_no - start_frame_no) in
  let o' := MC.fill_buffer_ start_frame_no end_frame_no o in
  MC.frames_ o'
  = MC.frames_ o ++ ((fun k => brace_at (MC.sources_ o) (MC.channelsN_ o) k) <$> seq 0 n)
  /\ MC.framesN_ o' = length (MC.frames_ o) + n
  /\ sources_advanced (MC.channelsN_ o) n (MC.sources_ o) (MC.sources_ o').
Proof.
  intros Hse HC Hrem. cbv zeta. unfold MC.fill_buffer_, MC.fill_fuel. cbv zeta.
  replace (0 <=? end_frame_no)%Z with true by (symmetry; apply Z.leb_le; lia).
  replace (S (Z.to_nat end_frame_no))
    with (Z.to_nat start_frame_no + S (Z.to_nat (end_frame_no - start_frame_no))) by lia.
  rewrite (mc_fill_loop_skips (Z.to_nat start_frame_no)) by lia.
  destruct (mc_fill_loop_pulls (Z.to_nat (end_frame_no - start_frame_no))
              (S (Z.to_nat (end_frame_no - start_frame_no)))
              start_frame_no end_frame_no start_frame_no o)
    as (o1 & Hf & Hfr & Hadv & _); try lia; try assumption.
  rewrite Hf. cbv [default from_option Datatypes.id].
  set (o2 := MC.set_framesN_ (length (MC.frames_ o1)) o1).
  destruct (mc_alloc_thetan_fold (MC.channelsN_ o2) o2) as (Ec & _). cbv zeta in Ec.
  set (o3 := fold_left _ (seq 0 (MC.channelsN_ o2)) o2) in *.
  rewrite (f_equal MC.frames_ Ec : MC.frames_ o3 = MC.frames_ o2).
  rewrite (f_equal MC.framesN_ Ec : MC.framesN_ o3 = MC.framesN_ o2).
  rewrite (f_equal MC.sources_ Ec : MC.sources_ o3 = MC.sources_ o2).
  unfold o2. cbn [MC.frames_ MC.framesN_ MC.sources_ MC.set_framesN_].
  split; [exact Hfr |]. split; [| exact Hadv].
  rewrite Hfr, length_app, length_fmap, length_seq. reflexivity.
Qed.

End JointBuffer.

(** ** The value of the power estimate *)

Section PowerValue.
Context {D : Type} `{DoubleOps D} `{LinAlgBackend D}.

Local Abbreviation sc := (SC.SingleChannelWPEDereverberationFeature D).
Local Abbreviation mc := (MC.MultiChannelWPEDereverberation D).

Lemma matrix_get_set_same (m : gsl_matrix D) (i j : nat) (x : D) :
  is_Some (entry m i j) -> gsl_matrix_get (gsl_matrix_set m i j x) i j = x.
Proof.
  intros Hsome. rewrite gsl_matrix_get_entry.
  unfold gsl_matrix_set. fold (matrix_set m i j x).
  rewrite entry_set_eq by exact Hsome. reflexivity.
Qed.

Lemma matrix_get_set_value (m : gsl_matrix D) (i j i' j' : nat) (x v : D) :
  (i = i' -> j = j' -> x = v) ->
  gsl_matrix_get m i' j' = v ->
  gsl_matrix_get (gsl_matrix_set m i j x) i' j' = v.
Proof.
  intros Hx Hm. rewrite gsl_matrix_get_entry in *.
  unfold gsl_matrix_set. fold (matrix_set m i j x).
  destruct (decide (i = i' /\ j = j')) as [[Ei Ej]|Hne].
  - specialize (Hx Ei Ej). subst i' j'.
    destruct (entry m i j) as [y|] eqn:Hy.
    + rewrite entry_set_eq by (rewrite Hy; eexists; reflexivity). exact Hx.
    + assert (E : entry (matrix_set m i j x) i j = None).
      { destruct (entry (matrix_set m i j x) i j) eqn:E; [| reflexivity].
        assert (Hs : is_Some (entry m i j))
          by (apply (entry_set_is_Some m i j i j x); rewrite E; eexists; reflexivity).
        rewrite Hy in Hs. destruct Hs; discriminate. }
      rewrite E. exact Hm.
  - rewrite entry_set_ne; [exact Hm |].
    destruct (decide (i = i')); [right; intros ->; apply Hne; auto | left; assumption].
Qed.

(** [visit_fold] for a pass whose visits are only known to behave at the
    keys of the list. *)
Lemma visit_fold_in {S K : Type} (rel : S -> S -> Prop) (ok : K -> Prop)
    (good : K -> S -> Prop) (f : K -> S -> S) (l : list K) (s0 s : S) :
  (forall s, rel s s) ->
  (forall s1 s2 s3, rel s1 s2 -> rel s2 s3 -> rel s1 s3) ->
  (forall k s s', rel s s' -> good k s -> good k s') ->
  rel s0 s ->
  (forall k s, k ∈ l -> rel s0 s -> rel s (f k s) /\ (ok k -> good k (f k s))) ->
  let s' := fold_left (fun s k => f k s) l s in
  rel s s' /\ forall k, k ∈ l -> ok k -> good k s'.
Proof.
  intros rel_refl rel_trans good_mono Hs Hf. revert s Hs.
  induction l as [|k0 l IH]; intros s Hs; cbv zeta.
  - split; [apply rel_refl |]. intros k Hk. inversion Hk.
  - cbn [fold_left]. destruct (Hf k0 s (list_elem_of_here _ _) Hs) as [Hr Hg].
    destruct (IH (fun k s Hk => Hf k s (list_elem_of_further _ _ _ Hk)) (f k0 s))
      as [Hr' Hg']; [eapply rel_trans; eassumption |].
    cbv zeta in Hr', Hg'. split; [eapply rel_trans; eassumption |].
    intros k Hk Hok. apply elem_of_cons in Hk as [->|Hk].
    + eapply good_mono; [exact Hr' | apply Hg, Hok].
    + apply Hg'; assumption.
Qed.

Lemma zip_seq_lookup {X : Type} (l : list X) (k : nat) (x : X) :
  (k, x) ∈ zip (seq 0 (length l)) l -> l !! k = Some x.
Proof.
  intros Hin. apply list_elem_of_lookup in Hin as [i Hi]. rewrite lookup_zip_with in Hi.
  destruct (seq 0 (length l) !! i) as [k'|] eqn:Hk'; [| discriminate].
  cbn in Hi. destruct (l !! i) as [y|] eqn:Hy; [| discriminate].
  cbn in Hi. apply lookup_seq in Hk' as [-> _]. injection Hi as <- <-. exact Hy.
Qed.

(** The lag vector [get_lags_] computes, as a function of the buffer. *)
Definition sc_lags (o : sc) (subbandX : nat) (sampleX : Z) : gsl_vector_complex D :=
  (fun lagX => sc_lag o subbandX sampleX lagX) <$> seq 0 (SC.predictionN_ o).

Lemma sc_get_lags_exact (o : sc) (subbandX : nat) (sampleX : Z) :
  length (SC.lag_samples_ o) = SC.predictionN_ o ->
  SC.lag_samples_ (SC.get_lags_ subbandX sampleX o) = sc_lags o subbandX sampleX.
Proof.
  intros Hlen. rewrite sc_get_lags_fold.
  destruct (fold_insert_spec (sc_lag o subbandX sampleX) (SC.predictionN_ o)
              (SC.lag_samples_ o)) as (Hl & Hin & _).
  cbv zeta in Hl, Hin. apply list_eq. intros k. unfold sc_lags.
  rewrite list_lookup_fmap.
  destruct (decide (k < SC.predictionN_ o)) as [Hk|Hk].
  - rewrite Hin by lia. rewrite lookup_seq_lt by exact Hk. reflexivity.
  - rewrite lookup_seq_ge by lia. apply lookup_ge_None. rewrite Hl. lia.
Qed.

(** The residual of the buffered frame [sampleX] at a subband: the observed
    value, minus the prediction from the frames [lowerN_] and more back once
    there are that many. *)
Definition sc_residual (o : sc) (sampleX subbandX : nat) : gsl_complex D :=
  let current :=
    gsl_vector_complex_get (gsl_vector_complex_get_row (SC.yn_ o) sampleX) subbandX in
  if SC.lowerN_ o <=? sampleX then
    gsl_complex_sub current
      (gsl_blas_zdotc (gsl_vector_complex_get_row (SC.gn_ o) subbandX)
         (sc_lags o subbandX (uint32 (Z.of_nat sampleX - Z.of_nat (SC.lowerN_ o)))))
  else current.

(** The power value of a position: the floored magnitude, squared. *)
Definition sc_power (o : sc) (sampleX subbandX : nat) : D :=
  floored_square (gsl_complex_abs (sc_residual o sampleX subbandX)).

(** A pass over part of the buffer of [o0]: it has changed [thetan_] and the
    scratch vector only, kept their shapes, and overwritten no power value
    that was already the one of [o0]. *)
Definition sc_power_rel (o0 o o' : sc) : Prop :=
  SC.set_thetan_ [] (SC.set_lag_samples_ [] o') = SC.set_thetan_ [] (SC.set_lag_samples_ [] o)
  /\ length (SC.lag_samples_ o') = length (SC.lag_samples_ o)
  /\ (forall i j, is_Some (entry (SC.thetan_ o') i j) <-> is_Some (entry (SC.thetan_ o) i j))
  /\ (forall i j, gsl_matrix_get (SC.thetan_ o) i j = sc_power o0 i j ->
                  gsl_matrix_get (SC.thetan_ o') i j = sc_power o0 i j).

Lemma sc_power_rel_refl (o0 o : sc) : sc_power_rel o0 o o.
Proof. repeat split; auto. Qed.

Lemma sc_power_rel_trans (o0 o1 o2 o3 : sc) :
  sc_power_rel o0 o1 o2 -> sc_power_rel o0 o2 o3 -> sc_power_rel o0 o1 o3.
Proof.
  intros (A1 & A2 & A3 & A4) (B1 & B2 & B3 & B4).
  split; [congruence |]. split; [congruence |]. split.
  - intros i j. rewrite B3. apply A3.
  - intros i j Hg. apply B4, A4, Hg.
Qed.

Lemma sc_calc_Thetan_at_power (o0 o : sc) (sampleX subbandX : nat)
    (frame : gsl_vector_complex D) :
  sc_power_rel o0 o0 o ->
  length (SC.lag_samples_ o0) = SC.predictionN_ o0 ->
  SC.yn_ o0 !! sampleX = Some frame ->
  sc_power_rel o0 o (SC.calc_Thetan_at sampleX frame subbandX o)
  /\ (is_Some (entry (SC.thetan_ o0) sampleX subbandX) ->
      gsl_matrix_get (SC.thetan_ (SC.calc_Thetan_at sampleX frame subbandX o))
                     sampleX subbandX
      = sc_power o0 sampleX subbandX).
Proof.
  intros (Ec & El & Hs & _) Hlag Hframe.
  assert (Ey : SC.yn_ o = SC.yn_ o0) by exact (f_equal SC.yn_ Ec).
  assert (Eg : SC.gn_ o = SC.gn_ o0) by exact (f_equal SC.gn_ Ec).
  assert (Elo : SC.lowerN_ o = SC.lowerN_ o0) by exact (f_equal SC.lowerN_ Ec).
  assert (Ep : SC.predictionN_ o = SC.predictionN_ o0) by exact (f_equal SC.predictionN_ Ec).
  assert (E : exists o1,
             SC.set_lag_samples_ [] o1 = SC.set_lag_samples_ [] o
             /\ length (SC.lag_samples_ o1) = length (SC.lag_samples_ o)
             /\ SC.calc_Thetan_at sampleX frame subbandX o
                = SC.set_thetan_ (gsl_matrix_set (SC.thetan_ o1) sampleX subbandX
                                    (sc_power o0 sampleX subbandX)) o1).
  { unfold SC.calc_Thetan_at, sc_power, sc_residual, gsl_vector_complex_get_row.
    rewrite Hframe, Elo. cbn [default from_option]. cbv zeta.
    destruct (SC.lowerN_ o0 <=? sampleX).
    - set (z := uint32 (Z.of_nat sampleX - Z.of_nat (SC.lowerN_ o0))).
      exists (SC.get_lags_ subbandX z o).
      split; [apply sc_get_lags_only_lags |].
      assert (Elen : length (SC.lag_samples_ (SC.get_lags_ subbandX z o))
                     = length (SC.lag_samples_ o)).
      { rewrite sc_get_lags_fold.
        destruct (fold_insert_spec (sc_lag o subbandX z) (SC.predictionN_ o)
                    (SC.lag_samples_ o)) as (Hl & _). exact Hl. }
      split; [exact Elen |].
      rewrite (f_equal SC.gn_ (sc_get_lags_only_lags subbandX z o)
               : SC.gn_ (SC.get_lags_ subbandX z o) = SC.gn_ o).
      rewrite sc_get_lags_exact by congruence.
      rewrite Eg. unfold sc_lags, sc_lag, SC.yn_at. rewrite Ey, Ep. reflexivity.
    - exists o. split; [reflexivity |]. split; reflexivity. }
  destruct E as (o1 & E1 & El1 & ->).
  assert (Et : SC.thetan_ o1 = SC.thetan_ o) by exact (f_equal SC.thetan_ E1).
  cbn [SC.thetan_ SC.set_thetan_ SC.lag_samples_]. rewrite Et. split; [split; [| split; [| split]] |].
  - rewrite <- E1. reflexivity.
  - exact El1.
  - intros i j. apply (entry_set_is_Some (SC.thetan_ o)).
  - intros i j Hg. apply matrix_get_set_value; [intros -> ->; reflexivity | exact Hg].
  - intros Hsome. apply matrix_get_set_same. apply Hs. exact Hsome.
Qed.

Lemma sc_theta_frame_power (o0 o : sc) (sampleX : nat) (frame : gsl_vector_complex D) :
  sc_power_rel o0 o0 o ->
  length (SC.lag_samples_ o0) = SC.predictionN_ o0 ->
  SC.yn_ o0 !! sampleX = Some frame ->
  sc_power_rel o0 o (sc_theta_frame sampleX frame o)
  /\ forall subbandX, subbandX < SC.size o0 ->
       is_Some (entry (SC.thetan_ o0) sampleX subbandX) ->
       gsl_matrix_get (SC.thetan_ (sc_theta_frame sampleX frame o)) sampleX subbandX
       = sc_power o0 sampleX subbandX.
Proof.
  intros Hrel Hlag Hframe. unfold sc_theta_frame.
  destruct (visit_fold (sc_power_rel o0)
              (fun subbandX => is_Some (entry (SC.thetan_ o0) sampleX subbandX))
              (fun subbandX o' => gsl_matrix_get (SC.thetan_ o') sampleX subbandX
                                  = sc_power o0 sampleX subbandX)
              (sc_power_rel_refl o0) (sc_power_rel_trans o0)
              (fun k s s' (R : sc_power_rel o0 s s') => proj2 (proj2 (proj2 R)) sampleX k)
              (fun subbandX o' => SC.calc_Thetan_at sampleX frame subbandX o')
              (seq 0 (SC.size o)) o0 o Hrel) as [Hr Hg].
  - intros subbandX o' Hrel'.
    apply (sc_calc_Thetan_at_power o0 o' sampleX subbandX frame Hrel' Hlag Hframe).
  - cbv zeta in Hr, Hg. split; [exact Hr |].
    intros subbandX Hs Hok. apply Hg; [| exact Hok].
    apply elem_of_seq.
    assert (Es : SC.size o = SC.size o0) by exact (f_equal SC.size (proj1 Hrel)). lia.
Qed.

(** X21. The power estimate of the single-channel feature: with the scratch
    vector of its constructed length [predictionN_], [calc_Thetan_] leaves at
    every position of [thetan_] that belongs to a buffered frame and a
    subband the square of the residual's magnitude, the magnitude being
    raised to the floor [1e-3] first. The residual is the buffered value
    itself for the frames before [lowerN_], and from frame [lowerN_] on the
    value minus the product [zdotc] of the subband's filter with the
    zero-padded lags that end [lowerN_] frames back. The entries written
    for later positions do not disturb the earlier ones. *)
Theorem power_estimate_is_floored_residual_square (o : sc) (sampleX subbandX : nat) :
  length (SC.lag_samples_ o) = SC.predictionN_ o ->
  sampleX < length (SC.yn_ o) ->
  subbandX < SC.size o ->
  is_Some (entry (SC.thetan_ o) sampleX subbandX) ->
  gsl_matrix_get (SC.thetan_ (SC.calc_Thetan_ o)) sampleX subbandX
  = floored_square (gsl_complex_abs (sc_residual o sampleX subbandX)).
Proof.
  intros Hlag Hi Hj Hsome. fold (sc_power o sampleX subbandX).
  rewrite sc_calc_Thetan_frames.
  destruct (lookup_lt_is_Some_2 (SC.yn_ o) sampleX Hi) as [frame Hframe].
  destruct (visit_fold_in (sc_power_rel o)
              (fun _ : nat * gsl_vector_complex D => True)
              (fun kx o' => forall j, j < SC.size o ->
                              is_Some (entry (SC.thetan_ o) kx.1 j) ->
                              gsl_matrix_get (SC.thetan_ o') kx.1 j = sc_power o kx.1 j)
              (fun kx o' => sc_theta_frame kx.1 kx.2 o')
              (zip (seq 0 (length (SC.yn_ o))) (SC.yn_ o)) o o
              (sc_power_rel_refl o) (sc_power_rel_trans o)
              (fun kx s s' (R : sc_power_rel o s s') G j Hj' Hs' =>
                 proj2 (proj2 (proj2 R)) kx.1 j (G j Hj' Hs'))
              (sc_power_rel_refl o o))
    as [_ Hg].
  - intros [k frame'] o' Hin Hrel. cbn [fst snd].
    assert (Hk : SC.yn_ o !! k = Some frame') by (apply zip_seq_lookup; exact Hin).
    destruct (sc_theta_frame_power o o' k frame' Hrel Hlag Hk) as [S1 S2].
    split; [exact S1 |]. intros _. exact S2.
  - cbv zeta in Hg.
    apply (Hg (sampleX, frame) (elem_of_zip_seq _ _ _ Hframe) I subbandX Hj Hsome).
Qed.

(** *** Multi-channel *)

(** The lag vector the multi-channel [get_lags_] computes: position
    [channelX * predictionN_ + lagX] holds the lag [lagX] of [channelX]. *)
Definition mc_lags (o : mc) (subbandX : nat) (sampleX : Z) : gsl_vector_complex D :=
  (fun totalX => mc_lag o subbandX sampleX (totalX / MC.predictionN_ o)
                        (totalX mod MC.predictionN_ o))
    <$> seq 0 (MC.channelsN_ o * MC.predictionN_ o).

Lemma mc_get_lags_length (o : mc) (subbandX : nat) (sampleX : Z) :
  length (MC.lag_samples_ (MC.get_lags_ subbandX sampleX o)) = length (MC.lag_samples_ o).
Proof.
  unfold MC.get_lags_.
  destruct (mc_get_lags_outer o subbandX sampleX (MC.channelsN_ o)) as (_ & _ & El & _).
  exact El.
Qed.

Lemma mc_get_lags_exact (o : mc) (subbandX : nat) (sampleX : Z) :
  length (MC.lag_samples_ o) = MC.channelsN_ o * MC.predictionN_ o ->
  MC.lag_samples_ (MC.get_lags_ subbandX sampleX o) = mc_lags o subbandX sampleX.
Proof.
  intros Hlen. unfold MC.get_lags_.
  destruct (mc_get_lags_outer o subbandX sampleX (MC.channelsN_ o)) as (_ & _ & El & Hw).
  match goal with |- MC.lag_samples_ (fst ?r) = _ => set (ot := r) in * end.
  apply list_eq. intros k. unfold mc_lags. rewrite list_lookup_fmap.
  destruct (decide (k < MC.channelsN_ o * MC.predictionN_ o)) as [Hk|Hk].
  - rewrite lookup_seq_lt by exact Hk. cbn [fmap option_fmap option_map Nat.add].
    assert (HP : MC.predictionN_ o <> 0) by (intros E; rewrite E in Hk; lia).
    pose proof (Nat.div_mod k (MC.predictionN_ o) HP) as Ek.
    pose proof (Nat.mod_upper_bound k (MC.predictionN_ o) HP) as Hm.
    rewrite <- (Hw (k / MC.predictionN_ o) (k mod MC.predictionN_ o)).
    + f_equal. lia.
    + lia.
    + exact Hm.
    + lia.
  - rewrite lookup_seq_ge by lia. apply lookup_ge_None. rewrite El. lia.
Qed.

(** The residual of channel [channelX] in the buffered brace [sampleX]. *)
Definition mc_residual (o : mc) (sampleX channelX subbandX : nat) : gsl_complex D :=
  let observation :=
    gsl_vector_complex_get_row (default [] (MC.frames_ o !! sampleX)) channelX in
  let current := gsl_vector_complex_get observation subbandX in
  if MC.lowerN_ o <=? sampleX then
    gsl_complex_sub current
      (gsl_blas_zdotc
         (gsl_vector_complex_get_row (default [] (MC.Gn_ o !! channelX)) subbandX)
         (mc_lags o subbandX (uint32 (Z.of_nat sampleX - Z.of_nat (MC.lowerN_ o)))))
  else current.

Definition mc_power (o : mc) (sampleX channelX subbandX : nat) : D :=
  floored_square (gsl_complex_abs (mc_residual o sampleX channelX subbandX)).

Definition mc_power_rel (o0 o o' : mc) : Prop :=
  MC.set_thetan_ [] (MC.set_lag_samples_ [] o') = MC.set_thetan_ [] (MC.set_lag_samples_ [] o)
  /\ length (MC.lag_samples_ o') = length (MC.lag_samples_ o)
  /\ (forall c i j, is_Some (entry (mc_theta c o') i j) <-> is_Some (entry (mc_theta c o) i j))
  /\ (forall c i j, gsl_matrix_get (mc_theta c o) i j = mc_power o0 i c j ->
                    gsl_matrix_get (mc_theta c o') i j = mc_power o0 i c j).

Lemma mc_power_rel_refl (o0 o : mc) : mc_power_rel o0 o o.
Proof. repeat split; auto. Qed.

Lemma mc_power_rel_trans (o0 o1 o2 o3 : mc) :
  mc_power_rel o0 o1 o2 -> mc_power_rel o0 o2 o3 -> mc_power_rel o0 o1 o3.
Proof.
  intros (A1 & A2 & A3 & A4) (B1 & B2 & B3 & B4).
  split; [congruence |]. split; [congruence |]. split.
  - intros c i j. rewrite B3. apply A3.
  - intros c i j Hg. apply B4, A4, Hg.
Qed.

Lemma mc_calc_Thetan_at_power (o0 o : mc) (sampleX channelX subbandX : nat)
    (brace : list (gsl_vector_complex D)) :
  mc_power_rel o0 o0 o ->
  length (MC.lag_samples_ o0) = MC.channelsN_ o0 * MC.predictionN_ o0 ->
  MC.frames_ o0 !! sampleX = Some brace ->
  mc_power_rel o0 o (MC.calc_Thetan_at sampleX brace channelX subbandX o)
  /\ (is_Some (entry (mc_theta channelX o0) sampleX subbandX) ->
      gsl_matrix_get
        (mc_theta channelX (MC.calc_Thetan_at sampleX brace channelX subbandX o))
        sampleX subbandX
      = mc_power o0 sampleX channelX subbandX).
Proof.
  intros (Ec & El & Hs & _) Hlag Hbrace.
  assert (Ef : MC.frames_ o = MC.frames_ o0) by exact (f_equal MC.frames_ Ec).
  assert (Eg : MC.Gn_ o = MC.Gn_ o0) by exact (f_equal MC.Gn_ Ec).
  assert (Elo : MC.lowerN_ o = MC.lowerN_ o0) by exact (f_equal MC.lowerN_ Ec).
  assert (Ep : MC.predictionN_ o = MC.predictionN_ o0) by exact (f_equal MC.predictionN_ Ec).
  assert (Ech : MC.channelsN_ o = MC.channelsN_ o0) by exact (f_equal MC.channelsN_ Ec).
  assert (E : exists o1,
             MC.set_lag_samples_ [] o1 = MC.set_lag_samples_ [] o
             /\ length (MC.lag_samples_ o1) = length (MC.lag_samples_ o)
             /\ MC.calc_Thetan_at sampleX brace channelX subbandX o
                = MC.set_thetan_
                    (<[channelX := gsl_matrix_set (mc_theta channelX o1) sampleX subbandX
                                     (mc_power o0 sampleX channelX subbandX)]>
                       (MC.thetan_ o1)) o1).
  { unfold MC.calc_Thetan_at, mc_power, mc_residual.
    rewrite Hbrace, Elo. cbn [default from_option]. cbv zeta.
    destruct (MC.lowerN_ o0 <=? sampleX).
    - set (z := uint32 (Z.of_nat sampleX - Z.of_nat (MC.lowerN_ o0))).
      exists (MC.get_lags_ subbandX z o).
      split; [apply mc_get_lags_only_lags |].
      split; [apply mc_get_lags_length |].
      rewrite (f_equal MC.Gn_ (mc_get_lags_only_lags subbandX z o)
               : MC.Gn_ (MC.get_lags_ subbandX z o) = MC.Gn_ o).
      rewrite mc_get_lags_exact by congruence.
      rewrite Eg. unfold mc_lags, mc_lag, MC.frames_at. rewrite Ef, Ep, Ech. reflexivity.
    - exists o. split; [reflexivity |]. split; reflexivity. }
  destruct E as (o1 & E1 & El1 & ->).
  assert (Et : forall c, mc_theta c o1 = mc_theta c o)
    by (intros c; unfold mc_theta; rewrite (f_equal MC.thetan_ E1 : MC.thetan_ o1 = _);
        reflexivity).
  assert (W : forall c', mc_theta c' (MC.set_thetan_
                (<[channelX := gsl_matrix_set (mc_theta channelX o1) sampleX subbandX
                                 (mc_power o0 sampleX channelX subbandX)]>
                   (MC.thetan_ o1)) o1)
              = if decide (channelX = c')
                then gsl_matrix_set (mc_theta channelX o) sampleX subbandX
                       (mc_power o0 sampleX channelX subbandX)
                else mc_theta c' o).
  { intros c'. rewrite mc_theta_write, !Et. reflexivity. }
  split; [split; [| split; [| split]] |].
  - rewrite <- E1. reflexivity.
  - exact El1.
  - intros c i j. rewrite W. destruct (decide (channelX = c)) as [<-|]; [| reflexivity].
    apply (entry_set_is_Some (mc_theta channelX o)).
  - intros c i j Hg. rewrite W. destruct (decide (channelX = c)) as [<-|]; [| exact Hg].
    apply matrix_get_set_value; [intros -> ->; reflexivity | exact Hg].
  - intros Hsome. rewrite W, decide_True by reflexivity.
    apply matrix_get_set_same. apply Hs. exact Hsome.
Qed.

Lemma mc_theta_channel_power (o0 o : mc) (sampleX channelX : nat)
    (brace : list (gsl_vector_complex D)) :
  mc_power_rel o0 o0 o ->
  length (MC.lag_samples_ o0) = MC.channelsN_ o0 * MC.predictionN_ o0 ->
  MC.frames_ o0 !! sampleX = Some brace ->
  mc_power_rel o0 o (mc_theta_channel sampleX brace channelX o)
  /\ forall subbandX, subbandX < MC.size o0 ->
       is_Some (entry (mc_theta channelX o0) sampleX subbandX) ->
       gsl_matrix_get (mc_theta channelX (mc_theta_channel sampleX brace channelX o))
                      sampleX subbandX
       = mc_power o0 sampleX channelX subbandX.
Proof.
  intros Hrel Hlag Hbrace. unfold mc_theta_channel.
  destruct (visit_fold (mc_power_rel o0)
              (fun subbandX => is_Some (entry (mc_theta channelX o0) sampleX subbandX))
              (fun subbandX o' => gsl_matrix_get (mc_theta channelX o') sampleX subbandX
                                  = mc_power o0 sampleX channelX subbandX)
              (mc_power_rel_refl o0) (mc_power_rel_trans o0)
              (fun k s s' (R : mc_power_rel o0 s s') =>
                 proj2 (proj2 (proj2 R)) channelX sampleX k)
              (fun subbandX o' => MC.calc_Thetan_at sampleX brace channelX subbandX o')
              (seq 0 (MC.size o)) o0 o Hrel) as [Hr Hg].
  - intros subbandX o' Hrel'.
    apply (mc_calc_Thetan_at_power o0 o' sampleX channelX subbandX brace Hrel' Hlag Hbrace).
  - cbv zeta in Hr, Hg. split; [exact Hr |].
    intros subbandX Hs Hok. apply Hg; [| exact Hok].
    apply elem_of_seq.
    assert (Es : MC.size o = MC.size o0) by exact (f_equal MC.size (proj1 Hrel)). lia.
Qed.

Lemma mc_theta_frame_power (o0 o : mc) (sampleX : nat)
    (brace : list (gsl_vector_complex D)) :
  mc_power_rel o0 o0 o ->
  length (MC.lag_samples_ o0) = MC.channelsN_ o0 * MC.predictionN_ o0 ->
  MC.frames_ o0 !! sampleX = Some brace ->
  mc_power_rel o0 o (mc_theta_frame sampleX brace o)
  /\ forall channelX subbandX,
       channelX < MC.channelsN_ o0 -> subbandX < MC.size o0 ->
       is_Some (entry (mc_theta channelX o0) sampleX subbandX) ->
       gsl_matrix_get (mc_theta channelX (mc_theta_frame sampleX brace o)) sampleX subbandX
       = mc_power o0 sampleX channelX subbandX.
Proof.
  intros Hrel Hlag Hbrace. unfold mc_theta_frame.
  destruct (visit_fold (mc_power_rel o0)
              (fun _ : nat => True)
              (fun channelX o' =>
                 forall j, j < MC.size o0 ->
                   is_Some (entry (mc_theta channelX o0) sampleX j) ->
                   gsl_matrix_get (mc_theta channelX o') sampleX j
                   = mc_power o0 sampleX channelX j)
              (mc_power_rel_refl o0) (mc_power_rel_trans o0)
              (fun c s s' (R : mc_power_rel o0 s s') G j Hj' Hs' =>
                 proj2 (proj2 (proj2 R)) c sampleX j (G j Hj' Hs'))
              (fun channelX o' => mc_theta_channel sampleX brace channelX o')
              (seq 0 (MC.channelsN_ o)) o0 o Hrel) as [Hr Hg].
  - intros channelX o' Hrel'.
    destruct (mc_theta_channel_power o0 o' sampleX channelX brace Hrel' Hlag Hbrace)
      as [S1 S2].
    split; [exact S1 |]. intros _. exact S2.
  - cbv zeta in Hr, Hg. split; [exact Hr |].
    intros channelX subbandX Hc Hs Hok. apply (Hg channelX); [| exact I | exact Hs | exact Hok].
    apply elem_of_seq.
    assert (Es : MC.channelsN_ o = MC.channelsN_ o0)
      by exact (f_equal MC.channelsN_ (proj1 Hrel)). lia.
Qed.

(** X22. The power estimate of the multi-channel object: with the scratch
    vector of its constructed length [channelsN_ * predictionN_], the
    multi-channel [calc_Thetan_] leaves in [thetan_[channelX]], at every
    position that belongs to a buffered brace and a subband, the square of
    the floored magnitude of that channel's residual. From brace [lowerN_]
    on the residual is the channel's value minus the product of the
    channel's filter [Gn_[channelX][subbandX]] with the lags of all the
    channels, laid out channel by channel. *)
Theorem joint_power_estimate_is_floored_residual_square (o : mc)
    (sampleX channelX subbandX : nat) :
  length (MC.lag_samples_ o) = MC.channelsN_ o * MC.predictionN_ o ->
  sampleX < length (MC.frames_ o) ->
  channelX < MC.channelsN_ o ->
  subbandX < MC.size o ->
  is_Some (entry (mc_theta channelX o) sampleX subbandX) ->
  gsl_matrix_get (mc_theta channelX (MC.calc_Thetan_ o)) sampleX subbandX
  = floored_square (gsl_complex_abs (mc_residual o sampleX channelX subbandX)).
Proof.
  intros Hlag Hi Hc Hj Hsome. fold (mc_power o sampleX channelX subbandX).
  rewrite mc_calc_Thetan_frames.
  destruct (lookup_lt_is_Some_2 (MC.frames_ o) sampleX Hi) as [brace Hbrace].
  destruct (visit_fold_in (mc_power_rel o)
              (fun _ : nat * list (gsl_vector_complex D) => True)
              (fun kx o' => forall c j, c < MC.channelsN_ o -> j < MC.size o ->
                              is_Some (entry (mc_theta c o) kx.1 j) ->
                              gsl_matrix_get (mc_theta c o') kx.1 j = mc_power o kx.1 c j)
              (fun kx o' => mc_theta_frame kx.1 kx.2 o')
              (zip (seq 0 (length (MC.frames_ o))) (MC.frames_ o)) o o
              (mc_power_rel_refl o) (mc_power_rel_trans o)
              (fun kx s s' (R : mc_power_rel o s s') G c j Hc' Hj' Hs' =>
                 proj2 (proj2 (proj2 R)) c kx.1 j (G c j Hc' Hj' Hs'))
              (mc_power_rel_refl o o))
    as [_ Hg].
  - intros [k brace'] o' Hin Hrel. cbn [fst snd].
    assert (Hk : MC.frames_ o !! k = Some brace') by (apply zip_seq_lookup; exact Hin).
    destruct (mc_theta_frame_power o o' k brace' Hrel Hlag Hk) as [S1 S2].
    split; [exact S1 |]. intros _. exact S2.
  - cbv zeta in Hg.
    apply (Hg (sampleX, brace) (elem_of_zip_seq _ _ _ Hbrace) I channelX subbandX Hc Hj Hsome).
Qed.

End PowerValue.

(* ------------------------------------------------------------------ *)
(** ** The further properties on concrete objects *)

(** The single-channel feature of the examples after its three frames, and
    the two-channel object likewise. *)
Definition ex_sc_drained : SC.SingleChannelWPEDereverberationFeature float :=
  (SC.next (H := float_ops) 2 (SC.next (H := float_ops) 1 ex_sc_stepped).1).1.

Definition ex_mc_drained : MC.MultiChannelWPEDereverberation float :=
  (MC.calc_every_channel_output (H := float_ops) 2
     (MC.calc_every_channel_output (H := float_ops) 1 ex_mc_stepped).1).1.

(** A feature with a gap of one frame ([lowerN = 1], [upperN = 2]),
    estimated without iteration, and after its first step. *)
Definition ex_sc_gap : SC.SingleChannelWPEDereverberationFeature float :=
  (SC.estimate_filter (H := float_ops) (H0 := failing_backend float) 0 3
     (SC.create (H := float_ops) ex_stream 1 2 0 0.25%float 0)).1.

Definition ex_sc_gap_stepped : SC.SingleChannelWPEDereverberationFeature float :=
  (SC.next (H := float_ops) 0 ex_sc_gap).1.

Definition ex_mc_gap : MC.MultiChannelWPEDereverberation float :=
  let o := MC.create (H := float_ops) 4 2 1 2 0 0.25%float 0 0.5%float
                     (gsl_vector_complex_calloc (H := float_ops) 4) in
  let o := (MC.set_input ex_stream o).1 in
  let o := (MC.set_input ex_stream o).1 in
  (MC.estimate_filter (H := float_ops) (H0 := failing_backend float) 0 3 o).1.

Section OnDoubles.
#[local] Existing Instance float_ops.

(** X1 on [ex_sc_stepped], whose window holds one frame: the lag 1 of the
    sample 0 has the index -1 and is zero. *)
Lemma sc_get_lags_zero_padded_witness :
  let o' := SC.get_lags_ 1 0 ex_sc_stepped in
  let index := int32 (0 - Z.of_nat 1) in
  SC.set_lag_samples_ [] o' = SC.set_lag_samples_ [] ex_sc_stepped
  /\ length (SC.lag_samples_ o') = length (SC.lag_samples_ ex_sc_stepped)
  /\ gsl_vector_complex_get (SC.lag_samples_ o') 1
     = (if (index <? 0)%Z then zero_
        else gsl_vector_complex_get (SC.yn_at ex_sc_stepped index) 1).
Proof.
  apply (sc_get_lags_zero_padded ex_sc_stepped 1 0%Z 1); vm_compute; lia.
Defined.

(** X2 on [ex_mc_stepped]: the lag 0 of channel 1 is at position 2. *)
Lemma mc_get_lags_channel_major_witness :
  let o' := MC.get_lags_ 1 0 ex_mc_stepped in
  let index := int32 (int32 0 - Z.of_nat 0) in
  MC.set_lag_samples_ [] o' = MC.set_lag_samples_ [] ex_mc_stepped
  /\ length (MC.lag_samples_ o') = length (MC.lag_samples_ ex_mc_stepped)
  /\ gsl_vector_complex_get (MC.lag_samples_ o') (1 * MC.predictionN_ ex_mc_stepped + 0)
     = (if (index <? 0)%Z then zero_
        else gsl_vector_complex_get (MC.frames_at ex_mc_stepped index 1) 1).
Proof.
  apply (mc_get_lags_channel_major ex_mc_stepped 1 0%Z 1 0); vm_compute; lia.
Defined.

(** X3 with the index -5 on the objects just estimated. *)
Lemma negative_index_means_next_frame_witness :
  SC.next (-5) ex_sc_estimated = SC.next (SC.frame_no_ ex_sc_estimated + 1) ex_sc_estimated
  /\ MC.calc_every_channel_output (-5) ex_mc_estimated
     = MC.calc_every_channel_output (MC.frame_no_ ex_mc_estimated + 1) ex_mc_estimated.
Proof.
  destruct (negative_index_means_next_frame ex_sc_estimated ex_mc_estimated (-5))
    as (W1 & _ & W2); [lia |].
  split; [apply W1; vm_compute; discriminate | exact W2].
Defined.

(** X4 on [ex_sc_drained]: its source is exhausted and its counter is 2. *)
Lemma end_of_stream_then_cached_output_witness :
  let o' := (SC.next 3 ex_sc_drained).1 in
  (SC.next 3 ex_sc_drained).2 = Throw jiterator_error
  /\ SC.is_end_ o' = true
  /\ SC.frame_no_ o' = 3%Z
  /\ SC.vector_ o' = SC.vector_ ex_sc_drained
  /\ SC.yn_ o' = SC.yn_ ex_sc_drained
  /\ SC.next 3 o' = (o', Return (SC.vector_ ex_sc_drained)).
Proof.
  apply (end_of_stream_then_cached_output ex_sc_drained 3 (SC.samples_ ex_sc_drained));
    vm_compute; reflexivity.
Defined.

(** X5 on [ex_mc_drained]. *)
Lemma joint_end_of_stream_refuses_retry_witness :
  let m' := (MC.calc_every_channel_output 3 ex_mc_drained).1 in
  MC.frame_no_ m' = 3%Z
  /\ MC.frames_ m' = MC.frames_ ex_mc_drained
  /\ MC.output_ m' = MC.output_ ex_mc_drained
  /\ MC.estimated_ m' = true
  /\ MC.calc_every_channel_output 3 m' = (m', Throw (jindex_error 3 3)).
Proof.
  apply (joint_end_of_stream_refuses_retry ex_mc_drained); [lia |].
  vm_compute. reflexivity.
Defined.

(** X8 on the example objects, whose band limits are 0 and 4: subband 1. *)
Lemma estimation_skips_band_between_limits_witness :
  SC.gn_ (SC.estimate_filter (H0 := failing_backend float) 0 3 ex_sc).1 !! 1 = SC.gn_ ex_sc !! 1
  /\ entry (MC.Gn_ (MC.estimate_filter (H0 := failing_backend float) 0 3 ex_mc).1) 0 1
     = entry (MC.Gn_ ex_mc) 0 1.
Proof.
  destruct (estimation_skips_band_between_limits (H0 := failing_backend float)
              ex_sc ex_mc 0 3 0 1) as [W1 W2].
  split; [apply W1 | apply W2]; vm_compute; lia.
Defined.

(** X10 on the example objects with their batch buffers filled. *)
Lemma factorised_matrix_is_lower_triangle_witness :
  let o := SC.fill_buffer_ 0 3 ex_sc in
  let R := SC.R_ (SC.load_R_ (SC.calc_Rr_ 0 o)) in
  let Rc := mc_R 1 (MC.load_R_ (MC.calc_Rr_ 0 ex_mc_pass)) in
  gsl_matrix_complex_get R 0 1 = zero_
  /\ GSL_IMAG (gsl_matrix_complex_get R 0 0) = d0
  /\ gsl_matrix_complex_get Rc 0 1 = zero_
  /\ GSL_IMAG (gsl_matrix_complex_get Rc 0 0) = d0.
Proof.
  cbv zeta.
  destruct (factorised_matrix_is_lower_triangle (SC.fill_buffer_ 0 3 ex_sc) ex_mc_pass 0 1 0 1)
    as [[W1 W2] W3].
  destruct W3 as [W3 W4]; [vm_compute; lia | vm_compute; lia |].
  split; [apply W1; lia |].
  split; [apply W2; [vm_compute; lia | vm_compute; eexists; reflexivity] |].
  split; [apply W3; lia |].
  apply W4; [vm_compute; lia | vm_compute; eexists; reflexivity].
Defined.

(** X11 on the first step of the example objects: the window was empty. *)
Lemma window_keeps_latest_frames_witness :
  SC.yn_ ex_sc_stepped
  = (if length (SC.yn_ ex_sc_estimated) <? SC.predictionN_ ex_sc_estimated
     then SC.yn_ ex_sc_estimated else drop 1 (SC.yn_ ex_sc_estimated))
    ++ [[cplx 1 0; cplx 2 1; cplx 3 0; cplx 5 7]%float]
  /\ length (SC.yn_ ex_sc_stepped) <= SC.predictionN_ ex_sc_estimated
  /\ MC.frames_ ex_mc_stepped
     = (if length (MC.frames_ ex_mc_estimated) <? MC.predictionN_ ex_mc_estimated
        then MC.frames_ ex_mc_estimated else drop 1 (MC.frames_ ex_mc_estimated))
       ++ [[[cplx 1 0; cplx 2 1; cplx 3 0; cplx 5 7];
            [cplx 1 0; cplx 2 1; cplx 3 0; cplx 5 7]]%float]
  /\ length (MC.frames_ ex_mc_stepped) <= MC.predictionN_ ex_mc_estimated.
Proof.
  destruct (window_keeps_latest_frames
              ex_sc_estimated ex_sc_stepped ex_mc_estimated ex_mc_stepped 0
              ex_sc_out0 (MC.output_ ex_mc_stepped)
              (stream_next (SC.samples_ ex_sc_estimated)).1
              [cplx 1 0; cplx 2 1; cplx 3 0; cplx 5 7]%float
              (MC.pull_brace (seq 0 2) (replicate 2 []) (MC.increment_ ex_mc_estimated)).1
              [[cplx 1 0; cplx 2 1; cplx 3 0; cplx 5 7];
               [cplx 1 0; cplx 2 1; cplx 3 0; cplx 5 7]]%float) as [W1 W2].
  destruct W1 as [A B]; [vm_compute; lia | vm_compute; reflexivity | vm_compute; lia
                        | vm_compute; reflexivity | vm_compute; discriminate
                        | vm_compute; reflexivity |].
  destruct W2 as [C E]; [vm_compute; lia | vm_compute; reflexivity | vm_compute; lia
                        | vm_compute; reflexivity | vm_compute; reflexivity |].
  split; [exact A |]. split; [exact B |]. split; [exact C | exact E].
Defined.

(** X12 on the objects with a gap of one frame: their first step leaves the
    counter at 0, below [lowerN_ = 1], and subband 0, which the band limits
    would have filtered, passes through. *)
Lemma frames_before_lowerN_pass_through_witness :
  gsl_vector_complex_get (SC.vector_ ex_sc_gap_stepped) 0 = cplx 1 0
  /\ gsl_vector_complex_get
       (gsl_vector_complex_get_row
          (MC.output_ (MC.calc_every_channel_output 0 ex_mc_gap).1) 1) 0
     = cplx 1 0.
Proof.
  split.
  - apply (proj1 frames_before_lowerN_pass_through
                 ex_sc_gap ex_sc_gap_stepped 0%Z (SC.vector_ ex_sc_gap_stepped)
                 (stream_next (SC.samples_ ex_sc_gap)).1
                 [cplx 1 0; cplx 2 1; cplx 3 0; cplx 5 7]%float 0).
    + vm_compute. reflexivity.
    + vm_compute. discriminate.
    + vm_compute. reflexivity.
    + vm_compute. reflexivity.
    + vm_compute. split; [discriminate | reflexivity].
    + vm_compute. reflexivity.
    + vm_compute. lia.
    + vm_compute. lia.
  - apply (proj2 frames_before_lowerN_pass_through
                 ex_mc_gap (MC.calc_every_channel_output 0 ex_mc_gap).1 0%Z
                 (MC.output_ (MC.calc_every_channel_output 0 ex_mc_gap).1) 1
                 ex_stream (stream_next ex_stream).1
                 [cplx 1 0; cplx 2 1; cplx 3 0; cplx 5 7]%float 0).
    + vm_compute. reflexivity.
    + split; [vm_compute; reflexivity |].
      intros c Hc. destruct c as [|[|c]]; [vm_compute; reflexivity ..|].
      vm_compute in Hc. lia.
    + vm_compute. lia.
    + vm_compute. reflexivity.
    + vm_compute. reflexivity.
    + vm_compute. split; [discriminate | reflexivity].
    + vm_compute. reflexivity.
    + vm_compute. lia.
    + vm_compute. lia.
Defined.

(** X13 on [ex_sc_gap_stepped], whose window holds one frame while
    [lowerN_] is 1: the sample index wraps around and the lag 0 is zero. *)
Lemma streaming_lags_zero_outside_window_witness :
  let L := length (SC.yn_ ex_sc_gap_stepped) in
  let o' := SC.get_lags_ 0
              (uint32 (Z.of_nat L - 1 - Z.of_nat (SC.lowerN_ ex_sc_gap_stepped)))
              ex_sc_gap_stepped in
  gsl_vector_complex_get (SC.lag_samples_ o') 0
  = (if SC.lowerN_ ex_sc_gap_stepped + 0 <? L
     then gsl_vector_complex_get
            (gsl_vector_complex_get_row (SC.yn_ ex_sc_gap_stepped)
               (L - 1 - SC.lowerN_ ex_sc_gap_stepped - 0)) 0
     else zero_)
  /\ (L <= SC.predictionN_ ex_sc_gap_stepped ->
      SC.predictionN_ ex_sc_gap_stepped <= SC.lowerN_ ex_sc_gap_stepped + 0 ->
      gsl_vector_complex_get (SC.lag_samples_ o') 0 = zero_).
Proof.
  apply (streaming_lags_zero_outside_window ex_sc_gap_stepped 0 0);
    vm_compute; first [lia | reflexivity].
Defined.

(** X14 on the two views of [ex_mc_estimated], with the index 0. *)
Lemma views_share_one_joint_step_witness :
  MCF.next 0 ex_view0 ex_mc_estimated
  = (MCF.increment_ ex_view0, ex_mc_stepped,
     Return (gsl_vector_complex_get_row (MC.output_ ex_mc_stepped) 0))
  /\ MCF.next 0 ex_view1 ex_mc_stepped
     = (MCF.increment_ ex_view1, ex_mc_stepped,
        Return (gsl_vector_complex_get_row (MC.output_ ex_mc_stepped)
                  (MCF.channelX_ ex_view1))).
Proof.
  assert (E : MCF.next 0 ex_view0 ex_mc_estimated
              = (MCF.increment_ ex_view0, ex_mc_stepped,
                 Return (gsl_vector_complex_get_row (MC.output_ ex_mc_stepped) 0)))
    by (vm_compute; reflexivity).
  split; [exact E |].
  apply (views_share_one_joint_step ex_mc_estimated ex_mc_stepped
           ex_view0 (MCF.increment_ ex_view0) ex_view1 0 _
           ltac:(reflexivity) ltac:(vm_compute; discriminate) ltac:(vm_compute; lia)
           ltac:(right; reflexivity) E).
Defined.

(** X15: two sources on a fresh two-channel object, then a third. *)
Lemma set_input_fills_channels_then_refuses_witness :
  let o := MC.create 4 2 0 1 0 0.25%float 0 0.5%float (gsl_vector_complex_calloc 4) in
  MC.sources_ (set_inputs [ex_stream; ex_stream] o) = [ex_stream; ex_stream]
  /\ MC.set_sources_ [] (set_inputs [ex_stream; ex_stream] o) = MC.set_sources_ [] o
  /\ MC.set_input ex_stream (set_inputs [ex_stream; ex_stream] o)
     = (set_inputs [ex_stream; ex_stream] o, Throw jallocation_error).
Proof.
  cbv zeta.
  destruct (set_input_fills_channels_then_refuses
              (MC.create 4 2 0 1 0 0.25%float 0 0.5%float (gsl_vector_complex_calloc 4))
              [ex_stream; ex_stream] ex_stream) as (W1 & W2 & W3 & _);
    [reflexivity | cbn; lia |].
  split; [exact W1 |]. split; [exact W2 |]. apply W3. reflexivity.
Defined.

(** X17: [ex_sc_stepped] is reached from [ex_sc_estimated] by one step. *)
Lemma reset_returns_to_start_of_stream_witness :
  sc_config (SC.reset ex_sc_stepped) = sc_config ex_sc_estimated.
Proof.
  apply (reset_returns_to_start_of_stream ex_sc_estimated ex_sc_stepped);
    try (vm_compute; reflexivity).
  exact (sc_after_next ex_sc_estimated ex_sc_estimated 0 (sc_after_none ex_sc_estimated)).
Defined.

(** X18 with the band width 0.0 on the source of the examples. *)
Lemma zero_band_width_selects_every_subband_witness :
  (exists o, sc_construct (H0 := float_conv) ex_stream 0 1 0 0.25%float 0%float 16000%float
             = inl o
             /\ SC.lower_bandWidthN_ o = SC.size o / 2
             /\ SC.upper_bandWidthN_ o = SC.size o - SC.size o / 2
             /\ forall s, (SC.lower_bandWidthN_ o <? s) && (s <? SC.upper_bandWidthN_ o) = false)
  /\ (exists m, mc_construct (H0 := float_conv) 4 2 0 1 0 0.25%float 0%float 0.5%float
                              16000%float (gsl_vector_complex_calloc 4) = inl m
                 /\ MC.lower_bandWidthN_ m = MC.size m / 2
                 /\ MC.upper_bandWidthN_ m = MC.size m - MC.size m / 2
                 /\ forall s, (MC.lower_bandWidthN_ m <? s) && (s <? MC.upper_bandWidthN_ m)
                              = false).
Proof.
  destruct (zero_band_width_selects_every_subband (H0 := float_conv)
              ex_stream 4 2 0 1 0 0.25%float 0%float 0.5%float 16000%float
              (gsl_vector_complex_calloc 4)) as [W _];
    [vm_compute; reflexivity | vm_compute; reflexivity |].
  apply W. vm_compute. reflexivity.
Defined.

(** X20 on [ex_mc], whose two sources hold three frames each:
    [fill_buffer_(1, 3)] buffers two braces. *)
Lemma joint_fill_buffer_appends_next_braces_witness :
  let n := Z.to_nat (3 - 1) in
  let o' := MC.fill_buffer_ 1 3 ex_mc in
  MC.frames_ o'
  = MC.frames_ ex_mc
    ++ ((fun k => brace_at (MC.sources_ ex_mc) (MC.channelsN_ ex_mc) k) <$> seq 0 n)
  /\ MC.framesN_ o' = length (MC.frames_ ex_mc) + n
  /\ sources_advanced (MC.channelsN_ ex_mc) n (MC.sources_ ex_mc) (MC.sources_ o').
Proof.
  apply (joint_fill_buffer_appends_next_braces ex_mc 1 3); [lia | vm_compute; lia |].
  intros c s Hc Hs. destruct c as [|[|c]].
  - vm_compute in Hs. injection Hs as <-. vm_compute. lia.
  - vm_compute in Hs. injection Hs as <-. vm_compute. lia.
  - vm_compute in Hc. lia.
Defined.

(** X21 on [ex_sc] with its three frames buffered, at the frame 1. *)
Lemma power_estimate_is_floored_residual_square_witness :
  let o := SC.fill_buffer_ 0 3 ex_sc in
  gsl_matrix_get (SC.thetan_ (SC.calc_Thetan_ o)) 1 0
  = floored_square (gsl_complex_abs (sc_residual o 1 0)).
Proof.
  apply (power_estimate_is_floored_residual_square (SC.fill_buffer_ 0 3 ex_sc) 1 0);
    [reflexivity | vm_compute; lia | vm_compute; lia | vm_compute; eexists; reflexivity].
Defined.

(** X22 on [ex_mc] with its three braces buffered, for the channel 1. *)
Lemma joint_power_estimate_is_floored_residual_square_witness :
  let o := MC.fill_buffer_ 0 3 ex_mc in
  gsl_matrix_get (mc_theta 1 (MC.calc_Thetan_ o)) 1 0
  = floored_square (gsl_complex_abs (mc_residual o 1 1 0)).
Proof.
  apply (joint_power_estimate_is_floored_residual_square (MC.fill_buffer_ 0 3 ex_mc) 1 1 0);
    [reflexivity | vm_compute; lia | vm_compute; lia | vm_compute; lia
    | vm_compute; eexists; reflexivity].
Defined.

End OnDoubles.

(** Features that have been estimated and hold a predictor that is not
    zero, over doubles and over the real numbers. *)
Definition ex_sc_filtering : SC.SingleChannelWPEDereverberationFeature float :=
  SC.set_gn_ (replicate 4 [cplx 1 2; cplx 0 1]%float) ex_sc_estimated.

Definition exR_sc_filtering : SC.SingleChannelWPEDereverberationFeature R :=
  SC.set_gn_ (replicate 4 [rcplx 1 2; rcplx 0 1]%R)
    (SC.estimate_filter (H := R_ops) (H0 := failing_backend R) 0 3 exR_sc).1.

(** X16 on these features. Over doubles the predictor is cleared and the
    flag kept. Over the reals, moreover, the first step after
    [next_speaker] returns a vector, and at subband 1 it holds the sample
    [2 + i] of the first frame of the source. *)
Lemma next_speaker_streams_unfiltered_witness :
  (let f1 := SC.next_speaker (H := float_ops) ex_sc_filtering in
   ~ sc_zero_predictor (H := float_ops) ex_sc_filtering
   /\ sc_zero_predictor (H := float_ops) f1
   /\ SC.estimated_ f1 = true
   /\ SC.frame_no_ f1 = (-1)%Z
   /\ SC.yn_ f1 = []
   /\ SC.samples_ f1 = stream_reset (SC.samples_ ex_sc_filtering))
  /\ (let o1 := SC.next_speaker (H := R_ops) exR_sc_filtering in
      sc_zero_predictor (H := R_ops) o1
      /\ SC.estimated_ o1 = true
      /\ SC.frame_no_ o1 = (-1)%Z
      /\ exists o3 v,
           SC.next (H := R_ops) 0 o1 = (o3, Return v)
           /\ gsl_vector_complex_get (H := R_ops) v 1 = rcplx 2 1).
Proof.
  split.
  - cbv zeta.
    destruct (@next_speaker_streams_unfiltered float float_ops ex_sc_filtering)
      as (F1 & F2 & F3 & F4 & F5 & _); [vm_compute; lia | reflexivity |].
    split.
    { intros Hz. apply Forall_cons in Hz as [Hz _]. apply Forall_cons in Hz as [Hz _].
      vm_compute in Hz. discriminate Hz. }
    split; [exact F1 |]. split; [rewrite F2; reflexivity |].
    split; [exact F3 |]. split; [exact F4 | exact F5].
  - cbv zeta.
    destruct (@next_speaker_streams_unfiltered R R_ops exR_sc_filtering)
      as (W1 & W2 & W3 & _ & _ & W6); [vm_compute; lia | reflexivity |].
    split; [exact W1 |]. split; [rewrite W2; reflexivity |]. split; [exact W3 |].
    destruct (SC.next (H := R_ops) 0 (SC.next_speaker (H := R_ops) exR_sc_filtering))
      as [o3 [v|e]] eqn:Hnext.
    + exists o3, v. split; [reflexivity |].
      apply (W6 R_exact _ (sc_after_none _) 0%Z o3 v
               (stream_advance 1 (stream_reset exR_stream))
               [rcplx 1 0; rcplx 2 1; rcplx 3 0; rcplx 5 7]%R 1 Hnext).
      * rewrite W3. discriminate.
      * reflexivity.
      * vm_compute. lia.
      * vm_compute. lia.
    + exfalso. vm_compute in Hnext. discriminate Hnext.
Defined.

(** X19 for four subbands, the band width 1 and the sample rate 4. *)
Lemma band_limits_are_symmetric_witness :
  exists lower,
    set_band_width_ (H := R_ops) (H0 := R_conv) 4 1%R 4%R = BandWidth lower
    /\ lower <= 4 / 2
    /\ u32 (Z.of_nat 4 - Z.of_nat lower) = 4 - lower
    /\ lower <= 4 - lower
    /\ ((lower <? 1) && (1 <? 4 - lower) = (lower <? 4 - 1) && (4 - 1 <? 4 - lower)).
Proof.
  apply (band_limits_are_symmetric 4 1%R 4%R 1); [lra | reflexivity | lia].
Defined.
